(** * SkyBall / Quidditch simulation engine: a shallow embedding

    The repository holds two parallel implementations of the same game:
    - the engine-independent scaffold [src/game.ts] (functions [tick],
      [resolveInteractions], [onPlayerJoin], [onPlayerLeave],
      [onPlayerInput], ...), embedded in module [Game];
    - the HYTOPIA server [index.ts] ([gameLoop], [checkGoalScoring],
      [checkBludgerHits], [checkSnitchCapture], [handlePlayerInteract],
      ...), embedded in module [Server].

    JavaScript numbers are IEEE-754 binary64 values; they are embedded as
    Rocq's primitive binary64 floats, so [+], [-], [*], [/], [<] and
    [Math.sqrt] are the operations the program runs.  The three library
    functions the standard leaves implementation-approximated
    ([Math.hypot], [Math.sin], [Math.cos]) are a parameter, the class
    [MathLib]. *)

From Stdlib Require Import Floats ZArith.
From Stdlib Require Import Bool Ascii String.
From stdpp Require Import base list.
From Stdlib Require Import Lia.

Set Warnings "-inexact-float".

(** ** JavaScript primitives *)

Module Js.

Local Open Scope float_scope.

(** [ToBoolean] on a number: [0], [-0] and [NaN] are falsy. *)
Definition truthy_num (a : float) : bool :=
  negb ((a =? 0) || is_nan a).

(** [a || b] on numbers. *)
Definition or_num (a b : float) : float :=
  if truthy_num a then a else b.

(** [ToBoolean] on an optional string ([undefined] and the empty string are
    falsy). *)
Definition truthy_str (o : option string) : bool :=
  match o with
  | Some s => negb (String.eqb s "")
  | None => false
  end.

(** [a === o] for a string [a] and an optional string [o]. *)
Definition str_eq_opt (a : string) (o : option string) : bool :=
  match o with
  | Some s => String.eqb a s
  | None => false
  end.

(** [Math.max(a, b)]: [NaN] if either is [NaN], [+0] above [-0]. *)
Definition max (a b : float) : float :=
  if is_nan a then a
  else if is_nan b then b
  else if a <? b then b
  else if b <? a then a
  else if is_zero a && is_zero b then (if get_sign a then b else a)
  else a.

(** A number is finite when it is neither [NaN] nor an infinity. *)
Definition finite (a : float) : bool :=
  negb (is_nan a) && negb (is_infinity a).

(** The same, of a number as the binary64 specification presents it. *)
Definition SFfinite (r : spec_float) : Prop :=
  match r with
  | S754_zero _ | S754_finite _ _ _ => True
  | _ => False
  end.

(** [Math.min(a, b)]: [NaN] if either is [NaN], [-0] below [+0]. *)
Definition min (a b : float) : float :=
  if is_nan a then a
  else if is_nan b then b
  else if a <? b then a
  else if b <? a then b
  else if is_zero a && is_zero b then (if get_sign a then a else b)
  else a.

(** [s.split(sep)] for a one-character separator. *)
Fixpoint split (sep : Ascii.ascii) (s : string) : list string :=
  match s with
  | EmptyString => [EmptyString]
  | String c s' =>
      if Ascii.eqb c sep then EmptyString :: split sep s'
      else match split sep s' with
           | h :: t => String c h :: t
           | [] => [String c EmptyString]
           end
  end.

End Js.

(** The part of the [Math] object whose results the language standard leaves
    to the implementation. *)
Class MathLib := {
  hypot : float -> float -> float -> float;
  hypot2 : float -> float -> float;
  sin : float -> float;
  cos : float -> float
}.

(** A reference instance, used to run the model on concrete inputs:
    [hypot] is the square root of the sum of squares, and the two
    trigonometric functions are their second-order Taylor polynomials. *)
Definition refMath : MathLib := {|
  hypot := fun a b c => sqrt (a * a + b * b + c * c)%float;
  hypot2 := fun a b => sqrt (a * a + b * b)%float;
  sin := fun t => (t - t * t * t / 6)%float;
  cos := fun t => (1 - t * t / 2)%float
|}.

(** [Number(s)], the conversion of a string to a number, is the host's. *)
Class TextLib := {
  Number : string -> float
}.

(** A reference instance, used to run the model on concrete inputs: an
    optional minus sign and decimal digits, anything else being [NaN]. *)
Definition digit (c : Ascii.ascii) : option float :=
  let n := Ascii.nat_of_ascii c in
  if ((48 <=? n) && (n <=? 57))%nat
  then Some (nth (n - 48) [0; 1; 2; 3; 4; 5; 6; 7; 8; 9]%float nan)
  else None.

Fixpoint digits (s : string) (acc : float) : float :=
  match s with
  | EmptyString => acc
  | String c s' =>
      match digit c with
      | Some d => digits s' (acc * 10 + d)%float
      | None => nan
      end
  end.

Definition refText : TextLib := {|
  Number := fun s =>
    match s with
    | String "-" s' => (- digits s' 0)%float
    | _ => digits s 0%float
    end
|}.

(** ** Containers *)

(** [Array.prototype.find], returning the position of the element found:
    the element is an object, later mutated through that reference. *)
Fixpoint find_index {A} (f : A -> bool) (l : list A) : option nat :=
  match l with
  | [] => None
  | a :: l' => if f a then Some 0 else option_map S (find_index f l')
  end.

(** A JavaScript [Map] iterates in insertion order: an association list. *)
Abbreviation jsmap V := (list (string * V)).

Definition map_get {V} (m : jsmap V) (k : string) : option V :=
  option_map snd (List.find (fun e => String.eqb (fst e) k) m).

Definition map_index {V} (m : jsmap V) (k : string) : option nat :=
  find_index (fun e => String.eqb (fst e) k) m.

(** [Map.prototype.set]: an existing key keeps its place. *)
Fixpoint map_set {V} (m : jsmap V) (k : string) (v : V) : jsmap V :=
  match m with
  | [] => [(k, v)]
  | (k', v') :: m' =>
      if String.eqb k' k then (k, v) :: m' else (k', v') :: map_set m' k v
  end.

(** [Map.prototype.delete]. *)
Fixpoint map_delete {V} (m : jsmap V) (k : string) : jsmap V :=
  match m with
  | [] => []
  | (k', v') :: m' =>
      if String.eqb k' k then m' else (k', v') :: map_delete m' k
  end.

(** [for (const i of 0 .. n-1) body(i)] over a threaded state. *)
Definition for_index {S} (n : nat) (body : nat -> S -> S) (s : S) : S :=
  fold_left (fun s i => body i s) (seq 0 n) s.

(** A loop whose body may [break]: the body returns [true] to leave. *)
Fixpoint for_break {A S} (l : list A) (body : A -> S -> S * bool) (s : S) : S :=
  match l with
  | [] => s
  | a :: l' =>
      let '(s', brk) := body a s in
      if brk then s' else for_break l' body s'
  end.

(** ** The scaffold engine, [src/game.ts] *)

Module Game.

Local Open Scope float_scope.

(** *** Types *)

Record Vec3 := mkVec3 { x : float; y : float; z : float }.

Definition EntityId := string.

Record Team := mkTeam {
  t_id : string;
  t_name : string;
  t_color : string;
  t_spawn : Vec3;
  t_score : float
}.

Inductive BallKind := quaffle | bludger | snitch.

Definition kind_eqb (a b : BallKind) : bool :=
  match a, b with
  | quaffle, quaffle | bludger, bludger | snitch, snitch => true
  | _, _ => false
  end.

Record Ball := mkBall {
  b_id : EntityId;
  b_kind : BallKind;
  b_pos : Vec3;
  b_vel : Vec3;
  b_owner : option EntityId
}.

Record GoalZone := mkGoal {
  g_center : Vec3;
  g_radius : float;
  g_teamId : option string
}.

Record PlayerState := mkPlayer {
  p_id : EntityId;
  p_name : string;
  p_teamId : string;
  p_pos : Vec3;
  p_vel : Vec3;
  p_mounted : bool;
  p_stamina : float;
  p_stunnedUntil : float;
  p_carrying : option EntityId
}.

(** The intent object passed to [onPlayerInput]. *)
Record Input := mkInput {
  move : Vec3;
  ascend : bool;
  descend : bool;
  interact : bool;
  beaterSwing : bool;
  throwDir : option Vec3
}.

(** What [uiBroadcast] prints, kept structured: the text is a template
    filled with these values. *)
Inductive UiText :=
| TxtScored (team : string)
| TxtSnitch (team : string)
| TxtJoined (player team : string)
| TxtHud (final : bool) (table : list (string * float)).

(** *** Config *)

Record PhysicsCfg := mkPhysics {
  maxSpeed : float;
  accel : float;
  lift : float;
  gravity : float;
  drag : float;
  bludgerKnockback : float;
  stunMs : float
}.

Definition Physics : PhysicsCfg := {|
  maxSpeed := 22;
  accel := 45;
  lift := 30;
  gravity := 16;
  drag := 0.08;
  bludgerKnockback := 28;
  stunMs := 800
|}.

Definition SCORE_QUAFFLE : float := 10.
Definition SCORE_SNITCH : float := 150.

(** *** World state

    The module-level variables [players], [teams], [goals], [balls] and
    [bounds], together with the text printed so far (most recent first). *)

Record World := mkWorld {
  players : jsmap PlayerState;
  teams : list Team;
  goals : list GoalZone;
  balls : list Ball;
  bounds : Vec3 * Vec3;
  ui : list UiText
}.

Definition set_players (f : jsmap PlayerState -> jsmap PlayerState) (w : World) : World :=
  mkWorld (f (players w)) (teams w) (goals w) (balls w) (bounds w) (ui w).

Definition set_teams (f : list Team -> list Team) (w : World) : World :=
  mkWorld (players w) (f (teams w)) (goals w) (balls w) (bounds w) (ui w).

Definition set_balls (f : list Ball -> list Ball) (w : World) : World :=
  mkWorld (players w) (teams w) (goals w) (f (balls w)) (bounds w) (ui w).

(** Mutation of the object at a position of [players], [teams], [balls]. *)
Definition with_player (i : nat) (f : PlayerState -> PlayerState) : World -> World :=
  set_players (alter (fun e => (fst e, f (snd e))) i).

Definition with_team (i : nat) (f : Team -> Team) : World -> World :=
  set_teams (alter f i).

Definition with_ball (i : nat) (f : Ball -> Ball) : World -> World :=
  set_balls (alter f i).

Definition player_at (w : World) (i : nat) : option PlayerState :=
  option_map snd (players w !! i).

Definition uiBroadcast (t : UiText) (w : World) : World :=
  mkWorld (players w) (teams w) (goals w) (balls w) (bounds w) (t :: ui w).

Definition broadcastHUD (final : bool) (w : World) : World :=
  uiBroadcast (TxtHud final (map (fun t => (t_name t, t_score t)) (teams w))) w.

Definition announce (msg : UiText) (w : World) : World := uiBroadcast msg w.

(** Field assignments. *)
Definition p_set_pos (v : Vec3) (p : PlayerState) : PlayerState :=
  mkPlayer (p_id p) (p_name p) (p_teamId p) v (p_vel p) (p_mounted p)
    (p_stamina p) (p_stunnedUntil p) (p_carrying p).

Definition p_set_vel (v : Vec3) (p : PlayerState) : PlayerState :=
  mkPlayer (p_id p) (p_name p) (p_teamId p) (p_pos p) v (p_mounted p)
    (p_stamina p) (p_stunnedUntil p) (p_carrying p).

Definition p_set_stunnedUntil (t : float) (p : PlayerState) : PlayerState :=
  mkPlayer (p_id p) (p_name p) (p_teamId p) (p_pos p) (p_vel p) (p_mounted p)
    (p_stamina p) t (p_carrying p).

Definition p_set_carrying (c : option EntityId) (p : PlayerState) : PlayerState :=
  mkPlayer (p_id p) (p_name p) (p_teamId p) (p_pos p) (p_vel p) (p_mounted p)
    (p_stamina p) (p_stunnedUntil p) c.

Definition b_set_pos (v : Vec3) (b : Ball) : Ball :=
  mkBall (b_id b) (b_kind b) v (b_vel b) (b_owner b).

Definition b_set_vel (v : Vec3) (b : Ball) : Ball :=
  mkBall (b_id b) (b_kind b) (b_pos b) v (b_owner b).

Definition b_set_owner (o : option EntityId) (b : Ball) : Ball :=
  mkBall (b_id b) (b_kind b) (b_pos b) (b_vel b) o.

Definition t_add_score (d : float) (t : Team) : Team :=
  mkTeam (t_id t) (t_name t) (t_color t) (t_spawn t) (t_score t + d).

Definition zero3 : Vec3 := mkVec3 0 0 0.

Section Engine.

Context {M : MathLib}.

(** *** Math helpers *)

Definition sub (a b : Vec3) : Vec3 :=
  mkVec3 (x a - x b) (y a - y b) (z a - z b).

Definition dist (a b : Vec3) : float :=
  hypot (x a - x b) (y a - y b) (z a - z b).

Definition len (a : Vec3) : float := hypot (x a) (y a) (z a).

(** [const L = len(a) || 1]. *)
Definition norm_divisor (a : Vec3) : float := Js.or_num (len a) 1.

Definition norm (a : Vec3) : Vec3 :=
  let L := norm_divisor a in
  mkVec3 (x a / L) (y a / L) (z a / L).

Definition clampVec (a : Vec3) (m : float) : Vec3 :=
  let L := len a in
  if m <? L then mkVec3 (x a * m / L) (y a * m / L) (z a * m / L) else a.

(** *** Arena helpers *)

Definition midAir (b : Vec3 * Vec3) (h : float) : Vec3 :=
  mkVec3 ((x (fst b) + x (snd b)) / 2)
         (y (fst b) + 60 + h)
         ((z (fst b) + z (snd b)) / 2).

Definition makeDefaultTeams (b : Vec3 * Vec3) : list Team :=
  let cx := (x (fst b) + x (snd b)) / 2 in
  let cz := (z (fst b) + z (snd b)) / 2 in
  let y0 := y (fst b) + 60 in
  [ mkTeam "gry" "Gryffindor" "#B31B1B" (mkVec3 (cx - 35) y0 cz) 0;
    mkTeam "sly" "Slytherin" "#2E7D32" (mkVec3 (cx + 35) y0 cz) 0;
    mkTeam "rav" "Ravenclaw" "#0D47A1" (mkVec3 cx y0 (cz - 35)) 0;
    mkTeam "huf" "Hufflepuff" "#FBC02D" (mkVec3 cx y0 (cz + 35)) 0 ].

(** [makeBall]; the random suffix of the identifier is the argument. *)
Definition makeBall (suffix : string) (kind : BallKind) (pos : Vec3) : Ball :=
  let k := match kind with
           | quaffle => "quaffle" | bludger => "bludger" | snitch => "snitch"
           end%string in
  mkBall (String.append "ball_" (String.append k (String.append "_" suffix)))
         kind pos zero3 None.

(** *** Utility *)

Definition teamById (w : World) (id : string) : option nat :=
  find_index (fun t => String.eqb (t_id t) id) (teams w).

(** [nearestPlayer]: [bd] starts at [Infinity] ([None] until a player is
    kept); the strict [<] keeps the first of equally near players. *)
Definition nearestPlayer (w : World) (pos : Vec3) : option PlayerState :=
  fst (fold_left
         (fun (acc : option PlayerState * float) (e : string * PlayerState) =>
            let d := dist pos (p_pos (snd e)) in
            if d <? snd acc then (Some (snd e), d) else acc)
         (players w) (None, infinity)).

(** [nearestBallOfKind], as the position of the ball found. *)
Definition nearestBallOfKind (w : World) (pos : Vec3) (kind : BallKind) : option nat :=
  fst (fold_left
         (fun (acc : option nat * float) (ib : nat * Ball) =>
            if negb (kind_eqb (b_kind (snd ib)) kind) then acc
            else
              let d := dist pos (b_pos (snd ib)) in
              if d <? snd acc then (Some (fst ib), d) else acc)
         (imap (fun i b => (i, b)) (balls w)) (None, infinity)).

(** [autoAssignTeam].  [counts] is the [Map] from team id to the number of
    players (a natural number, exact as a double); [best] starts at
    [Infinity], here [None].  The result is [undefined] ([None]) when
    [teams] is empty. *)
Definition teamCounts (w : World) : jsmap nat :=
  let counts := fold_left (fun c t => map_set c (t_id t) 0%nat) (teams w) [] in
  fold_left
    (fun c (e : string * PlayerState) =>
       map_set c (p_teamId (snd e))
               (default 0%nat (map_get c (p_teamId (snd e))) + 1)%nat)
    (players w) counts.

Definition autoAssignTeam (w : World) : option Team :=
  let counts := teamCounts w in
  fst (fold_left
         (fun (acc : option Team * option nat) t =>
            match map_get counts (t_id t) with
            | Some c =>
                let less := match snd acc with
                            | None => true
                            | Some best => (c <? best)%nat
                            end in
                if less then (Some t, Some c) else acc
            | None => acc
            end)
         (teams w) (head (teams w), None)).

(** *** Game loop *)

Definition integrateBall (dt : float) (b : Ball) : Ball :=
  let vy := y (b_vel b) - gravity Physics * dt in
  let vx := x (b_vel b) * (1 - drag Physics) in
  let vy := vy * (1 - drag Physics) in
  let vz := z (b_vel b) * (1 - drag Physics) in
  mkBall (b_id b) (b_kind b)
         (mkVec3 (x (b_pos b) + vx * dt) (y (b_pos b) + vy * dt)
                 (z (b_pos b) + vz * dt))
         (mkVec3 vx vy vz) (b_owner b).

Definition bludgerSeek (w : World) (dt : float) (b : Ball) : Ball :=
  match nearestPlayer w (b_pos b) with
  | None => b
  | Some target =>
      let dir := norm (sub (p_pos target) (b_pos b)) in
      let speed := 12 in
      b_set_vel (mkVec3 (x (b_vel b) + x dir * speed * dt)
                        (y (b_vel b) + y dir * speed * dt)
                        (z (b_vel b) + z dir * speed * dt)) b
  end.

Definition snitchErratic (nowMs dt : float) (b : Ball) : Ball :=
  let t := nowMs / 1000 in
  b_set_vel (mkVec3 (x (b_vel b) + sin (t * 5) * 3 * dt)
                    (y (b_vel b) + cos (t * 7) * 4 * dt)
                    (z (b_vel b) + sin (t * 6) * 3 * dt)) b.

(** The body of the first loop of [tick], for the ball at position [i]. *)
Definition updateBall (dt nowMs : float) (i : nat) (w : World) : World :=
  match balls w !! i with
  | None => w
  | Some b =>
      if Js.truthy_str (b_owner b) then w (* carried: [continue] *)
      else
        let w := with_ball i (integrateBall dt) w in
        let w := if kind_eqb (b_kind b) bludger
                 then with_ball i (bludgerSeek w dt) w else w in
        if kind_eqb (b_kind b) snitch
        then with_ball i (snitchErratic nowMs dt) w else w
  end.

Definition updatePlayerPhysics (w : World) (dt : float) (p : PlayerState) : PlayerState :=
  let floorY := y (fst (bounds w)) + 40 in
  if y (p_pos p) <? floorY then
    p_set_vel (mkVec3 (x (p_vel p)) (Js.max 0 (y (p_vel p))) (z (p_vel p)))
      (p_set_pos (mkVec3 (x (p_pos p)) floorY (z (p_pos p))) p)
  else p.

(** *** Interactions *)

Definition endRound (w : World) : World := broadcastHUD true w.

(** The body of [for (const g of goals)] in the scoring loop: [pi] is the
    carrier, [bi] the ball found for its [carrying] reference. *)
Definition scoreAtGoal (pi bi : nat) (g : GoalZone) (w : World) : World :=
  match player_at w pi with
  | None => w
  | Some p =>
      if dist (p_pos p) (g_center g) <? g_radius g then
        match teamById w (p_teamId p) with
        | None => w
        | Some ti =>
            let name := default ""%string (t_name <$> teams w !! ti) in
            let w := with_team ti (t_add_score SCORE_QUAFFLE) w in
            let w := announce (TxtScored name) w in
            let w := with_ball bi
                       (fun b => mkBall (b_id b) (b_kind b)
                                        (midAir (bounds w) 8) zero3 None) w in
            let w := with_player pi (p_set_carrying None) w in
            broadcastHUD false w
        end
      else w
  end.

(** The body of the scoring loop for the player at position [pi]. *)
Definition scoreCarrier (pi : nat) (w : World) : World :=
  match player_at w pi with
  | None => w
  | Some p =>
      if Js.truthy_str (p_carrying p) then
        match find_index (fun b => Js.str_eq_opt (b_id b) (p_carrying p)) (balls w) with
        | None => w
        | Some bi =>
            if kind_eqb (default bludger (b_kind <$> balls w !! bi)) quaffle
            then fold_left (fun w g => scoreAtGoal pi bi g w) (goals w) w
            else w
        end
      else w
  end.

(** The body of the knockback loop: bludger at [bi], player at [pi]. *)
Definition knockback (nowMs : float) (bi pi : nat) (w : World) : World :=
  match balls w !! bi, player_at w pi with
  | Some b, Some p =>
      if dist (b_pos b) (p_pos p) <? 1.8 then
        let d := norm (sub (p_pos p) (b_pos b)) in
        let v := mkVec3 (x (p_vel p) + x d * bludgerKnockback Physics)
                        (y (p_vel p) + 6)
                        (z (p_vel p) + z d * bludgerKnockback Physics) in
        let w := with_player pi
                   (fun p => p_set_stunnedUntil (nowMs + stunMs Physics)
                               (p_set_vel v p)) w in
        if Js.truthy_str (p_carrying p) then
          let w :=
            match find_index (fun c => Js.str_eq_opt (b_id c) (p_carrying p)) (balls w) with
            | Some ci =>
                with_ball ci
                  (fun c => mkBall (b_id c) (b_kind c) (p_pos p) v None) w
            | None => w
            end in
          with_player pi (p_set_carrying None) w
        else w
      else w
  | _, _ => w
  end.

Definition bludgerHits (nowMs : float) (w : World) : World :=
  for_index (length (balls w))
    (fun bi w =>
       match balls w !! bi with
       | Some b =>
           if kind_eqb (b_kind b) bludger
           then for_index (length (players w)) (knockback nowMs bi) w
           else w
       | None => w
       end) w.

(** The body of the capture loop; the second component is [break]. *)
Definition captureBy (si pi : nat) (w : World) : World * bool :=
  match balls w !! si, player_at w pi with
  | Some s, Some p =>
      if dist (b_pos s) (p_pos p) <? 1.5 then
        match teamById w (p_teamId p) with
        | Some ti =>
            let name := default ""%string (t_name <$> teams w !! ti) in
            let w := with_team ti (t_add_score SCORE_SNITCH) w in
            let w := announce (TxtSnitch name) w in
            (endRound w, true)
        | None => (w, true)
        end
      else (w, false)
  | _, _ => (w, false)
  end.

Definition snitchCapture (w : World) : World :=
  match find_index (fun b => kind_eqb (b_kind b) snitch) (balls w) with
  | Some si => for_break (seq 0 (length (players w))) (captureBy si) w
  | None => w
  end.

Definition scoreGoals (w : World) : World :=
  for_index (length (players w)) scoreCarrier w.

Definition resolveInteractions (nowMs : float) (w : World) : World :=
  snitchCapture (bludgerHits nowMs (scoreGoals w)).

(** [tick]; [rnd] is the value [Math.random()] returns. *)
Definition tick (rnd : float) (dt nowMs : float) (w : World) : World :=
  let w := for_index (length (balls w)) (updateBall dt nowMs) w in
  let w := resolveInteractions nowMs w in
  let w := for_index (length (players w))
             (fun i w => with_player i (updatePlayerPhysics w dt) w) w in
  if rnd <? 0.1 then broadcastHUD false w else w.

(** *** Player and input *)

(** [onPlayerJoin]; [None] is the [TypeError] of reading [team.spawn] when
    there is no team. *)
Definition onPlayerJoin (id : EntityId) (name : string) (w : World) : option World :=
  match autoAssignTeam w with
  | None => None
  | Some team =>
      let p := mkPlayer id name (t_id team) (t_spawn team) zero3 true 1 0 None in
      let w := set_players (fun m => map_set m id p) w in
      let w := announce (TxtJoined name (t_name team)) w in
      Some (broadcastHUD false w)
  end.

Definition onPlayerLeave (id : EntityId) (w : World) : World :=
  broadcastHUD false (set_players (fun m => map_delete m id) w).

(** Flight forces, drag and clamp, gravity, integration. *)
Definition flight (input : Input) (dt : float) (p : PlayerState) : PlayerState :=
  let mv := clampVec (move input) 1 in
  let vx := x (p_vel p) + x mv * accel Physics * dt in
  let vz := z (p_vel p) + z mv * accel Physics * dt in
  let vy := y (p_vel p) in
  let vy := if ascend input then vy + lift Physics * dt else vy in
  let vy := if descend input then vy - lift Physics * dt else vy in
  let vx := vx * (1 - drag Physics) in
  let vz := vz * (1 - drag Physics) in
  let sp := hypot2 vx vz in
  let s := maxSpeed Physics / sp in
  let vx' := if maxSpeed Physics <? sp then vx * s else vx in
  let vz' := if maxSpeed Physics <? sp then vz * s else vz in
  let vy := vy - gravity Physics * dt in
  p_set_pos (mkVec3 (x (p_pos p) + vx' * dt) (y (p_pos p) + vy * dt)
                    (z (p_pos p) + vz' * dt))
            (p_set_vel (mkVec3 vx' vy vz') p).

(** The predicate of the pickup search. *)
Definition pickable (p : PlayerState) (b : Ball) : bool :=
  negb (Js.truthy_str (b_owner b))
  && (dist (b_pos b) (p_pos p) <? 2.0)
  && (kind_eqb (b_kind b) quaffle || kind_eqb (b_kind b) snitch).

(** [if (input.interact) { ... }]: pickup or throw. *)
Definition interactStep (input : Input) (pi : nat) (w : World) : World :=
  match player_at w pi with
  | None => w
  | Some p =>
      if negb (Js.truthy_str (p_carrying p)) then
        match find_index (pickable p) (balls w) with
        | Some bi =>
            let bid := default ""%string (b_id <$> balls w !! bi) in
            let w := with_ball bi (b_set_owner (Some (p_id p))) w in
            with_player pi (p_set_carrying (Some bid)) w
        | None => w
        end
      else
        let w :=
          match find_index (fun b => Js.str_eq_opt (b_id b) (p_carrying p)) (balls w) with
          | Some ci =>
              let dir := norm (default (mkVec3 (x (p_vel p)) 0.2 (z (p_vel p)))
                                       (throwDir input)) in
              let power := 26 in
              with_ball ci
                (fun c => mkBall (b_id c) (b_kind c) (p_pos p)
                                 (mkVec3 (x dir * power) (y dir * power)
                                         (z dir * power)) None) w
          | None => w
          end in
        with_player pi (p_set_carrying None) w
  end.

(** [if (input.beaterSwing) { ... }]. *)
Definition swingStep (pi : nat) (w : World) : World :=
  match player_at w pi with
  | None => w
  | Some p =>
      match nearestBallOfKind w (p_pos p) bludger with
      | Some bi =>
          match balls w !! bi with
          | Some bl =>
              if dist (b_pos bl) (p_pos p) <? 2.4 then
                let dir := norm (sub (b_pos bl) (p_pos p)) in
                let power := 32 in
                with_ball bi
                  (b_set_vel (mkVec3 (x (b_vel bl) + x dir * power)
                                     (y (b_vel bl) + 6)
                                     (z (b_vel bl) + z dir * power))) w
              else w
          | None => w
          end
      | None => w
      end
  end.

Definition onPlayerInput (id : EntityId) (input : Input) (dt nowMs : float)
    (w : World) : World :=
  match map_index (players w) id with
  | None => w
  | Some pi =>
      match player_at w pi with
      | None => w
      | Some p =>
          if nowMs <? p_stunnedUntil p then w
          else
            let w := with_player pi (flight input dt) w in
            let w := if interact input then interactStep input pi w else w in
            if beaterSwing input then swingStep pi w else w
      end
  end.

End Engine.

(** *** Arena helpers and initialisation *)

Record BlockType := mkBlockType {
  bt_id : float;
  bt_name : string;
  bt_textureUri : string;
  bt_isLiquid : bool
}.

(** [MapData]; [blocks] holds the entries of the [blocks] object in the
    order [Object.keys] and [Object.entries] enumerate them. *)
Record MapData := mkMapData {
  blockTypes : list BlockType;
  blocks : list (string * float)
}.

Definition GOAL_BLOCK_ID : float := 7.

Section Arena.

Context {M : MathLib} {T : TextLib}.

(** [parseKey]: a component the key does not have is [undefined], which
    every use of the vector reads as [NaN]. *)
Definition parseKey (key : string) : Vec3 :=
  let parts := map Number (Js.split "," key) in
  mkVec3 (nth 0 parts nan) (nth 1 parts nan) (nth 2 parts nan).

(** The three [if (x<min.x) min.x=x] of [calcBounds], and the three for
    [max]. *)
Definition lower (p m : Vec3) : Vec3 :=
  mkVec3 (if x p <? x m then x p else x m)
         (if y p <? y m then y p else y m)
         (if z p <? z m then z p else z m).

Definition raise (p m : Vec3) : Vec3 :=
  mkVec3 (if x m <? x p then x p else x m)
         (if y m <? y p then y p else y m)
         (if z m <? z p then z p else z m).

Definition calcBounds (map : MapData) : Vec3 * Vec3 :=
  fold_left
    (fun (acc : Vec3 * Vec3) (e : string * float) =>
       let p := parseKey (fst e) in
       (lower p (fst acc), raise p (snd acc)))
    (blocks map)
    (mkVec3 infinity infinity infinity,
     mkVec3 neg_infinity neg_infinity neg_infinity).

Definition dedupeClosePositions (points : list Vec3) (thresh : float) : list Vec3 :=
  fold_left
    (fun kept p =>
       if negb (existsb (fun k => dist k p <? thresh) kept) then kept ++ [p]
       else kept)
    points [].

Definition extractGoals (map : MapData) (blockId : float) : list Vec3 :=
  let out :=
    fold_left
      (fun out (e : string * float) =>
         if snd e =? blockId then out ++ [parseKey (fst e)] else out)
      (blocks map) [] in
  dedupeClosePositions out 2.0.

(** [createSkyBallGame]; [map] is what [loadArena] returns, and [r1] to
    [r4] are the random suffixes of the four ball ids. *)
Definition createSkyBallGame (map : MapData) (r1 r2 r3 r4 : string) (w : World) : World :=
  let bounds := calcBounds map in
  let goals := List.map (fun c => mkGoal c 2.2 None) (extractGoals map GOAL_BLOCK_ID) in
  let teams := makeDefaultTeams bounds in
  let balls := Game.balls w ++ [makeBall r1 quaffle (midAir bounds 8)] in
  let balls := balls ++ [makeBall r2 bludger (midAir bounds 10)] in
  let balls := balls ++ [makeBall r3 bludger (midAir bounds 12)] in
  let balls := balls ++ [makeBall r4 snitch (midAir bounds 14)] in
  broadcastHUD false (mkWorld (players w) teams goals balls bounds (ui w)).

End Arena.

End Game.

(** ** The HYTOPIA server, [index.ts]

    The engine's [Entity] is kept as the data the game code reads and
    writes: its position and rotation, whether it is spawned, and the
    impulses handed to the engine's physics.  Objects are referred to the
    way the program refers to them: a ball by its place in [balls] (the
    array only grows), a player state by its place in [objects], the store
    of every player-state object created so far ([quidditchPlayers] maps a
    player id to the object currently registered for it). *)

Module Server.

Import Game.

Local Open Scope float_scope.

Record Entity := mkEntity {
  e_name : string;
  e_position : Vec3;
  e_rotation : Vec3;
  e_mass : float;
  e_isSpawned : bool;
  e_impulses : list Vec3
}.

Record QuidditchPlayerState := mkQState {
  entity : Entity;
  teamId : string;
  stamina : float;
  stunnedUntil : float;
  carryingBall : option nat
}.

Record BallEntity := mkBallEntity {
  kind : BallKind;
  position : Vec3;
  isSpawned : bool;
  velocity : Vec3;
  owner : option nat;
  startTime : float
}.

Inductive ChatText :=
| MsgScored (team : string)
| MsgHit (player : string)
| MsgCaught (player team : string) (total : float)
| MsgPicked (player : string) (k : BallKind)
| MsgThrew (player : string) (k : BallKind)
| MsgJoined (player team : string)
| MsgWelcome (team : string)
| MsgScores (table : list (string * float)).

Definition PHYSICS : PhysicsCfg := {|
  maxSpeed := 22;
  accel := 45;
  lift := 30;
  gravity := 16;
  drag := 0.08;
  bludgerKnockback := 28;
  stunMs := 800
|}.

Definition FLYING_SPEED_vertical : float := 15.

Definition SCORE_QUAFFLE : float := 10.
Definition SCORE_SNITCH : float := 150.

Record World := mkWorld {
  objects : list QuidditchPlayerState;
  quidditchPlayers : jsmap nat;
  teams : list Team;
  goals : list GoalZone;
  balls : list BallEntity;
  arenaBounds : Vec3 * Vec3;
  chat : list (string * ChatText)
}.

Definition set_objects (f : list QuidditchPlayerState -> list QuidditchPlayerState)
    (w : World) : World :=
  mkWorld (f (objects w)) (quidditchPlayers w) (teams w) (goals w) (balls w)
          (arenaBounds w) (chat w).

Definition set_registry (f : jsmap nat -> jsmap nat) (w : World) : World :=
  mkWorld (objects w) (f (quidditchPlayers w)) (teams w) (goals w) (balls w)
          (arenaBounds w) (chat w).

Definition set_teams (f : list Team -> list Team) (w : World) : World :=
  mkWorld (objects w) (quidditchPlayers w) (f (teams w)) (goals w) (balls w)
          (arenaBounds w) (chat w).

Definition set_balls (f : list BallEntity -> list BallEntity) (w : World) : World :=
  mkWorld (objects w) (quidditchPlayers w) (teams w) (goals w) (f (balls w))
          (arenaBounds w) (chat w).

Definition with_state (r : nat) (f : QuidditchPlayerState -> QuidditchPlayerState) :
    World -> World :=
  set_objects (alter f r).

Definition with_ball (i : nat) (f : BallEntity -> BallEntity) : World -> World :=
  set_balls (alter f i).

Definition with_team (i : nat) (f : Team -> Team) : World -> World :=
  set_teams (alter f i).

(** The player-state object of the [i]-th entry of [quidditchPlayers]. *)
Definition state_ref (w : World) (i : nat) : option nat :=
  snd <$> quidditchPlayers w !! i.

Definition state_at (w : World) (i : nat) : option (nat * QuidditchPlayerState) :=
  match state_ref w i with
  | Some r => (fun s => (r, s)) <$> objects w !! r
  | None => None
  end.

(** [announce]: the message goes to every registered player. *)
Definition announce (msg : ChatText) (w : World) : World :=
  mkWorld (objects w) (quidditchPlayers w) (teams w) (goals w) (balls w)
          (arenaBounds w)
          (map (fun e : string * nat => (fst e, msg)) (quidditchPlayers w) ++ chat w).

Definition sendPlayerMessage (to : string) (msg : ChatText) (w : World) : World :=
  mkWorld (objects w) (quidditchPlayers w) (teams w) (goals w) (balls w)
          (arenaBounds w) ((to, msg) :: chat w).

Definition broadcastScoreboard (w : World) : World :=
  announce (MsgScores (map (fun t => (t_name t, t_score t)) (teams w))) w.

(** Field assignments and engine calls. *)
Definition s_set_entity (e : Entity) (s : QuidditchPlayerState) : QuidditchPlayerState :=
  mkQState e (teamId s) (stamina s) (stunnedUntil s) (carryingBall s).

Definition s_set_stunnedUntil (t : float) (s : QuidditchPlayerState) : QuidditchPlayerState :=
  mkQState (entity s) (teamId s) (stamina s) t (carryingBall s).

Definition s_set_carryingBall (c : option nat) (s : QuidditchPlayerState) : QuidditchPlayerState :=
  mkQState (entity s) (teamId s) (stamina s) (stunnedUntil s) c.

Definition e_applyImpulse (v : Vec3) (e : Entity) : Entity :=
  mkEntity (e_name e) (e_position e) (e_rotation e) (e_mass e) (e_isSpawned e)
           (v :: e_impulses e).

Definition e_despawn (e : Entity) : Entity :=
  mkEntity (e_name e) (e_position e) (e_rotation e) (e_mass e) false
           (e_impulses e).

Definition setPosition (v : Vec3) (b : BallEntity) : BallEntity :=
  mkBallEntity (kind b) v (isSpawned b) (velocity b) (owner b) (startTime b).

Definition set_velocity (v : Vec3) (b : BallEntity) : BallEntity :=
  mkBallEntity (kind b) (position b) (isSpawned b) v (owner b) (startTime b).

Definition set_owner (o : option nat) (b : BallEntity) : BallEntity :=
  mkBallEntity (kind b) (position b) (isSpawned b) (velocity b) o (startTime b).

Definition despawn (b : BallEntity) : BallEntity :=
  mkBallEntity (kind b) (position b) false (velocity b) (owner b) (startTime b).

(** [createTeams]: the spawn points are fixed, the bounds are not used. *)
Definition createTeams (bounds : Vec3 * Vec3) : list Team :=
  let pitchCenterX := 0 in
  let pitchCenterZ := 160 in
  let y := 70 in
  [ mkTeam "gry" "Gryffindor" "#B31B1B" (mkVec3 (-40) y pitchCenterZ) 0;
    mkTeam "sly" "Slytherin" "#2E7D32" (mkVec3 40 y pitchCenterZ) 0;
    mkTeam "rav" "Ravenclaw" "#0D47A1" (mkVec3 pitchCenterX y 125) 0;
    mkTeam "huf" "Hufflepuff" "#FBC02D" (mkVec3 pitchCenterX y 195) 0 ].

Section Engine.

Context {M : MathLib}.

(** *** Math helpers *)

Definition subtract (a b : Vec3) : Vec3 :=
  mkVec3 (x a - x b) (y a - y b) (z a - z b).

Definition distance (a b : Vec3) : float :=
  hypot (x a - x b) (y a - y b) (z a - z b).

Definition length (v : Vec3) : float := hypot (x v) (y v) (z v).

(** [const len = length(v) || 1]. *)
Definition normalize_divisor (v : Vec3) : float := Js.or_num (length v) 1.

Definition normalize (v : Vec3) : Vec3 :=
  let len := normalize_divisor v in
  mkVec3 (x v / len) (y v / len) (z v / len).

Definition findNearestPlayer (w : World) (pos : Vec3) : option QuidditchPlayerState :=
  fst (fold_left
         (fun (acc : option QuidditchPlayerState * float) (e : string * nat) =>
            match objects w !! snd e with
            | Some s =>
                let d := distance pos (e_position (entity s)) in
                if d <? snd acc then (Some s, d) else acc
            | None => acc
            end)
         (quidditchPlayers w) (None, infinity)).

(** *** Ball entities *)

(** [BallEntity.updatePhysics]. *)
Definition updatePhysics (w : World) (dt : float) (b : BallEntity) : BallEntity :=
  match owner b with
  | Some r =>
      match objects w !! r with
      | Some s =>
          let ownerPos := e_position (entity s) in
          setPosition (mkVec3 (x ownerPos) (y ownerPos + 2) (z ownerPos)) b
      | None => b
      end
  | None =>
      let vy := y (velocity b) - gravity PHYSICS * dt in
      let vx := x (velocity b) * (1 - drag PHYSICS) in
      let vy := vy * (1 - drag PHYSICS) in
      let vz := z (velocity b) * (1 - drag PHYSICS) in
      let nx := x (position b) + vx * dt in
      let ny := y (position b) + vy * dt in
      let nz := z (position b) + vz * dt in
      let hit := ny <? 51 in
      let ny := if hit then 51 else ny in
      let vy := if hit then abs vy * 0.5 else vy in
      setPosition (mkVec3 nx ny nz) (set_velocity (mkVec3 vx vy vz) b)
  end.

(** [BludgerEntity.updatePhysics]. *)
Definition updatePhysicsBludger (w : World) (dt : float) (b : BallEntity) : BallEntity :=
  let b := updatePhysics w dt b in
  match owner b with
  | Some _ => b
  | None =>
      match findNearestPlayer w (position b) with
      | Some target =>
          let dir := normalize (subtract (e_position (entity target)) (position b)) in
          let speed := 12 in
          set_velocity (mkVec3 (x (velocity b) + x dir * speed * dt)
                               (y (velocity b) + y dir * speed * dt)
                               (z (velocity b) + z dir * speed * dt)) b
      | None => b
      end
  end.

(** [SnitchEntity.updatePhysics]; [now] is what [Date.now()] returns. *)
Definition updatePhysicsSnitch (w : World) (now dt : float) (b : BallEntity) : BallEntity :=
  let b := updatePhysics w dt b in
  match owner b with
  | Some _ => b
  | None =>
      let t := (now - startTime b) / 1000 in
      set_velocity (mkVec3 (x (velocity b) + sin (t * 5) * 3 * dt)
                           (y (velocity b) + cos (t * 7) * 4 * dt)
                           (z (velocity b) + sin (t * 6) * 3 * dt)) b
  end.

(** The method the ball's class selects. *)
Definition ball_updatePhysics (w : World) (now dt : float) (b : BallEntity) : BallEntity :=
  match kind b with
  | quaffle => updatePhysics w dt b
  | bludger => updatePhysicsBludger w dt b
  | snitch => updatePhysicsSnitch w now dt b
  end.

(** *** Game logic *)

Definition findTeam (w : World) (id : string) : option nat :=
  find_index (fun t => String.eqb (t_id t) id) (teams w).

(** The body of [for (const goal of goals)] for the player state [r]; the
    position [playerPos] was read before the loop. *)
Definition scoreAtGoal (r : nat) (playerPos : Vec3) (goal : GoalZone) (w : World) : World :=
  match objects w !! r with
  | None => w
  | Some s =>
      if distance playerPos (g_center goal) <? g_radius goal then
        match findTeam w (teamId s) with
        | None => w
        | Some ti =>
            let name := default ""%string (t_name <$> Server.teams w !! ti) in
            let w := with_team ti (t_add_score SCORE_QUAFFLE) w in
            let w := announce (MsgScored name) w in
            let w :=
              match carryingBall s with
              | Some bi =>
                  let bounds := arenaBounds w in
                  let cx := (x (fst bounds) + x (snd bounds)) / 2 in
                  let cz := (z (fst bounds) + z (snd bounds)) / 2 in
                  let w := with_ball bi
                             (fun b => set_velocity zero3
                                         (setPosition (mkVec3 cx (y (fst bounds) + 78) cz)
                                            (set_owner None b))) w in
                  with_state r (s_set_carryingBall None) w
              | None => w
              end in
            broadcastScoreboard w
        end
      else w
  end.

Definition checkGoalScoring (nowMs : float) (w : World) : World :=
  for_index (List.length (quidditchPlayers w))
    (fun i w =>
       match state_at w i with
       | Some (r, s) =>
           match carryingBall s with
           | Some bi =>
               if kind_eqb (default bludger (kind <$> Server.balls w !! bi)) quaffle
               then fold_left (fun w g => scoreAtGoal r (e_position (entity s)) g w)
                              (Server.goals w) w
               else w
           | None => w
           end
       | None => w
       end) w.

(** The body of the inner loop of [checkBludgerHits]. *)
Definition bludgerHit (nowMs : float) (bi i : nat) (w : World) : World :=
  match Server.balls w !! bi, state_at w i with
  | Some ball, Some (r, s) =>
      if nowMs <? stunnedUntil s then w
      else
        let playerPos := e_position (entity s) in
        if distance (position ball) playerPos <? 2.0 then
          let dir := normalize (subtract playerPos (position ball)) in
          let w := with_state r
                     (fun s => s_set_entity
                                 (e_applyImpulse
                                    (mkVec3 (x dir * bludgerKnockback PHYSICS) 6
                                            (z dir * bludgerKnockback PHYSICS))
                                    (entity s)) s) w in
          let w := with_state r (s_set_stunnedUntil (nowMs + stunMs PHYSICS)) w in
          let w :=
            match carryingBall s with
            | Some ci =>
                let w := with_ball ci
                           (fun c => set_velocity (mkVec3 (x dir * 10) 4 (z dir * 10))
                                       (set_owner None c)) w in
                with_state r (s_set_carryingBall None) w
            | None => w
            end in
          announce (MsgHit (e_name (entity s))) w
        else w
  | _, _ => w
  end.

Definition checkBludgerHits (nowMs : float) (w : World) : World :=
  for_index (List.length (Server.balls w))
    (fun bi w =>
       match Server.balls w !! bi with
       | Some ball =>
           if negb (kind_eqb (kind ball) bludger) || bool_decide (is_Some (owner ball))
           then w
           else for_index (List.length (quidditchPlayers w)) (bludgerHit nowMs bi) w
       | None => w
       end) w.

(** The body of the loop of [checkSnitchCapture]; the flag is [break]. *)
Definition captureBy (si i : nat) (w : World) : World * bool :=
  match Server.balls w !! si, state_at w i with
  | Some sn, Some (r, s) =>
      if distance (position sn) (e_position (entity s)) <? 2.0 then
        match findTeam w (teamId s) with
        | Some ti =>
            let w := with_team ti (t_add_score SCORE_SNITCH) w in
            let name := default ""%string (t_name <$> Server.teams w !! ti) in
            let total := default 0 (t_score <$> Server.teams w !! ti) in
            let w := announce (MsgCaught (e_name (entity s)) name total) w in
            let w := with_ball si despawn w in
            (broadcastScoreboard w, true)
        | None => (w, true)
        end
      else (w, false)
  | _, _ => (w, false)
  end.

Definition checkSnitchCapture (nowMs : float) (w : World) : World :=
  match find_index (fun b => kind_eqb (kind b) snitch) (Server.balls w) with
  | None => w
  | Some si =>
      match owner <$> Server.balls w !! si with
      | Some None =>
          for_break (seq 0 (List.length (quidditchPlayers w))) (captureBy si) w
      | _ => w
      end
  end.

(** [gameLoop]; [nowMs] and [snitchNow] are the two readings of the clock. *)
Definition gameLoop (nowMs snitchNow dt : float) (w : World) : World :=
  let w := for_index (List.length (Server.balls w))
             (fun i w => with_ball i (ball_updatePhysics w snitchNow dt) w) w in
  checkSnitchCapture nowMs (checkBludgerHits nowMs (checkGoalScoring nowMs w)).

(** The predicate of the pickup search. *)
Definition pickable (playerPos : Vec3) (b : BallEntity) : bool :=
  negb (bool_decide (is_Some (owner b)))
  && (kind_eqb (kind b) quaffle || kind_eqb (kind b) snitch)
  && (distance (position b) playerPos <? 3.0).

(** [handlePlayerInteract]; [now] is what [Date.now()] returns. *)
Definition handlePlayerInteract (now : float) (playerId : string) (w : World) : World :=
  match map_get (quidditchPlayers w) playerId with
  | None => w
  | Some r =>
      match objects w !! r with
      | None => w
      | Some s =>
          if now <? stunnedUntil s then w
          else
            match carryingBall s with
            | None =>
                let playerPos := e_position (entity s) in
                match find_index (pickable playerPos) (Server.balls w) with
                | Some bi =>
                    let k := default bludger (kind <$> Server.balls w !! bi) in
                    let w := with_ball bi (set_owner (Some r)) w in
                    let w := with_state r (s_set_carryingBall (Some bi)) w in
                    announce (MsgPicked (e_name (entity s)) k) w
                | None => w
                end
            | Some bi =>
                let k := default bludger (kind <$> Server.balls w !! bi) in
                let w := with_ball bi (set_owner None) w in
                let throwPower := 26 in
                let facing := e_rotation (entity s) in
                let dir := mkVec3 (sin (y facing) * cos (x facing))
                                  (sin (x facing) + 0.2)
                                  (cos (y facing) * cos (x facing)) in
                let w := with_ball bi
                           (set_velocity (mkVec3 (x dir * throwPower)
                                                 (y dir * throwPower)
                                                 (z dir * throwPower))) w in
                let w := with_state r (s_set_carryingBall None) w in
                announce (MsgThrew (e_name (entity s)) k) w
            end
      end
  end.

(** *** Team and UI *)

Definition teamCounts (w : World) : jsmap nat :=
  let counts := fold_left (fun c t => map_set c (t_id t) 0%nat) (Server.teams w) [] in
  fold_left
    (fun c (e : string * nat) =>
       match objects w !! snd e with
       | Some p => map_set c (teamId p) (default 0%nat (map_get c (teamId p)) + 1)%nat
       | None => c
       end)
    (quidditchPlayers w) counts.

Definition autoAssignTeam (w : World) : option Team :=
  let counts := teamCounts w in
  fst (fold_left
         (fun (acc : option Team * option nat) team =>
            let count := default 0%nat (map_get counts (t_id team)) in
            let less := match snd acc with
                        | None => true
                        | Some minCount => (count <? minCount)%nat
                        end in
            if less then (Some team, Some count) else acc)
         (Server.teams w) (head (Server.teams w), None)).

(** *** Server start: the event handlers *)

(** [PlayerEvent.JOINED_WORLD]; [mass] is the mass the engine gives the new
    entity.  [None] is the [TypeError] of reading [team.spawn] when there
    is no team. *)
Definition onJoinedWorld (playerId : string) (mass : float) (w : World) : option World :=
  match autoAssignTeam w with
  | None => None
  | Some team =>
      let playerName := String.append "Player" playerId in
      let playerEntity := mkEntity playerName (t_spawn team) zero3 mass true [] in
      let r := List.length (objects w) in
      let w := set_objects (fun h => h ++ [mkQState playerEntity (t_id team) 1 0 None]) w in
      let w := set_registry (fun m => map_set m playerId r) w in
      let w := sendPlayerMessage playerId (MsgWelcome (t_name team)) w in
      let w := announce (MsgJoined playerName (t_name team)) w in
      Some (broadcastScoreboard w)
  end.

(** The controller's [TICK_WITH_PLAYER_INPUT] handler of the player state
    [r]. *)
Definition onTickWithPlayerInput (r : nat) (space ctrl : bool) (w : World) : World :=
  with_state r
    (fun s =>
       let m := e_mass (entity s) in
       if space then
         s_set_entity (e_applyImpulse (mkVec3 0 (FLYING_SPEED_vertical * m) 0) (entity s)) s
       else if ctrl then
         s_set_entity (e_applyImpulse (mkVec3 0 (- FLYING_SPEED_vertical * m) 0) (entity s)) s
       else s) w.

(** [PlayerEvent.LEFT_WORLD]. *)
Definition onLeftWorld (playerId : string) (w : World) : World :=
  match map_get (quidditchPlayers w) playerId with
  | None => w
  | Some r =>
      match objects w !! r with
      | None => w
      | Some s =>
          let w := match carryingBall s with
                   | Some bi => with_ball bi (set_owner None) w
                   | None => w
                   end in
          let w := with_state r (fun s => s_set_entity (e_despawn (entity s)) s) w in
          set_registry (fun m => map_delete m playerId) w
      end
  end.

End Engine.

(** *** Arena helpers, the start of the server, the [/rocket] command *)

Definition GOAL_BLOCK_ID : float := 7.

(** The [/rocket] command. *)
Definition rocket (playerId : string) (w : World) : World :=
  match map_get (quidditchPlayers w) playerId with
  | Some r =>
      with_state r (fun s => s_set_entity (e_applyImpulse (mkVec3 0 25 0) (entity s)) s) w
  | None => w
  end.

Section Init.

Context {M : MathLib} {T : TextLib}.

Definition parseBlockKey (key : string) : Vec3 :=
  let parts := map Number (Js.split "," key) in
  mkVec3 (nth 0 parts nan) (nth 1 parts nan) (nth 2 parts nan).

(** [extractGoals]: the hoop blocks, one goal per cluster. *)
Definition extractGoals (arena : MapData) : list GoalZone :=
  let goalPositions :=
    fold_left
      (fun out (e : string * float) =>
         if snd e =? GOAL_BLOCK_ID then out ++ [parseBlockKey (fst e)] else out)
      (blocks arena) [] in
  let uniqueGoals :=
    fold_left
      (fun kept pos =>
         if negb (existsb (fun g => distance g pos <? 5) kept) then kept ++ [pos]
         else kept)
      goalPositions [] in
  map (fun center => mkGoal center 3.5 None) uniqueGoals.

Definition calculateArenaBounds (arena : MapData) : Vec3 * Vec3 :=
  fold_left
    (fun (acc : Vec3 * Vec3) (e : string * float) =>
       let p := parseBlockKey (fst e) in
       let mn := fst acc in
       let mx := snd acc in
       (mkVec3 (Js.min (x mn) (x p)) (Js.min (y mn) (y p)) (Js.min (z mn) (z p)),
        mkVec3 (Js.max (x mx) (x p)) (Js.max (y mx) (y p)) (Js.max (z mx) (z p))))
    (blocks arena)
    (mkVec3 infinity infinity infinity,
     mkVec3 neg_infinity neg_infinity neg_infinity).

(** [spawnBalls]; [t0] is the clock when the snitch is constructed. *)
Definition spawnBalls (t0 : float) (bounds : Vec3 * Vec3) (w : World) : World :=
  let pitchCenterX := 0 in
  let pitchCenterZ := 160 in
  let baseY := 75 in
  set_balls
    (fun balls =>
       balls ++ [mkBallEntity quaffle (mkVec3 pitchCenterX baseY pitchCenterZ)
                              true zero3 None 0;
                 mkBallEntity bludger (mkVec3 (pitchCenterX - 10) (baseY + 2) pitchCenterZ)
                              true zero3 None 0;
                 mkBallEntity bludger (mkVec3 (pitchCenterX + 10) (baseY + 4) pitchCenterZ)
                              true zero3 None 0;
                 mkBallEntity snitch (mkVec3 pitchCenterX (baseY + 6) pitchCenterZ)
                              true zero3 None t0]) w.

(** The callback of [startServer], run once on the module's initial
    state: no player, no ball. *)
Definition startServer (arena : MapData) (t0 : float) : World :=
  let bounds := calculateArenaBounds arena in
  spawnBalls t0 bounds
    (mkWorld [] [] (createTeams bounds) (extractGoals arena) [] bounds []).

End Init.

End Server.

(** ** The scaffold engine: what is stated of it *)

Module GameSpec.

Import Game.

Local Open Scope string_scope.
Local Open Scope float_scope.

(** *** Ownership *)

(** Ownership symmetry over the registry: a player carries a ball exactly
    when that ball names the player as its owner. *)
Definition ownership_symmetric (w : World) : Prop :=
  forall k p b, (k, p) ∈ players w -> b ∈ balls w ->
    (p_carrying p = Some (b_id b) <-> b_owner b = Some (p_id p)).

(** The ownership links, as two tables: for each player (by id) the ball
    it refers to, and for each ball (by id) the player it names. *)
Definition carriers (w : World) : jsmap (option string) :=
  (fun e => (p_id e.2, p_carrying e.2)) <$> players w.

Definition holders (w : World) : jsmap (option string) :=
  (fun b => (b_id b, b_owner b)) <$> balls w.

(** Writing a table entry. *)
Definition put (v : option string) (e : string * option string) :
    string * option string := (e.1, v).

(** The two tables agree: ids are distinct and non-empty, the links are
    symmetric, and every owner named by a ball is a player. *)
Definition linked (P B : jsmap (option string)) : Prop :=
  NoDup (P.*1) /\ NoDup (B.*1)
  /\ (forall i k c, P !! i = Some (k, c) -> k <> "")
  /\ (forall j d o, B !! j = Some (d, o) -> d <> "")
  /\ (forall i j k c d o, P !! i = Some (k, c) -> B !! j = Some (d, o) ->
        (c = Some d <-> o = Some k))
  /\ (forall j d o, B !! j = Some (d, Some o) -> exists i c, P !! i = Some (o, c)).

Definition consistent (w : World) : Prop := linked (carriers w) (holders w).

(** Every player is registered under its own id. *)
Definition keyed (w : World) : Prop :=
  forall i k p, players w !! i = Some (k, p) -> p_id p = k.

(** The calls the host makes. *)
Inductive Event :=
| Joins (id : EntityId) (name : string)
| Leaves (id : EntityId)
| Sends (id : EntityId) (input : Input) (dt nowMs : float)
| Ticks (rnd dt nowMs : float).

Section Traces.

Context {M : MathLib}.

Definition step (e : Event) (w : World) : option World :=
  match e with
  | Joins id name => onPlayerJoin id name w
  | Leaves id => Some (onPlayerLeave id w)
  | Sends id input dt nowMs => Some (onPlayerInput id input dt nowMs w)
  | Ticks rnd dt nowMs => Some (tick rnd dt nowMs w)
  end.

Fixpoint run (es : list Event) (w : World) : option World :=
  match es with
  | [] => Some w
  | e :: es' =>
      match step e w with
      | Some w' => run es' w'
      | None => None
      end
  end.

(** Joins bring a new, non-empty id; a player who leaves holds no ball. *)
Definition orderly (e : Event) (w : World) : Prop :=
  match e with
  | Joins id _ => id <> "" /\ map_get (players w) id = None
  | Leaves id =>
      forall p, map_get (players w) id = Some p ->
                Js.truthy_str (p_carrying p) = false
  | _ => True
  end.

Fixpoint orderly_run (es : list Event) (w : World) : Prop :=
  match es with
  | [] => True
  | e :: es' =>
      orderly e w /\
      match step e w with
      | Some w' => orderly_run es' w'
      | None => True
      end
  end.

End Traces.

(** Ball [b'] is ball [b] as it was, or has been released. *)
Definition kept (b b' : Ball) : Prop :=
  b' = b \/ Js.truthy_str (b_owner b') = false.

Definition kept_at (i : nat) (b : Ball) (w : World) : Prop :=
  exists b', balls w !! i = Some b' /\ kept b b'.

(** *** Directions *)

Definition finite3 (v : Vec3) : bool :=
  Js.finite (x v) && Js.finite (y v) && Js.finite (z v).

Definition nan_free (v : Vec3) : bool :=
  negb (is_nan (x v)) && negb (is_nan (y v)) && negb (is_nan (z v)).

(** [L] is at least the magnitude of every component of [v]: what the
    length of a vector is, whichever way it is rounded. *)
Definition dominates (L : float) (v : Vec3) : bool :=
  (abs (x v) <=? L) && (abs (y v) <=? L) && (abs (z v) <=? L).

(** *** Goal scoring *)

Section Zones.

Context {M : MathLib}.

Definition in_zone (pos : Vec3) (g : GoalZone) : bool :=
  dist pos (g_center g) <? g_radius g.

(** The number of goal zones a position is inside of. *)
Definition zones_containing (pos : Vec3) (gs : list GoalZone) : nat :=
  List.length (List.filter (in_zone pos) gs).

End Zones.

(** The test the scoring loop makes of a player: its carrying reference
    is set and resolves to a quaffle. *)
Definition carries_quaffle (w : World) (p : PlayerState) : bool :=
  Js.truthy_str (p_carrying p)
  && match find_index (fun b => Js.str_eq_opt (b_id b) (p_carrying p)) (balls w) with
     | Some bi => kind_eqb (default bludger (b_kind <$> balls w !! bi)) quaffle
     | None => false
     end.

Definition respawn (w : World) (b : Ball) : Ball :=
  mkBall (b_id b) (b_kind b) (midAir (bounds w) 8) zero3 None.

(** [k] credits after the world [w0]: what the scoring loop of one carrier
    has done to teams, balls and players after [k] zones were found to
    contain the carrier. *)
Definition credited (ti pi bi : nat) (k : nat) (w0 w : World) : Prop :=
  teams w = alter (Nat.iter k (t_add_score SCORE_QUAFFLE)) ti (teams w0)
  /\ balls w = match k with
               | O => balls w0
               | S _ => alter (respawn w0) bi (balls w0)
               end
  /\ players w = match k with
                 | O => players w0
                 | S _ => alter (fun e => (fst e, p_set_carrying None (snd e))) pi (players w0)
                 end
  /\ goals w = goals w0 /\ bounds w = bounds w0.

(** *** Team counts *)

Definition playerCount (w : World) (tid : string) : nat :=
  List.length (List.filter (fun e : string * PlayerState => String.eqb (p_teamId (snd e)) tid)
                           (players w)).

Definition countIn (ps : jsmap PlayerState) (tid : string) : nat :=
  List.length (List.filter (fun e : string * PlayerState => String.eqb (p_teamId (snd e)) tid) ps).

(** [ceil (n / t)]. *)
Definition ceil_div (n t : nat) : nat := ((n + t - 1) / t)%nat.

(** Consecutive joins, no leave in between. *)
Fixpoint joins (who : list (EntityId * string)) (w : World) : option World :=
  match who with
  | [] => Some w
  | (id, name) :: rest =>
      match onPlayerJoin id name w with
      | Some w' => joins rest w'
      | None => None
      end
  end.

(** The selection loop of [autoAssignTeam], over any table of counts. *)
Definition pickLoop (counts : jsmap nat) (ts : list Team)
    (start : option Team * option nat) : option Team * option nat :=
  fold_left
    (fun (acc : option Team * option nat) t =>
       match map_get counts (t_id t) with
       | Some c =>
           let less := match snd acc with
                       | None => true
                       | Some best => (c <? best)%nat
                       end in
           if less then (Some t, Some c) else acc
       | None => acc
       end) ts start.

(** *** Nearest-element searches *)

Section Nearest.

Context {X R : Type}.

Variable sel : X -> option (R * float).

(** The loop shared by [nearestPlayer], [nearestBallOfKind] and
    [findNearestPlayer]: keep the candidate whose distance is strictly
    below the best so far, which starts at [Infinity]. *)
Definition nearer (acc : option R * float) (a : X) : option R * float :=
  match sel a with
  | Some (r, d) => if d <? snd acc then (Some r, d) else acc
  | None => acc
  end.

(** Candidate [r], found at position [i] at distance [bd], is nearest: no
    candidate is strictly nearer, and none before it is as near. *)
Definition nearest_at (l : list X) (i : nat) (r : R) (bd : float) : Prop :=
  (exists a, l !! i = Some a /\ sel a = Some (r, bd))
  /\ (bd <? infinity) = true
  /\ (forall j a r' d, l !! j = Some a -> sel a = Some (r', d) -> (d <? bd) = false)
  /\ (forall j a r' d, (j < i)%nat -> l !! j = Some a -> sel a = Some (r', d) ->
        (d =? bd) = false).

Definition none_near (l : list X) : Prop :=
  forall j a r' d, l !! j = Some a -> sel a = Some (r', d) -> (d <? infinity) = false.

End Nearest.

(** *** Arena bounds *)

Section Extremes.

Context {X : Type}.

Variable f : X -> float.

(** The running minimum and maximum of [calcBounds], one coordinate at a
    time. *)
Definition lowest (l : list X) (m : float) : float :=
  fold_left (fun m a => if f a <? m then f a else m) l m.

Definition highest (l : list X) (m : float) : float :=
  fold_left (fun m a => if m <? f a then f a else m) l m.

End Extremes.

Section Box.

Context {T : TextLib}.

Definition key_at (c : Vec3 -> float) (e : string * float) : float :=
  c (parseKey (fst e)).

(** A bound that is the start value or the coordinate of a block. *)
Definition attained (map : MapData) (start : float) (c : Vec3 -> float) (v : float) : Prop :=
  v = start \/ exists e, e ∈ blocks map /\ v = c (parseKey (fst e)).

End Box.

(** The box [b] has the position [p] inside on every axis. *)
Definition encloses (b : Vec3 * Vec3) (p : Vec3) : bool :=
  negb (x p <? x (fst b)) && negb (x (snd b) <? x p)
  && negb (y p <? y (fst b)) && negb (y (snd b) <? y p)
  && negb (z p <? z (fst b)) && negb (z (snd b) <? z p).

(** *** Who plays *)

(** What identifies the participants of a match: for each player its key,
    id, name, team, mount flag and stamina; for each ball its id and kind;
    for each team everything but the score; the goals and the bounds. *)
Definition roster (w : World) :=
  ((fun e : string * PlayerState =>
      (e.1, p_id e.2, p_name e.2, p_teamId e.2, p_mounted e.2, p_stamina e.2))
     <$> players w,
   (fun b => (b_id b, b_kind b)) <$> balls w,
   (fun t => (t_id t, t_name t, t_color t, t_spawn t)) <$> teams w,
   goals w, bounds w).

(** *** Bludger hits *)

(** Ball [b] sits at [bi] and no player refers to it; the player at [pi]
    stands where [p] stands. *)
Definition poised (bi pi : nat) (b : Ball) (p : PlayerState) (w : World) : Prop :=
  balls w !! bi = Some b
  /\ (forall j q, player_at w j = Some q -> p_carrying q <> Some (b_id b))
  /\ exists p', player_at w pi = Some p' /\ p_pos p' = p_pos p.

Definition stunned_to (pi : nat) (t : float) (w : World) : Prop :=
  exists p', player_at w pi = Some p' /\ p_stunnedUntil p' = t.

(** *** A sample match

    Four houses on a 100 x 40 x 100 arena, hoops and balls as given; the
    balls are placed where a few ticks of play can bring them. *)

Definition arena : Vec3 * Vec3 := (mkVec3 (-50) 0 (-50), mkVec3 50 40 50).

Definition pitch (ballsAt : list Ball) (hoops : list GoalZone) : World :=
  mkWorld [] (@makeDefaultTeams arena) hoops ballsAt arena [].

Definition still (id : string) (k : BallKind) (at_ : Vec3) : Ball :=
  mkBall id k at_ zero3 None.

Definition idle : Input := mkInput zero3 false false false false None.

Definition press : Input := mkInput zero3 false false true false None.

Definition frame : float := 1 / 60.

Definition join (id name : string) (w : World) : World :=
  default w (onPlayerJoin id name w).

Definition scores (w : World) : list float := map t_score (teams w).

Definition captures (w : World) : nat :=
  List.length (List.filter (fun t => match t with TxtSnitch _ => true | _ => false end) (ui w)).

Definition finals (w : World) : nat :=
  List.length (List.filter (fun t => match t with TxtHud true _ => true | _ => false end) (ui w)).

Definition motion (w : World) (id : string) : option (Vec3 * float) :=
  (fun p => (p_vel p, p_stunnedUntil p)) <$> map_get (players w) id.

(** A player knocked at time 1000 is stunned until 1800; a full intent at
    time 1200 changes nothing. *)
Definition dazed : World :=
  with_player 0%nat (p_set_stunnedUntil 1800)
    (join "a" "Ann"
       (pitch [still "q" quaffle (mkVec3 (-35) 60 0)] [])).

(** Ann joins Gryffindor and spawns at (-35, 60, 0); the snitch hovers half
    a unit above her. *)
Definition catchable : World :=
  join "a" "Ann"
    (pitch [still "q" quaffle (mkVec3 0 68 0);
            still "b1" bludger (mkVec3 0 70 0);
            still "b2" bludger (mkVec3 0 72 0);
            still "s" snitch (mkVec3 (-35) 60.5 0)]
           [mkGoal (mkVec3 40 60 0) 2.2 None]).

(** The quaffle lies at Ann's spawn point. *)
Definition atHand (hoops : list GoalZone) : World :=
  join "a" "Ann" (pitch [still "q" quaffle (mkVec3 (-35) 60 0)] hoops).

(** A bludger one unit above Ann. *)
Definition beaten : World :=
  join "a" "Ann" (pitch [still "b1" bludger (mkVec3 (-35) 61 0)] []).

Definition five : list (EntityId * string) :=
  [("a", "Ann"); ("b", "Bob"); ("c", "Cho"); ("d", "Dee"); ("e", "Eve")].

(** *** A sample arena

    Two corner blocks and three hoop blocks, two of them side by side. *)

Definition lawn : MapData :=
  mkMapData [mkBlockType 1 "grass" "blocks/grass.png" false;
             mkBlockType 7 "Gold Hoop" "blocks/gold.png" false]
            [("-50,0,-50", 1); ("50,40,50", 1);
             ("40,60,0", 7); ("41,60,0", 7); ("-40,60,0", 7)].

Definition blank : World := mkWorld [] [] [] [] (zero3, zero3) [].

Definition kickoff : World :=
  createSkyBallGame (M := refMath) (T := refText) lawn "q" "b1" "b2" "s" blank.

(** Full speed ahead and up, then ahead and down with a grab. *)
Definition sweep : Input := mkInput (mkVec3 1 0 0) true false false false None.

Definition reach : Input := mkInput (mkVec3 1 0 0) false true true false None.

(** Ann flies from her spawn point to the quaffle and picks it up. *)
Definition grab : list Event :=
  [Joins "a" "Ann"; Sends "a" sweep 1 1000; Sends "a" reach 0.55 2000].

(** A tick with the quaffle carried, then Ann throws it. *)
Definition toss : list Event :=
  [Ticks 0.5 frame 2016; Sends "a" press frame 2032].

(** Bob joins, Ann picks the quaffle up again, a tick, Bob leaves. *)
Definition regrab : list Event :=
  [Joins "b" "Bob"; Sends "a" press frame 2048; Ticks 0.5 frame 2064; Leaves "b"].

Definition opening : list Event := (grab ++ toss ++ regrab)%list.

Definition after (es : list Event) : World :=
  default kickoff (run (M := refMath) es kickoff).

Definition played : World := after opening.

(** The links of a world: what each player carries, whom each ball names. *)
Definition links (w : World) : list (option string) * list (option string) :=
  (map (fun e : string * PlayerState => p_carrying (snd e)) (players w),
   map b_owner (balls w)).

(** Ann has dived for a second, to 26 below the floor of the pitch. *)
Definition dive : Input := mkInput zero3 false true false false None.

Definition sunk : World :=
  onPlayerInput (M := refMath) "a" dive 1 1000 (join "a" "Ann" (pitch [] [])).

Definition ann : PlayerState :=
  mkPlayer "a" "Ann" "gry" (mkVec3 (-35) 60 0) zero3 true 1 0 None.

End GameSpec.

(** ** The HYTOPIA server: a sample match *)

Module ServerSpec.

Import Game Server.

Local Open Scope string_scope.
Local Open Scope float_scope.

Definition lot : Vec3 * Vec3 := (mkVec3 (-100) 0 0, mkVec3 100 100 320).

Definition resting (k : BallKind) (at_ : Vec3) : BallEntity :=
  mkBallEntity k at_ true zero3 None 0.

Definition stadium (bs : list BallEntity) (hoops : list GoalZone) : World :=
  Server.mkWorld [] [] (createTeams lot) hoops bs lot [].

Definition enter (playerId : string) (w : World) : World :=
  default w (onJoinedWorld playerId 1 w).

(** Player 1 spawns at (-40, 70, 160); the quaffle is 2 away, the snitch
    half a unit away, and two hoops contain the spawn point. *)
Definition crowded : World :=
  enter "1"
    (stadium [resting quaffle (mkVec3 (-38) 70 160);
              resting snitch (mkVec3 (-40.5) 70 160)]
             [mkGoal (mkVec3 (-41) 70 160) 3.5 None;
              mkGoal (mkVec3 (-37) 70 160) 3.5 None]).

(** *** Ownership links *)

(** The links of the server: what each player state refers to, what each
    ball names, and the states registered. *)
Definition holding (w : World) : list (option nat) := carryingBall <$> objects w.

Definition owners (w : World) : list (option nat) := owner <$> Server.balls w.

Definition registered (w : World) : list nat := snd <$> quidditchPlayers w.

(** The links agree: the registered states are distinct objects of the
    heap, every owner is a registered state that refers to the ball, and
    every ball a registered state refers to names it as owner. *)
Definition tied (C O : list (option nat)) (Rg : list nat) : Prop :=
  NoDup Rg
  /\ (forall r, r ∈ Rg -> (r < List.length C)%nat)
  /\ (forall bi r, O !! bi = Some (Some r) -> r ∈ Rg /\ C !! r = Some (Some bi))
  /\ (forall r bi, r ∈ Rg -> C !! r = Some (Some bi) -> O !! bi = Some (Some r)).

Definition fair (w : World) : Prop := tied (holding w) (owners w) (registered w).

(** Ownership symmetry, over the registered players. *)
Definition symmetric (w : World) : Prop :=
  forall i id r s bi b,
    quidditchPlayers w !! i = Some (id, r) -> objects w !! r = Some s ->
    Server.balls w !! bi = Some b ->
    (carryingBall s = Some bi <-> owner b = Some r).

(** What the engine and the players make the server do. *)
Inductive ServerEvent :=
| Joined (playerId : string) (mass : float)
| Left (playerId : string)
| Command (now : float) (playerId : string)
| Loop (nowMs snitchNow dt : float)
| Flight (r : nat) (space ctrl : bool)
| Rocket (playerId : string).

Section Traces.

Context {M : MathLib}.

Definition serve (e : ServerEvent) (w : World) : option World :=
  match e with
  | Joined playerId mass => onJoinedWorld playerId mass w
  | Left playerId => Some (onLeftWorld playerId w)
  | Command now playerId => Some (handlePlayerInteract now playerId w)
  | Loop nowMs snitchNow dt => Some (gameLoop nowMs snitchNow dt w)
  | Flight r space ctrl => Some (onTickWithPlayerInput r space ctrl w)
  | Rocket playerId => Some (rocket playerId w)
  end.

Fixpoint served (es : list ServerEvent) (w : World) : option World :=
  match es with
  | [] => Some w
  | e :: es' =>
      match serve e w with
      | Some w' => served es' w'
      | None => None
      end
  end.

(** The engine announces a player id once: a join brings an id that is not
    registered. *)
Fixpoint admitted (es : list ServerEvent) (w : World) : Prop :=
  match es with
  | [] => True
  | e :: es' =>
      match e with
      | Joined playerId _ => map_get (quidditchPlayers w) playerId = None
      | _ => True
      end
      /\ match serve e w with
         | Some w' => admitted es' w'
         | None => True
         end
  end.

End Traces.

(** *** A sample evening on the server *)

Definition opened : World :=
  startServer (M := refMath) (T := refText) GameSpec.lawn 0.

(** A stadium nobody has entered yet, with the quaffle 2 from the spawn
    point of the first house. *)
Definition yard : World :=
  stadium [resting quaffle (mkVec3 (-38) 70 160);
           resting bludger (mkVec3 0 77 160)] [].

(** Player 1 arrives and picks the quaffle up; a game loop and a flight
    tick go by with the quaffle carried. *)
Definition arrival : list ServerEvent :=
  [Joined "1" 1; Command 1000 "1"; Loop 1016 1016 (1 / 60); Flight 0 true false].

(** Player 1 leaves with the quaffle in hand. *)
Definition departure : list ServerEvent := [Left "1"].

(** Player 1 comes back and picks the quaffle up, player 2 arrives;
    player 1 throws the quaffle and picks it up once more. *)
Definition comeback : list ServerEvent :=
  [Joined "1" 1; Command 2000 "1"; Joined "2" 1; Rocket "1";
   Command 3000 "1"; Command 4000 "1"].

Definition evening : list ServerEvent := (arrival ++ departure ++ comeback)%list.

Definition upto (es : list ServerEvent) : World :=
  default yard (served (M := refMath) es yard).

Definition closing : World := upto evening.

(** A bludger one unit from the spawn point of player 1 has hit player 1
    at time 1000. *)
Definition struck : World :=
  checkBludgerHits (M := refMath) 1000
    (enter "1" (stadium [resting bludger (mkVec3 (-39) 70 160)] [])).

(** A quaffle lying 11 below the floor. *)
Definition sunken : World :=
  enter "1" (stadium [resting quaffle (mkVec3 0 40 160);
                      resting snitch (mkVec3 0 51 160)] []).

(** *** Carried balls *)

(** Where a carried ball is put: two above its owner. *)
Definition overhead (p : Vec3) : Vec3 := mkVec3 (x p) (y p + 2) (z p).

(** The ball at [bi] has been released, or is still [r]'s, overhead of
    where [r] stands and as fast as [b] was. *)
Definition carried_or_released (bi r : nat) (b : BallEntity) (p : Vec3) (w : World) : Prop :=
  (exists b', Server.balls w !! bi = Some b'
     /\ (owner b' = None
         \/ (owner b' = Some r /\ position b' = overhead p /\ velocity b' = velocity b)))
  /\ exists s', objects w !! r = Some s' /\ e_position (entity s') = p.

(** Player 1 has picked up the quaffle; there is no hoop. *)
Definition strolling : World :=
  handlePlayerInteract (M := refMath) 1000 "1"
    (enter "1" (stadium [resting quaffle (mkVec3 (-38) 70 160)] [])).

(** *** The bounds of the arena *)

Section Running.

Context {X : Type}.

Variable f : X -> float.

(** The running [Math.min] and [Math.max] of [calculateArenaBounds], one
    coordinate at a time. *)
Definition least (l : list X) (m : float) : float :=
  fold_left (fun m a => Js.min m (f a)) l m.

Definition greatest (l : list X) (m : float) : float :=
  fold_left (fun m a => Js.max m (f a)) l m.

End Running.

Section Keys.

Context {T : TextLib}.

Definition block_at (c : Vec3 -> float) (e : string * float) : float :=
  c (parseBlockKey (fst e)).

End Keys.

(** *** Houses *)

(** The registry entry [e] refers to a player of house [tid]. *)
Definition on_side (w : World) (tid : string) (e : string * nat) : bool :=
  match objects w !! snd e with
  | Some p => String.eqb (teamId p) tid
  | None => false
  end.

(** How many registered players a house has. *)
Definition enrolled (w : World) (tid : string) : nat :=
  List.length (List.filter (on_side w tid) (quidditchPlayers w)).

(** Who is registered, on which side every player state is, and which
    houses there are. *)
Definition lineup (w : World) : jsmap nat * list string * list string :=
  (quidditchPlayers w, teamId <$> objects w, t_id <$> Server.teams w).

(** Every registered reference is a player state. *)
Definition seated (w : World) : Prop :=
  forall e, e ∈ quidditchPlayers w -> (snd e < List.length (objects w))%nat.

Definition stays (e : ServerEvent) : bool :=
  match e with Left _ => false | _ => true end.

Definition arrives (e : ServerEvent) : bool :=
  match e with Joined _ _ => true | _ => false end.

(** The pick of [autoAssignTeam] is the first of the least populated
    houses. *)
Definition first_least (w : World) (t : Team) : Prop :=
  exists i, Server.teams w !! i = Some t
    /\ (forall j t', Server.teams w !! j = Some t' ->
          (enrolled w (t_id t) <= enrolled w (t_id t'))%nat)
    /\ (forall j t', (j < i)%nat -> Server.teams w !! j = Some t' ->
          (enrolled w (t_id t) < enrolled w (t_id t'))%nat).

(** After [n] arrivals no house is above its share. *)
Definition balanced (n : nat) (w : World) : Prop :=
  let houses := t_id <$> Server.teams w in
  NoDup houses /\ houses <> [] /\ seated w
  /\ (List.length (quidditchPlayers w) <= n)%nat
  /\ forall tid, tid ∈ houses ->
       (enrolled w tid <= GameSpec.ceil_div n (List.length houses))%nat.

(** Five arrivals, a pickup and a game loop; nobody leaves. *)
Definition gathering : list ServerEvent :=
  [Joined "1" 1; Joined "2" 1; Command 1000 "1"; Loop 1016 1016 (1 / 60);
   Joined "3" 1; Joined "4" 1; Joined "5" 1]%float.

Definition gathered : World :=
  default opened (served (M := refMath) gathering opened).
(** *** The floor *)

(** No registered player state refers to the ball at [bi]. *)
Definition unheld (bi : nat) (w : World) : Prop :=
  forall r s, r ∈ registered w -> objects w !! r = Some s -> carryingBall s <> Some bi.

(** The ball at [bi] has no owner and is not below the floor. *)
Definition afloat (bi : nat) (w : World) : Prop :=
  exists b, Server.balls w !! bi = Some b /\ owner b = None
            /\ (y (position b) <? 51) = false.

Definition loose (bi : nat) (w : World) : Prop := unheld bi w /\ afloat bi w.

End ServerSpec.

(** ** Facts about doubles

    Division, read through the specification of binary64 arithmetic: the
    quotient of non-negative mantissas is non-negative, rounding a
    non-negative mantissa does not produce [NaN], and rounding a mantissa
    whose magnitude is below the largest exponent does not overflow. *)

Section Doubles.

Local Open Scope float_scope.

Lemma shr_1_nonneg mrs : (0 <= shr_m mrs)%Z -> (0 <= shr_m (shr_1 mrs))%Z.
Proof.
  destruct mrs as [m r s]. simpl. intros H.
  destruct m as [|[p|p|]|p]; simpl; lia.
Qed.

Lemma iter_shr_1_nonneg p : forall mrs,
  (0 <= shr_m mrs)%Z -> (0 <= shr_m (SpecFloat.iter_pos shr_1 p mrs))%Z.
Proof.
  induction p as [p IH|p IH|]; intros mrs H; simpl.
  - apply IH, IH, shr_1_nonneg, H.
  - apply IH, IH, H.
  - apply shr_1_nonneg, H.
Qed.

Lemma shr_fexp_nonneg m e l :
  (0 <= m)%Z -> (0 <= shr_m (fst (shr_fexp prec emax m e l)))%Z.
Proof.
  intros H. unfold shr_fexp, shr.
  assert (H0 : (0 <= shr_m (shr_record_of_loc m l))%Z)
    by (destruct l as [|[| |]]; exact H).
  destruct (_ - e)%Z; simpl; auto.
  apply iter_shr_1_nonneg, H0.
Qed.

Lemma round_nearest_even_nonneg m l :
  (0 <= m)%Z -> (0 <= round_nearest_even m l)%Z.
Proof.
  intros H. unfold round_nearest_even.
  destruct l as [|[| |]]; try destruct (Z.even m); lia.
Qed.

Lemma binary_round_aux_not_nan s m e l :
  (0 <= m)%Z -> binary_round_aux prec emax s m e l <> S754_nan.
Proof.
  intros H. unfold binary_round_aux.
  pose proof (shr_fexp_nonneg m e l H) as H1.
  destruct (shr_fexp prec emax m e l) as [mrs' e'] eqn:E1. simpl in H1.
  pose proof (shr_fexp_nonneg
                (round_nearest_even (shr_m mrs') (loc_of_shr_record mrs')) e' loc_Exact
                (round_nearest_even_nonneg _ _ H1)) as H2.
  destruct (shr_fexp prec emax _ e' loc_Exact) as [mrs'' e''] eqn:E2. simpl in H2.
  destruct (shr_m mrs''); try discriminate; [destruct (_ <=? _)%Z; discriminate | lia].
Qed.

Lemma SFdiv_core_nonneg mx ex my ey :
  (0 <= fst (fst (SFdiv_core_binary prec emax (Zpos mx) ex (Zpos my) ey)))%Z.
Proof.
  unfold SFdiv_core_binary.
  set (s := (ex - ey - _)%Z).
  set (m' := match s with Z0 => Zpos mx | Zpos _ => Z.shiftl (Zpos mx) s | Zneg _ => Z0 end).
  assert (Hm : (0 <= m')%Z).
  { subst m'. destruct s; try lia. apply Z.shiftl_nonneg. lia. }
  pose proof (Z.div_pos m' (Zpos my) Hm ltac:(lia)) as Hq.
  unfold Z.div in Hq. destruct (Z.div_eucl m' (Zpos my)) as [q r]. exact Hq.
Qed.

Lemma SFdiv_not_nan (a b : spec_float) :
  a <> S754_nan -> (forall s, a <> S754_infinity s) ->
  b <> S754_nan -> (forall s, b <> S754_zero s) ->
  SFdiv prec emax a b <> S754_nan.
Proof.
  intros Ha1 Ha2 Hb1 Hb2.
  destruct a as [sa|sa| |sa ma ea]; try congruence; [|]; 
    destruct b as [sb|sb| |sb mb eb]; try congruence; simpl; try discriminate;
    try (exfalso; eapply Hb2; reflexivity); try (exfalso; eapply Ha2; reflexivity).
  pose proof (SFdiv_core_nonneg ma ea mb eb) as Hq.
  destruct (SFdiv_core_binary prec emax (Zpos ma) ea (Zpos mb) eb) as [[mz ez] lz].
  apply binary_round_aux_not_nan. exact Hq.
Qed.

Section Exponents.

Local Open Scope Z_scope.

Lemma digits_shr_1 mrs :
  0 <= shr_m mrs ->
  0 <= shr_m (shr_1 mrs)
  /\ Zdigits2 (shr_m (shr_1 mrs)) = Z.max 0 (Zdigits2 (shr_m mrs) - 1).
Proof.
  destruct mrs as [m r s]. cbn [shr_m]. intros H.
  destruct m as [|[p|p|]|p]; cbn [shr_1 shr_m Zdigits2 digits2_pos]; lia.
Qed.

Lemma digits_iter_shr_1 p : forall mrs,
  0 <= shr_m mrs ->
  0 <= shr_m (SpecFloat.iter_pos shr_1 p mrs)
  /\ Zdigits2 (shr_m (SpecFloat.iter_pos shr_1 p mrs))
     = Z.max 0 (Zdigits2 (shr_m mrs) - Zpos p).
Proof.
  induction p as [p IH|p IH|]; intros mrs H; simpl.
  - destruct (digits_shr_1 mrs H) as [H1 E1].
    destruct (IH _ H1) as [H2 E2]. destruct (IH _ H2) as [H3 E3].
    split; [exact H3|]. rewrite E3, E2, E1. lia.
  - destruct (IH _ H) as [H2 E2]. destruct (IH _ H2) as [H3 E3].
    split; [exact H3|]. rewrite E3, E2. lia.
  - apply digits_shr_1, H.
Qed.

Lemma Zdigits2_nonneg m : 0 <= Zdigits2 m.
Proof. destruct m; simpl; lia. Qed.

(** After [shr_fexp] the exponent and the magnitude stay below the bounds. *)
Lemma shr_fexp_bound m e l (B : Z) :
  0 <= m -> e <= B - prec -> Zdigits2 m + e <= B -> SpecFloat.emin prec emax <= B - prec ->
  let r := shr_fexp prec emax m e l in
  0 <= shr_m (fst r) /\ snd r <= B - prec /\ Zdigits2 (shr_m (fst r)) + snd r <= B.
Proof.
  intros Hm He Hd Hmin. unfold shr_fexp, shr.
  assert (Hp : prec = 53) by reflexivity.
  assert (H0 : shr_m (shr_record_of_loc m l) = m) by (destruct l as [|[| |]]; reflexivity).
  destruct (fexp prec emax (Zdigits2 m + e) - e) as [|n|n] eqn:En; cbn [fst snd];
    rewrite ?H0; try (repeat split; lia).
  destruct (digits_iter_shr_1 n (shr_record_of_loc m l)) as [H1 E1]; [rewrite H0; exact Hm|].
  rewrite H0 in E1. split; [exact H1|]. rewrite E1.
  unfold fexp in En. pose proof (Zdigits2_nonneg m). lia.
Qed.

Lemma digits2_pos_succ p : (digits2_pos (Pos.succ p) <= Pos.succ (digits2_pos p))%positive.
Proof.
  induction p as [p IH|p IH|]; simpl; lia.
Qed.

Lemma digits_round m l :
  0 <= m ->
  0 <= round_nearest_even m l
  /\ Zdigits2 (round_nearest_even m l) <= Zdigits2 m + 1.
Proof.
  intros H.
  assert (Hs : Zdigits2 (m + 1) <= Zdigits2 m + 1).
  { destruct m as [|p|p]; simpl; try lia.
    rewrite Pos.add_1_r. pose proof (digits2_pos_succ p). lia. }
  unfold round_nearest_even.
  destruct l as [|[| |]]; try destruct (Z.even m); split; lia.
Qed.

Lemma binary_round_aux_finite s m e l :
  0 <= m -> e <= emax - 1 - prec -> Zdigits2 m + e <= emax - 1 ->
  match binary_round_aux prec emax s m e l with
  | S754_zero _ | S754_finite _ _ _ => True
  | _ => False
  end.
Proof.
  intros Hm He Hd. unfold binary_round_aux.
  assert (Hp : prec = 53) by reflexivity.
  assert (Hx : emax = 1024) by reflexivity.
  pose proof (shr_fexp_bound m e l (emax - 1) Hm He Hd ltac:(vm_compute; discriminate)) as H1.
  destruct (shr_fexp prec emax m e l) as [mrs' e'] eqn:E1.
  cbn [fst snd] in H1. destruct H1 as (H1m & H1e & H1d).
  destruct (digits_round (shr_m mrs') (loc_of_shr_record mrs') H1m) as [Hr Hrd].
  pose proof (shr_fexp_bound _ e' loc_Exact emax Hr ltac:(lia) ltac:(lia)
                ltac:(vm_compute; discriminate)) as H2.
  destruct (shr_fexp prec emax _ e' loc_Exact) as [mrs'' e''] eqn:E2.
  cbn [fst snd] in H2. destruct H2 as (H2m & H2e & H2d).
  destruct (shr_m mrs''); [exact I| |lia].
  destruct (Z.leb_spec e'' (emax - prec)); [exact I | lia].
Qed.

Lemma digits2_pos_size p : digits2_pos p = Pos.size p.
Proof. induction p; simpl; congruence. Qed.

Lemma Zdigits2_log2 p : Zdigits2 (Zpos p) = Z.log2 (Zpos p) + 1.
Proof.
  destruct p as [p|p|]; cbn [Zdigits2 digits2_pos Z.log2];
    rewrite ?digits2_pos_size; lia.
Qed.

Lemma Zdigits2_mono a b : 0 <= a <= b -> Zdigits2 a <= Zdigits2 b.
Proof.
  intros [Ha Hab]. destruct a as [|p|p]; [apply Zdigits2_nonneg| |lia].
  destruct b as [|q|q]; try lia. rewrite !Zdigits2_log2.
  pose proof (Z.log2_le_mono (Zpos p) (Zpos q) Hab). lia.
Qed.

Lemma Zdigits2_double m : 0 < m -> Zdigits2 (2 * m) = Zdigits2 m + 1.
Proof.
  destruct m as [|p|p]; try lia. intros _.
  change (2 * Z.pos p) with (Z.pos p~0). cbn [Zdigits2 digits2_pos]. lia.
Qed.

Lemma Zdigits2_shiftl p n :
  Zdigits2 (Z.shiftl (Zpos p) (Zpos n)) = Zpos (digits2_pos p) + Zpos n
  /\ 0 < Z.shiftl (Zpos p) (Zpos n).
Proof.
  unfold Z.shiftl.
  induction n as [|n IH] using Pos.peano_ind.
  - cbn [Pos.iter]. rewrite Zdigits2_double by lia. cbn [Zdigits2]. lia.
  - rewrite Pos.iter_succ. destruct IH as [IH1 IH2].
    set (v := Pos.iter (Z.mul 2) (Zpos p) n) in *.
    split; [rewrite Zdigits2_double by exact IH2; lia | lia].
Qed.

Lemma SFdiv_core_bound mx ex my ey :
  ex <= ey -> Zpos (digits2_pos mx) <= prec ->
  let r := SFdiv_core_binary prec emax (Zpos mx) ex (Zpos my) ey in
  0 <= fst (fst r) /\ snd (fst r) <= 0 /\ Zdigits2 (fst (fst r)) + snd (fst r) <= prec.
Proof.
  intros Hexp Hdig. unfold SFdiv_core_binary.
  set (e' := Z.min _ (ex - ey)).
  assert (He' : e' <= ex - ey) by (subst e'; lia).
  remember (ex - ey - e') as s eqn:Hs.
  set (m' := match s with Z0 => Zpos mx | Zpos _ => Z.shiftl (Zpos mx) s | Zneg _ => Z0 end).
  assert (Hm : 0 <= m' /\ Zdigits2 m' + e' <= prec).
  { subst m'. destruct s as [|n|n]; [cbn [Zdigits2]; lia| |lia].
    destruct (Zdigits2_shiftl mx n) as [E Hpos]. rewrite E. lia. }
  destruct Hm as [Hm Hd].
  pose proof (Z.div_pos m' (Zpos my) Hm ltac:(lia)) as Hq.
  assert (Hle : m' / Zpos my <= m').
  { apply Z.div_le_upper_bound; nia. }
  unfold Z.div in Hq, Hle. destruct (Z.div_eucl m' (Zpos my)) as [q r].
  cbn [fst snd] in *.
  split; [exact Hq|]. split; [lia|].
  pose proof (Zdigits2_mono q m' (conj Hq Hle)). lia.
Qed.

Lemma valid_digits s m e :
  valid_binary (S754_finite s m e) = true -> Zpos (digits2_pos m) <= prec.
Proof.
  simpl. unfold bounded, canonical_mantissa, fexp. intros H.
  apply andb_prop in H as [H _]. apply Z.eqb_eq in H. lia.
Qed.

(** The quotient of a finite number by one of at least its magnitude is
    a zero or a finite number. *)
Lemma SFdiv_finite (a b : spec_float) :
  valid_binary a = true ->
  a <> S754_nan -> (forall s, a <> S754_infinity s) ->
  (forall s, b <> S754_zero s) ->
  SFleb (SFabs a) b = true ->
  match SFdiv prec emax a b with
  | S754_zero _ | S754_finite _ _ _ => True
  | _ => False
  end.
Proof.
  intros Hv Ha1 Ha2 Hb Hle.
  destruct a as [sa|sa| |sa ma ea];
    [|exfalso; eapply Ha2; reflexivity|congruence|].
  - destruct b as [sb|sb| |sb mb eb]; cbn [SFdiv]; try exact I.
    + exfalso; eapply Hb; reflexivity.
    + discriminate Hle.
  - destruct b as [sb|sb| |sb mb eb]; try exact I.
    + exfalso; eapply Hb; reflexivity.
    + discriminate Hle.
    + unfold SFleb in Hle. cbn [SFabs SFcompare] in Hle.
      destruct sb; [discriminate Hle|].
      assert (Hexp : ea <= eb).
      { destruct (Z.compare_spec ea eb); try lia; discriminate Hle. }
      pose proof (SFdiv_core_bound ma ea mb eb Hexp (valid_digits _ _ _ Hv)) as Hc.
      cbn [SFdiv].
      destruct (SFdiv_core_binary prec emax (Zpos ma) ea (Zpos mb) eb) as [[mz ez] lz].
      cbn [fst snd] in Hc. destruct Hc as (Hm & He & Hd).
      assert (Hp : prec = 53) by reflexivity.
      assert (Hx : emax = 1024) by reflexivity.
      apply binary_round_aux_finite; lia.
Qed.

End Exponents.

Lemma Prim2SF_nan (f : float) : Prim2SF f = S754_nan -> is_nan f = true.
Proof.
  unfold Prim2SF. destruct (is_nan f); [reflexivity|].
  destruct (is_zero f); [discriminate|].
  destruct (is_infinity f); [discriminate|].
  destruct (Z.frexp f) as [r e].
  destruct (shr_fexp _ _ _ _ _) as [sh e'].
  destruct (shr_m sh); discriminate.
Qed.

Lemma Prim2SF_of_nan (f : float) : is_nan f = true -> Prim2SF f = S754_nan.
Proof. unfold Prim2SF. intros ->. reflexivity. Qed.

Lemma Prim2SF_infinity (f : float) s :
  Prim2SF f = S754_infinity s -> is_infinity f = true.
Proof.
  unfold Prim2SF. destruct (is_nan f); [discriminate|].
  destruct (is_zero f); [discriminate|].
  destruct (is_infinity f); [reflexivity|].
  destruct (Z.frexp f) as [r e].
  destruct (shr_fexp _ _ _ _ _) as [sh e'].
  destruct (shr_m sh); discriminate.
Qed.

Lemma Prim2SF_zero (f : float) s : Prim2SF f = S754_zero s -> (f =? 0) = true.
Proof.
  intros H. rewrite <- (SF2Prim_Prim2SF f), H.
  destruct s; reflexivity.
Qed.

(** A finite number divided by a number that is neither zero nor [NaN]
    is not [NaN]. *)
Lemma div_not_nan (a b : float) :
  is_nan a = false -> is_infinity a = false ->
  (b =? 0) = false -> is_nan b = false ->
  is_nan (a / b) = false.
Proof.
  intros Ha1 Ha2 Hb1 Hb2.
  destruct (is_nan (a / b)) eqn:E; [|reflexivity].
  apply Prim2SF_of_nan in E. rewrite div_spec in E.
  exfalso. revert E. apply SFdiv_not_nan.
  - intros H. apply Prim2SF_nan in H. congruence.
  - intros s H. apply Prim2SF_infinity in H. congruence.
  - intros H. apply Prim2SF_nan in H. congruence.
  - intros s H. apply Prim2SF_zero in H. congruence.
Qed.

Lemma Prim2SF_of_infinity (f : float) :
  is_nan f = false -> is_infinity f = true -> exists s, Prim2SF f = S754_infinity s.
Proof.
  intros Hn Hi. unfold Prim2SF. rewrite Hn.
  destruct (is_zero f) eqn:Hz.
  - exfalso. assert (E : Prim2SF f = S754_zero (get_sign f)).
    { unfold Prim2SF. rewrite Hn, Hz. reflexivity. }
    rewrite <- (SF2Prim_Prim2SF f), E in Hi. destruct (get_sign f); discriminate.
  - rewrite Hi. eexists. reflexivity.
Qed.

(** A finite number divided by a nonzero number of at least its magnitude
    is finite. *)
Lemma div_finite (a b : float) :
  Js.finite a = true -> (abs a <=? b) = true -> (b =? 0) = false ->
  Js.finite (a / b) = true.
Proof.
  unfold Js.finite. intros Ha Hle Hb.
  apply andb_prop in Ha as [Ha1 Ha2].
  apply negb_true_iff in Ha1, Ha2.
  rewrite leb_spec, abs_spec in Hle.
  pose proof (SFdiv_finite (Prim2SF a) (Prim2SF b) (Prim2SF_valid a)) as H.
  rewrite <- div_spec in H.
  assert (Hres : match Prim2SF (a / b) with
                 | S754_zero _ | S754_finite _ _ _ => True
                 | _ => False
                 end).
  { apply H; auto.
    - intros E. apply Prim2SF_nan in E. congruence.
    - intros s E. apply Prim2SF_infinity in E. congruence.
    - intros s E. apply Prim2SF_zero in E. congruence. }
  destruct (is_nan (a / b)) eqn:En.
  - rewrite (Prim2SF_of_nan _ En) in Hres. destruct Hres.
  - destruct (is_infinity (a / b)) eqn:Ei; [|reflexivity].
    destruct (Prim2SF_of_infinity _ En Ei) as [s E]. rewrite E in Hres. destruct Hres.
Qed.

Lemma leb_not_nan (a L : float) : (a <=? L) = true -> is_nan L = false.
Proof.
  intros H. destruct (is_nan L) eqn:E; [|reflexivity].
  rewrite leb_spec, (Prim2SF_of_nan L E) in H.
  unfold SFleb, SFcompare in H. destruct (Prim2SF a); discriminate.
Qed.

Lemma leb_zero_one (a L : float) :
  (abs a <=? L) = true -> (L =? 0) = true -> (abs a <=? 1) = true.
Proof.
  intros Hle Hz. rewrite leb_spec, abs_spec in *.
  rewrite FloatAxioms.eqb_spec in Hz.
  change (Prim2SF 0) with (S754_zero false) in Hz.
  change (Prim2SF 1) with (S754_finite false 4503599627370496 (-52)).
  destruct (Prim2SF L) as [sl|sl| |sl ml el]; try discriminate Hz;
    try (destruct sl; discriminate Hz).
  destruct (Prim2SF a) as [sa|sa| |sa ma ea]; try discriminate Hle; reflexivity.
Qed.

Lemma finite_spec (f : float) : Js.finite f = true <-> Js.SFfinite (Prim2SF f).
Proof.
  unfold Js.finite. split.
  - intros H. apply andb_prop in H as [Hn Hi]. apply negb_true_iff in Hn, Hi.
    unfold Prim2SF. rewrite Hn, Hi. destruct (is_zero f); [exact I|].
    destruct (Z.frexp f) as [r e].
    destruct (shr_fexp _ _ _ _ _) as [sh e'].
    destruct (shr_m sh); exact I.
  - intros H. destruct (is_nan f) eqn:En.
    + rewrite (Prim2SF_of_nan _ En) in H. destruct H.
    + destruct (is_infinity f) eqn:Ei; [|reflexivity].
      destruct (Prim2SF_of_infinity _ En Ei) as [s E]. rewrite E in H. destruct H.
Qed.

Lemma binary_round_sign s s' m e :
  Js.SFfinite (binary_round prec emax s m e) -> Js.SFfinite (binary_round prec emax s' m e).
Proof.
  unfold binary_round, binary_round_aux.
  destruct (shl_align _ _ _) as [mz ez].
  destruct (shr_fexp prec emax (Zpos mz) ez loc_Exact) as [mrs' e'].
  destruct (shr_fexp prec emax _ e' loc_Exact) as [mrs'' e''].
  destruct (shr_m mrs''); try exact (fun H => H).
  destruct (_ <=? _)%Z; exact (fun H => H).
Qed.

Lemma binary_normalize_opp m e :
  Js.SFfinite (binary_normalize prec emax m e false) ->
  Js.SFfinite (binary_normalize prec emax (- m) e false).
Proof.
  destruct m as [|p|p]; cbn [binary_normalize Z.opp]; try exact (fun H => H);
    apply binary_round_sign.
Qed.

Lemma SFsub_swap (a b : spec_float) :
  Js.SFfinite (SFsub prec emax a b) -> Js.SFfinite (SFsub prec emax b a).
Proof.
  destruct a as [sa|sa| |sa ma ea], b as [sb|sb| |sb mb eb]; cbn [SFsub Js.SFfinite];
    try exact (fun H => H); try (destruct sa, sb; exact (fun H => H)).
  rewrite (Z.min_comm eb ea).
  set (A := cond_Zopp sa _). set (B := cond_Zopp sb _).
  replace (B - A)%Z with (- (A - B))%Z by lia.
  apply binary_normalize_opp.
Qed.

(** Subtraction overflows in both orders or in neither. *)
Lemma sub_swap_finite (a b : float) : Js.finite (a - b) = true -> Js.finite (b - a) = true.
Proof.
  rewrite !finite_spec, !sub_spec. apply SFsub_swap.
Qed.

(** A number below some bound in magnitude is finite. *)
Lemma below_bound_finite (a d r : float) :
  (abs a <=? d) = true -> (d <? r) = true -> Js.finite a = true.
Proof.
  rewrite leb_spec, ltb_spec, abs_spec, finite_spec.
  unfold SFleb, SFltb.
  destruct (Prim2SF a) as [sa|sa| |sa ma ea], (Prim2SF d) as [sd|sd| |sd md ed];
    cbn [SFabs SFcompare Js.SFfinite]; try discriminate; try (intros; exact I).
  - destruct sd; try discriminate.
    destruct (Prim2SF r) as [sr|sr| |sr mr er]; cbn [SFcompare]; try discriminate;
     destruct sr; discriminate.
Qed.

Lemma sub_self (a : float) : Js.finite a = true -> a - a = 0.
Proof.
  rewrite finite_spec. intros H. apply Prim2SF_inj. rewrite sub_spec.
  change (Prim2SF 0) with (S754_zero false).
  destruct (Prim2SF a) as [sa|sa| |sa ma ea]; try destruct H.
  - destruct sa; reflexivity.
  - unfold SF64sub, SFsub. rewrite Z.sub_diag. reflexivity.
Qed.

End Doubles.

(** ** The order of binary64 values *)

Section Order.

Local Open Scope float_scope.

Lemma SFltb_trans (a b c : spec_float) :
  SFltb a b = true -> SFltb b c = true -> SFltb a c = true.
Proof.
  unfold SFltb, SFcompare.
  destruct a as [sa|sa| |sa ma ea], b as [sb|sb| |sb mb eb], c as [sc|sc| |sc mc ec];
    try destruct sa; try destruct sb; try destruct sc;
    intros H1 H2; try discriminate; try reflexivity;
    change (Pos.compare_cont Eq ma mb) with (Pos.compare ma mb) in *;
    change (Pos.compare_cont Eq mb mc) with (Pos.compare mb mc) in *;
    change (Pos.compare_cont Eq ma mc) with (Pos.compare ma mc) in *;
    destruct (Z.compare_spec ea eb), (Z.compare_spec eb ec), (Z.compare_spec ea ec);
    try discriminate; try reflexivity; try lia;
    destruct (Pos.compare_spec ma mb), (Pos.compare_spec mb mc), (Pos.compare_spec ma mc);
    simpl in *; try discriminate; try reflexivity; try lia.
Qed.

Lemma SFeqb_ltb (a b c : spec_float) :
  SFeqb a b = true -> SFltb b c = true -> SFltb a c = true.
Proof.
  unfold SFeqb, SFltb, SFcompare.
  destruct a as [sa|sa| |sa ma ea], b as [sb|sb| |sb mb eb], c as [sc|sc| |sc mc ec];
    try destruct sa; try destruct sb; try destruct sc;
    intros H1 H2; try discriminate; try reflexivity;
    change (Pos.compare_cont Eq ma mb) with (Pos.compare ma mb) in *;
    change (Pos.compare_cont Eq mb mc) with (Pos.compare mb mc) in *;
    change (Pos.compare_cont Eq ma mc) with (Pos.compare ma mc) in *;
    destruct (Z.compare_spec ea eb), (Z.compare_spec eb ec), (Z.compare_spec ea ec);
    try discriminate; try reflexivity; try lia;
    destruct (Pos.compare_spec ma mb), (Pos.compare_spec mb mc), (Pos.compare_spec ma mc);
    simpl in *; try discriminate; try reflexivity; try lia.
Qed.

Lemma SFltb_irrefl (a : spec_float) : SFltb a a = false.
Proof.
  unfold SFltb, SFcompare.
  destruct a as [s|s| |s m e]; try destruct s; try reflexivity;
    rewrite Z.compare_refl;
    change (Pos.compare_cont Eq m m) with (Pos.compare m m);
    rewrite Pos.compare_refl; reflexivity.
Qed.

Lemma ltb_trans (a b c : float) :
  (a <? b) = true -> (b <? c) = true -> (a <? c) = true.
Proof. rewrite !ltb_spec. apply SFltb_trans. Qed.

Lemma eqb_ltb (a b c : float) :
  (a =? b) = true -> (b <? c) = true -> (a <? c) = true.
Proof. rewrite FloatAxioms.eqb_spec, !ltb_spec. apply SFeqb_ltb. Qed.

Lemma ltb_irrefl (a : float) : (a <? a) = false.
Proof. rewrite ltb_spec. apply SFltb_irrefl. Qed.

(** What is not below a bound is not below anything under the bound. *)
Lemma not_below_trans (a b c : float) :
  (a <? b) = false -> (c <? b) = true -> (a <? c) = false.
Proof.
  intros H1 H2. destruct (a <? c) eqn:E; [|reflexivity].
  rewrite (ltb_trans a c b E H2) in H1. discriminate.
Qed.

Lemma not_below_differs (a b c : float) :
  (a <? b) = false -> (c <? b) = true -> (a =? c) = false.
Proof.
  intros H1 H2. destruct (a =? c) eqn:E; [|reflexivity].
  rewrite (eqb_ltb a c b E H2) in H1. discriminate.
Qed.

End Order.

(** ** [Math.min] and [Math.max] *)

Section MinMax.

Local Open Scope float_scope.

Lemma ltb_asym (a b : float) : (a <? b) = true -> (b <? a) = false.
Proof.
  intros H. destruct (b <? a) eqn:E; [|reflexivity].
  pose proof (ltb_trans a b a H E) as F. rewrite ltb_irrefl in F. discriminate.
Qed.

Lemma ltb_nan_r (a b : float) : is_nan b = true -> (a <? b) = false.
Proof.
  intros H. rewrite ltb_spec, (Prim2SF_of_nan b H).
  unfold SFltb, SFcompare. destruct (Prim2SF a); reflexivity.
Qed.

Lemma ltb_nan_l (a b : float) : is_nan a = true -> (a <? b) = false.
Proof.
  intros H. rewrite ltb_spec, (Prim2SF_of_nan a H). reflexivity.
Qed.

Lemma Prim2SF_of_zero (a : float) :
  is_nan a = false -> is_zero a = true -> Prim2SF a = S754_zero (get_sign a).
Proof. intros Hn Hz. unfold Prim2SF. rewrite Hn, Hz. reflexivity. Qed.

Lemma ltb_zero_r (a b c : float) :
  is_nan a = false -> is_nan b = false -> is_zero a = true -> is_zero b = true ->
  (c <? b) = (c <? a).
Proof.
  intros Ha Hb Za Zb.
  rewrite !ltb_spec, (Prim2SF_of_zero a Ha Za), (Prim2SF_of_zero b Hb Zb).
  unfold SFltb, SFcompare. destruct (Prim2SF c) as [s|s| |s m e]; reflexivity.
Qed.

Lemma ltb_zero_l (a b c : float) :
  is_nan a = false -> is_nan b = false -> is_zero a = true -> is_zero b = true ->
  (b <? c) = (a <? c).
Proof.
  intros Ha Hb Za Zb.
  rewrite !ltb_spec, (Prim2SF_of_zero a Ha Za), (Prim2SF_of_zero b Hb Zb).
  unfold SFltb, SFcompare. destruct (Prim2SF c) as [s|s| |s m e]; reflexivity.
Qed.

Lemma min_nan (a b : float) :
  is_nan a = true \/ is_nan b = true -> is_nan (Js.min a b) = true.
Proof.
  unfold Js.min. destruct (is_nan a) eqn:Ea; [auto|].
  intros [H|H]; [discriminate|]. rewrite H. exact H.
Qed.

Lemma max_nan (a b : float) :
  is_nan a = true \/ is_nan b = true -> is_nan (Js.max a b) = true.
Proof.
  unfold Js.max. destruct (is_nan a) eqn:Ea; [auto|].
  intros [H|H]; [discriminate|]. rewrite H. exact H.
Qed.

Lemma min_below (c a b : float) :
  (c <? a) = false -> (c <? Js.min a b) = false.
Proof.
  intros H. unfold Js.min.
  destruct (is_nan a) eqn:Ea; [exact H|].
  destruct (is_nan b) eqn:Eb; [apply ltb_nan_r; exact Eb|].
  destruct (a <? b); [exact H|].
  destruct (b <? a) eqn:E; [exact (not_below_trans _ _ _ H E)|].
  destruct (is_zero a && is_zero b) eqn:Z; [|exact H].
  apply andb_true_iff in Z as [Za Zb].
  destruct (get_sign a); [exact H|].
  rewrite (ltb_zero_r a b c Ea Eb Za Zb). exact H.
Qed.

Lemma min_below_r (a b : float) : (b <? Js.min a b) = false.
Proof.
  unfold Js.min.
  destruct (is_nan a) eqn:Ea; [apply ltb_nan_r; exact Ea|].
  destruct (is_nan b) eqn:Eb; [apply ltb_irrefl|].
  destruct (a <? b) eqn:E1; [apply ltb_asym; exact E1|].
  destruct (b <? a) eqn:E2; [apply ltb_irrefl|].
  destruct (is_zero a && is_zero b); [|exact E2].
  destruct (get_sign a); [exact E2|apply ltb_irrefl].
Qed.

Lemma max_above (c a b : float) :
  (a <? c) = false -> (Js.max a b <? c) = false.
Proof.
  intros H. unfold Js.max.
  destruct (is_nan a) eqn:Ea; [exact H|].
  destruct (is_nan b) eqn:Eb; [apply ltb_nan_l; exact Eb|].
  destruct (a <? b) eqn:E1.
  - destruct (b <? c) eqn:E; [|reflexivity].
    rewrite (ltb_trans _ _ _ E1 E) in H. discriminate.
  - destruct (b <? a) eqn:E; [exact H|].
    destruct (is_zero a && is_zero b) eqn:Z; [|exact H].
    apply andb_true_iff in Z as [Za Zb].
    destruct (get_sign a); [|exact H].
    rewrite (ltb_zero_l a b c Ea Eb Za Zb). exact H.
Qed.

Lemma max_above_r (a b : float) : (Js.max a b <? b) = false.
Proof.
  unfold Js.max.
  destruct (is_nan a) eqn:Ea; [apply ltb_nan_l; exact Ea|].
  destruct (is_nan b) eqn:Eb; [apply ltb_irrefl|].
  destruct (a <? b) eqn:E1; [apply ltb_irrefl|].
  destruct (b <? a) eqn:E2; [apply ltb_asym; exact E2|].
  destruct (is_zero a && is_zero b); [|exact E1].
  destruct (get_sign a); [apply ltb_irrefl|exact E1].
Qed.

End MinMax.

(** ** Facts about the containers *)

Section ContainerFacts.

Context {A : Type}.

Lemma find_index_Some (f : A -> bool) (l : list A) (i : nat) :
  find_index f l = Some i ->
  exists a, l !! i = Some a /\ f a = true
            /\ forall j b, j < i -> l !! j = Some b -> f b = false.
Proof.
  revert i. induction l as [|a l IH]; intros i H; simpl in H; [discriminate|].
  destruct (f a) eqn:Hfa.
  - injection H as <-. exists a. repeat split; auto. intros j b Hj. lia.
  - destruct (find_index f l) as [k|] eqn:Hk; simpl in H; [|discriminate].
    injection H as <-. destruct (IH k eq_refl) as (a' & Ha' & Hf & Hlt).
    exists a'. repeat split; auto.
    intros [|j] b Hj Hb; simpl in Hb.
    + injection Hb as <-. exact Hfa.
    + apply (Hlt j); auto. lia.
Qed.

Lemma find_index_None (f : A -> bool) (l : list A) :
  find_index f l = None -> forall j b, l !! j = Some b -> f b = false.
Proof.
  induction l as [|a l IH]; intros H j b Hb; simpl in *; [discriminate|].
  destruct (f a) eqn:Hfa; [discriminate|].
  destruct (find_index f l) eqn:Hk; simpl in H; [discriminate|].
  destruct j as [|j]; simpl in Hb.
  - injection Hb as <-. exact Hfa.
  - eapply IH; eauto.
Qed.

Lemma find_index_lt (f : A -> bool) (l : list A) (i : nat) :
  find_index f l = Some i -> i < List.length l.
Proof.
  intros H. destruct (find_index_Some _ _ _ H) as (a & Ha & _).
  eapply lookup_lt_Some; eauto.
Qed.

Lemma map_get_index (m : jsmap A) (k : string) (v : A) :
  map_get m k = Some v ->
  exists i, map_index m k = Some i /\ snd <$> m !! i = Some v.
Proof.
  unfold map_get, map_index.
  induction m as [|[k' v'] m IH]; simpl; [discriminate|].
  destruct (String.eqb k' k).
  - simpl. intros [= <-]. exists 0. auto.
  - intros H. destruct (IH H) as (i & Hi & Hv).
    exists (S i). rewrite Hi. auto.
Qed.

Lemma map_index_get (m : jsmap A) (k : string) (i : nat) :
  map_index m k = Some i -> map_get m k = snd <$> m !! i.
Proof.
  unfold map_get, map_index. revert i.
  induction m as [|[k' v'] m IH]; simpl; intros i; [discriminate|].
  destruct (String.eqb k' k).
  - intros [= <-]. reflexivity.
  - destruct (find_index _ m) as [j|] eqn:Hj; simpl; [|discriminate].
    intros [= <-]. simpl. apply IH. reflexivity.
Qed.

Lemma map_index_alter (m : jsmap A) (k : string) (i : nat) (f : A -> A) :
  map_index (alter (fun e => (fst e, f (snd e))) i m) k = map_index m k.
Proof.
  unfold map_index. revert i.
  induction m as [|[k' v'] m IH]; intros i; [reflexivity|].
  destruct i as [|i]; simpl.
  - reflexivity.
  - destruct (String.eqb k' k); [reflexivity|].
    f_equal. apply IH.
Qed.

Lemma map_get_alter (m : jsmap A) (k : string) (i : nat) (f : A -> A) :
  map_index m k = Some i ->
  map_get (alter (fun e => (fst e, f (snd e))) i m) k = f <$> map_get m k.
Proof.
  unfold map_index, map_get. revert i.
  induction m as [|[k' v'] m IH]; intros i; simpl; [discriminate|].
  destruct (String.eqb k' k) eqn:E.
  - intros [= <-]. simpl. rewrite E. reflexivity.
  - destruct (find_index _ m) as [j|] eqn:Hj; simpl; [|discriminate].
    intros [= <-]. simpl. rewrite E. apply IH. reflexivity.
Qed.

Lemma alter_const_insert (l : list A) (i : nat) (a : A) :
  alter (fun _ => a) i l = <[i := a]> l.
Proof.
  revert i. induction l as [|b l IH]; intros [|i]; simpl; try reflexivity.
  f_equal. apply IH.
Qed.

Lemma fmap_alter_frame {B} (f : A -> B) (g : A -> A) (l : list A) (i : nat) :
  (forall a, f (g a) = f a) -> f <$> alter g i l = f <$> l.
Proof.
  intros H. revert i. induction l as [|b l IH]; intros [|i]; simpl; try reflexivity.
  - rewrite H. reflexivity.
  - f_equal. apply IH.
Qed.

Lemma fmap_alter_set {B} (f : A -> B) (g : A -> A) (l : list A) (i : nat) (b : B) :
  (forall a, f (g a) = b) -> f <$> alter g i l = <[i := b]> (f <$> l).
Proof.
  intros H. revert i. induction l as [|c l IH]; intros [|i]; simpl; try reflexivity.
  - rewrite H. reflexivity.
  - f_equal. apply IH.
Qed.

Lemma find_index_alter (f : A -> bool) (g : A -> A) (l : list A) (i : nat) :
  (forall a, f (g a) = f a) -> find_index f (alter g i l) = find_index f l.
Proof.
  intros H. revert i. induction l as [|b l IH]; intros [|i]; simpl; try reflexivity.
  - rewrite H. reflexivity.
  - destruct (f b); [reflexivity|]. f_equal. apply IH.
Qed.

(** An invariant that follows the loop counter. *)
Lemma for_index_count {S} (P : nat -> S -> Prop) (n : nat) (body : nat -> S -> S) (s : S) :
  P 0 s -> (forall i s, i < n -> P i s -> P (Datatypes.S i) (body i s)) ->
  P n (for_index n body s).
Proof.
  unfold for_index. intros Hs Hstep.
  assert (H : forall k a s, a + k = n -> P a s ->
                            P n (fold_left (fun s i => body i s) (seq a k) s)).
  { induction k as [|k IH]; intros a s0 Ha Hs0; simpl.
    - replace n with a by lia. exact Hs0.
    - apply IH; [lia|]. apply Hstep; [lia | exact Hs0]. }
  apply H; [lia | exact Hs].
Qed.

(** Loop invariants. *)
Lemma for_index_ind {S} (P : S -> Prop) (n : nat) (body : nat -> S -> S) (s : S) :
  P s -> (forall i s, i < n -> P s -> P (body i s)) -> P (for_index n body s).
Proof.
  unfold for_index. intros Hs Hstep.
  assert (H : forall l s, Forall (fun i => i < n) l -> P s ->
                          P (fold_left (fun s i => body i s) l s)).
  { induction l as [|i l IH]; simpl; intros s0 Hl Hs0; auto.
    inversion Hl; subst. apply IH; auto. }
  apply H; auto. apply Forall_forall. intros i Hi.
  apply elem_of_seq in Hi. lia.
Qed.

Lemma fold_left_ind {S B} (P : S -> Prop) (body : S -> B -> S) (l : list B) (s : S) :
  P s -> (forall b s, P s -> P (body s b)) -> P (fold_left body l s).
Proof.
  intros Hs Hstep. revert s Hs. induction l; simpl; auto.
Qed.

Lemma for_break_ind {S B} (P : S -> Prop) (body : B -> S -> S * bool) (l : list B) (s : S) :
  P s -> (forall b s, P s -> P (fst (body b s))) -> P (for_break l body s).
Proof.
  intros Hs Hstep. revert s Hs. induction l as [|b l IH]; simpl; auto.
  intros s Hs. specialize (Hstep b s Hs).
  destruct (body b s) as [s' brk]. simpl in Hstep. destruct brk; auto.
Qed.

(** A loop with [break] whose body first breaks at position [k]. *)
Lemma for_break_first {S} (body : nat -> S -> S * bool) (n k : nat) (s : S) :
  k < n ->
  (forall j, j < k -> body j s = (s, false)) ->
  snd (body k s) = true ->
  for_break (seq 0 n) body s = fst (body k s).
Proof.
  intros Hk Hbefore Hbreak.
  assert (H : forall m a, a <= k -> k < a + m ->
                          for_break (seq a m) body s = fst (body k s)).
  { induction m as [|m IH]; intros a Ha Hm; [lia|]. simpl.
    destruct (decide (a = k)) as [->|Hne].
    - destruct (body k s) as [s' brk]. simpl in Hbreak. subst brk. reflexivity.
    - rewrite Hbefore by lia. apply IH; lia. }
  apply H; lia.
Qed.

End ContainerFacts.

(** ** Facts about the registries *)

Section RegistryFacts.

Lemma lookup_alter_inv {A} (f : A -> A) (l : list A) (i j : nat) (y : A) :
  alter f i l !! j = Some y ->
  (j = i /\ exists a, l !! i = Some a /\ y = f a) \/ (j <> i /\ l !! j = Some y).
Proof.
  intros H. destruct (decide (j = i)) as [->|Hne].
  - left. split; [reflexivity|]. rewrite list_lookup_alter_eq in H.
    destruct (l !! i) as [a|]; [|discriminate]. exists a. split; [reflexivity|].
    simpl in H. congruence.
  - right. split; [exact Hne|]. rewrite list_lookup_alter_ne in H by congruence.
    exact H.
Qed.

Lemma find_index_fmap {A B} (h : A -> B) (f : B -> bool) (l : list A) :
  find_index f (h <$> l) = find_index (fun a => f (h a)) l.
Proof.
  induction l as [|a l IH]; simpl; [reflexivity|].
  destruct (f (h a)); [reflexivity|]. rewrite <- IH. reflexivity.
Qed.

Lemma fmap_alter_commute {A B} (f : A -> B) (g : A -> A) (h : B -> B)
    (l : list A) (i : nat) :
  (forall a, f (g a) = h (f a)) -> f <$> alter g i l = alter h i (f <$> l).
Proof.
  intros H. revert i. induction l as [|a l IH]; intros [|i]; simpl;
    try reflexivity.
  - rewrite H. reflexivity.
  - f_equal. apply IH.
Qed.

Context {V : Type}.

Implicit Types (m : jsmap V) (k : string).

Lemma map_get_None_keys m k :
  map_get m k = None -> forall i e, m !! i = Some e -> e.1 <> k.
Proof.
  unfold map_get. induction m as [|[k0 v0] m IH]; intros H i e Hi; [discriminate|].
  simpl in H. destruct (String.eqb k0 k) eqn:Hk; [discriminate|].
  destruct i as [|i]; simpl in Hi.
  - injection Hi as <-. simpl. apply String.eqb_neq. exact Hk.
  - eapply IH; eauto.
Qed.

Lemma map_get_Some_key m k v :
  map_get m k = Some v -> exists i, m !! i = Some (k, v).
Proof.
  unfold map_get. induction m as [|[k0 v0] m IH]; intros H; [discriminate|].
  simpl in H. destruct (String.eqb k0 k) eqn:Hk.
  - apply String.eqb_eq in Hk. simpl in H. injection H as ->. subst k0.
    exists 0%nat. reflexivity.
  - destruct (IH H) as [i Hi]. exists (S i). exact Hi.
Qed.

Lemma map_get_lookup m k v i :
  NoDup (m.*1) -> m !! i = Some (k, v) -> map_get m k = Some v.
Proof.
  intros Hnd Hi. destruct (map_get m k) as [v'|] eqn:Hg.
  - apply map_get_Some_key in Hg as [j Hj].
    assert (i = j).
    { apply (NoDup_lookup (m.*1) i j k Hnd); rewrite list_lookup_fmap.
      - rewrite Hi. reflexivity.
      - rewrite Hj. reflexivity. }
    subst j. congruence.
  - destruct (map_get_None_keys m k Hg i (k, v) Hi). reflexivity.
Qed.

Lemma map_set_fresh m k (v : V) :
  map_get m k = None -> map_set m k v = (m ++ [(k, v)])%list.
Proof.
  unfold map_get. induction m as [|[k0 v0] m IH]; intros H; [reflexivity|].
  simpl in *. destruct (String.eqb k0 k); [discriminate|].
  rewrite IH by exact H. reflexivity.
Qed.

Lemma map_delete_sub m k j e :
  map_delete m k !! j = Some e -> exists j', m !! j' = Some e.
Proof.
  revert j. induction m as [|[k0 v0] m IH]; intros j H; [discriminate|].
  simpl in H. destruct (String.eqb k0 k).
  - exists (S j). exact H.
  - destruct j as [|j]; simpl in H.
    + exists 0%nat. exact H.
    + destruct (IH _ H) as [j' Hj']. exists (S j'). exact Hj'.
Qed.

Lemma map_delete_keep m k j e :
  m !! j = Some e -> e.1 <> k -> exists j', map_delete m k !! j' = Some e.
Proof.
  revert j. induction m as [|[k0 v0] m IH]; intros j H Hne; [discriminate|].
  simpl. destruct (String.eqb k0 k) eqn:Hk.
  - destruct j as [|j]; simpl in H.
    + injection H as <-. simpl in Hne. apply String.eqb_eq in Hk. contradiction.
    + exists j. exact H.
  - destruct j as [|j]; simpl in H.
    + exists 0%nat. exact H.
    + destruct (IH _ H Hne) as [j' Hj']. exists (S j'). exact Hj'.
Qed.

Lemma map_delete_NoDup {B} (f : string * V -> B) m k :
  NoDup (f <$> m) -> NoDup (f <$> map_delete m k).
Proof.
  induction m as [|[k0 v0] m IH]; intros H; [exact H|].
  simpl in *. apply NoDup_cons in H as [Hin Hnd].
  destruct (String.eqb k0 k); [exact Hnd|].
  simpl. apply NoDup_cons. split; [|auto].
  intros Hx. apply Hin. apply list_elem_of_fmap in Hx as (e & -> & He).
  apply list_elem_of_fmap. exists e. split; [reflexivity|].
  apply list_elem_of_lookup in He as [j Hj].
  apply map_delete_sub in Hj as [j' Hj']. eapply list_elem_of_lookup_2; eauto.
Qed.

Lemma map_delete_gone m k j e :
  NoDup (m.*1) -> map_delete m k !! j = Some e -> e.1 <> k.
Proof.
  revert j. induction m as [|[k0 v0] m IH]; intros j Hnd H; [discriminate|].
  simpl in *. apply NoDup_cons in Hnd as [Hin Hnd].
  destruct (String.eqb k0 k) eqn:Hk.
  - apply String.eqb_eq in Hk. subst k0. intros <-. apply Hin.
    apply list_elem_of_fmap. exists e. split; [reflexivity|].
    eapply list_elem_of_lookup_2; eauto.
  - destruct j as [|j]; simpl in H.
    + injection H as <-. simpl. apply String.eqb_neq. exact Hk.
    + eapply IH; eauto.
Qed.

Lemma map_delete_fresh (m : jsmap V) (k : string) (v : V) :
  map_get m k = None -> map_delete (m ++ [(k, v)])%list k = m.
Proof.
  unfold map_get. induction m as [|[k0 v0] m IH]; intros H; simpl.
  - rewrite String.eqb_refl. reflexivity.
  - simpl in H. destruct (String.eqb k0 k); [discriminate|].
    rewrite IH by exact H. reflexivity.
Qed.

Lemma fold_left_ext {A B} (f g : A -> B -> A) (l : list B) (a : A) :
  (forall a b, f a b = g a b) -> fold_left f l a = fold_left g l a.
Proof.
  intros H. revert a. induction l as [|b l IH]; intros a; simpl; [reflexivity|].
  rewrite H. apply IH.
Qed.

Lemma map_delete_value_gone (m : jsmap V) (k : string) (v : V) :
  NoDup (snd <$> m) -> map_get m k = Some v -> v ∉ snd <$> map_delete m k.
Proof.
  unfold map_get. induction m as [|[k0 v0] m IH]; intros Hnd H; [discriminate|].
  simpl in *. apply NoDup_cons in Hnd as [Hin Hnd].
  destruct (String.eqb k0 k).
  - simpl in H. injection H as E. subst v0. exact Hin.
  - simpl. apply not_elem_of_cons. split; [|auto].
    intros E. subst v0. apply Hin.
    destruct (List.find _ m) as [[k1 v1]|] eqn:Ef; [|discriminate].
    simpl in H. injection H as E. subst v1. apply List.find_some in Ef as [Ef _].
    apply list_elem_of_fmap. exists (k1, v). split; [reflexivity|].
    apply list_elem_of_In. exact Ef.
Qed.

Lemma map_delete_keep_value (m : jsmap V) (k k' : string) (v r : V) (j : nat) :
  m !! j = Some (k', v) -> map_get m k = Some r -> v <> r ->
  exists j', map_delete m k !! j' = Some (k', v).
Proof.
  unfold map_get. revert j. induction m as [|[k0 v0] m IH]; intros j Hj H Hne;
    [discriminate|].
  simpl in *. destruct (String.eqb k0 k).
  - simpl in H. injection H as E. subst v0.
    destruct j as [|j]; simpl in Hj.
    + injection Hj as _ E. congruence.
    + exists j. exact Hj.
  - destruct j as [|j]; simpl in Hj.
    + exists 0%nat. exact Hj.
    + destruct (IH j Hj H Hne) as [j' Hj']. exists (S j'). exact Hj'.
Qed.

End RegistryFacts.

(** ** The scaffold engine: properties *)

Module GameProps.

Import Game GameSpec.

Local Open Scope string_scope.
Local Open Scope float_scope.

Section Stun.

Context {M : MathLib}.

(** C9.  Stun gating: an input delivered while [nowMs < stunnedUntil]
    leaves the whole world as it was: the player's position, velocity and
    carrying reference, every ball, the scores and the text printed.  The
    intent (movement, ascend, descend, interact, swing) has no effect. *)
Theorem stun_gating (w : World) (id : EntityId) (input : Input)
    (dt nowMs : float) (p : PlayerState) :
  map_get (players w) id = Some p ->
  (nowMs <? p_stunnedUntil p) = true ->
  onPlayerInput id input dt nowMs w = w.
Proof.
  intros Hget Hstun. unfold onPlayerInput.
  destruct (map_get_index _ _ _ Hget) as (i & Hi & Hp).
  rewrite Hi. unfold player_at.
  change (option_map snd (players w !! i)) with (snd <$> players w !! i).
  rewrite Hp, Hstun. reflexivity.
Qed.

End Stun.

Lemma stun_gating_witness :
  onPlayerInput (M := refMath) "a"
    (mkInput (mkVec3 1 0 0) true false true true None) (1 / 60) 1200 dazed
  = dazed.
Proof.
  apply (stun_gating (M := refMath) dazed "a" _ _ 1200
           (mkPlayer "a" "Ann" "gry" (mkVec3 (-35) 60 0) zero3 true 1 1800 None)).
  - reflexivity.
  - reflexivity.
Defined.

(** *** Normalisation *)

Section Norm.

Context {M : MathLib}.

Lemma or_one_guard (L : float) :
  (Js.or_num L 1 =? 0) = false /\ is_nan (Js.or_num L 1) = false.
Proof.
  unfold Js.or_num, Js.truthy_num. simpl.
  destruct (L =? 0) eqn:E0; simpl; [split; reflexivity|].
  destruct (is_nan L) eqn:En; simpl; [split; reflexivity|].
  split; assumption.
Qed.

Lemma quotient_nan_free (v : Vec3) (L : float) :
  finite3 v = true -> (L =? 0) = false -> is_nan L = false ->
  nan_free (mkVec3 (x v / L) (y v / L) (z v / L)) = true.
Proof.
  unfold finite3, nan_free, Js.finite. intros Hv H0 Hn. simpl.
  repeat (apply andb_prop in Hv as [Hv ?]).
  repeat match goal with
         | H : negb _ && negb _ = true |- _ => apply andb_prop in H as [? ?]
         | H : negb ?b = true |- _ => apply negb_true_iff in H
         end.
  rewrite !div_not_nan by assumption. reflexivity.
Qed.

Lemma quotient_finite (v : Vec3) (L : float) :
  finite3 v = true -> dominates L v = true ->
  finite3 (mkVec3 (x v / Js.or_num L 1) (y v / Js.or_num L 1)
                  (z v / Js.or_num L 1)) = true.
Proof.
  unfold finite3, dominates. intros Hv Hd. cbn [x y z].
  apply andb_prop in Hv as [Hv Hz]. apply andb_prop in Hv as [Hx Hy].
  apply andb_prop in Hd as [Hd Hdz]. apply andb_prop in Hd as [Hdx Hdy].
  unfold Js.or_num, Js.truthy_num.
  destruct (L =? 0) eqn:E0; cbn [orb negb].
  - rewrite !div_finite; try reflexivity; try assumption;
      eapply leb_zero_one; eassumption.
  - rewrite (leb_not_nan _ _ Hdx). cbn [negb].
    rewrite !div_finite; try reflexivity; assumption.
Qed.

Lemma dominated_finite3 (v : Vec3) (L r : float) :
  dominates L v = true -> (L <? r) = true -> finite3 v = true.
Proof.
  unfold dominates, finite3. intros Hd Hr.
  apply andb_prop in Hd as [Hd Hz]. apply andb_prop in Hd as [Hx Hy].
  rewrite (below_bound_finite _ _ _ Hx Hr), (below_bound_finite _ _ _ Hy Hr),
    (below_bound_finite _ _ _ Hz Hr). reflexivity.
Qed.

Lemma sub_swap_finite3 (a b : Vec3) :
  finite3 (sub a b) = true -> finite3 (sub b a) = true.
Proof.
  unfold finite3, sub. cbn [x y z]. intros H.
  apply andb_prop in H as [H Hz]. apply andb_prop in H as [Hx Hy].
  rewrite (sub_swap_finite _ _ Hx), (sub_swap_finite _ _ Hy), (sub_swap_finite _ _ Hz).
  reflexivity.
Qed.

(** A direction taken under a distance test: between two positions whose
    distance is below some bound, in either order. *)
Lemma direction_within (a b : Vec3) (r : float) :
  (dist a b <? r) = true ->
  dominates (dist a b) (sub a b) = true ->
  finite3 (norm (sub a b)) = true
  /\ (dominates (len (sub b a)) (sub b a) = true ->
      finite3 (norm (sub b a)) = true).
Proof.
  intros Hr Hd.
  pose proof (dominated_finite3 _ _ _ Hd Hr) as Hfin.
  split.
  - apply (quotient_finite (sub a b) (len (sub a b))); assumption.
  - intros Hd'. apply (quotient_finite (sub b a) (len (sub b a))); [|exact Hd'].
    apply sub_swap_finite3, Hfin.
Qed.

(** The player [nearestPlayer] returns is at a distance below the distance
    kept so far, which starts at [Infinity]. *)
Lemma nearestPlayer_within (w : World) (pos : Vec3) (t : PlayerState) :
  nearestPlayer w pos = Some t -> exists r, (dist pos (p_pos t) <? r) = true.
Proof.
  unfold nearestPlayer.
  apply (fold_left_ind
           (fun acc : option PlayerState * float =>
              fst acc = Some t -> exists r, (dist pos (p_pos t) <? r) = true)).
  - discriminate.
  - intros e acc IH. destruct (_ <? snd acc) eqn:E; [|exact IH].
    cbn [fst]. intros [= <-]. eexists. exact E.
Qed.

Lemma sub_self3 (p : Vec3) : finite3 p = true -> sub p p = zero3.
Proof.
  unfold finite3, sub, zero3. intros H.
  apply andb_prop in H as [H Hz]. apply andb_prop in H as [Hx Hy].
  rewrite (sub_self _ Hx), (sub_self _ Hy), (sub_self _ Hz). reflexivity.
Qed.

(** C10.  [norm] never divides by zero: for every vector the divisor, the
    length or 1, is neither zero nor [NaN], and each component of the
    result is the component divided by it; the zero vector is mapped to
    the zero vector.  The direction of a vector with finite components,
    which every [Vector3] has, is finite and has no [NaN] component.  So
    are the directions the engine derives: between positions that passed a
    distance test (knockback, swing) or towards the player [nearestPlayer]
    found (hazard seek), and the direction between coincident positions is
    the zero vector.  [Math.hypot] is a parameter; what is used of it is
    that the length of the zero vector is falsy and that a length is at
    least the magnitude of each component.  The same holds of [normalize]
    in [index.ts]. *)
Theorem norm_divisor_guarded (v : Vec3) :
  Js.truthy_num (hypot 0 0 0) = false ->
  ((norm_divisor v =? 0) = false /\ is_nan (norm_divisor v) = false
   /\ norm v = mkVec3 (x v / norm_divisor v) (y v / norm_divisor v)
                      (z v / norm_divisor v)
   /\ norm zero3 = zero3
   /\ (finite3 v = true -> nan_free (norm v) = true)
   /\ (finite3 v = true -> dominates (len v) v = true ->
       finite3 (norm v) = true)
   /\ (forall a b r,
         (dist a b <? r) = true -> dominates (dist a b) (sub a b) = true ->
         finite3 (norm (sub a b)) = true
         /\ (dominates (len (sub b a)) (sub b a) = true ->
             finite3 (norm (sub b a)) = true))
   /\ (forall w pos t, nearestPlayer w pos = Some t ->
         exists r, (dist pos (p_pos t) <? r) = true)
   /\ (forall p, finite3 p = true -> norm (sub p p) = zero3))
  /\ ((Server.normalize_divisor v =? 0) = false
      /\ is_nan (Server.normalize_divisor v) = false
      /\ Server.normalize v
         = mkVec3 (x v / Server.normalize_divisor v)
                  (y v / Server.normalize_divisor v)
                  (z v / Server.normalize_divisor v)
      /\ Server.normalize zero3 = zero3
      /\ (finite3 v = true -> nan_free (Server.normalize v) = true)
      /\ (finite3 v = true -> dominates (Server.length v) v = true ->
          finite3 (Server.normalize v) = true)).
Proof.
  intros H0.
  assert (Hz : Js.or_num (hypot 0 0 0) 1 = 1).
  { unfold Js.or_num. simpl. rewrite H0. reflexivity. }
  assert (Hzero : norm zero3 = zero3).
  { unfold norm, norm_divisor, len, zero3. cbn [x y z]. rewrite Hz. reflexivity. }
  split.
  - destruct (or_one_guard (len v)) as [Ha Hb].
    split; [exact Ha|]. split; [exact Hb|]. split; [reflexivity|].
    split; [exact Hzero|]. split; [|split; [|split; [|split]]].
    + intros Hv. apply quotient_nan_free; assumption.
    + intros Hv Hd. apply quotient_finite; assumption.
    + intros a b r. apply direction_within.
    + intros w pos t. apply nearestPlayer_within.
    + intros p Hp. rewrite (sub_self3 p Hp). exact Hzero.
  - destruct (or_one_guard (Server.length v)) as [Ha Hb].
    split; [exact Ha|]. split; [exact Hb|]. split; [reflexivity|].
    split; [|split].
    + unfold Server.normalize, Server.normalize_divisor, Server.length, zero3.
      cbn [x y z]. rewrite Hz. reflexivity.
    + intros Hv. apply quotient_nan_free; assumption.
    + intros Hv Hd. apply quotient_finite; assumption.
Qed.

End Norm.

Lemma norm_divisor_guarded_witness :
  Js.truthy_num (hypot (MathLib := refMath) 0 0 0) = false
  /\ norm (M := refMath) (mkVec3 3 0 4) = mkVec3 0.6 0 0.8
  /\ finite3 (norm (M := refMath) (mkVec3 3 0 4)) = true
  /\ norm (M := refMath) zero3 = zero3.
Proof.
  split; [reflexivity|].
  destruct (norm_divisor_guarded (M := refMath) (mkVec3 3 0 4) eq_refl)
    as [(_ & _ & Hn & Hzero & _ & Hfin & _) _].
  split; [rewrite Hn; vm_compute; reflexivity|].
  split; [apply Hfin; reflexivity | exact Hzero].
Defined.

Section Input.

Context {M : MathLib}.

Lemma players_with_ball (i : nat) (f : Ball -> Ball) (w : World) :
  players (with_ball i f w) = players w.
Proof. reflexivity. Qed.

Lemma balls_with_player (i : nat) (f : PlayerState -> PlayerState) (w : World) :
  balls (with_player i f w) = balls w.
Proof. reflexivity. Qed.

Lemma get_with_player (w : World) (id : string) (i : nat)
    (f : PlayerState -> PlayerState) :
  map_index (players w) id = Some i ->
  map_get (players (with_player i f w)) id = f <$> map_get (players w) id.
Proof. intros H. unfold with_player, set_players. simpl. apply map_get_alter, H. Qed.

Lemma index_with_player (w : World) (id : string) (i : nat)
    (f : PlayerState -> PlayerState) :
  map_index (players (with_player i f w)) id = map_index (players w) id.
Proof. unfold with_player, set_players. simpl. apply map_index_alter. Qed.

Lemma player_at_get (w : World) (id : string) (i : nat) :
  map_index (players w) id = Some i -> player_at w i = map_get (players w) id.
Proof. intros H. unfold player_at. symmetry. apply map_index_get, H. Qed.

Lemma players_swingStep (i : nat) (w : World) : players (swingStep i w) = players w.
Proof.
  unfold swingStep. destruct (player_at w i); [|reflexivity].
  destruct (nearestBallOfKind _ _ _); [|reflexivity].
  destruct (balls w !! _); [|reflexivity].
  destruct (_ <? _); reflexivity.
Qed.

(** What an interact intent does to the acting player: only the carrying
    reference may change. *)
Lemma interactStep_player (input : Input) (id : string) (i : nat) (w : World)
    (p : PlayerState) :
  map_index (players w) id = Some i ->
  map_get (players w) id = Some p ->
  exists c, map_get (players (interactStep input i w)) id = Some (p_set_carrying c p).
Proof.
  intros Hi Hp. unfold interactStep.
  rewrite (player_at_get _ _ _ Hi), Hp.
  destruct (negb _).
  - destruct (find_index _ _).
    + eexists. rewrite get_with_player by exact Hi.
      rewrite players_with_ball, Hp. reflexivity.
    + exists (p_carrying p). rewrite Hp. destruct p; reflexivity.
  - eexists. rewrite get_with_player.
    + destruct (find_index _ _); rewrite ?players_with_ball, Hp; reflexivity.
    + destruct (find_index _ _); rewrite ?players_with_ball; exact Hi.
Qed.

(** The state of an unstunned player after [onPlayerInput]: flight forces,
    drag, clamp, gravity and integration, then a carrying reference. *)
Lemma onPlayerInput_player (w : World) (id : EntityId) (input : Input)
    (dt nowMs : float) (p : PlayerState) :
  map_get (players w) id = Some p ->
  (nowMs <? p_stunnedUntil p) = false ->
  exists c, map_get (players (onPlayerInput id input dt nowMs w)) id
            = Some (p_set_carrying c (flight input dt p)).
Proof.
  intros Hget Hstun. unfold onPlayerInput.
  destruct (map_get_index _ _ _ Hget) as (i & Hi & Hp).
  rewrite Hi, (player_at_get _ _ _ Hi), Hget, Hstun.
  assert (Hi' : map_index (players (with_player i (flight input dt) w)) id = Some i)
    by (rewrite index_with_player; exact Hi).
  assert (Hg' : map_get (players (with_player i (flight input dt) w)) id
                = Some (flight input dt p))
    by (rewrite get_with_player by exact Hi; rewrite Hget; reflexivity).
  assert (Hc : exists c,
             map_get (players (if interact input
                               then interactStep input i (with_player i (flight input dt) w)
                               else with_player i (flight input dt) w)) id
             = Some (p_set_carrying c (flight input dt p))).
  { destruct (interact input).
    - apply interactStep_player; assumption.
    - exists (p_carrying p). rewrite Hg'. destruct p; reflexivity. }
  destruct Hc as (c & Hc). exists c.
  destruct (beaterSwing input); rewrite ?players_swingStep; exact Hc.
Qed.

Lemma players_updateBall (dt nowMs : float) (i : nat) (w : World) :
  players (updateBall dt nowMs i w) = players w.
Proof.
  unfold updateBall. destruct (balls w !! i) as [b|]; [|reflexivity].
  destruct (Js.truthy_str _); [reflexivity|].
  destruct (kind_eqb (b_kind b) bludger), (kind_eqb (b_kind b) snitch); reflexivity.
Qed.

(** C5, amended.  Gravity is applied to a player by the input processor:
    a processed input of a known, unstunned player leaves
    [vel.y (+ lift*dt) (- lift*dt) - gravity*dt] as its vertical velocity.
    The physics pass of [tick] applies [vel.y -= gravity*dt], then drag, to
    unowned balls only: an owned ball is skipped, and no player is
    touched. *)
Theorem gravity_on_input_and_free_balls (w : World) (id : EntityId)
    (input : Input) (dt nowMs : float) (p : PlayerState) :
  map_get (players w) id = Some p ->
  (nowMs <? p_stunnedUntil p) = false ->
  let vy1 := if ascend input then y (p_vel p) + lift Physics * dt else y (p_vel p) in
  let vy2 := if descend input then vy1 - lift Physics * dt else vy1 in
  ((fun q => y (p_vel q)) <$> map_get (players (onPlayerInput id input dt nowMs w)) id)
  = Some (vy2 - gravity Physics * dt)
  /\ (forall b, y (b_vel (integrateBall dt b))
                = (y (b_vel b) - gravity Physics * dt) * (1 - drag Physics))
  /\ (forall i b, balls w !! i = Some b -> Js.truthy_str (b_owner b) = true ->
                  updateBall dt nowMs i w = w)
  /\ (forall i b, balls w !! i = Some b -> Js.truthy_str (b_owner b) = false ->
                  b_kind b = quaffle ->
                  balls (updateBall dt nowMs i w) !! i = Some (integrateBall dt b))
  /\ players (for_index (List.length (balls w)) (updateBall dt nowMs) w) = players w.
Proof.
  intros Hget Hstun vy1 vy2.
  destruct (onPlayerInput_player w id input dt nowMs p Hget Hstun) as (c & Hc).
  split; [rewrite Hc; reflexivity|].
  split; [reflexivity|].
  split; [intros i b Hb Ho; unfold updateBall; rewrite Hb, Ho; reflexivity|].
  split.
  - intros i b Hb Ho Hk. unfold updateBall. rewrite Hb, Ho, Hk. simpl.
    rewrite list_lookup_alter_eq, Hb. reflexivity.
  - apply (for_index_ind (fun s => players s = players w)); [reflexivity|].
    intros i s _ Hs. rewrite players_updateBall. exact Hs.
Qed.

Lemma owners_swingStep (i : nat) (w : World) :
  b_owner <$> balls (swingStep i w) = b_owner <$> balls w.
Proof.
  unfold swingStep. destruct (player_at w i); [|reflexivity].
  destruct (nearestBallOfKind _ _ _) as [bi|]; [|reflexivity].
  destruct (balls w !! bi) as [bl|]; [|reflexivity].
  destruct (_ <? _); [|reflexivity].
  unfold with_ball, set_balls. simpl.
  apply fmap_alter_frame. reflexivity.
Qed.

(** C4, amended.  An interact intent of an unstunned player who carries
    nothing claims the first ball of [balls], in registry order, that is
    unowned, a quaffle or a snitch, and within the pickup radius of the
    player's position after this input's movement: no earlier ball
    qualifies, that ball gets the player as owner and the player carries
    it; distance plays no further part.  When no ball qualifies, no owner
    changes. *)
Theorem pickup_claims_first_in_range (w : World) (id : EntityId)
    (input : Input) (dt nowMs : float) (p : PlayerState) :
  map_get (players w) id = Some p ->
  (nowMs <? p_stunnedUntil p) = false ->
  Js.truthy_str (p_carrying p) = false ->
  interact input = true ->
  let p' := flight input dt p in
  let w' := onPlayerInput id input dt nowMs w in
  match find_index (pickable p') (balls w) with
  | Some i =>
      exists b, balls w !! i = Some b /\ pickable p' b = true
        /\ (forall j c, j < i -> balls w !! j = Some c -> pickable p' c = false)
        /\ b_owner <$> balls w' = <[i := Some (p_id p)]> (b_owner <$> balls w)
        /\ map_get (players w') id = Some (p_set_carrying (Some (b_id b)) p')
  | None =>
      (forall j c, balls w !! j = Some c -> pickable p' c = false)
      /\ b_owner <$> balls w' = b_owner <$> balls w
      /\ map_get (players w') id = Some p'
  end.
Proof.
  intros Hget Hstun Hfree Hint p' w'. subst w'. unfold onPlayerInput.
  destruct (map_get_index _ _ _ Hget) as (i & Hi & Hp).
  rewrite Hi, (player_at_get _ _ _ Hi), Hget, Hstun, Hint.
  set (w1 := with_player i (flight input dt) w).
  assert (Hi1 : map_index (players w1) id = Some i)
    by (subst w1; rewrite index_with_player; exact Hi).
  assert (Hg1 : map_get (players w1) id = Some p')
    by (subst w1; rewrite get_with_player by exact Hi; rewrite Hget; reflexivity).
  assert (Hstep : forall w2,
             players w2 = players (interactStep input i w1) ->
             b_owner <$> balls w2 = b_owner <$> balls (interactStep input i w1) ->
             match find_index (pickable p') (balls w) with
             | Some bi =>
                 exists b, balls w !! bi = Some b /\ pickable p' b = true
                   /\ (forall j c, j < bi -> balls w !! j = Some c -> pickable p' c = false)
                   /\ b_owner <$> balls w2 = <[bi := Some (p_id p)]> (b_owner <$> balls w)
                   /\ map_get (players w2) id = Some (p_set_carrying (Some (b_id b)) p')
             | None =>
                 (forall j c, balls w !! j = Some c -> pickable p' c = false)
                 /\ b_owner <$> balls w2 = b_owner <$> balls w
                 /\ map_get (players w2) id = Some p'
             end).
  { intros w2 Hpl Hbl. rewrite Hpl, Hbl. unfold interactStep.
    rewrite (player_at_get _ _ _ Hi1), Hg1.
    replace (Js.truthy_str (p_carrying p')) with false by (symmetry; exact Hfree).
    simpl negb. cbv iota.
    change (balls w1) with (balls w).
    destruct (find_index (pickable p') (balls w)) as [bi|] eqn:Hfind.
    - destruct (find_index_Some _ _ _ Hfind) as (b & Hb & Hpick & Hfirst).
      exists b. repeat split; auto.
      + rewrite balls_with_player. unfold with_ball, set_balls. simpl.
        apply fmap_alter_set. reflexivity.
      + rewrite get_with_player by (rewrite players_with_ball; exact Hi1).
        rewrite players_with_ball, Hg1. change (balls w1) with (balls w).
        rewrite Hb. reflexivity.
    - repeat split; auto. apply find_index_None. exact Hfind. }
  destruct (beaterSwing input).
  - apply Hstep; [apply players_swingStep | apply owners_swingStep].
  - apply Hstep; reflexivity.
Qed.

End Input.

(** *** Owned balls across a tick *)

Section Carried.

Context {M : MathLib}.

Lemma kept_at_balls (i : nat) (b : Ball) (w w' : World) :
  balls w' = balls w -> kept_at i b w -> kept_at i b w'.
Proof. unfold kept_at. intros ->. auto. Qed.

(** Writing a released ball keeps the invariant. *)
Lemma kept_at_release (i j : nat) (b : Ball) (f : Ball -> Ball) (w : World) :
  (forall c, Js.truthy_str (b_owner (f c)) = false) ->
  kept_at i b w -> kept_at i b (with_ball j f w).
Proof.
  intros Hf (b' & Hb' & Hk). unfold kept_at, with_ball, set_balls. simpl.
  destruct (decide (j = i)) as [->|Hne].
  - exists (f b'). rewrite list_lookup_alter_eq, Hb'. split; [reflexivity|].
    right. apply Hf.
  - exists b'. rewrite list_lookup_alter_ne by exact Hne. auto.
Qed.

(** Writing to a ball that is unowned, without touching its owner, keeps
    the invariant. *)
Lemma kept_at_free (i j : nat) (b : Ball) (f : Ball -> Ball) (w : World) :
  (forall c, b_owner (f c) = b_owner c) ->
  (forall c, balls w !! j = Some c -> Js.truthy_str (b_owner c) = false) ->
  kept_at i b w -> kept_at i b (with_ball j f w).
Proof.
  intros Hf Hfree (b' & Hb' & Hk). unfold kept_at, with_ball, set_balls. simpl.
  destruct (decide (j = i)) as [->|Hne].
  - exists (f b'). rewrite list_lookup_alter_eq, Hb'. split; [reflexivity|].
    right. rewrite Hf. apply Hfree. exact Hb'.
  - exists b'. rewrite list_lookup_alter_ne by exact Hne. auto.
Qed.

Lemma kept_at_updateBall (dt nowMs : float) (i j : nat) (b : Ball) (w : World) :
  kept_at i b w -> kept_at i b (updateBall dt nowMs j w).
Proof.
  intros H. unfold updateBall.
  destruct (balls w !! j) as [c|] eqn:Hc; [|exact H].
  destruct (Js.truthy_str (b_owner c)) eqn:Ho; [exact H|].
  assert (H1 : kept_at i b (with_ball j (integrateBall dt) w)).
  { apply kept_at_free; auto. intros c' Hc'. congruence. }
  assert (Hfree : forall (f : Ball -> Ball) w',
             (forall c, b_owner (f c) = b_owner c) ->
             (forall c', balls w' !! j = Some c' -> Js.truthy_str (b_owner c') = false) ->
             forall c', balls (with_ball j f w') !! j = Some c' ->
                        Js.truthy_str (b_owner c') = false).
  { intros f w' Hf Hw' c'. unfold with_ball, set_balls. simpl.
    rewrite list_lookup_alter_eq. destruct (balls w' !! j) as [c0|] eqn:E; [|discriminate].
    simpl. intros [= <-]. rewrite Hf. apply Hw'. reflexivity. }
  assert (F0 : forall c', balls w !! j = Some c' -> Js.truthy_str (b_owner c') = false)
    by (intros c' Hc'; congruence).
  assert (F1 := Hfree (integrateBall dt) w (fun _ => eq_refl) F0).
  destruct (kind_eqb (b_kind c) bludger).
  - assert (Hseek : forall w0 c0, b_owner (bludgerSeek w0 dt c0) = b_owner c0).
    { intros w0 c0. unfold bludgerSeek. destruct (nearestPlayer _ _); reflexivity. }
    assert (H2 : kept_at i b (with_ball j (bludgerSeek (with_ball j (integrateBall dt) w) dt)
                                (with_ball j (integrateBall dt) w))).
    { apply kept_at_free; auto. }
    destruct (kind_eqb (b_kind c) snitch); [|exact H2].
    apply kept_at_free; auto. apply Hfree; auto.
  - destruct (kind_eqb (b_kind c) snitch); [|exact H1].
    apply kept_at_free; auto.
Qed.

Lemma kept_at_scoreAtGoal (pi bi : nat) (g : GoalZone) (i : nat) (b : Ball) (w : World) :
  kept_at i b w -> kept_at i b (scoreAtGoal pi bi g w).
Proof.
  intros H. unfold scoreAtGoal.
  destruct (player_at w pi) as [p|]; [|exact H].
  destruct (_ <? _); [|exact H].
  destruct (teamById w (p_teamId p)) as [ti|]; [|exact H].
  eapply kept_at_balls;
    [|apply (kept_at_release i bi b
               (fun c => mkBall (b_id c) (b_kind c) (midAir (bounds w) 8) zero3 None) w);
      [reflexivity | exact H]].
  reflexivity.
Qed.

Lemma kept_at_scoreCarrier (pi i : nat) (b : Ball) (w : World) :
  kept_at i b w -> kept_at i b (scoreCarrier pi w).
Proof.
  intros H. unfold scoreCarrier.
  destruct (player_at w pi) as [p|]; [|exact H].
  destruct (Js.truthy_str _); [|exact H].
  destruct (find_index _ _) as [bi|]; [|exact H].
  destruct (kind_eqb _ _); [|exact H].
  apply (fold_left_ind (kept_at i b)); [exact H|].
  intros g s Hs. apply kept_at_scoreAtGoal, Hs.
Qed.

Lemma kept_at_knockback (nowMs : float) (bi pi i : nat) (b : Ball) (w : World) :
  kept_at i b w -> kept_at i b (knockback nowMs bi pi w).
Proof.
  intros H. unfold knockback.
  destruct (balls w !! bi) as [c|]; [|exact H].
  destruct (player_at w pi) as [p|]; [|exact H].
  destruct (_ <? _); [|exact H].
  destruct (Js.truthy_str _); [|exact H].
  rewrite balls_with_player.
  destruct (find_index _ (balls w)) as [ci|];
    (eapply kept_at_balls; [reflexivity|]); [|exact H].
  apply kept_at_release; [reflexivity | exact H].
Qed.

Lemma kept_at_bludgerHits (nowMs : float) (i : nat) (b : Ball) (w : World) :
  kept_at i b w -> kept_at i b (bludgerHits nowMs w).
Proof.
  intros H. unfold bludgerHits.
  apply (for_index_ind (kept_at i b)); [exact H|].
  intros bi s _ Hs. destruct (balls s !! bi) as [c|]; [|exact Hs].
  destruct (kind_eqb _ _); [|exact Hs].
  apply (for_index_ind (kept_at i b)); [exact Hs|].
  intros pi s' _ Hs'. apply kept_at_knockback, Hs'.
Qed.

Lemma balls_captureBy (si pi : nat) (w : World) :
  balls (fst (captureBy si pi w)) = balls w.
Proof.
  unfold captureBy. destruct (balls w !! si); [|reflexivity].
  destruct (player_at w pi) as [p|]; [|reflexivity].
  destruct (_ <? _); [|reflexivity].
  destruct (teamById _ _); reflexivity.
Qed.

Lemma balls_snitchCapture (w : World) : balls (snitchCapture w) = balls w.
Proof.
  unfold snitchCapture. destruct (find_index _ _) as [si|]; [|reflexivity].
  apply (for_break_ind (fun s => balls s = balls w)); [reflexivity|].
  intros pi s Hs. rewrite balls_captureBy. exact Hs.
Qed.

Lemma kept_at_resolveInteractions (nowMs : float) (i : nat) (b : Ball) (w : World) :
  kept_at i b w -> kept_at i b (resolveInteractions nowMs w).
Proof.
  intros H. unfold resolveInteractions.
  eapply kept_at_balls; [apply balls_snitchCapture|].
  apply kept_at_bludgerHits. unfold scoreGoals.
  apply (for_index_ind (kept_at i b)); [exact H|].
  intros pi s _ Hs. apply kept_at_scoreCarrier, Hs.
Qed.

Lemma kept_at_tick (rnd dt nowMs : float) (i : nat) (b : Ball) (w : World) :
  kept_at i b w -> kept_at i b (tick rnd dt nowMs w).
Proof.
  intros H. unfold tick.
  assert (H1 : kept_at i b (for_index (List.length (balls w)) (updateBall dt nowMs) w)).
  { apply (for_index_ind (kept_at i b)); [exact H|].
    intros j s _ Hs. apply kept_at_updateBall, Hs. }
  apply (kept_at_resolveInteractions nowMs) in H1.
  set (w2 := resolveInteractions nowMs _) in *.
  assert (H3 : kept_at i b
                 (for_index (List.length (players w2))
                    (fun i w => with_player i (updatePlayerPhysics w dt) w) w2)).
  { apply (for_index_ind (kept_at i b)); [exact H1|].
    intros j s _ Hs. exact Hs. }
  destruct (rnd <? 0.1); exact H3.
Qed.

(** C6, amended.  While a ball is owned, [tick] applies no physics to it.
    In [game.ts] the physics pass skips it, and after the whole tick the
    ball, if it still has an owner, is exactly as before: position and
    velocity are those it had, whatever the owner's position (it is moved
    only when released).  In [index.ts], [updatePhysics] puts an owned ball
    two units above its owner's position and leaves its velocity alone. *)
Theorem owned_ball_untouched_by_tick (rnd dt nowMs : float) (w : World)
    (i : nat) (b : Ball) :
  balls w !! i = Some b ->
  Js.truthy_str (b_owner b) = true ->
  updateBall dt nowMs i w = w
  /\ (exists b', balls (tick rnd dt nowMs w) !! i = Some b'
                 /\ (Js.truthy_str (b_owner b') = true -> b' = b))
  /\ (forall (sw : Server.World) (c : Server.BallEntity) (r : nat)
             (s : Server.QuidditchPlayerState),
         Server.owner c = Some r -> Server.objects sw !! r = Some s ->
         let c' := Server.updatePhysics sw dt c in
         Server.position c'
         = mkVec3 (x (Server.e_position (Server.entity s)))
                  (y (Server.e_position (Server.entity s)) + 2)
                  (z (Server.e_position (Server.entity s)))
         /\ Server.velocity c' = Server.velocity c
         /\ Server.owner c' = Server.owner c).
Proof.
  intros Hb Ho. split; [|split].
  - unfold updateBall. rewrite Hb, Ho. reflexivity.
  - destruct (kept_at_tick rnd dt nowMs i b w) as (b' & Hb' & Hk).
    + exists b. split; [exact Hb | left; reflexivity].
    + exists b'. split; [exact Hb'|]. intros Ho'.
      destruct Hk as [->|Hk]; [reflexivity | congruence].
  - intros sw c r s Hown Hs. unfold Server.updatePhysics.
    destruct (Server.owner c) as [r'|] eqn:E; [|discriminate].
    injection Hown as ->. rewrite Hs. cbv zeta. repeat split. simpl. exact E.
Qed.

End Carried.

(** *** Goal scoring *)

Section Scoring.

Context {M : MathLib}.

Lemma credited_refl (ti pi bi : nat) (w : World) : credited ti pi bi 0 w w.
Proof.
  unfold credited. simpl. repeat split.
  symmetry. apply list_alter_id. reflexivity.
Qed.

Lemma credited_player (ti pi bi k : nat) (w0 w : World) (p : PlayerState) :
  credited ti pi bi k w0 w -> player_at w0 pi = Some p ->
  exists p', player_at w pi = Some p'
             /\ p_pos p' = p_pos p /\ p_teamId p' = p_teamId p.
Proof.
  intros (_ & _ & Hp & _) Hat. unfold player_at in *. rewrite Hp.
  destruct k.
  - exists p. auto.
  - rewrite list_lookup_alter_eq.
    destruct (players w0 !! pi) as [[k0 p0]|]; [|discriminate].
    simpl in *. injection Hat as ->. eexists. split; [reflexivity|]. auto.
Qed.

Lemma credited_team (ti pi bi k : nat) (w0 w : World) (id : string) :
  credited ti pi bi k w0 w -> teamById w id = teamById w0 id.
Proof.
  intros (Ht & _). unfold teamById. rewrite Ht. clear Ht.
  apply find_index_alter. intros a.
  induction k as [|k IH]; simpl; [reflexivity | exact IH].
Qed.

Lemma scoreAtGoal_credited (ti pi bi k : nat) (g : GoalZone) (w0 w : World)
    (p : PlayerState) :
  player_at w0 pi = Some p ->
  teamById w0 (p_teamId p) = Some ti ->
  credited ti pi bi k w0 w ->
  credited ti pi bi (if in_zone (p_pos p) g then S k else k) w0
           (scoreAtGoal pi bi g w).
Proof.
  intros Hat Hteam Hc.
  destruct (credited_player _ _ _ _ _ _ _ Hc Hat) as (p' & Hat' & Hpos & Htid).
  unfold scoreAtGoal. rewrite Hat', Hpos. fold (in_zone (p_pos p) g).
  destruct (in_zone (p_pos p) g); [|exact Hc].
  rewrite Htid, (credited_team _ _ _ _ _ _ _ Hc), Hteam.
  destruct Hc as (Ht & Hb & Hp & Hg & Hbd).
  unfold credited. simpl. rewrite Ht, Hb, Hp, Hg, Hbd.
  repeat split.
  - rewrite list_alter_alter_eq. reflexivity.
  - destruct k; [reflexivity|].
    rewrite list_alter_alter_eq. apply list_alter_ext; [|reflexivity].
    intros c _. reflexivity.
  - destruct k; [reflexivity|].
    rewrite list_alter_alter_eq. apply list_alter_ext; [|reflexivity].
    intros [k0 p0] _. reflexivity.
Qed.

Lemma goals_loop_credited (ti pi bi : nat) (w0 : World) (p : PlayerState)
    (gs : list GoalZone) :
  player_at w0 pi = Some p ->
  teamById w0 (p_teamId p) = Some ti ->
  forall k w, credited ti pi bi k w0 w ->
    credited ti pi bi (k + zones_containing (p_pos p) gs) w0
             (fold_left (fun w g => scoreAtGoal pi bi g w) gs w).
Proof.
  intros Hat Hteam. unfold zones_containing.
  induction gs as [|g gs IH]; intros k w Hc; simpl.
  - rewrite Nat.add_0_r. exact Hc.
  - pose proof (scoreAtGoal_credited ti pi bi k g w0 w p Hat Hteam Hc) as Hstep.
    destruct (in_zone (p_pos p) g); simpl.
    + rewrite <- Nat.add_succ_comm. apply IH, Hstep.
    + apply IH, Hstep.
Qed.

Lemma scoreCarrier_inert (j : nat) (w : World) :
  (forall q, player_at w j = Some q -> carries_quaffle w q = false) ->
  scoreCarrier j w = w.
Proof.
  intros H. unfold scoreCarrier.
  destruct (player_at w j) as [q|]; [|reflexivity].
  specialize (H q eq_refl). unfold carries_quaffle in H.
  destruct (Js.truthy_str (p_carrying q)); [|reflexivity].
  simpl in H. destruct (find_index _ _) as [bi|]; [|reflexivity].
  rewrite H. reflexivity.
Qed.

Lemma credited_others (ti pi bi k : nat) (w0 w : World) (j : nat) (q : PlayerState) :
  credited ti pi bi k w0 w -> j <> pi ->
  player_at w j = Some q ->
  player_at w0 j = Some q /\ carries_quaffle w q = carries_quaffle w0 q.
Proof.
  intros (_ & Hb & Hp & _) Hne Hq.
  assert (Hq0 : player_at w0 j = Some q).
  { unfold player_at in *. rewrite Hp in Hq. destruct k; [exact Hq|].
    rewrite list_lookup_alter_ne in Hq by auto. exact Hq. }
  split; [exact Hq0|]. unfold carries_quaffle. rewrite Hb.
  destruct k; [reflexivity|].
  rewrite find_index_alter by reflexivity.
  destruct (find_index _ (balls w0)) as [ci|]; [|reflexivity].
  destruct (decide (bi = ci)) as [->|Hd].
  - rewrite list_lookup_alter_eq. destruct (balls w0 !! ci); reflexivity.
  - rewrite list_lookup_alter_ne by exact Hd. reflexivity.
Qed.

(** C7, amended.  The scoring loop of one resolver pass, for a player who
    carries the quaffle, whose team id resolves, who is inside [n >= 1]
    goal zones, while no other player carries a quaffle: the team's score
    is increased by the quaffle award once for each of the [n] zones (by
    exactly the award when [n = 1]), no other team changes; the quaffle
    has no owner, lies at the respawn point and has zero velocity; the
    player's carrying reference is cleared. *)
Theorem goal_scoring_post (w : World) (pi bi ti : nat) (p : PlayerState)
    (b : Ball) (t : Team) :
  player_at w pi = Some p ->
  Js.truthy_str (p_carrying p) = true ->
  find_index (fun c => Js.str_eq_opt (b_id c) (p_carrying p)) (balls w) = Some bi ->
  balls w !! bi = Some b ->
  b_kind b = quaffle ->
  teamById w (p_teamId p) = Some ti ->
  teams w !! ti = Some t ->
  (forall j q, j <> pi -> player_at w j = Some q -> carries_quaffle w q = false) ->
  let n := zones_containing (p_pos p) (goals w) in
  (0 < n)%nat ->
  let w' := scoreGoals w in
  teams w' = <[ti := Nat.iter n (t_add_score SCORE_QUAFFLE) t]> (teams w)
  /\ (n = 1%nat -> t_score <$> teams w' !! ti = Some (t_score t + SCORE_QUAFFLE))
  /\ balls w' = <[bi := mkBall (b_id b) quaffle (midAir (bounds w) 8) zero3 None]> (balls w)
  /\ player_at w' pi = Some (p_set_carrying None p)
  /\ (forall j, j <> pi -> player_at w' j = player_at w j).
Proof.
  intros Hat Hcar Hfind Hb Hkind Hteam Ht Hothers n Hn w'.
  assert (Hone : credited ti pi bi n w (scoreCarrier pi w)).
  { unfold scoreCarrier. rewrite Hat, Hcar, Hfind, Hb. simpl. rewrite Hkind. simpl.
    apply (goals_loop_credited ti pi bi w p (goals w) Hat Hteam 0 w).
    apply credited_refl. }
  assert (Hall : w' = scoreCarrier pi w).
  { subst w'. unfold scoreGoals.
    assert (Hlt : pi < List.length (players w)).
    { unfold player_at in Hat. destruct (players w !! pi) eqn:E; [|discriminate].
      eapply lookup_lt_Some; eauto. }
    pose proof (for_index_count
                  (fun i s => if decide (i <= pi) then s = w else s = scoreCarrier pi w)
                  (List.length (players w)) scoreCarrier w) as Hloop.
    simpl in Hloop.
    destruct (decide (List.length (players w) <= pi)) as [Hle|_]; [lia|].
    apply Hloop.
    - destruct (decide (0 <= pi)); [reflexivity | lia].
    - intros i s Hi Hs.
      destruct (decide (i <= pi)) as [Hle|Hgt].
      + subst s. destruct (decide (S i <= pi)) as [Hlt'|Hge].
        * apply scoreCarrier_inert. intros q Hq. apply (Hothers i); [lia | exact Hq].
        * replace i with pi by lia. reflexivity.
      + subst s. destruct (decide (S i <= pi)); [lia|].
        apply scoreCarrier_inert. intros q Hq.
        destruct (credited_others _ _ _ _ _ _ i q Hone ltac:(lia) Hq) as (Hq0 & ->).
        apply (Hothers i); [lia | exact Hq0]. }
  rewrite Hall. destruct Hone as (Hts & Hbs & Hps & _).
  destruct n as [|n']; [lia|].
  assert (Eteams : teams (scoreCarrier pi w)
                   = <[ti := Nat.iter (S n') (t_add_score SCORE_QUAFFLE) t]> (teams w)).
  { rewrite Hts. apply list_eq. intros j.
    destruct (decide (ti = j)) as [->|Hne].
    - rewrite list_lookup_alter_eq, Ht.
      rewrite list_lookup_insert_eq by (eapply lookup_lt_Some; eauto). reflexivity.
    - rewrite list_lookup_alter_ne, list_lookup_insert_ne by exact Hne. reflexivity. }
  split; [exact Eteams|]. split; [|split; [|split]].
  - intros [= ->]. rewrite Eteams.
    rewrite list_lookup_insert_eq by (eapply lookup_lt_Some; eauto). reflexivity.
  - rewrite Hbs. apply list_eq. intros j.
    destruct (decide (bi = j)) as [->|Hne].
    + rewrite list_lookup_alter_eq, Hb.
      rewrite list_lookup_insert_eq by (eapply lookup_lt_Some; eauto).
      simpl. unfold respawn. rewrite Hkind. reflexivity.
    + rewrite list_lookup_alter_ne, list_lookup_insert_ne by exact Hne. reflexivity.
  - unfold player_at in *. rewrite Hps, list_lookup_alter_eq.
    destruct (players w !! pi) as [[k0 p0]|]; [|discriminate].
    simpl in *. injection Hat as ->. reflexivity.
  - intros j Hne. unfold player_at. rewrite Hps.
    rewrite list_lookup_alter_ne by auto. reflexivity.
Qed.

End Scoring.

(** *** Team auto-assignment *)

Section Teams.

Local Open Scope nat_scope.

Lemma map_get_set {V} (m : jsmap V) (k k' : string) (v : V) :
  map_get (map_set m k v) k' = if String.eqb k k' then Some v else map_get m k'.
Proof.
  unfold map_get. induction m as [|[k0 v0] m IH]; simpl.
  - destruct (String.eqb k k'); reflexivity.
  - destruct (String.eqb_spec k0 k) as [->|Hne]; simpl.
    + destruct (String.eqb k k'); reflexivity.
    + destruct (String.eqb_spec k0 k') as [->|Hne'].
      * destruct (String.eqb_spec k k') as [->|_]; [congruence | reflexivity].
      * exact IH.
Qed.

Lemma counts_init (ts : list Team) (acc : jsmap nat) (tid : string) :
  map_get (fold_left (fun c t => map_set c (t_id t) 0%nat) ts acc) tid
  = if existsb (fun t => String.eqb (t_id t) tid) ts then Some 0%nat
    else map_get acc tid.
Proof.
  revert acc. induction ts as [|t ts IH]; intros acc; simpl; [reflexivity|].
  rewrite IH, map_get_set.
  destruct (existsb _ ts); [rewrite orb_true_r; reflexivity|].
  rewrite orb_false_r. reflexivity.
Qed.

Lemma counts_players (ps : jsmap PlayerState) (c : jsmap nat) (tid : string) :
  let c' := fold_left
              (fun c (e : string * PlayerState) =>
                 map_set c (p_teamId (snd e))
                         (default 0%nat (map_get c (p_teamId (snd e))) + 1)%nat)
              ps c in
  default 0%nat (map_get c' tid) = (default 0%nat (map_get c tid) + countIn ps tid)%nat
  /\ (is_Some (map_get c tid) -> is_Some (map_get c' tid)).
Proof.
  revert c. induction ps as [|e ps IH]; intros c; simpl.
  - split; [unfold countIn; simpl; lia | auto].
  - destruct (IH (map_set c (p_teamId (snd e))
                          (default 0%nat (map_get c (p_teamId (snd e))) + 1)%nat))
      as [Hval Hsome].
    split.
    + rewrite Hval, map_get_set. unfold countIn. simpl.
      destruct (String.eqb_spec (p_teamId (snd e)) tid) as [->|Hne]; simpl; lia.
    + intros Hc. apply Hsome. rewrite map_get_set.
      destruct (String.eqb _ tid); [eexists; reflexivity | exact Hc].
Qed.

Lemma teamCounts_get (w : World) (t : Team) :
  t ∈ teams w -> map_get (teamCounts w) (t_id t) = Some (playerCount w (t_id t)).
Proof.
  intros Ht. unfold teamCounts.
  pose proof (counts_players (players w)
                (fold_left (fun c t => map_set c (t_id t) 0%nat) (teams w) [])
                (t_id t)) as [Hval Hsome].
  assert (Hinit : map_get (fold_left (fun c t => map_set c (t_id t) 0%nat) (teams w) [])
                          (t_id t) = Some 0%nat).
  { rewrite counts_init.
    replace (existsb _ (teams w)) with true; [reflexivity|].
    symmetry. apply existsb_exists. exists t. split.
    - apply list_elem_of_In, Ht.
    - apply String.eqb_refl. }
  rewrite Hinit in Hval, Hsome. simpl in Hval.
  destruct Hsome as [n Hn]; [eexists; reflexivity|].
  rewrite Hn in Hval |- *. simpl in Hval. rewrite Hval. reflexivity.
Qed.

Lemma pickLoop_spec (counts : jsmap nat) (cnt : Team -> nat) (o : option Team)
    (ts : list Team) :
  (forall t, t ∈ ts -> map_get counts (t_id t) = Some (cnt t)) ->
  ts <> [] ->
  exists i t, pickLoop counts ts (o, None) = (Some t, Some (cnt t))
              /\ ts !! i = Some t
              /\ (forall j t', ts !! j = Some t' -> cnt t <= cnt t')
              /\ (forall j t', j < i -> ts !! j = Some t' -> cnt t < cnt t').
Proof.
  induction ts as [|t ts IH] using rev_ind; intros Hc Hne; [congruence|].
  unfold pickLoop in *. rewrite fold_left_app. simpl.
  rewrite (Hc t) by (apply elem_of_app; right; apply list_elem_of_singleton; reflexivity).
  destruct ts as [|t0 ts0].
  - simpl. exists 0, t. repeat split; auto.
    + intros [|j] t' Hj; simpl in Hj; [|discriminate]. injection Hj as <-. lia.
    + intros j t' Hj. lia.
  - destruct IH as (i & tm & Hfold & Hi & Hmin & Hfirst);
      [intros t' Ht'; apply Hc, elem_of_app; left; exact Ht' | discriminate |].
    rewrite Hfold. cbn [snd].
    assert (Hlen : i < List.length (t0 :: ts0)) by (eapply lookup_lt_Some; eauto).
    destruct (Nat.ltb_spec (cnt t) (cnt tm)) as [Hlt|Hge].
    + exists (List.length (t0 :: ts0)), t.
      split; [reflexivity|]. split; [|split].
      * rewrite lookup_app_r by lia. rewrite Nat.sub_diag. reflexivity.
      * intros j t' Hj. apply lookup_app_Some in Hj as [Hj|[_ Hj]].
        -- specialize (Hmin j t' Hj). lia.
        -- destruct (j - _) as [|?]; simpl in Hj; [|discriminate].
           injection Hj as <-. lia.
      * intros j t' Hj Hj'. rewrite lookup_app_l in Hj' by exact Hj.
        specialize (Hmin j t' Hj'). lia.
    + exists i, tm.
      split; [reflexivity|]. split; [|split].
      * rewrite lookup_app_l by exact Hlen. exact Hi.
      * intros j t' Hj. apply lookup_app_Some in Hj as [Hj|[_ Hj]].
        -- exact (Hmin j t' Hj).
        -- destruct (j - _) as [|?]; simpl in Hj; [|discriminate].
           injection Hj as <-. lia.
      * intros j t' Hj Hj'. rewrite lookup_app_l in Hj' by lia.
        exact (Hfirst j t' Hj Hj').
Qed.

(** [autoAssignTeam] returns the first team, in the order of [teams], whose
    player count is the minimum. *)
Lemma autoAssignTeam_spec (w : World) :
  teams w <> [] ->
  exists i t, autoAssignTeam w = Some t
              /\ teams w !! i = Some t
              /\ (forall j t', teams w !! j = Some t' ->
                               playerCount w (t_id t) <= playerCount w (t_id t'))
              /\ (forall j t', j < i -> teams w !! j = Some t' ->
                               playerCount w (t_id t) < playerCount w (t_id t')).
Proof.
  intros Hne.
  destruct (pickLoop_spec (teamCounts w) (fun t => playerCount w (t_id t))
              (head (teams w)) (teams w)) as (i & t & Hpick & Hrest); auto.
  - intros t Ht. apply teamCounts_get, Ht.
  - exists i, t. split; [|exact Hrest].
    unfold autoAssignTeam. unfold pickLoop in Hpick. rewrite Hpick. reflexivity.
Qed.

Lemma countIn_set (m : jsmap PlayerState) (id tid : string) (p : PlayerState) :
  countIn (map_set m id p) tid
  <= countIn m tid + (if String.eqb (p_teamId p) tid then 1 else 0).
Proof.
  unfold countIn. induction m as [|[k0 p0] m IH]; simpl.
  - destruct (String.eqb (p_teamId p) tid); simpl; lia.
  - destruct (String.eqb k0 id); simpl.
    + destruct (String.eqb (p_teamId p) tid), (String.eqb (p_teamId p0) tid); simpl; lia.
    + destruct (String.eqb (p_teamId p0) tid); simpl; lia.
Qed.

Lemma length_map_set {V} (m : jsmap V) (k : string) (v : V) :
  List.length (map_set m k v) <= S (List.length m).
Proof.
  induction m as [|[k0 v0] m IH]; simpl; [lia|].
  destruct (String.eqb k0 k); simpl; lia.
Qed.

Lemma indicator_sum (k : string) (ids : list string) :
  NoDup ids ->
  list_sum (map (fun tid => if String.eqb k tid then 1 else 0) ids) <= 1.
Proof.
  induction 1 as [|tid ids Hnotin Hnd IH]; simpl; [lia|].
  destruct (String.eqb_spec k tid) as [->|Hne]; [|lia].
  assert (Hz : list_sum (map (fun t => if String.eqb tid t then 1 else 0) ids) = 0).
  { clear IH Hnd. induction ids as [|a ids IH]; simpl; [reflexivity|].
    destruct (String.eqb_spec tid a) as [->|_].
    - exfalso. apply Hnotin. left.
    - apply IH. intros Hin. apply Hnotin. right. exact Hin. }
  lia.
Qed.

Lemma counts_sum (ps : jsmap PlayerState) (ids : list string) :
  NoDup ids -> list_sum (map (countIn ps) ids) <= List.length ps.
Proof.
  intros Hnd. induction ps as [|e ps IH].
  - replace (map (countIn []) ids) with (map (fun _ : string => 0) ids) by reflexivity.
    clear. induction ids; simpl in *; lia.
  - assert (Hsplit : forall l,
               list_sum (map (countIn (e :: ps)) l)
               = list_sum (map (fun tid => if String.eqb (p_teamId (snd e)) tid then 1 else 0) l)
                 + list_sum (map (countIn ps) l)).
    { induction l as [|a l IHl]; simpl; [reflexivity|].
      rewrite IHl. unfold countIn at 1. simpl.
      destruct (String.eqb (p_teamId (snd e)) a); simpl; unfold countIn; lia. }
    rewrite Hsplit. pose proof (indicator_sum (p_teamId (snd e)) ids Hnd). simpl. lia.
Qed.

Lemma min_times_length (f : string -> nat) (ids : list string) (m : nat) :
  (forall tid, tid ∈ ids -> m <= f tid) ->
  List.length ids * m <= list_sum (map f ids).
Proof.
  induction ids as [|a ids IH]; intros H; simpl; [lia|].
  assert (m <= f a) by (apply H; left).
  assert (List.length ids * m <= list_sum (map f ids))
    by (apply IH; intros tid Ht; apply H; right; exact Ht).
  lia.
Qed.

Lemma ceil_div_succ (n t : nat) : t <> 0 -> ceil_div (S n) t = S (n / t).
Proof.
  intros Ht. unfold ceil_div.
  replace (S n + t - 1) with (n + 1 * t) by lia.
  rewrite Nat.div_add by exact Ht. lia.
Qed.

Lemma ceil_div_mono (n t : nat) : t <> 0 -> ceil_div n t <= ceil_div (S n) t.
Proof.
  intros Ht. unfold ceil_div. apply Nat.Div0.div_le_mono. lia.
Qed.

(** One join keeps every team within the ceiling. *)
Lemma join_fair (id name : string) (w : World) (n : nat) :
  teams w <> [] ->
  NoDup (map t_id (teams w)) ->
  List.length (players w) <= n ->
  (forall t, t ∈ teams w -> playerCount w (t_id t) <= ceil_div n (List.length (teams w))) ->
  exists w', onPlayerJoin id name w = Some w'
             /\ teams w' = teams w
             /\ List.length (players w') <= S n
             /\ (forall t, t ∈ teams w' ->
                   playerCount w' (t_id t) <= ceil_div (S n) (List.length (teams w'))).
Proof.
  intros Hne Hnd Hlen Hfair.
  destruct (autoAssignTeam_spec w Hne) as (i & tm & Hpick & Hi & Hmin & _).
  unfold onPlayerJoin. rewrite Hpick. eexists. split; [reflexivity|].
  simpl. split; [reflexivity|]. split.
  - pose proof (length_map_set (players w) id
                  (mkPlayer id name (t_id tm) (t_spawn tm) zero3 true 1%float 0%float None)). lia.
  - assert (HT : List.length (teams w) <> 0) by (destruct (teams w); simpl; congruence).
    intros t Ht. unfold playerCount. simpl.
    pose proof (countIn_set (players w) id (t_id t)
                  (mkPlayer id name (t_id tm) (t_spawn tm) zero3 true 1%float 0%float None)) as Hset.
    unfold countIn in Hset. simpl in Hset.
    destruct (String.eqb_spec (t_id tm) (t_id t)) as [Heq|Hneq].
    + assert (Hm : List.length (teams w) * playerCount w (t_id tm) <= n).
      { etransitivity; [|exact Hlen].
        etransitivity; [|apply (counts_sum (players w) (map t_id (teams w)) Hnd)].
        rewrite <- (length_map t_id (teams w)).
        apply (min_times_length (countIn (players w))).
        intros tid Htid. apply list_elem_of_fmap in Htid as (t' & -> & Ht').
        apply list_elem_of_lookup in Ht' as (j & Hj).
        exact (Hmin j t' Hj). }
      rewrite ceil_div_succ by exact HT.
      assert (playerCount w (t_id tm) <= n / List.length (teams w)).
      { apply Nat.div_le_lower_bound; [exact HT | exact Hm]. }
      unfold playerCount in *. rewrite <- Heq. rewrite <- Heq in Hset. lia.
    + pose proof (Hfair t Ht) as Hold. unfold playerCount in Hold.
      pose proof (ceil_div_mono n (List.length (teams w)) HT). lia.
Qed.

(** C8.  [autoAssignTeam] picks the team with the minimum current player
    count, the first such team of [teams] on a tie; consequently, after
    any [N] consecutive joins into a match without players, whose teams
    have distinct ids, no team has more than [ceil (N / teamCount)]
    players. *)
Theorem auto_assign_fair (w : World) (who : list (EntityId * string)) :
  players w = [] ->
  teams w <> [] ->
  NoDup (map t_id (teams w)) ->
  (forall w1, teams w1 <> [] ->
     exists i t, autoAssignTeam w1 = Some t
       /\ teams w1 !! i = Some t
       /\ (forall j t', teams w1 !! j = Some t' ->
                        playerCount w1 (t_id t) <= playerCount w1 (t_id t'))
       /\ (forall j t', j < i -> teams w1 !! j = Some t' ->
                        playerCount w1 (t_id t) < playerCount w1 (t_id t')))
  /\ exists w', joins who w = Some w'
       /\ teams w' = teams w
       /\ forall t, t ∈ teams w' ->
            playerCount w' (t_id t)
            <= ceil_div (List.length who) (List.length (teams w')).
Proof.
  intros Hempty Hne Hnd. split; [exact autoAssignTeam_spec|].
  assert (Hgen : forall who w n,
             teams w <> [] -> NoDup (map t_id (teams w)) ->
             List.length (players w) <= n ->
             (forall t, t ∈ teams w ->
                playerCount w (t_id t) <= ceil_div n (List.length (teams w))) ->
             exists w', joins who w = Some w' /\ teams w' = teams w
               /\ forall t, t ∈ teams w' ->
                    playerCount w' (t_id t)
                    <= ceil_div (n + List.length who) (List.length (teams w'))).
  { clear. induction who as [|[id name] who IH]; intros w n Hne Hnd Hlen Hfair.
    - exists w. simpl. rewrite Nat.add_0_r. auto.
    - destruct (join_fair id name w n Hne Hnd Hlen Hfair) as (w1 & Hj & Ht & Hl & Hf).
      assert (Hne1 : teams w1 <> []) by (rewrite Ht; exact Hne).
      assert (Hnd1 : NoDup (map t_id (teams w1))) by (rewrite Ht; exact Hnd).
      destruct (IH w1 (S n) Hne1 Hnd1 Hl Hf) as (w' & Hjs & Ht' & Hf').
      exists w'. simpl. rewrite Hj. split; [exact Hjs|].
      split; [congruence|].
      replace (n + S (List.length who)) with (S n + List.length who) by lia.
      exact Hf'. }
  apply (Hgen who w 0 Hne Hnd).
  - rewrite Hempty. simpl. lia.
  - intros t _. unfold playerCount. rewrite Hempty. simpl. lia.
Qed.

End Teams.

(** *** Ownership links

    The links between players and balls stay consistent through inputs
    and ticks, through the join of a new id and through the leave of a
    player who holds nothing; a player who leaves while holding a ball
    leaves that ball owned by an id no longer registered. *)

Section Ownership.

Context {M : MathLib}.

Lemma keys_put (v : option string) (i : nat) (l : jsmap (option string)) :
  (alter (put v) i l).*1 = l.*1.
Proof. apply fmap_alter_frame. intros [k c]. reflexivity. Qed.

Lemma key_inj (l : jsmap (option string)) (i j : nat) (k : string) (c c' : option string) :
  NoDup (l.*1) -> l !! i = Some (k, c) -> l !! j = Some (k, c') -> i = j.
Proof.
  intros Hnd Hi Hj. apply (NoDup_lookup (l.*1) i j k Hnd).
  - rewrite list_lookup_fmap, Hi. reflexivity.
  - rewrite list_lookup_fmap, Hj. reflexivity.
Qed.

Lemma falsy_not_key (c : option string) (d : string) :
  Js.truthy_str c = false -> d <> "" -> c <> Some d.
Proof.
  intros Hc Hd ->. simpl in Hc. apply negb_false_iff, String.eqb_eq in Hc.
  contradiction.
Qed.

Lemma linked_take (P B : jsmap (option string)) (pi bi : nat) (k d : string) (c o : option string) :
  linked P B ->
  P !! pi = Some (k, c) -> Js.truthy_str c = false ->
  B !! bi = Some (d, o) -> Js.truthy_str o = false ->
  linked (alter (put (Some d)) pi P) (alter (put (Some k)) bi B).
Proof.
  intros (HnP & HnB & HkP & HkB & Hsym & Hown) HP Hc HB Ho.
  assert (Hk : k <> "") by eauto. assert (Hd : d <> "") by eauto.
  unfold linked. rewrite !keys_put.
  split; [exact HnP|]. split; [exact HnB|].
  split; [|split; [|split]].
  - intros i k' c' H. apply lookup_alter_inv in H as [[-> ([k0 c0] & H0 & E)]|[_ H]].
    + unfold put in E. simpl in E. injection E as -> _. eauto.
    + eauto.
  - intros j d' o' H. apply lookup_alter_inv in H as [[-> ([d0 o0] & H0 & E)]|[_ H]].
    + unfold put in E. simpl in E. injection E as -> _. eauto.
    + eauto.
  - intros i j k' c' d' o' Hi Hj.
    apply lookup_alter_inv in Hi as [[-> ([k0 c0] & H0 & Ei)]|[Hni Hi]];
    apply lookup_alter_inv in Hj as [[-> ([d0 o0] & H1 & Ej)]|[Hnj Hj]].
    + rewrite HP in H0. rewrite HB in H1. unfold put in *. simpl in *.
      injection H0 as <- <-. injection H1 as <- <-.
      injection Ei as -> ->. injection Ej as -> ->. tauto.
    + rewrite HP in H0. injection H0 as <- <-. unfold put in Ei. simpl in Ei.
      injection Ei as -> ->.
      split.
      * intros E. injection E as <-. destruct Hnj.
        apply (key_inj B j bi d o' o HnB); assumption.
      * intros ->. assert (Hd' : d' <> "") by eauto.
        pose proof (falsy_not_key c d' Hc Hd') as Hn.
        destruct Hn. apply (Hsym pi j k c d' (Some k) HP Hj). reflexivity.
    + rewrite HB in H1. injection H1 as <- <-. unfold put in Ej. simpl in Ej.
      injection Ej as -> ->.
      split.
      * intros ->. assert (Hk' : k' <> "") by eauto.
        pose proof (falsy_not_key o k' Ho Hk') as Hn.
        destruct Hn. apply (Hsym i bi k' (Some d) d o Hi HB). reflexivity.
      * intros E. injection E as <-. destruct Hni.
        apply (key_inj P i pi k c' c HnP); assumption.
    + eauto.
  - intros j d' o' H.
    assert (Hhere : exists c1, alter (put (Some d)) pi P !! pi = Some (k, c1)).
    { exists (Some d). rewrite list_lookup_alter_eq, HP. reflexivity. }
    apply lookup_alter_inv in H as [[-> ([d0 o0] & H0 & E)]|[_ H]].
    + unfold put in E. simpl in E. injection E as _ ->.
      destruct Hhere as [c1 H1]. eauto.
    + destruct (Hown _ _ _ H) as (i & c1 & Hi).
      destruct (decide (i = pi)) as [->|Hne].
      * rewrite HP in Hi. injection Hi as <- <-.
        destruct Hhere as [c2 H2]. eauto.
      * exists i, c1. rewrite list_lookup_alter_ne by congruence. exact Hi.
Qed.

Lemma linked_drop (P B : jsmap (option string)) (pi bi : nat) (k d : string) (c o : option string) :
  linked P B ->
  P !! pi = Some (k, c) -> B !! bi = Some (d, o) ->
  c = Some d \/ (c = None /\ o = None) ->
  linked (alter (put None) pi P) (alter (put None) bi B).
Proof.
  intros (HnP & HnB & HkP & HkB & Hsym & Hown) HP HB Hco.
  unfold linked. rewrite !keys_put.
  split; [exact HnP|]. split; [exact HnB|].
  split; [|split; [|split]].
  - intros i k' c' H. apply lookup_alter_inv in H as [[-> ([k0 c0] & H0 & E)]|[_ H]].
    + unfold put in E. simpl in E. injection E as -> _. eauto.
    + eauto.
  - intros j d' o' H. apply lookup_alter_inv in H as [[-> ([d0 o0] & H0 & E)]|[_ H]].
    + unfold put in E. simpl in E. injection E as -> _. eauto.
    + eauto.
  - intros i j k' c' d' o' Hi Hj.
    apply lookup_alter_inv in Hi as [[-> ([k0 c0] & H0 & Ei)]|[Hni Hi]];
    apply lookup_alter_inv in Hj as [[-> ([d0 o0] & H1 & Ej)]|[Hnj Hj]].
    + unfold put in *. simpl in *. injection Ei as _ ->. injection Ej as _ ->.
      split; discriminate.
    + rewrite HP in H0. injection H0 as <- <-. unfold put in Ei. simpl in Ei.
      injection Ei as -> ->.
      split; [discriminate|]. intros ->.
      pose proof (proj2 (Hsym pi j k c d' (Some k) HP Hj) eq_refl) as E.
      destruct Hco as [->|[-> _]]; [|discriminate].
      injection E as <-. destruct Hnj.
      apply (key_inj B j bi d (Some k) o HnB); assumption.
    + rewrite HB in H1. injection H1 as <- <-. unfold put in Ej. simpl in Ej.
      injection Ej as -> ->.
      split; [|discriminate]. intros ->.
      pose proof (proj1 (Hsym i bi k' (Some d) d o Hi HB) eq_refl) as E.
      destruct Hco as [->|[_ ->]]; [|discriminate].
      pose proof (proj1 (Hsym pi bi k (Some d) d o HP HB) eq_refl) as E'.
      rewrite E in E'. injection E' as ->. destruct Hni.
      apply (key_inj P i pi k (Some d) (Some d) HnP); assumption.
    + eauto.
  - intros j d' o' H.
    apply lookup_alter_inv in H as [[-> ([d0 o0] & H0 & E)]|[_ H]].
    + unfold put in E. simpl in E. discriminate.
    + destruct (Hown _ _ _ H) as (i & c1 & Hi).
      destruct (decide (i = pi)) as [->|Hne].
      * exists pi, None. rewrite list_lookup_alter_eq, Hi. reflexivity.
      * exists i, c1. rewrite list_lookup_alter_ne by congruence. exact Hi.
Qed.

Lemma linked_forget (P B : jsmap (option string)) (pi : nat) (k : string) (c : option string) :
  linked P B ->
  P !! pi = Some (k, c) ->
  (forall j d o, B !! j = Some (d, o) -> c <> Some d) ->
  linked (alter (put None) pi P) B.
Proof.
  intros (HnP & HnB & HkP & HkB & Hsym & Hown) HP Hno.
  unfold linked. rewrite !keys_put.
  split; [exact HnP|]. split; [exact HnB|].
  split; [|split; [|split]].
  - intros i k' c' H. apply lookup_alter_inv in H as [[-> ([k0 c0] & H0 & E)]|[_ H]].
    + unfold put in E. simpl in E. injection E as -> _. eauto.
    + eauto.
  - exact HkB.
  - intros i j k' c' d' o' Hi Hj.
    apply lookup_alter_inv in Hi as [[-> ([k0 c0] & H0 & Ei)]|[Hni Hi]].
    + rewrite HP in H0. injection H0 as <- <-. unfold put in Ei. simpl in Ei.
      injection Ei as -> ->.
      split; [discriminate|]. intros ->.
      destruct (Hno _ _ _ Hj). apply (Hsym pi j k c d' (Some k) HP Hj). reflexivity.
    + eauto.
  - intros j d' o' H.
    destruct (Hown _ _ _ H) as (i & c1 & Hi).
    destruct (decide (i = pi)) as [->|Hne].
    + exists pi, None. rewrite list_lookup_alter_eq, Hi. reflexivity.
    + exists i, c1. rewrite list_lookup_alter_ne by congruence. exact Hi.
Qed.

(** Releasing: the carrier's reference is cleared, and so is the owner of
    the first ball whose id is that reference, if there is one. *)
Lemma linked_release (P B : jsmap (option string)) (pi : nat) (k : string) (c : option string) :
  linked P B -> P !! pi = Some (k, c) ->
  linked (alter (put None) pi P)
         (match find_index (fun e => Js.str_eq_opt e.1 c) B with
          | Some ci => alter (put None) ci B
          | None => B
          end).
Proof.
  intros HL HP.
  destruct (find_index (fun e => Js.str_eq_opt e.1 c) B) as [ci|] eqn:Hf.
  - apply find_index_Some in Hf as ([d o] & Hci & Hd & _). simpl in Hd.
    destruct c as [s|]; [|discriminate]. simpl in Hd.
    apply String.eqb_eq in Hd. subst s.
    eapply linked_drop; eauto.
  - eapply linked_forget; eauto.
    intros j d o Hj ->.
    pose proof (find_index_None _ _ Hf j (d, o) Hj) as Hn. simpl in Hn.
    rewrite String.eqb_refl in Hn. discriminate.
Qed.

Lemma consistent_symmetric (w : World) :
  consistent w -> ownership_symmetric w.
Proof.
  intros (_ & _ & _ & _ & Hsym & _) k p b Hp Hb.
  apply list_elem_of_lookup in Hp as [i Hi].
  apply list_elem_of_lookup in Hb as [j Hj].
  apply (Hsym i j).
  - unfold carriers. rewrite list_lookup_fmap, Hi. reflexivity.
  - unfold holders. rewrite list_lookup_fmap, Hj. reflexivity.
Qed.

Lemma carriers_frame (i : nat) (f : PlayerState -> PlayerState) (w : World) :
  (forall p, p_id (f p) = p_id p) ->
  (forall p, p_carrying (f p) = p_carrying p) ->
  carriers (with_player i f w) = carriers w.
Proof.
  intros H1 H2. unfold carriers, with_player, set_players. simpl.
  apply fmap_alter_frame. intros [k p]. simpl. rewrite H1, H2. reflexivity.
Qed.

Lemma carriers_set (i : nat) (c : option EntityId) (w : World) :
  carriers (with_player i (p_set_carrying c) w) = alter (put c) i (carriers w).
Proof.
  unfold carriers, with_player, set_players. simpl.
  apply fmap_alter_commute. intros [k p]. reflexivity.
Qed.

Lemma holders_frame (i : nat) (f : Ball -> Ball) (w : World) :
  (forall b, b_id (f b) = b_id b) ->
  (forall b, b_owner (f b) = b_owner b) ->
  holders (with_ball i f w) = holders w.
Proof.
  intros H1 H2. unfold holders, with_ball, set_balls. simpl.
  apply fmap_alter_frame. intros b. rewrite H1, H2. reflexivity.
Qed.

Lemma holders_set (i : nat) (f : Ball -> Ball) (o : option EntityId) (w : World) :
  (forall b, b_id (f b) = b_id b) ->
  (forall b, b_owner (f b) = o) ->
  holders (with_ball i f w) = alter (put o) i (holders w).
Proof.
  intros H1 H2. unfold holders, with_ball, set_balls. simpl.
  apply fmap_alter_commute. intros b. unfold put. simpl. rewrite H1, H2.
  reflexivity.
Qed.

Lemma holders_with_player (i : nat) (f : PlayerState -> PlayerState) (w : World) :
  holders (with_player i f w) = holders w.
Proof. reflexivity. Qed.

Lemma carriers_with_ball (i : nat) (f : Ball -> Ball) (w : World) :
  carriers (with_ball i f w) = carriers w.
Proof. reflexivity. Qed.

Lemma carriers_at (w : World) (i : nat) (p : PlayerState) :
  player_at w i = Some p -> carriers w !! i = Some (p_id p, p_carrying p).
Proof.
  unfold player_at, carriers. intros H. rewrite list_lookup_fmap.
  destruct (players w !! i) as [[k q]|]; [|discriminate].
  simpl in H. injection H as ->. reflexivity.
Qed.

Lemma holders_at (w : World) (i : nat) (b : Ball) :
  balls w !! i = Some b -> holders w !! i = Some (b_id b, b_owner b).
Proof.
  unfold holders. intros H. rewrite list_lookup_fmap, H. reflexivity.
Qed.

(** The release of the ball a player refers to, as the three places of the
    source that do it ([find] by id, clear the owner, clear the
    reference). *)
Lemma consistent_release (w : World) (pi : nat) (p : PlayerState)
    (g : Ball -> Ball) :
  (forall b, b_id (g b) = b_id b) -> (forall b, b_owner (g b) = None) ->
  consistent w -> player_at w pi = Some p ->
  consistent
    (with_player pi (p_set_carrying None)
       (match find_index (fun b => Js.str_eq_opt (b_id b) (p_carrying p)) (balls w) with
        | Some ci => with_ball ci g w
        | None => w
        end)).
Proof.
  intros Hid Hown HL Hp. unfold consistent. rewrite carriers_set.
  pose proof (linked_release _ _ pi _ _ HL (carriers_at _ _ _ Hp)) as HR.
  unfold holders at 1 in HR. rewrite find_index_fmap in HR. simpl in HR.
  destruct (find_index _ (balls w)) as [ci|].
  - rewrite holders_with_player, carriers_with_ball.
    rewrite (holders_set ci g None) by assumption. exact HR.
  - rewrite holders_with_player. exact HR.
Qed.

Lemma consistent_interactStep (input : Input) (pi : nat) (w : World) :
  consistent w -> consistent (interactStep input pi w).
Proof.
  intros HL. unfold interactStep.
  destruct (player_at w pi) as [p|] eqn:Hp; [|exact HL].
  destruct (negb (Js.truthy_str (p_carrying p))) eqn:Hc.
  - destruct (find_index (pickable p) (balls w)) as [bi|] eqn:Hf; [|exact HL].
    apply find_index_Some in Hf as (b & Hb & Hpick & _).
    rewrite Hb. simpl. unfold consistent.
    rewrite carriers_set, holders_with_player, carriers_with_ball.
    rewrite (holders_set bi _ (Some (p_id p))) by reflexivity.
    unfold pickable in Hpick. apply andb_true_iff in Hpick as [Hpick _].
    apply andb_true_iff in Hpick as [Hfree _].
    apply negb_true_iff in Hfree. apply negb_true_iff in Hc.
    eapply linked_take; eauto using carriers_at, holders_at.
  - apply consistent_release; auto.
Qed.

Lemma consistent_frame (w w' : World) :
  carriers w' = carriers w -> holders w' = holders w ->
  consistent w -> consistent w'.
Proof. unfold consistent. intros -> ->. auto. Qed.

Lemma swingStep_links (pi : nat) (w : World) :
  carriers (swingStep pi w) = carriers w /\ holders (swingStep pi w) = holders w.
Proof.
  unfold swingStep.
  destruct (player_at w pi) as [p|]; [|auto].
  destruct (nearestBallOfKind w (p_pos p) bludger) as [bi|]; [|auto].
  destruct (balls w !! bi) as [bl|]; [|auto].
  destruct (_ <? _)%float; [|auto].
  split; [reflexivity|]. apply holders_frame; reflexivity.
Qed.

Lemma consistent_onPlayerInput (id : EntityId) (input : Input) (dt nowMs : float)
    (w : World) :
  consistent w -> consistent (onPlayerInput id input dt nowMs w).
Proof.
  intros HL. unfold onPlayerInput.
  destruct (map_index (players w) id) as [pi|]; [|exact HL].
  destruct (player_at w pi) as [p|]; [|exact HL].
  destruct (_ <? _)%float; [exact HL|].
  assert (H1 : consistent (with_player pi (flight input dt) w)).
  { eapply consistent_frame; [| |exact HL].
    - apply carriers_frame; reflexivity.
    - reflexivity. }
  assert (H2 : consistent (if interact input
                           then interactStep input pi (with_player pi (flight input dt) w)
                           else with_player pi (flight input dt) w)).
  { destruct (interact input); [apply consistent_interactStep|]; exact H1. }
  cbv zeta. destruct (beaterSwing input); [|exact H2].
  destruct (swingStep_links pi
              (if interact input
               then interactStep input pi (with_player pi (flight input dt) w)
               else with_player pi (flight input dt) w)) as [E1 E2].
  eapply consistent_frame; eauto.
Qed.

Lemma bludgerSeek_link (w : World) (dt : float) (b : Ball) :
  b_id (bludgerSeek w dt b) = b_id b /\ b_owner (bludgerSeek w dt b) = b_owner b.
Proof. unfold bludgerSeek. destruct (nearestPlayer w (b_pos b)); auto. Qed.

Lemma updateBall_links (dt nowMs : float) (i : nat) (w : World) :
  carriers (updateBall dt nowMs i w) = carriers w
  /\ holders (updateBall dt nowMs i w) = holders w.
Proof.
  unfold updateBall.
  destruct (balls w !! i) as [b|]; [|auto].
  destruct (Js.truthy_str (b_owner b)); [auto|].
  cbv zeta.
  assert (H1 : holders (with_ball i (integrateBall dt) w) = holders w)
    by (apply holders_frame; reflexivity).
  set (w1 := with_ball i (integrateBall dt) w) in *.
  assert (H2 : carriers w1 = carriers w) by reflexivity.
  set (w2 := if kind_eqb (b_kind b) bludger
             then with_ball i (bludgerSeek w1 dt) w1 else w1).
  assert (H3 : carriers w2 = carriers w /\ holders w2 = holders w).
  { unfold w2. destruct (kind_eqb (b_kind b) bludger); [|auto].
    split; [exact H2|]. rewrite <- H1.
    apply holders_frame; intros b0; apply bludgerSeek_link. }
  destruct H3 as [H3 H4].
  destruct (kind_eqb (b_kind b) snitch); [|auto].
  split; [exact H3|]. rewrite <- H4. apply holders_frame; reflexivity.
Qed.

Lemma consistent_scoreCarrier (pi : nat) (w : World) :
  consistent w -> consistent (scoreCarrier pi w).
Proof.
  intros HL. unfold scoreCarrier.
  destruct (player_at w pi) as [p|] eqn:Hp; [|exact HL].
  destruct (Js.truthy_str (p_carrying p)); [|exact HL].
  destruct (find_index _ (balls w)) as [bi|] eqn:Hf; [|exact HL].
  destruct (kind_eqb _ quaffle); [|exact HL].
  apply find_index_Some in Hf as (b & Hb & Hq & _).
  assert (Hc : p_carrying p = Some (b_id b)).
  { destruct (p_carrying p) as [s|]; [|discriminate]. simpl in Hq.
    apply String.eqb_eq in Hq. congruence. }
  set (I := fun w' : World =>
         consistent w' /\
         exists k c d o, carriers w' !! pi = Some (k, c)
                         /\ holders w' !! bi = Some (d, o)
                         /\ (c = Some d \/ (c = None /\ o = None))).
  assert (HI : I (fold_left (fun w0 g => scoreAtGoal pi bi g w0) (goals w) w));
    [|exact (proj1 HI)].
  apply fold_left_ind.
  - split; [exact HL|].
    exists (p_id p), (p_carrying p), (b_id b), (b_owner b).
    split; [apply carriers_at; exact Hp|].
    split; [apply holders_at; exact Hb|]. left. exact Hc.
  - intros g w0 (HL0 & k & c & d & o & HP0 & HB0 & Hco).
    unfold scoreAtGoal.
    destruct (player_at w0 pi) as [p0|];
      [|split; [exact HL0|exists k, c, d, o; auto]].
    destruct (_ <? _)%float;
      [|split; [exact HL0|exists k, c, d, o; auto]].
    destruct (teamById w0 (p_teamId p0)) as [ti|];
      [|split; [exact HL0|exists k, c, d, o; auto]].
    cbv zeta.
    set (w1 := announce _ (with_team ti (t_add_score SCORE_QUAFFLE) w0)).
    assert (Ec : carriers w1 = carriers w0) by reflexivity.
    assert (Eh : holders w1 = holders w0) by reflexivity.
    set (g0 := fun b0 : Ball => mkBall (b_id b0) (b_kind b0) (midAir (bounds w1) 8) zero3 None).
    assert (Ec' : carriers (broadcastHUD false
                    (with_player pi (p_set_carrying None) (with_ball bi g0 w1)))
                  = alter (put None) pi (carriers w0)).
    { change (carriers (with_player pi (p_set_carrying None) (with_ball bi g0 w1))
              = alter (put None) pi (carriers w0)).
      rewrite carriers_set, carriers_with_ball, Ec. reflexivity. }
    assert (Eh' : holders (broadcastHUD false
                    (with_player pi (p_set_carrying None) (with_ball bi g0 w1)))
                  = alter (put None) bi (holders w0)).
    { change (holders (with_ball bi g0 w1) = alter (put None) bi (holders w0)).
      rewrite (holders_set bi g0 None) by reflexivity. rewrite Eh. reflexivity. }
    split.
    + unfold consistent. rewrite Ec', Eh'. eapply linked_drop; eauto.
    + exists k, None, d, None. rewrite Ec', Eh'.
      rewrite !list_lookup_alter_eq, HP0, HB0. auto.
Qed.

Lemma consistent_knockback (nowMs : float) (bi pi : nat) (w : World) :
  consistent w -> consistent (knockback nowMs bi pi w).
Proof.
  intros HL. unfold knockback.
  destruct (balls w !! bi) as [b|]; [|exact HL].
  destruct (player_at w pi) as [p|] eqn:Hp; [|exact HL].
  destruct (_ <? _)%float; [|exact HL].
  cbv zeta.
  set (hit := fun p0 : PlayerState => p_set_stunnedUntil _ (p_set_vel _ p0)).
  set (w1 := with_player pi hit w).
  assert (H1 : consistent w1).
  { eapply consistent_frame; [| |exact HL].
    - apply carriers_frame; reflexivity.
    - reflexivity. }
  destruct (Js.truthy_str (p_carrying p)); [|exact H1].
  assert (Hp1 : player_at w1 pi = Some (hit p)).
  { unfold player_at, w1, with_player, set_players in *. simpl.
    rewrite list_lookup_alter_eq.
    destruct (players w !! pi) as [[k q]|]; [|discriminate].
    simpl in *. injection Hp as ->. reflexivity. }
  apply (consistent_release w1 pi (hit p)); auto.
Qed.

Lemma consistent_captureBy (si pi : nat) (w : World) :
  consistent w -> consistent (captureBy si pi w).1.
Proof.
  intros HL. unfold captureBy.
  destruct (balls w !! si) as [s|]; [|exact HL].
  destruct (player_at w pi) as [p|]; [|exact HL].
  destruct (_ <? _)%float; [|exact HL].
  destruct (teamById w (p_teamId p)) as [ti|]; [|exact HL].
  exact HL.
Qed.

Lemma consistent_resolveInteractions (nowMs : float) (w : World) :
  consistent w -> consistent (resolveInteractions nowMs w).
Proof.
  intros HL. unfold resolveInteractions.
  assert (H1 : consistent (scoreGoals w)).
  { unfold scoreGoals. apply for_index_ind; [exact HL|].
    intros i s _. apply consistent_scoreCarrier. }
  assert (H2 : consistent (bludgerHits nowMs (scoreGoals w))).
  { unfold bludgerHits. apply for_index_ind; [exact H1|].
    intros bi s _ Hs. destruct (balls s !! bi) as [b|]; [|exact Hs].
    destruct (kind_eqb (b_kind b) bludger); [|exact Hs].
    apply for_index_ind; [exact Hs|].
    intros pi s' _. apply consistent_knockback. }
  unfold snitchCapture.
  destruct (find_index _ (balls (bludgerHits nowMs (scoreGoals w)))); [|exact H2].
  apply for_break_ind; [exact H2|].
  intros pi s. apply consistent_captureBy.
Qed.

Lemma consistent_tick (rnd dt nowMs : float) (w : World) :
  consistent w -> consistent (tick rnd dt nowMs w).
Proof.
  intros HL. unfold tick. cbv zeta.
  assert (H1 : consistent (for_index (List.length (balls w)) (updateBall dt nowMs) w)).
  { apply for_index_ind; [exact HL|]. intros i s _ Hs.
    destruct (updateBall_links dt nowMs i s). eapply consistent_frame; eauto. }
  apply (consistent_resolveInteractions nowMs) in H1.
  set (w2 := resolveInteractions nowMs _) in *.
  assert (H3 : consistent
                 (for_index (List.length (players w2))
                    (fun i w0 => with_player i (updatePlayerPhysics w0 dt) w0) w2)).
  { apply for_index_ind; [exact H1|]. intros i s _ Hs.
    eapply consistent_frame; [| |exact Hs]; [|reflexivity].
    apply carriers_frame; intros p; unfold updatePlayerPhysics;
      destruct (_ <? _)%float; reflexivity. }
  destruct (_ <? _)%float; exact H3.
Qed.

Lemma keyed_with_player (i : nat) (f : PlayerState -> PlayerState) (w : World) :
  (forall p, p_id (f p) = p_id p) -> keyed w -> keyed (with_player i f w).
Proof.
  intros Hf Hk j k p H. unfold with_player, set_players in H. simpl in H.
  apply lookup_alter_inv in H as [[-> ([k0 p0] & H0 & E)]|[_ H]].
  - simpl in E. injection E as -> ->. rewrite Hf. eauto.
  - eauto.
Qed.

Lemma keyed_same (w w' : World) : players w' = players w -> keyed w -> keyed w'.
Proof. unfold keyed. intros ->. auto. Qed.

Lemma keyed_release (w : World) (pi : nat) (c : option EntityId) (g : Ball -> Ball) :
  keyed w ->
  keyed (with_player pi (p_set_carrying None)
           (match find_index (fun b => Js.str_eq_opt (b_id b) c) (balls w) with
            | Some ci => with_ball ci g w
            | None => w
            end)).
Proof.
  intros Hk. apply keyed_with_player; [reflexivity|].
  destruct (find_index _ (balls w)); [|exact Hk].
  eapply keyed_same; [|exact Hk]. reflexivity.
Qed.

Lemma keyed_interactStep (input : Input) (pi : nat) (w : World) :
  keyed w -> keyed (interactStep input pi w).
Proof.
  intros Hk. unfold interactStep.
  destruct (player_at w pi) as [p|]; [|exact Hk].
  destruct (negb _).
  - destruct (find_index _ (balls w)) as [bi|]; [|exact Hk].
    cbv zeta. apply keyed_with_player; [reflexivity|].
    eapply keyed_same; [|exact Hk]. reflexivity.
  - apply keyed_release. exact Hk.
Qed.

Lemma keyed_onPlayerInput (id : EntityId) (input : Input) (dt nowMs : float)
    (w : World) :
  keyed w -> keyed (onPlayerInput id input dt nowMs w).
Proof.
  intros Hk. unfold onPlayerInput.
  destruct (map_index (players w) id) as [pi|]; [|exact Hk].
  destruct (player_at w pi) as [p|]; [|exact Hk].
  destruct (_ <? _)%float; [exact Hk|].
  cbv zeta.
  assert (H1 : keyed (with_player pi (flight input dt) w))
    by (apply keyed_with_player; [reflexivity|exact Hk]).
  assert (H2 : keyed (if interact input
                      then interactStep input pi (with_player pi (flight input dt) w)
                      else with_player pi (flight input dt) w)).
  { destruct (interact input); [apply keyed_interactStep|]; exact H1. }
  destruct (beaterSwing input); [|exact H2].
  eapply keyed_same; [apply players_swingStep|exact H2].
Qed.

Lemma keyed_scoreCarrier (pi : nat) (w : World) :
  keyed w -> keyed (scoreCarrier pi w).
Proof.
  intros Hk. unfold scoreCarrier.
  destruct (player_at w pi) as [p|]; [|exact Hk].
  destruct (Js.truthy_str (p_carrying p)); [|exact Hk].
  destruct (find_index _ (balls w)) as [bi|]; [|exact Hk].
  destruct (kind_eqb _ quaffle); [|exact Hk].
  apply fold_left_ind; [exact Hk|].
  intros g w0 H0. unfold scoreAtGoal.
  destruct (player_at w0 pi) as [p0|]; [|exact H0].
  destruct (_ <? _)%float; [|exact H0].
  destruct (teamById w0 (p_teamId p0)) as [ti|]; [|exact H0].
  cbv zeta.
  set (w1 := announce _ (with_team ti (t_add_score SCORE_QUAFFLE) w0)).
  set (g0 := fun b0 : Ball => mkBall (b_id b0) (b_kind b0) (midAir (bounds w1) 8) zero3 None).
  apply (keyed_same (with_player pi (p_set_carrying None) w0)); [reflexivity|].
  apply keyed_with_player; [reflexivity|exact H0].
Qed.

Lemma keyed_knockback (nowMs : float) (bi pi : nat) (w : World) :
  keyed w -> keyed (knockback nowMs bi pi w).
Proof.
  intros Hk. unfold knockback.
  destruct (balls w !! bi) as [b|]; [|exact Hk].
  destruct (player_at w pi) as [p|]; [|exact Hk].
  destruct (_ <? _)%float; [|exact Hk].
  cbv zeta.
  set (hit := fun p0 : PlayerState => p_set_stunnedUntil _ (p_set_vel _ p0)).
  assert (H1 : keyed (with_player pi hit w))
    by (apply keyed_with_player; [reflexivity|exact Hk]).
  destruct (Js.truthy_str (p_carrying p)); [|exact H1].
  apply keyed_release. exact H1.
Qed.

Lemma players_captureBy (si pi : nat) (w : World) :
  players (captureBy si pi w).1 = players w.
Proof.
  unfold captureBy.
  destruct (balls w !! si) as [s|]; [|reflexivity].
  destruct (player_at w pi) as [p|]; [|reflexivity].
  destruct (_ <? _)%float; [|reflexivity].
  destruct (teamById w (p_teamId p)) as [ti|]; reflexivity.
Qed.

Lemma keyed_tick (rnd dt nowMs : float) (w : World) :
  keyed w -> keyed (tick rnd dt nowMs w).
Proof.
  intros Hk. unfold tick. cbv zeta.
  assert (H1 : keyed (for_index (List.length (balls w)) (updateBall dt nowMs) w)).
  { apply for_index_ind; [exact Hk|]. intros i s _ Hs.
    eapply keyed_same; [apply players_updateBall|exact Hs]. }
  set (w1 := for_index _ (updateBall dt nowMs) w) in *.
  assert (H2 : keyed (resolveInteractions nowMs w1)).
  { unfold resolveInteractions.
    assert (Ha : keyed (scoreGoals w1)).
    { unfold scoreGoals. apply for_index_ind; [exact H1|].
      intros i s _. apply keyed_scoreCarrier. }
    assert (Hb : keyed (bludgerHits nowMs (scoreGoals w1))).
    { unfold bludgerHits. apply for_index_ind; [exact Ha|].
      intros bi s _ Hs. destruct (balls s !! bi) as [b|]; [|exact Hs].
      destruct (kind_eqb (b_kind b) bludger); [|exact Hs].
      apply for_index_ind; [exact Hs|].
      intros pi s' _. apply keyed_knockback. }
    unfold snitchCapture.
    destruct (find_index _ (balls (bludgerHits nowMs (scoreGoals w1)))); [|exact Hb].
    apply for_break_ind; [exact Hb|].
    intros pi s Hs. eapply keyed_same; [apply players_captureBy|exact Hs]. }
  set (w2 := resolveInteractions nowMs w1) in *.
  assert (H3 : keyed
                 (for_index (List.length (players w2))
                    (fun i w0 => with_player i (updatePlayerPhysics w0 dt) w0) w2)).
  { apply for_index_ind; [exact H2|]. intros i s _ Hs.
    apply keyed_with_player; [|exact Hs].
    intros p; unfold updatePlayerPhysics; destruct (_ <? _)%float; reflexivity. }
  destruct (_ <? _)%float; exact H3.
Qed.

Lemma linked_enter (P B : jsmap (option string)) (k : string) :
  linked P B -> k <> "" -> k ∉ P.*1 -> linked (P ++ [(k, None)])%list B.
Proof.
  intros (HnP & HnB & HkP & HkB & Hsym & Hown) Hk Hfresh.
  assert (Hnew : forall i k' c', (P ++ [(k, None)])%list !! i = Some (k', c') ->
                   P !! i = Some (k', c') \/ (k' = k /\ c' = None)).
  { intros i k' c' H. apply lookup_app_Some in H as [H|[_ H]]; [auto|].
    right. destruct (i - List.length P)%nat; [|simpl in H; discriminate].
    simpl in H. injection H as <- <-. auto. }
  split; [|split; [exact HnB|split; [|split; [exact HkB|split]]]].
  - rewrite fmap_app. apply NoDup_app. split; [exact HnP|].
    split; [|apply NoDup_singleton].
    intros x Hx Hx'. apply list_elem_of_singleton in Hx'. simpl in Hx'. subst x.
    contradiction.
  - intros i k' c' H. destruct (Hnew _ _ _ H) as [H'|[-> _]]; eauto.
  - intros i j k' c' d o H Hj. destruct (Hnew _ _ _ H) as [H'|[-> ->]]; [eauto|].
    split; [discriminate|]. intros ->.
    destruct (Hown _ _ _ Hj) as (i' & c1 & Hi'). destruct Hfresh.
    apply list_elem_of_fmap. exists (k, c1). split; [reflexivity|].
    eapply list_elem_of_lookup_2; eauto.
  - intros j d o Hj. destruct (Hown _ _ _ Hj) as (i & c & Hi).
    exists i, c. apply lookup_app_l_Some. exact Hi.
Qed.

Lemma keyed_keys (w : World) :
  keyed w -> (players w).*1 = (carriers w).*1.
Proof.
  intros Hk. unfold carriers. rewrite <- list_fmap_compose.
  apply list_eq. intros i. rewrite !list_lookup_fmap.
  destruct (players w !! i) as [[k p]|] eqn:Hi; [|reflexivity].
  simpl. rewrite (Hk _ _ _ Hi). reflexivity.
Qed.

Lemma consistent_onPlayerJoin (id : EntityId) (name : string) (w w' : World) :
  keyed w -> consistent w -> id <> "" -> map_get (players w) id = None ->
  onPlayerJoin id name w = Some w' ->
  keyed w' /\ consistent w'.
Proof.
  intros Hk HL Hid Hnew Hj. unfold onPlayerJoin in Hj.
  destruct (autoAssignTeam w) as [team|]; [|discriminate].
  injection Hj as <-. cbv zeta.
  set (p := mkPlayer id name (t_id team) (t_spawn team) zero3 true 1 0 None).
  assert (Ep : players (broadcastHUD false
                 (announce (TxtJoined name (t_name team))
                    (set_players (fun m => map_set m id p) w)))
               = (players w ++ [(id, p)])%list).
  { simpl. apply map_set_fresh. exact Hnew. }
  split.
  - intros i k q H. rewrite Ep in H.
    apply lookup_app_Some in H as [H|[_ H]]; [eauto|].
    match type of H with
    | context [(i - ?n)%nat] => destruct (i - n)%nat; [|simpl in H; discriminate]
    end.
    simpl in H. injection H as <- <-. reflexivity.
  - unfold consistent, carriers. rewrite Ep, fmap_app. simpl.
    change (linked (carriers w ++ [(id, None)])%list (holders w)).
    apply linked_enter; [exact HL|exact Hid|].
    rewrite <- keyed_keys by exact Hk. intros Hin.
    apply list_elem_of_fmap in Hin as (e & He1 & He).
    apply list_elem_of_lookup in He as [i Hi].
    apply (map_get_None_keys _ _ Hnew i e Hi). auto.
Qed.

Lemma keyed_onPlayerLeave (id : EntityId) (w : World) :
  keyed w -> keyed (onPlayerLeave id w).
Proof.
  intros Hk i k p H. simpl in H. apply map_delete_sub in H as [j Hj]. eauto.
Qed.

(** Leaving keeps the links consistent when the leaving player holds no
    ball. *)
Lemma consistent_onPlayerLeave (id : EntityId) (w : World) :
  keyed w -> consistent w ->
  (forall p, map_get (players w) id = Some p -> Js.truthy_str (p_carrying p) = false) ->
  consistent (onPlayerLeave id w).
Proof.
  intros Hk HL Hfree.
  pose proof HL as (HnP & HnB & HkP & HkB & Hsym & Hown).
  assert (Hkeys : NoDup ((players w).*1)) by (rewrite keyed_keys; assumption).
  assert (Hsub : forall i k c, carriers (onPlayerLeave id w) !! i = Some (k, c) ->
                   exists i', carriers w !! i' = Some (k, c)).
  { intros i k c H. unfold carriers in H. rewrite list_lookup_fmap in H. simpl in H.
    destruct (map_delete (players w) id !! i) as [e|] eqn:He; [|discriminate].
    apply map_delete_sub in He as [i' Hi']. exists i'.
    unfold carriers. rewrite list_lookup_fmap, Hi'. exact H. }
  split; [|split; [exact HnB|split; [|split; [exact HkB|split]]]].
  - unfold carriers in *. rewrite <- list_fmap_compose in *. simpl.
    apply map_delete_NoDup. exact HnP.
  - intros i k c H. destruct (Hsub _ _ _ H) as [i' Hi']. eauto.
  - intros i j k c d o H Hj. destruct (Hsub _ _ _ H) as [i' Hi'].
    exact (Hsym _ _ _ _ _ _ Hi' Hj).
  - intros j d o Hj. destruct (Hown _ _ _ Hj) as (i & c & Hi).
    unfold carriers in Hi. rewrite list_lookup_fmap in Hi.
    destruct (players w !! i) as [[k p]|] eqn:Hpi; [|discriminate].
    simpl in Hi. injection Hi as Ho Hc.
    pose proof (Hk _ _ _ Hpi) as Hkey. rewrite Ho in Hkey. subst k.
    destruct (string_dec o id) as [->|Hne].
    + pose proof (Hfree p (map_get_lookup _ _ _ _ Hkeys Hpi)) as Hf.
      assert (Hcd : p_carrying p = Some d).
      { apply (Hsym i j id (p_carrying p) d (Some id)); [|exact Hj|reflexivity].
        unfold carriers. rewrite list_lookup_fmap, Hpi. simpl. rewrite Ho.
        reflexivity. }
      rewrite Hcd in Hf. simpl in Hf.
      apply negb_false_iff, String.eqb_eq in Hf. subst d.
      destruct (HkB _ _ _ Hj). reflexivity.
    + destruct (map_delete_keep (players w) id i (o, p) Hpi Hne) as [i' Hi'].
      exists i', c. unfold carriers. rewrite list_lookup_fmap. simpl.
      rewrite Hi'. simpl. rewrite Ho, Hc. reflexivity.
Qed.

(** Leaving while holding a ball: the ball stays owned by an id that is no
    longer in the registry. *)
Lemma leave_orphans_ball (id : EntityId) (w : World) (p : PlayerState) (b : Ball) :
  keyed w -> consistent w ->
  map_get (players w) id = Some p -> b ∈ balls w ->
  p_carrying p = Some (b_id b) ->
  b ∈ balls (onPlayerLeave id w)
  /\ b_owner b = Some id
  /\ map_get (players (onPlayerLeave id w)) id = None
  /\ ~ consistent (onPlayerLeave id w).
Proof.
  intros Hk HL Hp Hb Hc.
  pose proof HL as (HnP & HnB & HkP & HkB & Hsym & Hown).
  assert (Hkeys : NoDup ((players w).*1)) by (rewrite keyed_keys; assumption).
  apply map_get_Some_key in Hp as [i Hi].
  pose proof (Hk _ _ _ Hi) as Hpid.
  apply list_elem_of_lookup in Hb as [j Hj].
  assert (Ho : b_owner b = Some id).
  { rewrite <- Hpid.
    apply (Hsym i j (p_id p) (p_carrying p) (b_id b) (b_owner b)).
    - unfold carriers. rewrite list_lookup_fmap, Hi. reflexivity.
    - apply holders_at. exact Hj.
    - exact Hc. }
  assert (Hgone : forall i' e, players (onPlayerLeave id w) !! i' = Some e -> e.1 <> id).
  { intros i' e H. simpl in H. eapply map_delete_gone; eauto. }
  split; [eapply list_elem_of_lookup_2; exact Hj|].
  split; [exact Ho|]. split.
  - destruct (map_get (players (onPlayerLeave id w)) id) as [q|] eqn:Hq; [|reflexivity].
    apply map_get_Some_key in Hq as [i' Hi']. destruct (Hgone _ _ Hi'). reflexivity.
  - intros (_ & _ & _ & _ & _ & Hown').
    destruct (Hown' j (b_id b) id) as (i' & c & Hi').
    { change (holders w !! j = Some (b_id b, Some id)).
      rewrite (holders_at _ _ _ Hj), Ho. reflexivity. }
    unfold carriers in Hi'. rewrite list_lookup_fmap in Hi'.
    destruct (players (onPlayerLeave id w) !! i') as [[k q]|] eqn:Hq; [|discriminate].
    simpl in Hi'. injection Hi' as Hqid _.
    pose proof (keyed_onPlayerLeave id w Hk _ _ _ Hq) as Hkq.
    apply (Hgone _ _ Hq). simpl. congruence.
Qed.

(** A player who left while holding a ball and joins again is named by
    that ball as its owner, and holds nothing: the symmetry is lost. *)
Lemma rejoin_breaks_symmetry (id : EntityId) (name : string) (w w' : World)
    (p : PlayerState) (b : Ball) :
  keyed w -> consistent w ->
  map_get (players w) id = Some p -> b ∈ balls w ->
  p_carrying p = Some (b_id b) ->
  onPlayerJoin id name (onPlayerLeave id w) = Some w' ->
  ~ ownership_symmetric w'.
Proof.
  intros Hk HL Hp Hb Hc Hj.
  destruct (leave_orphans_ball id w p b Hk HL Hp Hb Hc) as (Hb' & Ho & Hgone & _).
  unfold onPlayerJoin in Hj.
  destruct (autoAssignTeam (onPlayerLeave id w)) as [team|]; [|discriminate].
  injection Hj as <-. cbv zeta.
  set (q := mkPlayer id name (t_id team) (t_spawn team) zero3 true 1 0 None).
  intros Hsym.
  assert (Hq : (id, q) ∈ players (broadcastHUD false
                 (announce (TxtJoined name (t_name team))
                    (set_players (fun m => map_set m id q) (onPlayerLeave id w))))).
  { simpl. rewrite (map_set_fresh _ _ _ Hgone). apply elem_of_app. right.
    apply list_elem_of_singleton. reflexivity. }
  pose proof (proj2 (Hsym id q b Hq Hb') Ho) as E. discriminate.
Qed.
Lemma consistent_kickoff (w : World) :
  players w = [] -> NoDup (b_id <$> balls w) ->
  (forall b, b ∈ balls w -> b_id b <> "" /\ b_owner b = None) ->
  keyed w /\ consistent w.
Proof.
  intros Hp Hnd Hb. split.
  - intros i k p H. rewrite Hp in H. discriminate.
  - unfold consistent, linked, carriers. rewrite Hp. simpl.
    assert (Hat : forall j d o, holders w !! j = Some (d, o) ->
                    exists b, b ∈ balls w /\ d = b_id b /\ o = b_owner b).
    { intros j d o H. unfold holders in H. rewrite list_lookup_fmap in H.
      destruct (balls w !! j) as [b|] eqn:Hj; [|discriminate].
      simpl in H. injection H as <- <-. exists b.
      split; [eapply list_elem_of_lookup_2; eauto|auto]. }
    split; [apply NoDup_nil_2|].
    split; [unfold holders; rewrite <- list_fmap_compose; exact Hnd|].
    split; [intros i k c H; discriminate|].
    split; [|split].
    + intros j d o H. destruct (Hat _ _ _ H) as (b & Hin & -> & _).
      apply Hb. exact Hin.
    + intros i j k c d o H. discriminate.
    + intros j d o H. destruct (Hat _ _ _ H) as (b & Hin & _ & Ho).
      destruct (Hb b Hin) as [_ Hn]. congruence.
Qed.

Lemma consistent_step (e : Event) (w w' : World) :
  keyed w -> consistent w -> orderly e w -> step e w = Some w' ->
  keyed w' /\ consistent w'.
Proof.
  intros Hk HL Ho Hs. destruct e as [id name|id|id input dt nowMs|rnd dt nowMs];
    simpl in Hs, Ho.
  - destruct Ho as [Hid Hnew]. eapply consistent_onPlayerJoin; eauto.
  - injection Hs as <-. split.
    + apply keyed_onPlayerLeave. exact Hk.
    + apply consistent_onPlayerLeave; assumption.
  - injection Hs as <-. split.
    + apply keyed_onPlayerInput. exact Hk.
    + apply consistent_onPlayerInput. exact HL.
  - injection Hs as <-. split.
    + apply keyed_tick. exact Hk.
    + apply consistent_tick. exact HL.
Qed.

(** Along an orderly run from a consistent world, every world reached is
    consistent, hence ownership-symmetric. *)
Lemma ownership_kept_along (es : list Event) (w w' : World) :
  keyed w -> consistent w -> orderly_run es w -> run es w = Some w' ->
  keyed w' /\ consistent w' /\ ownership_symmetric w'.
Proof.
  revert w. induction es as [|e es IH]; intros w Hk HL Ho Hr; simpl in Hr.
  - injection Hr as <-. auto using consistent_symmetric.
  - destruct Ho as [Ho Hrest].
    destruct (step e w) as [w1|] eqn:Hs; [|discriminate].
    destruct (consistent_step e w w1 Hk HL Ho Hs) as [Hk1 HL1].
    eapply IH; eauto.
Qed.

End Ownership.

(** *** Runs of the engine on the sample match *)

Section Unguarded.

Context {M : MathLib}.

(** The knockback of [resolveInteractions] does not consult the stun
    window: whenever the bludger is within reach, whatever [stunnedUntil]
    is, the player is pushed and the window is set to [nowMs + stunMs]. *)
Lemma knockback_ignores_stun (nowMs : float) (bi pi : nat) (w : World)
    (b : Ball) (p : PlayerState) :
  balls w !! bi = Some b ->
  player_at w pi = Some p ->
  (dist (b_pos b) (p_pos p) <? 1.8) = true ->
  exists p', player_at (knockback nowMs bi pi w) pi = Some p'
    /\ p_stunnedUntil p' = nowMs + stunMs Physics
    /\ y (p_vel p') = y (p_vel p) + 6
    /\ p_carrying p' = (if Js.truthy_str (p_carrying p) then None else p_carrying p).
Proof.
  intros Hb Hp Hd. unfold knockback. rewrite Hb, Hp, Hd.
  unfold player_at in *.
  destruct (players w !! pi) as [[k0 p0]|] eqn:E; [|discriminate].
  simpl in Hp. injection Hp as ->.
  destruct (Js.truthy_str (p_carrying p)).
  - eexists. split.
    + unfold with_player at 1. unfold set_players. cbn [players].
      rewrite list_lookup_alter_eq.
      destruct (find_index _ _); rewrite ?players_with_ball;
        unfold with_player, set_players; cbn [players];
        rewrite list_lookup_alter_eq, E; reflexivity.
    + repeat split.
  - eexists. split.
    + unfold with_player, set_players. cbn [players].
      rewrite list_lookup_alter_eq, E. reflexivity.
    + repeat split.
Qed.

(** One capture pass: the first player, in registry order, within the
    capture radius of the snitch has its team credited, and neither the
    balls nor the players change. *)
Lemma snitchCapture_awards (w : World) (si pi ti : nat) (sn : Ball) (p : PlayerState) :
  find_index (fun b => kind_eqb (b_kind b) snitch) (balls w) = Some si ->
  balls w !! si = Some sn ->
  player_at w pi = Some p ->
  (dist (b_pos sn) (p_pos p) <? 1.5) = true ->
  (forall j q, j < pi -> player_at w j = Some q ->
               (dist (b_pos sn) (p_pos q) <? 1.5) = false) ->
  teamById w (p_teamId p) = Some ti ->
  teams (snitchCapture w) = alter (t_add_score SCORE_SNITCH) ti (teams w)
  /\ balls (snitchCapture w) = balls w
  /\ players (snitchCapture w) = players w.
Proof.
  intros Hfind Hsn Hp Hd Hbefore Hteam. unfold snitchCapture. rewrite Hfind.
  rewrite (for_break_first (captureBy si) (List.length (players w)) pi).
  - unfold captureBy. rewrite Hsn, Hp, Hd, Hteam. repeat split.
  - unfold player_at in Hp. destruct (players w !! pi) eqn:E; [|discriminate].
    eapply lookup_lt_Some; eauto.
  - intros j Hj. unfold captureBy. rewrite Hsn.
    destruct (player_at w j) as [q|] eqn:Eq; [|reflexivity].
    rewrite (Hbefore j q Hj Eq). reflexivity.
  - unfold captureBy. rewrite Hsn, Hp, Hd, Hteam. reflexivity.
Qed.

(** Nothing records that the snitch was caught: a second capture pass
    credits the award again. *)
Lemma capture_repeats_every_pass (w : World) (si pi ti : nat) (sn : Ball)
    (p : PlayerState) :
  find_index (fun b => kind_eqb (b_kind b) snitch) (balls w) = Some si ->
  balls w !! si = Some sn ->
  player_at w pi = Some p ->
  (dist (b_pos sn) (p_pos p) <? 1.5) = true ->
  (forall j q, j < pi -> player_at w j = Some q ->
               (dist (b_pos sn) (p_pos q) <? 1.5) = false) ->
  teamById w (p_teamId p) = Some ti ->
  teams (snitchCapture (snitchCapture w))
  = alter (fun t => t_add_score SCORE_SNITCH (t_add_score SCORE_SNITCH t)) ti (teams w).
Proof.
  intros Hfind Hsn Hp Hd Hbefore Hteam.
  destruct (snitchCapture_awards w si pi ti sn p Hfind Hsn Hp Hd Hbefore Hteam)
    as (Ht & Hb & Hpl).
  destruct (snitchCapture_awards (snitchCapture w) si pi ti sn p) as (Ht2 & _).
  - rewrite Hb. exact Hfind.
  - rewrite Hb. exact Hsn.
  - unfold player_at. rewrite Hpl. exact Hp.
  - exact Hd.
  - intros j q Hj Hq. apply (Hbefore j q Hj). unfold player_at in *.
    rewrite Hpl in Hq. exact Hq.
  - unfold teamById in *. rewrite Ht.
    rewrite find_index_alter by reflexivity. exact Hteam.
  - rewrite Ht2, Ht. apply list_alter_alter_eq.
Qed.

End Unguarded.

Section Runs.

#[local] Existing Instance refMath.

(** C1.  The capture award is not granted once per match: two consecutive
    ticks with a player inside the snitch's capture radius credit the
    award twice (150, then 300), print the capture text twice and run
    [endRound] twice. *)
Theorem capture_award_repeats :
  let w1 := tick 0.5 frame 1000 catchable in
  let w2 := tick 0.5 frame 1016 w1 in
  scores catchable = [0; 0; 0; 0]
  /\ scores w1 = [150; 0; 0; 0] /\ captures w1 = 1%nat /\ finals w1 = 1%nat
  /\ scores w2 = [300; 0; 0; 0] /\ captures w2 = 2%nat /\ finals w2 = 2%nat.
Proof. vm_compute. repeat split; reflexivity. Qed.

(** C2.  Ownership symmetry is not kept by leaving: after a pickup the
    link is symmetric, but [onPlayerLeave] only deletes the player, so the
    quaffle still names "a" as its owner with no such player left; when
    "a" joins again the new player carries nothing while the ball is
    owned by it. *)
Theorem leave_keeps_ball_owned :
  let w1 := onPlayerInput "a" press frame 1000 (atHand []) in
  let w2 := onPlayerLeave "a" w1 in
  let w3 := join "a" "Ann" w2 in
  ownership_symmetric w1
  /\ players w2 = [] /\ map b_owner (balls w2) = [Some "a"]
  /\ map (fun e => (p_id (snd e), p_carrying (snd e))) (players w3) = [("a", None)]
  /\ map (fun b => (b_id b, b_owner b)) (balls w3) = [("q", Some "a")]
  /\ ~ ownership_symmetric w3.
Proof.
  cbv zeta.
  assert (E1p : players (onPlayerInput "a" press frame 1000 (atHand [])) =
                [("a", mkPlayer "a" "Ann" "gry"
                         (mkVec3 (-35) 59.995555555555555 0)
                         (mkVec3 0 (-0.26666666666666666) 0) true 1 0 (Some "q"))])
    by (vm_compute; reflexivity).
  assert (E1b : balls (onPlayerInput "a" press frame 1000 (atHand [])) =
                [mkBall "q" quaffle (mkVec3 (-35) 60 0) zero3 (Some "a")])
    by (vm_compute; reflexivity).
  assert (E3p : players (join "a" "Ann"
                  (onPlayerLeave "a" (onPlayerInput "a" press frame 1000 (atHand [])))) =
                [("a", mkPlayer "a" "Ann" "gry" (mkVec3 (-35) 60 0) zero3 true 1 0 None)])
    by (vm_compute; reflexivity).
  assert (E3b : balls (join "a" "Ann"
                  (onPlayerLeave "a" (onPlayerInput "a" press frame 1000 (atHand [])))) =
                [mkBall "q" quaffle (mkVec3 (-35) 60 0) zero3 (Some "a")])
    by (vm_compute; reflexivity).
  split; [|split; [|split; [|split; [|split]]]].
  - unfold ownership_symmetric. rewrite E1p, E1b. intros k p b Hp Hb.
    apply list_elem_of_singleton in Hp. apply list_elem_of_singleton in Hb.
    injection Hp as -> ->. subst b. simpl. tauto.
  - vm_compute. reflexivity.
  - vm_compute. reflexivity.
  - rewrite E3p. reflexivity.
  - rewrite E3b. reflexivity.
  - unfold ownership_symmetric. rewrite E3p, E3b. intros Hsym.
    specialize (Hsym "a"
      (mkPlayer "a" "Ann" "gry" (mkVec3 (-35) 60 0) zero3 true 1 0 None)
      (mkBall "q" quaffle (mkVec3 (-35) 60 0) zero3 (Some "a"))).
    simpl in Hsym.
    assert (Hc : @None string = Some "q"); [|discriminate].
    apply Hsym; [apply list_elem_of_singleton; reflexivity
                |apply list_elem_of_singleton; reflexivity
                |reflexivity].
Qed.

(** C3.  Knockback is applied to a stunned player: the tick at time 1000
    knocks Ann (pop-up 6, stunned until 1800); at time 1016 she is still
    stunned, and the tick knocks her again and moves the stun window. *)
Theorem knockback_hits_stunned_player :
  let w1 := tick 0.5 frame 1000 beaten in
  let w2 := tick 0.5 frame 1016 w1 in
  motion beaten "a" = Some (zero3, 0)
  /\ motion w1 "a" = Some (mkVec3 0 6 0, 1800)
  /\ (1016 <? 1800) = true
  /\ motion w2 "a" = Some (mkVec3 0 12 0, 1816).
Proof. vm_compute. repeat split; reflexivity. Qed.

(** C4 as stated fails: the quaffle (1.5 away) precedes the snitch (0.5
    away) in [balls]; both are free and within the pickup radius, and the
    interact intent claims the quaffle, the farther one. *)
Lemma pickup_takes_first_not_nearest :
  let w0 := join "a" "Ann"
              (pitch [still "q" quaffle (mkVec3 (-33.5) 60 0);
                      still "s" snitch (mkVec3 (-35.5) 60 0)] []) in
  let w1 := onPlayerInput "a" press frame 1000 w0 in
  let at_ := default zero3 (p_pos <$> map_get (players w1) "a") in
  map (fun b => dist (b_pos b) at_ <? 2.0) (balls w0) = [true; true]
  /\ map (fun b => dist (b_pos b) at_ <? 1) (balls w0) = [false; true]
  /\ (p_carrying <$> map_get (players w1) "a") = Some (Some "q")
  /\ map (fun b => (b_id b, b_owner b)) (balls w1) = [("q", Some "a"); ("s", None)].
Proof. vm_compute. repeat split; reflexivity. Qed.

Lemma pickup_claims_first_in_range_witness :
  let w0 := join "a" "Ann"
              (pitch [still "q" quaffle (mkVec3 (-33.5) 60 0);
                      still "s" snitch (mkVec3 (-35.5) 60 0)] []) in
  let ann := mkPlayer "a" "Ann" "gry" (mkVec3 (-35) 60 0) zero3 true 1 0 None in
  let w1 := onPlayerInput "a" press frame 1000 w0 in
  find_index (pickable (flight press frame ann)) (balls w0) = Some 0%nat
  /\ b_owner <$> balls w1 = [Some "a"; None]
  /\ map_get (players w1) "a"
     = Some (p_set_carrying (Some "q") (flight press frame ann)).
Proof.
  cbv zeta.
  pose proof (pickup_claims_first_in_range
                (join "a" "Ann"
                   (pitch [still "q" quaffle (mkVec3 (-33.5) 60 0);
                           still "s" snitch (mkVec3 (-35.5) 60 0)] []))
                "a" press frame 1000
                (mkPlayer "a" "Ann" "gry" (mkVec3 (-35) 60 0) zero3 true 1 0 None)
                eq_refl eq_refl eq_refl eq_refl) as H.
  cbv zeta in H.
  assert (E : find_index
                (pickable (flight press frame
                   (mkPlayer "a" "Ann" "gry" (mkVec3 (-35) 60 0) zero3 true 1 0 None)))
                (balls (join "a" "Ann"
                   (pitch [still "q" quaffle (mkVec3 (-33.5) 60 0);
                           still "s" snitch (mkVec3 (-35.5) 60 0)] [])))
              = Some 0%nat) by (vm_compute; reflexivity).
  rewrite E in H. destruct H as (b & Hb & _ & _ & Hown & Hcar).
  injection Hb as <-.
  split; [exact E|]. split; [exact Hown | exact Hcar].
Defined.

(** C5 as stated fails: an input with no movement, no ascent and no descent
    changes the vertical velocity of a resting, unstunned player from 0 to
    [- gravity * dt]. *)
Lemma input_applies_gravity_to_player :
  let w0 := join "a" "Ann" (pitch [] []) in
  let w1 := onPlayerInput "a" idle frame 1000 w0 in
  (p_vel <$> map_get (players w0) "a") = Some zero3
  /\ (p_vel <$> map_get (players w1) "a")
     = Some (mkVec3 0 (0 - gravity Physics * frame) 0)
  /\ (0 - gravity Physics * frame <? 0) = true.
Proof. vm_compute. repeat split; reflexivity. Qed.

Lemma gravity_on_input_and_free_balls_witness :
  let w0 := join "a" "Ann" (pitch [] []) in
  ((fun q => y (p_vel q)) <$> map_get (players (onPlayerInput "a" idle frame 1000 w0)) "a")
  = Some (0 - gravity Physics * frame).
Proof.
  cbv zeta.
  refine (proj1 (gravity_on_input_and_free_balls
                   (join "a" "Ann" (pitch [] [])) "a" idle frame 1000
                   (mkPlayer "a" "Ann" "gry" (mkVec3 (-35) 60 0) zero3 true 1 0 None)
                   _ _)); reflexivity.
Defined.

(** C6 as stated fails: two matches that differ only in where the quaffle
    lay when it was picked up.  After the pickup and a tick the carrier is
    in the same state in both, the quaffle is owned by her in both, and
    the quaffle's position differs: it is where it was picked up. *)
Lemma carried_ball_ignores_carrier :
  let run q := tick 0.5 frame 1016
                 (onPlayerInput "a" press frame 1000
                    (join "a" "Ann" (pitch [still "q" quaffle q] []))) in
  let w := run (mkVec3 (-35) 60 0) in
  let w' := run (mkVec3 (-34) 60 0) in
  players w = players w'
  /\ map b_owner (balls w) = [Some "a"] /\ map b_owner (balls w') = [Some "a"]
  /\ map b_pos (balls w) = [mkVec3 (-35) 60 0]
  /\ map b_pos (balls w') = [mkVec3 (-34) 60 0].
Proof. vm_compute. repeat split; reflexivity. Qed.

Lemma owned_ball_untouched_by_tick_witness :
  let w := onPlayerInput "a" press frame 1000 (atHand []) in
  let q := mkBall "q" quaffle (mkVec3 (-35) 60 0) zero3 (Some "a") in
  updateBall frame 1016 0 w = w
  /\ exists b', balls (tick 0.5 frame 1016 w) !! 0%nat = Some b'
                /\ (Js.truthy_str (b_owner b') = true -> b' = q).
Proof.
  cbv zeta.
  destruct (owned_ball_untouched_by_tick 0.5 frame 1016
              (onPlayerInput "a" press frame 1000 (atHand [])) 0
              (mkBall "q" quaffle (mkVec3 (-35) 60 0) zero3 (Some "a")))
    as (H1 & H2 & _).
  - vm_compute. reflexivity.
  - reflexivity.
  - split; assumption.
Defined.

(** C7 as stated fails: the carrier is inside two hoops at once, and one
    resolver pass credits her team with the award twice. *)
Lemma overlapping_hoops_score_twice :
  let w0 := onPlayerInput "a" press frame 1000
              (atHand [mkGoal (mkVec3 (-36) 60 0) 2.2 None;
                       mkGoal (mkVec3 (-33.5) 60 0) 2.2 None]) in
  let w1 := resolveInteractions 1000 w0 in
  (p_carrying <$> map_get (players w0) "a") = Some (Some "q")
  /\ scores w0 = [0; 0; 0; 0]
  /\ scores w1 = [20; 0; 0; 0]
  /\ (20 =? 0 + SCORE_QUAFFLE) = false.
Proof. vm_compute. repeat split; reflexivity. Qed.

Lemma goal_scoring_post_witness :
  let w := onPlayerInput "a" press frame 1000
             (atHand [mkGoal (mkVec3 (-36) 60 0) 2.2 None]) in
  scores w = [0; 0; 0; 0]
  /\ t_score <$> teams (scoreGoals w) !! 0%nat = Some (0 + SCORE_QUAFFLE)
  /\ balls (scoreGoals w)
     = [mkBall "q" quaffle (midAir arena 8) zero3 None]
  /\ player_at (scoreGoals w) 0
     = Some (mkPlayer "a" "Ann" "gry" (mkVec3 (-35) 59.995555555555555 0)
                      (mkVec3 0 (-0.26666666666666666) 0) true 1 0 None).
Proof.
  cbv zeta.
  set (w := onPlayerInput "a" press frame 1000
              (atHand [mkGoal (mkVec3 (-36) 60 0) 2.2 None])).
  assert (Ep : players w =
               [("a", mkPlayer "a" "Ann" "gry"
                        (mkVec3 (-35) 59.995555555555555 0)
                        (mkVec3 0 (-0.26666666666666666) 0) true 1 0 (Some "q"))])
    by (vm_compute; reflexivity).
  assert (Eb : balls w = [mkBall "q" quaffle (mkVec3 (-35) 60 0) zero3 (Some "a")])
    by (vm_compute; reflexivity).
  destruct (goal_scoring_post w 0 0 0
              (mkPlayer "a" "Ann" "gry" (mkVec3 (-35) 59.995555555555555 0)
                        (mkVec3 0 (-0.26666666666666666) 0) true 1 0 (Some "q"))
              (mkBall "q" quaffle (mkVec3 (-35) 60 0) zero3 (Some "a"))
              (mkTeam "gry" "Gryffindor" "#B31B1B" (mkVec3 (-35) 60 0) 0))
    as (_ & Hscore & Hball & Hplayer & _).
  - unfold player_at. rewrite Ep. reflexivity.
  - reflexivity.
  - rewrite Eb. reflexivity.
  - rewrite Eb. reflexivity.
  - reflexivity.
  - vm_compute. reflexivity.
  - vm_compute. reflexivity.
  - intros j q Hne Hq. unfold player_at in Hq. rewrite Ep in Hq.
    destruct j as [|j]; [congruence|]. simpl in Hq. discriminate.
  - vm_compute. constructor.
  - split; [vm_compute; reflexivity|].
    split; [apply Hscore; vm_compute; reflexivity|].
    split; [rewrite Hball, Eb; reflexivity | exact Hplayer].
Defined.

Lemma auto_assign_fair_witness :
  exists w', joins five (pitch [] []) = Some w'
    /\ teams w' = teams (pitch [] [])
    /\ forall t, t ∈ teams w' ->
         (playerCount w' (t_id t) <= ceil_div 5 4)%nat.
Proof.
  destruct (auto_assign_fair (pitch [] []) five eq_refl) as (_ & w' & Hj & Ht & Hf).
  - discriminate.
  - simpl. repeat constructor;
      rewrite ?elem_of_cons, ?elem_of_nil; intuition discriminate.
  - exists w'. split; [exact Hj|]. split; [exact Ht|].
    intros t Hin. specialize (Hf t Hin). rewrite Ht in Hf. exact Hf.
Defined.

End Runs.


(** *** Nearest-element searches *)

Section Nearest.

Context {X R : Type}.

Variable sel : X -> option (R * float).

Lemma nearer_fold (l : list X) :
  match fold_left (nearer sel) l (None, infinity) with
  | (Some r, bd) => exists i, nearest_at sel l i r bd
  | (None, bd) => bd = infinity /\ none_near sel l
  end.
Proof.
  induction l as [|a l IH] using rev_ind.
  - simpl. split; [reflexivity|]. intros j a r' d H. discriminate.
  - rewrite fold_left_app. simpl.
    destruct (fold_left (nearer sel) l (None, infinity)) as [best bd].
    assert (Hlast : forall j b, (l ++ [a])%list !! j = Some b ->
                      l !! j = Some b \/ (j = List.length l /\ b = a)).
    { intros j b H. apply lookup_app_Some in H as [H|[Hj H]]; [auto|].
      right. destruct (j - List.length l)%nat eqn:E; [|simpl in H; discriminate].
      simpl in H. injection H as <-. split; [lia|reflexivity]. }
    unfold nearer at 1. destruct (sel a) as [[r d]|] eqn:Ha.
    + cbn [snd]. destruct (d <? bd) eqn:Hd.
      * exists (List.length l). split; [|split; [|split]].
        -- exists a. split; [|exact Ha].
           rewrite lookup_app_r by lia. rewrite Nat.sub_diag. reflexivity.
        -- destruct best as [r0|].
           ++ destruct IH as (i & _ & Hfin & _). exact (ltb_trans _ _ _ Hd Hfin).
           ++ destruct IH as [-> _]. exact Hd.
        -- intros j b r' d' Hj Hb. destruct (Hlast _ _ Hj) as [Hj'|[_ ->]].
           ++ destruct best as [r0|].
              ** destruct IH as (i & _ & _ & Hmin & _).
                 eapply not_below_trans; [eapply Hmin; eauto|exact Hd].
              ** destruct IH as [-> Hnone].
                 eapply not_below_trans; [eapply Hnone; eauto|exact Hd].
           ++ rewrite Ha in Hb. injection Hb as _ <-. apply ltb_irrefl.
        -- intros j b r' d' Hlt Hj Hb. destruct (Hlast _ _ Hj) as [Hj'|[-> _]]; [|lia].
           destruct best as [r0|].
           ++ destruct IH as (i & _ & _ & Hmin & _).
              eapply not_below_differs; [eapply Hmin; eauto|exact Hd].
           ++ destruct IH as [-> Hnone].
              eapply not_below_differs; [eapply Hnone; eauto|exact Hd].
      * destruct best as [r0|].
        -- destruct IH as (i & (a0 & Hi & Ha0) & Hfin & Hmin & Hfirst).
           exists i. split; [|split; [exact Hfin|split]].
           ++ exists a0. split; [apply lookup_app_l_Some; exact Hi|exact Ha0].
           ++ intros j b r' d' Hj Hb. destruct (Hlast _ _ Hj) as [Hj'|[_ ->]];
                [eauto|]. rewrite Ha in Hb. injection Hb as _ <-. exact Hd.
           ++ intros j b r' d' Hlt Hj Hb. destruct (Hlast _ _ Hj) as [Hj'|[-> _]];
                [eauto|]. apply lookup_lt_Some in Hi. lia.
        -- destruct IH as [-> Hnone]. split; [reflexivity|].
           intros j b r' d' Hj Hb. destruct (Hlast _ _ Hj) as [Hj'|[_ ->]];
             [eauto|]. rewrite Ha in Hb. injection Hb as _ <-. exact Hd.
    + destruct best as [r0|].
      * destruct IH as (i & (a0 & Hi & Ha0) & Hfin & Hmin & Hfirst).
        exists i. split; [|split; [exact Hfin|split]].
        -- exists a0. split; [apply lookup_app_l_Some; exact Hi|exact Ha0].
        -- intros j b r' d' Hj Hb. destruct (Hlast _ _ Hj) as [Hj'|[_ ->]];
             [eauto|]. rewrite Ha in Hb. discriminate.
        -- intros j b r' d' Hlt Hj Hb. destruct (Hlast _ _ Hj) as [Hj'|[-> _]];
             [eauto|]. apply lookup_lt_Some in Hi. lia.
      * destruct IH as [-> Hnone]. split; [reflexivity|].
        intros j b r' d' Hj Hb. destruct (Hlast _ _ Hj) as [Hj'|[_ ->]];
          [eauto|]. rewrite Ha in Hb. discriminate.
Qed.

End Nearest.

Section Searches.

Context {M : MathLib}.

Lemma kind_eqb_eq (a b : BallKind) : kind_eqb a b = true <-> a = b.
Proof. destruct a, b; simpl; split; intros H; congruence. Qed.

(** [nearestPlayer] returns a player of the registry at a distance below
    [Infinity] that no player undercuts, the first such in registry order;
    it returns [undefined] only when no player is at a distance below
    [Infinity]. *)
Theorem nearestPlayer_is_nearest (w : World) (pos : Vec3) :
  match nearestPlayer w pos with
  | Some p =>
      exists i k, players w !! i = Some (k, p)
        /\ (dist pos (p_pos p) <? infinity) = true
        /\ (forall j k' q, players w !! j = Some (k', q) ->
              (dist pos (p_pos q) <? dist pos (p_pos p)) = false)
        /\ (forall j k' q, j < i -> players w !! j = Some (k', q) ->
              (dist pos (p_pos q) =? dist pos (p_pos p)) = false)
  | None =>
      forall j k' q, players w !! j = Some (k', q) ->
        (dist pos (p_pos q) <? infinity) = false
  end.
Proof.
  unfold nearestPlayer.
  pose proof (nearer_fold
                (fun e : string * PlayerState => Some (snd e, dist pos (p_pos (snd e))))
                (players w)) as H.
  change (fold_left _ (players w) (None, infinity))
    with (fold_left (nearer (fun e : string * PlayerState =>
                               Some (snd e, dist pos (p_pos (snd e)))))
                    (players w) (None, infinity)).
  destruct (fold_left _ (players w) (None, infinity)) as [[p|] bd]; cbn [fst].
  - destruct H as (i & ([k p0] & Hi & Hsel) & Hfin & Hmin & Hfirst).
    cbn [snd] in Hsel. injection Hsel as -> <-.
    exists i, k. split; [exact Hi|]. split; [exact Hfin|]. split.
    + intros j k' q Hj. exact (Hmin j (k', q) q _ Hj eq_refl).
    + intros j k' q Hlt Hj. exact (Hfirst j (k', q) q _ Hlt Hj eq_refl).
  - destruct H as [_ Hnone]. intros j k' q Hj.
    exact (Hnone j (k', q) q _ Hj eq_refl).
Qed.

(** [nearestBallOfKind] returns a ball of the kind asked for, at a distance
    below [Infinity] that no ball of that kind undercuts, the first such in
    registry order. *)
Theorem nearestBallOfKind_is_nearest (w : World) (pos : Vec3) (kind : BallKind) :
  match nearestBallOfKind w pos kind with
  | Some bi =>
      exists b, balls w !! bi = Some b /\ b_kind b = kind
        /\ (dist pos (b_pos b) <? infinity) = true
        /\ (forall j b', balls w !! j = Some b' -> b_kind b' = kind ->
              (dist pos (b_pos b') <? dist pos (b_pos b)) = false)
        /\ (forall j b', j < bi -> balls w !! j = Some b' -> b_kind b' = kind ->
              (dist pos (b_pos b') =? dist pos (b_pos b)) = false)
  | None =>
      forall j b', balls w !! j = Some b' -> b_kind b' = kind ->
        (dist pos (b_pos b') <? infinity) = false
  end.
Proof.
  unfold nearestBallOfKind.
  set (sel := fun ib : nat * Ball =>
                if kind_eqb (b_kind (snd ib)) kind
                then Some (fst ib, dist pos (b_pos (snd ib))) else None).
  rewrite (fold_left_ext _ (nearer sel)).
  2:{ intros acc ib. unfold nearer, sel.
      destruct (kind_eqb (b_kind (snd ib)) kind); reflexivity. }
  pose proof (nearer_fold sel (imap (fun i b => (i, b)) (balls w))) as H.
  assert (Hat : forall j b', balls w !! j = Some b' ->
                  imap (fun i b => (i, b)) (balls w) !! j = Some (j, b')).
  { intros j b' Hj. rewrite list_lookup_imap, Hj. reflexivity. }
  destruct (fold_left _ _ (None, infinity)) as [[bi|] bd]; cbn [fst].
  - destruct H as (i & ([i0 b] & Hi & Hsel) & Hfin & Hmin & Hfirst).
    rewrite list_lookup_imap in Hi.
    destruct (balls w !! i) as [b0|] eqn:Hb; [|discriminate].
    simpl in Hi. injection Hi as <- <-.
    unfold sel in Hsel. cbn [fst snd] in Hsel.
    destruct (kind_eqb (b_kind b0) kind) eqn:Hk; [|discriminate].
    injection Hsel as <- <-. exists b0.
    split; [exact Hb|]. split; [apply kind_eqb_eq; exact Hk|].
    split; [exact Hfin|]. split.
    + intros j b' Hj Hkind. apply (Hmin j (j, b') j _ (Hat _ _ Hj)).
      unfold sel. cbn [fst snd]. rewrite (proj2 (kind_eqb_eq _ _) Hkind). reflexivity.
    + intros j b' Hlt Hj Hkind. apply (Hfirst j (j, b') j _ Hlt (Hat _ _ Hj)).
      unfold sel. cbn [fst snd]. rewrite (proj2 (kind_eqb_eq _ _) Hkind). reflexivity.
  - destruct H as [_ Hnone]. intros j b' Hj Hkind.
    apply (Hnone j (j, b') j _ (Hat _ _ Hj)).
    unfold sel. cbn [fst snd]. rewrite (proj2 (kind_eqb_eq _ _) Hkind). reflexivity.
Qed.

End Searches.

(** *** The arena *)

Section Extremes.

Context {X : Type}.

Variable f : X -> float.

Lemma lowest_spec (l : list X) (m : float) :
  (forall a, a ∈ l -> (f a <? lowest f l m) = false)
  /\ (lowest f l m = m \/ exists a, a ∈ l /\ lowest f l m = f a).
Proof.
  induction l as [|b l IH] using rev_ind.
  - split; [intros a H; inversion H|auto].
  - destruct IH as [Hall Hatt]. unfold lowest in *. rewrite fold_left_app. simpl.
    set (lo := fold_left _ l m) in *.
    destruct (f b <? lo) eqn:E.
    + split.
      * intros a Ha. apply elem_of_app in Ha as [Ha|Ha].
        -- eapply not_below_trans; [apply Hall; exact Ha|exact E].
        -- apply list_elem_of_singleton in Ha. subst a. apply ltb_irrefl.
      * right. exists b. split; [apply elem_of_app; right; left|reflexivity].
    + split.
      * intros a Ha. apply elem_of_app in Ha as [Ha|Ha]; [auto|].
        apply list_elem_of_singleton in Ha. subst a. exact E.
      * destruct Hatt as [Heq|(a & Ha & Heq)]; [auto|].
        right. exists a. split; [apply elem_of_app; auto|exact Heq].
Qed.

Lemma lowest_not_nan (l : list X) (m : float) :
  is_nan m = false -> is_nan (lowest f l m) = false.
Proof.
  intros Hm. unfold lowest.
  apply (fold_left_ind (fun v => is_nan v = false)); [exact Hm|].
  intros a v Hv. destruct (f a <? v) eqn:E; [|exact Hv].
  destruct (is_nan (f a)) eqn:En; [|reflexivity].
  rewrite (ltb_nan_l (f a) v En) in E. discriminate.
Qed.

Lemma highest_not_nan (l : list X) (m : float) :
  is_nan m = false -> is_nan (highest f l m) = false.
Proof.
  intros Hm. unfold highest.
  apply (fold_left_ind (fun v => is_nan v = false)); [exact Hm|].
  intros a v Hv. destruct (v <? f a) eqn:E; [|exact Hv].
  destruct (is_nan (f a)) eqn:En; [|reflexivity].
  rewrite (ltb_nan_r v (f a) En) in E. discriminate.
Qed.

Lemma highest_spec (l : list X) (m : float) :
  (forall a, a ∈ l -> (highest f l m <? f a) = false)
  /\ (highest f l m = m \/ exists a, a ∈ l /\ highest f l m = f a).
Proof.
  induction l as [|b l IH] using rev_ind.
  - split; [intros a H; inversion H|auto].
  - destruct IH as [Hall Hatt]. unfold highest in *. rewrite fold_left_app. simpl.
    set (hi := fold_left _ l m) in *.
    destruct (hi <? f b) eqn:E.
    + split.
      * intros a Ha. apply elem_of_app in Ha as [Ha|Ha].
        -- destruct (f b <? f a) eqn:E2; [|reflexivity].
           rewrite <- (Hall a Ha). symmetry. exact (ltb_trans _ _ _ E E2).
        -- apply list_elem_of_singleton in Ha. subst a. apply ltb_irrefl.
      * right. exists b. split; [apply elem_of_app; right; left|reflexivity].
    + split.
      * intros a Ha. apply elem_of_app in Ha as [Ha|Ha]; [auto|].
        apply list_elem_of_singleton in Ha. subst a. exact E.
      * destruct Hatt as [Heq|(a & Ha & Heq)]; [auto|].
        right. exists a. split; [apply elem_of_app; auto|exact Heq].
Qed.

End Extremes.

Section ArenaFacts.

Local Open Scope list_scope.

Context {M : MathLib} {T : TextLib}.

Lemma dedupe_snoc (points : list Vec3) (p : Vec3) (thresh : float) :
  dedupeClosePositions (points ++ [p])%list thresh
  = if negb (existsb (fun k => dist k p <? thresh) (dedupeClosePositions points thresh))
    then (dedupeClosePositions points thresh ++ [p])%list
    else dedupeClosePositions points thresh.
Proof. unfold dedupeClosePositions. rewrite fold_left_app. reflexivity. Qed.

Lemma dedupe_kept (points : list Vec3) (thresh : float) :
  let kept := dedupeClosePositions points thresh in
  sublist kept points
  /\ head kept = head points
  /\ (forall i j a b, i < j -> kept !! i = Some a -> kept !! j = Some b ->
        (dist a b <? thresh) = false)
  /\ (forall p, p ∈ points ->
        p ∈ kept \/ exists k, k ∈ kept /\ (dist k p <? thresh) = true).
Proof.
  cbv zeta. induction points as [|p points IH] using rev_ind.
  - split; [constructor|]. split; [reflexivity|]. split.
    + intros i j a b _ Ha. discriminate.
    + intros q Hq. inversion Hq.
  - destruct IH as (Hsub & Hhead & Hsep & Hcov). rewrite dedupe_snoc.
    destruct (existsb _ (dedupeClosePositions points thresh)) eqn:Hex; cbn [negb].
    + apply existsb_exists in Hex as (k & Hk & Hnear).
      apply list_elem_of_In in Hk.
      split; [apply sublist_inserts_r; exact Hsub|].
      split; [|split; [exact Hsep|]].
      * destruct points as [|q points]; [|exact Hhead].
        inversion Hk.
      * intros q Hq. apply elem_of_app in Hq as [Hq|Hq]; [auto|].
        apply list_elem_of_singleton in Hq. subst q. right. eauto.
    + assert (Hfar : forall k, k ∈ dedupeClosePositions points thresh ->
                       (dist k p <? thresh) = false).
      { intros k Hk. destruct (dist k p <? thresh) eqn:E; [|reflexivity].
        assert (Ht : existsb (fun k => dist k p <? thresh)
                       (dedupeClosePositions points thresh) = true).
        { apply existsb_exists. exists k. split; [apply list_elem_of_In; exact Hk|exact E]. }
        congruence. }
      split; [apply sublist_app; [exact Hsub|reflexivity]|].
      split; [|split].
      * destruct points as [|q points]; [reflexivity|].
        simpl in Hhead |- *.
        destruct (dedupeClosePositions (q :: points) thresh); [discriminate|exact Hhead].
      * intros i j a b Hlt Ha Hb.
        apply lookup_app_Some in Hb as [Hb|[Hj Hb]].
        -- apply lookup_app_Some in Ha as [Ha|[Hi _]]; [eauto|].
           apply lookup_lt_Some in Hb. lia.
        -- destruct (j - _)%nat eqn:Ej; [|simpl in Hb; discriminate].
           simpl in Hb. injection Hb as <-.
           apply lookup_app_Some in Ha as [Ha|[Hi _]]; [|lia].
           apply Hfar. eapply list_elem_of_lookup_2; eauto.
      * intros q Hq. apply elem_of_app in Hq as [Hq|Hq].
        -- destruct (Hcov q Hq) as [Hin|(k & Hk & Hnear)].
           ++ left. apply elem_of_app. auto.
           ++ right. exists k. split; [apply elem_of_app; auto|exact Hnear].
        -- left. apply elem_of_app. auto.
Qed.

(** A list in which no point is within the threshold of an earlier one is
    left as it is. *)
Lemma dedupe_fixed (points : list Vec3) (thresh : float) :
  (forall i j a b, i < j -> points !! i = Some a -> points !! j = Some b ->
     (dist a b <? thresh) = false) ->
  dedupeClosePositions points thresh = points.
Proof.
  induction points as [|p points IH] using rev_ind; intros Hsep; [reflexivity|].
  rewrite dedupe_snoc. rewrite IH.
  - replace (existsb (fun k => dist k p <? thresh) points) with false; [reflexivity|].
    symmetry. apply not_true_iff_false. intros Hex.
    apply existsb_exists in Hex as (k & Hk & Hnear).
    apply list_elem_of_In, list_elem_of_lookup in Hk as [i Hi].
    rewrite (Hsep i (List.length points) k p) in Hnear; [discriminate| | |].
    + eapply lookup_lt_Some; eauto.
    + apply lookup_app_l_Some. exact Hi.
    + rewrite lookup_app_r by lia. rewrite Nat.sub_diag. reflexivity.
  - intros i j a b Hlt Ha Hb. apply (Hsep i j a b Hlt); apply lookup_app_l_Some; assumption.
Qed.

(** [dedupeClosePositions] keeps a subsequence of the points in which no
    point is within the threshold of an earlier kept one, and every point
    dropped is within the threshold of a kept one; applied to its own
    result it changes nothing. *)
Theorem dedupe_separates_and_covers (points : list Vec3) (thresh : float) :
  let kept := dedupeClosePositions points thresh in
  sublist kept points
  /\ head kept = head points
  /\ (forall i j a b, i < j -> kept !! i = Some a -> kept !! j = Some b ->
        (dist a b <? thresh) = false)
  /\ (forall p, p ∈ points ->
        p ∈ kept \/ exists k, k ∈ kept /\ (dist k p <? thresh) = true)
  /\ dedupeClosePositions kept thresh = kept.
Proof.
  cbv zeta. destruct (dedupe_kept points thresh) as (Hsub & Hhead & Hsep & Hcov).
  split; [exact Hsub|]. split; [exact Hhead|]. split; [exact Hsep|].
  split; [exact Hcov|]. apply dedupe_fixed. exact Hsep.
Qed.

Lemma extract_out (l : list (string * float)) (blockId : float) (out : list Vec3) :
  fold_left
    (fun out (e : string * float) =>
       if snd e =? blockId then out ++ [parseKey (fst e)] else out) l out
  = (out ++ List.map (fun e => parseKey (fst e))
              (List.filter (fun e : string * float => snd e =? blockId) l))%list.
Proof.
  revert out. induction l as [|e l IH]; intros out; simpl.
  - rewrite app_nil_r. reflexivity.
  - rewrite IH. destruct (snd e =? blockId); simpl; [|reflexivity].
    rewrite <- app_assoc. reflexivity.
Qed.

(** [extractGoals] returns positions parsed from the keys of blocks whose id
    is the goal id, no two of them within 2.0 of each other (the later is
    dropped), and at least one when there is such a block. *)
Theorem extractGoals_from_goal_blocks (map : MapData) (blockId : float) :
  (forall c, c ∈ extractGoals map blockId ->
     exists e, e ∈ blocks map /\ (snd e =? blockId) = true /\ c = parseKey (fst e))
  /\ (forall i j a b, i < j -> extractGoals map blockId !! i = Some a ->
        extractGoals map blockId !! j = Some b -> (dist a b <? 2.0) = false)
  /\ (forall e, e ∈ blocks map -> (snd e =? blockId) = true ->
        exists c, c ∈ extractGoals map blockId
                  /\ (c = parseKey (fst e) \/ (dist c (parseKey (fst e)) <? 2.0) = true))
  /\ (extractGoals map blockId = [] <->
      forall e, e ∈ blocks map -> (snd e =? blockId) = false).
Proof.
  unfold extractGoals. rewrite extract_out. cbn [app].
  set (out := List.map _ _).
  destruct (dedupe_kept out 2.0) as (Hsub & Hhead & Hsep & Hcov).
  assert (Hout : forall c, c ∈ out <->
            exists e, e ∈ blocks map /\ (snd e =? blockId) = true /\ c = parseKey (fst e)).
  { intros c. unfold out. rewrite list_elem_of_In, in_map_iff. split.
    - intros (e & <- & He). apply filter_In in He as [He Hid].
      exists e. split; [apply list_elem_of_In; exact He|auto].
    - intros (e & He & Hid & ->). exists e. split; [reflexivity|].
      apply filter_In. split; [apply list_elem_of_In; exact He|exact Hid]. }
  split; [|split; [exact Hsep|split]].
  - intros c Hc. apply Hout. eapply elem_of_sublist; eauto.
  - intros e He Hid.
    assert (Hin : parseKey (fst e) ∈ out) by (apply Hout; eauto).
    destruct (Hcov _ Hin) as [Hk|(k & Hk & Hnear)]; eauto.
  - split.
    + intros Hnil e He. destruct (snd e =? blockId) eqn:Hid; [|reflexivity].
      assert (Hin : parseKey (fst e) ∈ out) by (apply Hout; eauto).
      rewrite Hnil in Hcov. destruct (Hcov _ Hin) as [Hk|(k & Hk & _)]; inversion Hk.
    + intros Hno. destruct out as [|c out'] eqn:Eo; [reflexivity|].
      assert (Hc : c ∈ c :: out') by (left).
      apply Hout in Hc as (e & He & Hid & _).
      rewrite (Hno e He) in Hid. discriminate.
Qed.

Lemma calcBounds_fold (l : list (string * float)) (mn mx : Vec3) :
  fold_left
    (fun (acc : Vec3 * Vec3) (e : string * float) =>
       let p := parseKey (fst e) in
       (lower p (fst acc), raise p (snd acc))) l (mn, mx)
  = (mkVec3 (lowest (key_at x) l (x mn)) (lowest (key_at y) l (y mn))
            (lowest (key_at z) l (z mn)),
     mkVec3 (highest (key_at x) l (x mx)) (highest (key_at y) l (y mx))
            (highest (key_at z) l (z mx))).
Proof.
  revert mn mx. induction l as [|e l IH]; intros mn mx.
  - destruct mn, mx. reflexivity.
  - simpl. rewrite IH. reflexivity.
Qed.

(** [calcBounds] returns a box that no block lies outside of, each bound
    being a block's coordinate or, when no block moved it, the infinity it
    started from.  No bound is ever [NaN]: a coordinate that does not
    parse is skipped, where [calculateArenaBounds] of [index.ts] returns
    [NaN]. *)
Theorem calcBounds_encloses (map : MapData) :
  (forall e, e ∈ blocks map -> encloses (calcBounds map) (parseKey (fst e)) = true)
  /\ nan_free (fst (calcBounds map)) = true
  /\ nan_free (snd (calcBounds map)) = true
  /\ attained map infinity x (x (fst (calcBounds map)))
  /\ attained map infinity y (y (fst (calcBounds map)))
  /\ attained map infinity z (z (fst (calcBounds map)))
  /\ attained map neg_infinity x (x (snd (calcBounds map)))
  /\ attained map neg_infinity y (y (snd (calcBounds map)))
  /\ attained map neg_infinity z (z (snd (calcBounds map))).
Proof.
  unfold calcBounds. rewrite calcBounds_fold. cbn [fst snd x y z].
  destruct (lowest_spec (key_at x) (blocks map) infinity) as [Lx Ax].
  destruct (lowest_spec (key_at y) (blocks map) infinity) as [Ly Ay].
  destruct (lowest_spec (key_at z) (blocks map) infinity) as [Lz Az].
  destruct (highest_spec (key_at x) (blocks map) neg_infinity) as [Hx Bx].
  destruct (highest_spec (key_at y) (blocks map) neg_infinity) as [Hy By].
  destruct (highest_spec (key_at z) (blocks map) neg_infinity) as [Hz Bz].
  split; [|split; [|split; [|repeat split; assumption]]].
  2: { unfold nan_free. cbn [x y z].
       rewrite !lowest_not_nan by reflexivity. reflexivity. }
  2: { unfold nan_free. cbn [x y z].
       rewrite !highest_not_nan by reflexivity. reflexivity. }
  intros e He. unfold encloses. cbn [fst snd x y z].
  pose proof (Lx e He) as E1. pose proof (Ly e He) as E2. pose proof (Lz e He) as E3.
  pose proof (Hx e He) as E4. pose proof (Hy e He) as E5. pose proof (Hz e He) as E6.
  unfold key_at in *. rewrite E1, E2, E3, E4, E5, E6. reflexivity.
Qed.

(** An arena without blocks has no place: the bounds stay at the infinities
    they start from, so there is no goal, and the spawn points of the four
    teams and the four balls spawned have [NaN] for their horizontal
    coordinates.  The four balls are added after the balls there already
    are, which are kept. *)
Theorem empty_arena_has_no_place (types : list BlockType) (r1 r2 r3 r4 : string)
    (w : World) :
  let w0 := createSkyBallGame (mkMapData types []) r1 r2 r3 r4 w in
  goals w0 = []
  /\ bounds w0 = (mkVec3 infinity infinity infinity,
                  mkVec3 neg_infinity neg_infinity neg_infinity)
  /\ List.length (teams w0) = 4%nat
  /\ (forall t, t ∈ teams w0 ->
        is_nan (x (t_spawn t)) = true /\ is_nan (z (t_spawn t)) = true)
  /\ exists spawned,
       balls w0 = (balls w ++ spawned)%list
       /\ List.map b_kind spawned = [quaffle; bludger; bludger; snitch]
       /\ forall b, b ∈ spawned ->
            is_nan (x (b_pos b)) = true /\ is_nan (z (b_pos b)) = true.
Proof.
  cbv zeta. split; [reflexivity|]. split; [reflexivity|]. split; [reflexivity|]. split.
  - intros t Ht. cbn in Ht.
    repeat (apply elem_of_cons in Ht as [->|Ht]; [split; reflexivity|]).
    inversion Ht.
  - eexists. split.
    + cbn [createSkyBallGame broadcastHUD uiBroadcast balls].
      rewrite <- !app_assoc. reflexivity.
    + split; [reflexivity|]. intros b Hb. cbn [app] in Hb.
      repeat (apply elem_of_cons in Hb as [->|Hb]; [split; reflexivity|]).
      inversion Hb.
Qed.

Lemma append_cancel (p a b : string) :
  String.append p a = String.append p b -> a = b.
Proof.
  induction p as [|c p IH]; simpl; intros H; [exact H|].
  injection H as H. auto.
Qed.

Lemma kickoff_ids (r1 r2 r3 r4 : string) (pos1 pos2 pos3 pos4 : Vec3) :
  r2 <> r3 ->
  NoDup (b_id <$> [makeBall r1 quaffle pos1; makeBall r2 bludger pos2;
                   makeBall r3 bludger pos3; makeBall r4 snitch pos4]).
Proof.
  intros Hne.
  assert (H23 : b_id (makeBall r2 bludger pos2) <> b_id (makeBall r3 bludger pos3)).
  { unfold makeBall. cbn [b_id]. intros E.
    do 3 apply append_cancel in E. contradiction. }
  cbn [fmap list_fmap].
  apply NoDup_cons. split.
  { rewrite !not_elem_of_cons. repeat split; try discriminate. apply not_elem_of_nil. }
  apply NoDup_cons. split.
  { rewrite !not_elem_of_cons. repeat split; try discriminate; [exact H23|].
    apply not_elem_of_nil. }
  apply NoDup_cons. split.
  { rewrite !not_elem_of_cons. repeat split; try discriminate. apply not_elem_of_nil. }
  apply NoDup_singleton.
Qed.

(** From the kickoff on, along every orderly run, the ownership links are
    symmetric: provided the two bludgers drew different random suffixes,
    the four balls have distinct ids and nobody owns them. *)
Theorem ownership_kept_from_kickoff (map : MapData) (r1 r2 r3 r4 : string)
    (w w' : World) (es : list Event) :
  players w = [] -> balls w = [] -> r2 <> r3 ->
  orderly_run es (createSkyBallGame map r1 r2 r3 r4 w) ->
  run es (createSkyBallGame map r1 r2 r3 r4 w) = Some w' ->
  keyed w' /\ consistent w' /\ ownership_symmetric w'.
Proof.
  intros Hp Hb Hne Ho Hr.
  destruct (consistent_kickoff (createSkyBallGame map r1 r2 r3 r4 w))
    as [Hk HL].
  - exact Hp.
  - cbn [createSkyBallGame broadcastHUD uiBroadcast balls]. rewrite Hb.
    apply kickoff_ids. exact Hne.
  - intros b Hin. cbn [createSkyBallGame broadcastHUD uiBroadcast balls] in Hin.
    rewrite Hb in Hin. cbn in Hin.
    repeat (apply elem_of_cons in Hin as [->|Hin]; [split; [discriminate|reflexivity]|]).
    inversion Hin.
  - exact (ownership_kept_along es _ w' Hk HL Ho Hr).
Qed.

End ArenaFacts.

(** *** What a tick and an input leave alone *)

Section Frames.

Context {M : MathLib}.

Lemma roster_with_player (i : nat) (f : PlayerState -> PlayerState) (w : World) :
  (forall p, (p_id (f p), p_name (f p), p_teamId (f p), p_mounted (f p), p_stamina (f p))
             = (p_id p, p_name p, p_teamId p, p_mounted p, p_stamina p)) ->
  roster (with_player i f w) = roster w.
Proof.
  intros H. unfold roster, with_player, set_players. cbn [players balls teams goals bounds].
  f_equal. f_equal. f_equal. f_equal.
  apply fmap_alter_frame. intros [k p]. cbn [fst snd].
  specialize (H p). injection H as -> -> -> -> ->. reflexivity.
Qed.

Lemma roster_with_ball (i : nat) (f : Ball -> Ball) (w : World) :
  (forall b, b_id (f b) = b_id b) -> (forall b, b_kind (f b) = b_kind b) ->
  roster (with_ball i f w) = roster w.
Proof.
  intros H1 H2. unfold roster, with_ball, set_balls. cbn [players balls teams goals bounds].
  f_equal. f_equal. f_equal. f_equal.
  apply fmap_alter_frame. intros b. rewrite H1, H2. reflexivity.
Qed.

Lemma roster_with_team (i : nat) (d : float) (w : World) :
  roster (with_team i (t_add_score d) w) = roster w.
Proof.
  unfold roster, with_team, set_teams. cbn [players balls teams goals bounds].
  f_equal. f_equal. f_equal.
  apply fmap_alter_frame. intros t. reflexivity.
Qed.

Lemma roster_same (w w' : World) :
  players w' = players w -> balls w' = balls w -> teams w' = teams w ->
  goals w' = goals w -> bounds w' = bounds w -> roster w' = roster w.
Proof. unfold roster. intros -> -> -> -> ->. reflexivity. Qed.

Lemma roster_release (w : World) (pi : nat) (c : option EntityId) (g : Ball -> Ball) :
  (forall b, b_id (g b) = b_id b) -> (forall b, b_kind (g b) = b_kind b) ->
  roster (with_player pi (p_set_carrying None)
            (match find_index (fun b => Js.str_eq_opt (b_id b) c) (balls w) with
             | Some ci => with_ball ci g w
             | None => w
             end)) = roster w.
Proof.
  intros H1 H2. rewrite roster_with_player by reflexivity.
  destruct (find_index _ (balls w)); [|reflexivity].
  apply roster_with_ball; assumption.
Qed.

Lemma roster_interactStep (input : Input) (pi : nat) (w : World) :
  roster (interactStep input pi w) = roster w.
Proof.
  unfold interactStep.
  destruct (player_at w pi) as [p|]; [|reflexivity].
  destruct (negb _).
  - destruct (find_index _ (balls w)) as [bi|]; [|reflexivity].
    cbv zeta. rewrite roster_with_player by reflexivity.
    apply roster_with_ball; reflexivity.
  - apply roster_release; reflexivity.
Qed.

Lemma roster_swingStep (pi : nat) (w : World) :
  roster (swingStep pi w) = roster w.
Proof.
  unfold swingStep.
  destruct (player_at w pi) as [p|]; [|reflexivity].
  destruct (nearestBallOfKind w (p_pos p) bludger) as [bi|]; [|reflexivity].
  destruct (balls w !! bi) as [bl|]; [|reflexivity].
  destruct (_ <? _); [|reflexivity].
  apply roster_with_ball; reflexivity.
Qed.

Lemma roster_onPlayerInput (id : EntityId) (input : Input) (dt nowMs : float)
    (w : World) :
  roster (onPlayerInput id input dt nowMs w) = roster w.
Proof.
  unfold onPlayerInput.
  destruct (map_index (players w) id) as [pi|]; [|reflexivity].
  destruct (player_at w pi) as [p|]; [|reflexivity].
  destruct (_ <? _); [reflexivity|].
  cbv zeta.
  assert (H1 : roster (with_player pi (flight input dt) w) = roster w)
    by (apply roster_with_player; reflexivity).
  assert (H2 : roster (if interact input
                       then interactStep input pi (with_player pi (flight input dt) w)
                       else with_player pi (flight input dt) w) = roster w).
  { destruct (interact input); [rewrite roster_interactStep|]; exact H1. }
  destruct (beaterSwing input); [rewrite roster_swingStep|]; exact H2.
Qed.

Lemma bludgerSeek_static (w : World) (dt : float) (b : Ball) :
  b_id (bludgerSeek w dt b) = b_id b /\ b_kind (bludgerSeek w dt b) = b_kind b.
Proof. unfold bludgerSeek. destruct (nearestPlayer w (b_pos b)); auto. Qed.

Lemma roster_updateBall (dt nowMs : float) (i : nat) (w : World) :
  roster (updateBall dt nowMs i w) = roster w.
Proof.
  unfold updateBall.
  destruct (balls w !! i) as [b|]; [|reflexivity].
  destruct (Js.truthy_str (b_owner b)); [reflexivity|].
  cbv zeta.
  set (w1 := with_ball i (integrateBall dt) w).
  assert (H1 : roster w1 = roster w) by (apply roster_with_ball; reflexivity).
  set (w2 := if kind_eqb (b_kind b) bludger
             then with_ball i (bludgerSeek w1 dt) w1 else w1).
  assert (H2 : roster w2 = roster w).
  { unfold w2. destruct (kind_eqb (b_kind b) bludger); [|exact H1].
    rewrite roster_with_ball; [exact H1| |]; intros b0; apply bludgerSeek_static. }
  destruct (kind_eqb (b_kind b) snitch); [|exact H2].
  rewrite roster_with_ball by reflexivity. exact H2.
Qed.

Lemma roster_scoreCarrier (pi : nat) (w : World) :
  roster (scoreCarrier pi w) = roster w.
Proof.
  unfold scoreCarrier.
  destruct (player_at w pi) as [p|]; [|reflexivity].
  destruct (Js.truthy_str (p_carrying p)); [|reflexivity].
  destruct (find_index _ (balls w)) as [bi|]; [|reflexivity].
  destruct (kind_eqb _ quaffle); [|reflexivity].
  apply (fold_left_ind (fun s => roster s = roster w)); [reflexivity|].
  intros g w0 H0. unfold scoreAtGoal.
  destruct (player_at w0 pi) as [p0|]; [|exact H0].
  destruct (_ <? _); [|exact H0].
  destruct (teamById w0 (p_teamId p0)) as [ti|]; [|exact H0].
  cbv zeta.
  set (w1 := announce _ (with_team ti (t_add_score SCORE_QUAFFLE) w0)).
  assert (E1 : roster w1 = roster w0) by apply (roster_with_team ti SCORE_QUAFFLE w0).
  set (g0 := fun b0 : Ball => mkBall (b_id b0) (b_kind b0) (midAir (bounds w1) 8) zero3 None).
  change (roster (with_player pi (p_set_carrying None) (with_ball bi g0 w1)) = roster w).
  rewrite roster_with_player by reflexivity.
  rewrite roster_with_ball by reflexivity. congruence.
Qed.

Lemma roster_knockback (nowMs : float) (bi pi : nat) (w : World) :
  roster (knockback nowMs bi pi w) = roster w.
Proof.
  unfold knockback.
  destruct (balls w !! bi) as [b|]; [|reflexivity].
  destruct (player_at w pi) as [p|]; [|reflexivity].
  destruct (_ <? _); [|reflexivity].
  cbv zeta.
  set (hit := fun p0 : PlayerState => p_set_stunnedUntil _ (p_set_vel _ p0)).
  assert (H1 : roster (with_player pi hit w) = roster w)
    by (apply roster_with_player; reflexivity).
  destruct (Js.truthy_str (p_carrying p)); [|exact H1].
  rewrite roster_release by reflexivity. exact H1.
Qed.

Lemma roster_captureBy (si pi : nat) (w : World) :
  roster (captureBy si pi w).1 = roster w.
Proof.
  unfold captureBy.
  destruct (balls w !! si) as [s|]; [|reflexivity].
  destruct (player_at w pi) as [p|]; [|reflexivity].
  destruct (_ <? _); [|reflexivity].
  destruct (teamById w (p_teamId p)) as [ti|]; [|reflexivity].
  apply (roster_with_team ti SCORE_SNITCH w).
Qed.

Lemma roster_resolveInteractions (nowMs : float) (w : World) :
  roster (resolveInteractions nowMs w) = roster w.
Proof.
  unfold resolveInteractions.
  assert (H1 : roster (scoreGoals w) = roster w).
  { unfold scoreGoals. apply (for_index_ind (fun s => roster s = roster w)); [reflexivity|].
    intros i s _ Hs. rewrite roster_scoreCarrier. exact Hs. }
  assert (H2 : roster (bludgerHits nowMs (scoreGoals w)) = roster w).
  { unfold bludgerHits. apply (for_index_ind (fun s => roster s = roster w)); [exact H1|].
    intros bi s _ Hs. destruct (balls s !! bi) as [b|]; [|exact Hs].
    destruct (kind_eqb (b_kind b) bludger); [|exact Hs].
    apply (for_index_ind (fun s => roster s = roster w)); [exact Hs|].
    intros pi s' _ Hs'. rewrite roster_knockback. exact Hs'. }
  unfold snitchCapture.
  destruct (find_index _ (balls (bludgerHits nowMs (scoreGoals w)))); [|exact H2].
  apply (for_break_ind (fun s => roster s = roster w)); [exact H2|].
  intros pi s Hs. rewrite roster_captureBy. exact Hs.
Qed.

Lemma updatePlayerPhysics_static (w : World) (dt : float) (p : PlayerState) :
  (p_id (updatePlayerPhysics w dt p), p_name (updatePlayerPhysics w dt p),
   p_teamId (updatePlayerPhysics w dt p), p_mounted (updatePlayerPhysics w dt p),
   p_stamina (updatePlayerPhysics w dt p))
  = (p_id p, p_name p, p_teamId p, p_mounted p, p_stamina p).
Proof. unfold updatePlayerPhysics. destruct (_ <? _); reflexivity. Qed.

Lemma roster_before_floor (dt nowMs : float) (w : World) :
  roster (resolveInteractions nowMs
            (for_index (List.length (balls w)) (updateBall dt nowMs) w)) = roster w.
Proof.
  rewrite roster_resolveInteractions.
  apply (for_index_ind (fun s => roster s = roster w)); [reflexivity|].
  intros i s _ Hs. rewrite roster_updateBall. exact Hs.
Qed.

(** Neither a tick nor an input changes who plays: the registry keys, the
    players' ids, names, teams, mount flags and stamina, the balls' ids and
    kinds, the teams apart from their scores, the goals and the bounds stay
    as they are. *)
Theorem roster_kept (w : World) :
  (forall rnd dt nowMs, roster (tick rnd dt nowMs w) = roster w)
  /\ (forall id input dt nowMs, roster (onPlayerInput id input dt nowMs w) = roster w).
Proof.
  split; [|intros; apply roster_onPlayerInput].
  intros rnd dt nowMs. unfold tick. cbv zeta.
  set (w2 := resolveInteractions nowMs _).
  assert (H2 : roster w2 = roster w) by apply roster_before_floor.
  assert (H3 : roster (for_index (List.length (players w2))
                         (fun i w0 => with_player i (updatePlayerPhysics w0 dt) w0) w2)
               = roster w).
  { apply (for_index_ind (fun s => roster s = roster w)); [exact H2|].
    intros i s _ Hs. rewrite roster_with_player; [exact Hs|].
    intros p. apply updatePlayerPhysics_static. }
  destruct (_ <? _); exact H3.
Qed.

(** After a tick no player is below the floor, 40 above the lower bound of
    the arena. *)
Theorem tick_keeps_players_above_floor (rnd dt nowMs : float) (w : World)
    (i : nat) (k : string) (p : PlayerState) :
  players (tick rnd dt nowMs w) !! i = Some (k, p) ->
  (y (p_pos p) <? y (fst (bounds w)) + 40) = false.
Proof.
  unfold tick. cbv zeta.
  set (w2 := resolveInteractions nowMs _).
  assert (H2 : bounds w2 = bounds w).
  { pose proof (roster_before_floor dt nowMs w) as H. fold w2 in H.
    unfold roster in H. congruence. }
  set (n := List.length (players w2)).
  assert (H3 : forall j k' q,
             j < n ->
             players (for_index n (fun i w0 => with_player i (updatePlayerPhysics w0 dt) w0) w2)
               !! j = Some (k', q) ->
             (y (p_pos q) <? y (fst (bounds w)) + 40) = false).
  { apply (for_index_count
             (fun m s => bounds s = bounds w /\
                forall j k' q, j < m -> players s !! j = Some (k', q) ->
                  (y (p_pos q) <? y (fst (bounds w)) + 40) = false)).
    - split; [exact H2|]. intros j k' q Hj. lia.
    - intros m s Hm [Hb Hs]. split; [exact Hb|].
      intros j k' q Hj Hq. unfold with_player, set_players in Hq. cbn [players] in Hq.
      apply lookup_alter_inv in Hq as [[-> ([k0 p0] & H0 & E)]|[Hne Hq]].
      + cbn [fst snd] in E. injection E as -> ->.
        unfold updatePlayerPhysics. rewrite Hb.
        destruct (y (p_pos p0) <? y (bounds w).1 + 40) eqn:Ey.
        * cbn [p_pos p_set_vel p_set_pos y]. apply ltb_irrefl.
        * exact Ey.
      + apply (Hs j k' q); [lia|exact Hq]. }
  intros H.
  assert (Hp : players (for_index n (fun i w0 => with_player i (updatePlayerPhysics w0 dt) w0) w2)
               !! i = Some (k, p)).
  { destruct (_ <? _) in H; exact H. }
  apply (H3 i k p); [|exact Hp].
  apply lookup_lt_Some in Hp.
  assert (Hlen : List.length (players (for_index n
                   (fun i w0 => with_player i (updatePlayerPhysics w0 dt) w0) w2)) = n).
  { apply (for_index_ind (fun s => List.length (players s) = n)); [reflexivity|].
    intros j s _ Hs. unfold with_player, set_players. cbn [players].
    rewrite length_alter. exact Hs. }
  lia.
Qed.

End Frames.

(** *** Joining and leaving *)

Section JoinLeave.

(** A join registers the player under its id, on the team picked, at that
    team's spawn point, at rest, unstunned and empty-handed, whatever was
    registered under the id before; the other players, the teams and the
    balls are untouched, and if the id was new a leave puts the registry
    back as it was. *)
Theorem join_registers_leave_removes (id : EntityId) (name : string) (w w' : World) :
  onPlayerJoin id name w = Some w' ->
  (exists team, autoAssignTeam w = Some team
     /\ map_get (players w') id
        = Some (mkPlayer id name (t_id team) (t_spawn team) zero3 true 1 0 None))
  /\ (forall k, k <> id -> map_get (players w') k = map_get (players w) k)
  /\ teams w' = teams w /\ balls w' = balls w
  /\ (map_get (players w) id = None ->
      players (onPlayerLeave id w') = players w
      /\ balls (onPlayerLeave id w') = balls w).
Proof.
  unfold onPlayerJoin. destruct (autoAssignTeam w) as [team|]; [|discriminate].
  intros H. injection H as <-. cbn [players teams balls broadcastHUD uiBroadcast announce
                                     set_players onPlayerLeave].
  split; [|split; [|split; [reflexivity|split; [reflexivity|]]]].
  - exists team. split; [reflexivity|]. rewrite map_get_set, String.eqb_refl. reflexivity.
  - intros k Hk. rewrite map_get_set.
    destruct (String.eqb_spec id k) as [->|_]; [contradiction|reflexivity].
  - intros Hnew. split; [|reflexivity].
    rewrite (map_set_fresh _ _ _ Hnew). apply map_delete_fresh. exact Hnew.
Qed.

End JoinLeave.

(** *** Stunning *)

Section Stunning.

Context {M : MathLib}.

Lemma player_at_with_player (w : World) (i j : nat) (f : PlayerState -> PlayerState) :
  player_at (with_player i f w) j
  = if decide (i = j) then f <$> player_at w j else player_at w j.
Proof.
  unfold player_at, with_player, set_players. cbn [players].
  destruct (decide (i = j)) as [->|Hne].
  - rewrite list_lookup_alter_eq. destruct (players w !! j) as [[k q]|]; reflexivity.
  - rewrite list_lookup_alter_ne by exact Hne. reflexivity.
Qed.

Lemma poised_with_player (bi pi : nat) (b : Ball) (p : PlayerState) (w : World)
    (i : nat) (f : PlayerState -> PlayerState) :
  (forall q, p_pos (f q) = p_pos q) ->
  (forall q, p_carrying (f q) = p_carrying q \/ p_carrying (f q) = None) ->
  poised bi pi b p w -> poised bi pi b p (with_player i f w).
Proof.
  intros Hpos Hc (Hb & Hfree & p' & Hp' & Hat). split; [exact Hb|]. split.
  - intros j q Hq. rewrite player_at_with_player in Hq.
    destruct (decide (i = j)) as [->|_]; [|eauto].
    destruct (player_at w j) as [q0|] eqn:E; [|discriminate].
    simpl in Hq. injection Hq as <-.
    destruct (Hc q0) as [->| ->]; [eauto|discriminate].
  - rewrite player_at_with_player. destruct (decide (i = pi)) as [->|_].
    + rewrite Hp'. exists (f p'). split; [reflexivity|]. rewrite Hpos. exact Hat.
    + eauto.
Qed.

Lemma poised_with_ball (bi pi : nat) (b : Ball) (p : PlayerState) (w : World)
    (i : nat) (g : Ball -> Ball) :
  i <> bi -> poised bi pi b p w -> poised bi pi b p (with_ball i g w).
Proof.
  intros Hne (Hb & Hfree & Hp). split; [|split; [exact Hfree|exact Hp]].
  unfold with_ball, set_balls. cbn [balls].
  rewrite list_lookup_alter_ne by exact Hne. exact Hb.
Qed.

Lemma poised_same (bi pi : nat) (b : Ball) (p : PlayerState) (w w' : World) :
  players w' = players w -> balls w' = balls w ->
  poised bi pi b p w -> poised bi pi b p w'.
Proof. unfold poised, player_at. intros -> ->. auto. Qed.

(** The ball found for a reference some player holds is not the ball
    nobody refers to. *)
Lemma poised_elsewhere (bi pi : nat) (b : Ball) (p : PlayerState) (w : World)
    (j ci : nat) (q : PlayerState) :
  poised bi pi b p w -> player_at w j = Some q ->
  find_index (fun c => Js.str_eq_opt (b_id c) (p_carrying q)) (balls w) = Some ci ->
  ci <> bi.
Proof.
  intros (Hb & Hfree & _) Hq Hf ->.
  apply find_index_Some in Hf as (c & Hc & Hid & _).
  rewrite Hb in Hc. injection Hc as <-.
  destruct (p_carrying q) as [s|] eqn:E; [|discriminate].
  simpl in Hid. apply String.eqb_eq in Hid. subst s.
  exact (Hfree j q Hq E).
Qed.

Lemma poised_scoreCarrier (bi pi : nat) (b : Ball) (p : PlayerState) (j : nat)
    (w : World) :
  poised bi pi b p w -> poised bi pi b p (scoreCarrier j w).
Proof.
  intros HP. unfold scoreCarrier.
  destruct (player_at w j) as [q|] eqn:Hq; [|exact HP].
  destruct (Js.truthy_str (p_carrying q)); [|exact HP].
  destruct (find_index _ (balls w)) as [ci|] eqn:Hf; [|exact HP].
  destruct (kind_eqb _ quaffle); [|exact HP].
  pose proof (poised_elsewhere _ _ _ _ _ _ _ _ HP Hq Hf) as Hne.
  apply (fold_left_ind (poised bi pi b p)); [exact HP|].
  intros g w0 H0. unfold scoreAtGoal.
  destruct (player_at w0 j) as [q0|]; [|exact H0].
  destruct (_ <? _); [|exact H0].
  destruct (teamById w0 (p_teamId q0)) as [ti|]; [|exact H0].
  cbv zeta.
  set (w1 := announce _ (with_team ti (t_add_score SCORE_QUAFFLE) w0)).
  assert (H1 : poised bi pi b p w1) by (eapply poised_same; [| |exact H0]; reflexivity).
  set (g0 := fun b0 : Ball => mkBall (b_id b0) (b_kind b0) (midAir (bounds w1) 8) zero3 None).
  apply (poised_same _ _ _ _ (with_player j (p_set_carrying None) (with_ball ci g0 w1)));
    [reflexivity|reflexivity|].
  apply poised_with_player; [reflexivity|right; reflexivity|].
  apply poised_with_ball; [exact Hne|exact H1].
Qed.

Lemma knockback_poised (nowMs : float) (bi pi : nat) (b : Ball) (p : PlayerState)
    (bj pj : nat) (w : World) :
  poised bi pi b p w ->
  poised bi pi b p (knockback nowMs bj pj w)
  /\ (stunned_to pi (nowMs + stunMs Physics) w ->
      stunned_to pi (nowMs + stunMs Physics) (knockback nowMs bj pj w)).
Proof.
  intros HP. unfold knockback.
  destruct (balls w !! bj) as [c|]; [|auto].
  destruct (player_at w pj) as [q|] eqn:Hq; [|auto].
  destruct (_ <? _); [|auto].
  cbv zeta.
  set (hit := fun p0 : PlayerState => p_set_stunnedUntil _ (p_set_vel _ p0)).
  set (w1 := with_player pj hit w).
  assert (H1 : poised bi pi b p w1)
    by (apply poised_with_player; [reflexivity|left; reflexivity|exact HP]).
  assert (S1 : stunned_to pi (nowMs + stunMs Physics) w ->
               stunned_to pi (nowMs + stunMs Physics) w1).
  { intros (p' & Hp' & Hs). unfold stunned_to, w1. rewrite player_at_with_player.
    destruct (decide (pj = pi)) as [->|_]; [|eauto].
    rewrite Hp'. exists (hit p'). split; reflexivity. }
  destruct (Js.truthy_str (p_carrying q)); [|auto].
  assert (Hq1 : player_at w1 pj = Some (hit q)).
  { unfold w1. rewrite player_at_with_player, Hq.
    destruct (decide (pj = pj)); [reflexivity|contradiction]. }
  set (w2 := match find_index _ (balls w1) with Some ci => _ | None => w1 end).
  assert (H2 : poised bi pi b p w2 /\ players w2 = players w1).
  { unfold w2. destruct (find_index _ (balls w1)) as [ci|] eqn:Hf; [|auto].
    split; [|reflexivity]. apply poised_with_ball; [|exact H1].
    eapply (poised_elsewhere bi pi b p w1 pj ci (hit q)); eauto. }
  destruct H2 as [H2 E2]. split.
  - apply poised_with_player; [reflexivity|right; reflexivity|exact H2].
  - intros Hs. destruct (S1 Hs) as (p' & Hp' & Hst).
    unfold stunned_to. rewrite player_at_with_player.
    unfold player_at in *. rewrite E2.
    destruct (decide (pj = pi)) as [->|_]; [|eauto].
    rewrite Hp'. exists (p_set_carrying None p'). split; [reflexivity|exact Hst].
Qed.

Lemma knockback_stuns (nowMs : float) (bi pi : nat) (b : Ball) (p : PlayerState)
    (w : World) :
  poised bi pi b p w ->
  (dist (b_pos b) (p_pos p) <? 1.8) = true ->
  stunned_to pi (nowMs + stunMs Physics) (knockback nowMs bi pi w).
Proof.
  intros (Hb & _ & p' & Hp' & Hat) Hd.
  destruct (knockback_ignores_stun nowMs bi pi w b p' Hb Hp') as (p2 & H2 & Hs & _).
  - rewrite Hat. exact Hd.
  - exists p2. split; assumption.
Qed.

Lemma snitchCapture_players (w : World) : players (snitchCapture w) = players w.
Proof.
  unfold snitchCapture. destruct (find_index _ _) as [si|]; [|reflexivity].
  apply (for_break_ind (fun s => players s = players w)); [reflexivity|].
  intros pi s Hs. rewrite players_captureBy. exact Hs.
Qed.

(** A free bludger within reach of a player stuns: after the resolver pass
    the player's stun window ends at [nowMs + stunMs], and until then the
    input processor ignores everything the player sends. *)
Theorem bludger_hit_stuns (nowMs : float) (w : World) (bi pi : nat) (id : EntityId)
    (b : Ball) (p : PlayerState) :
  balls w !! bi = Some b -> b_kind b = bludger ->
  (forall j q, player_at w j = Some q -> p_carrying q <> Some (b_id b)) ->
  map_index (players w) id = Some pi -> player_at w pi = Some p ->
  (dist (b_pos b) (p_pos p) <? 1.8) = true ->
  let w' := resolveInteractions nowMs w in
  (exists p', map_get (players w') id = Some p'
      /\ p_stunnedUntil p' = nowMs + stunMs Physics)
  /\ forall input dt t, (t <? nowMs + stunMs Physics) = true ->
       onPlayerInput id input dt t w' = w'.
Proof.
  intros Hb Hkind Hfree Hidx Hp Hd. cbv zeta.
  assert (HP0 : poised bi pi b p w).
  { split; [exact Hb|]. split; [exact Hfree|]. eauto. }
  assert (HP1 : poised bi pi b p (scoreGoals w)).
  { unfold scoreGoals. apply (for_index_ind (poised bi pi b p)); [exact HP0|].
    intros j s _. apply poised_scoreCarrier. }
  assert (Hlen : forall s, poised bi pi b p s ->
                   bi < List.length (balls s) /\ pi < List.length (players s)).
  { intros s (Hbs & _ & p' & Hp' & _). split; [eapply lookup_lt_Some; eauto|].
    unfold player_at in Hp'. destruct (players s !! pi) eqn:E; [|discriminate].
    eapply lookup_lt_Some; eauto. }
  assert (H2 : poised bi pi b p (bludgerHits nowMs (scoreGoals w))
               /\ stunned_to pi (nowMs + stunMs Physics)
                    (bludgerHits nowMs (scoreGoals w))).
  { unfold bludgerHits.
    assert (H : poised bi pi b p (for_index (List.length (balls (scoreGoals w)))
                  (fun bj s => match balls s !! bj with
                               | Some c => if kind_eqb (b_kind c) bludger
                                           then for_index (List.length (players s))
                                                  (knockback nowMs bj) s
                                           else s
                               | None => s
                               end) (scoreGoals w))
                /\ (bi < List.length (balls (scoreGoals w)) ->
                    stunned_to pi (nowMs + stunMs Physics)
                      (for_index (List.length (balls (scoreGoals w)))
                  (fun bj s => match balls s !! bj with
                               | Some c => if kind_eqb (b_kind c) bludger
                                           then for_index (List.length (players s))
                                                  (knockback nowMs bj) s
                                           else s
                               | None => s
                               end) (scoreGoals w)))).
    { apply (for_index_count
               (fun m s => poised bi pi b p s /\
                           (bi < m -> stunned_to pi (nowMs + stunMs Physics) s))).
      - split; [exact HP1|lia].
      - intros bj s _ [HPs Hst].
        destruct (balls s !! bj) as [c|] eqn:Hc.
        2:{ split; [exact HPs|]. intros Hlt.
            destruct (decide (bj = bi)) as [->|Hne]; [|apply Hst; lia].
            destruct HPs as (Hbs & _). congruence. }
        destruct (kind_eqb (b_kind c) bludger) eqn:Hk.
        2:{ split; [exact HPs|]. intros Hlt.
            destruct (decide (bj = bi)) as [->|Hne]; [|apply Hst; lia].
            destruct HPs as (Hbs & _). rewrite Hbs in Hc. injection Hc as <-.
            rewrite Hkind in Hk. discriminate. }
        assert (Hin : poised bi pi b p (for_index (List.length (players s))
                                          (knockback nowMs bj) s)
                      /\ ((bi < bj \/ (bj = bi /\ pi < List.length (players s))) ->
                          stunned_to pi (nowMs + stunMs Physics)
                            (for_index (List.length (players s)) (knockback nowMs bj) s))).
        { apply (for_index_count
                   (fun m s' => poised bi pi b p s' /\
                      ((bi < bj \/ (bj = bi /\ pi < m)) ->
                       stunned_to pi (nowMs + stunMs Physics) s'))).
          - split; [exact HPs|]. intros [Hlt|[_ Hlt]]; [apply Hst; exact Hlt|lia].
          - intros pj s' _ [HPs' Hst'].
            destruct (knockback_poised nowMs bi pi b p bj pj s' HPs') as [HP2 HS2].
            split; [exact HP2|].
            intros [Hlt|[-> Hlt]]; [apply HS2, Hst'; auto|].
            destruct (decide (pj = pi)) as [->|Hne].
            + apply (knockback_stuns nowMs bi pi b p); assumption.
            + apply HS2, Hst'. right. split; [reflexivity|lia]. }
        destruct Hin as [HPi HSi]. split; [exact HPi|].
        intros Hlt. apply HSi.
        destruct (decide (bj = bi)) as [->|Hne]; [|left; lia].
        right. split; [reflexivity|]. exact (proj2 (Hlen s HPs)). }
    destruct H as [HPf HSf]. split; [exact HPf|]. apply HSf. exact (proj1 (Hlen _ HP1)). }
  destruct H2 as [_ (p' & Hp' & Hst)].
  assert (Eidx : forall s, (players s).*1 = (players w).*1 ->
                   map_index (players s) id = Some pi).
  { intros s Hs. rewrite <- Hidx. unfold map_index.
    rewrite <- !(find_index_fmap fst (fun k => String.eqb k id)).
    rewrite Hs. reflexivity. }
  assert (Hkeys : (players (resolveInteractions nowMs w)).*1 = (players w).*1).
  { pose proof (roster_resolveInteractions nowMs w) as Hr. unfold roster in Hr.
    injection Hr as Hr _ _ _ _.
    apply (f_equal (fmap (fun t : string * string * string * string * bool * float =>
                            t.1.1.1.1.1))) in Hr.
    rewrite <- !list_fmap_compose in Hr. exact Hr. }
  assert (Hget : map_get (players (resolveInteractions nowMs w)) id = Some p').
  { rewrite (map_index_get _ _ _ (Eidx _ Hkeys)).
    unfold resolveInteractions. rewrite snitchCapture_players.
    unfold player_at in Hp'. exact Hp'. }
  split; [exists p'; split; [exact Hget|exact Hst]|].
  intros input dt t Ht. unfold onPlayerInput.
  rewrite (Eidx _ Hkeys).
  rewrite (player_at_get _ _ _ (Eidx _ Hkeys)), Hget, Hst, Ht. reflexivity.
Qed.

End Stunning.

(** *** Runs of the engine: the arena, the registry, the stun *)

Section MoreRuns.

#[local] Existing Instance refMath.
#[local] Existing Instance refText.

Lemma ownership_kept_from_kickoff_witness :
  orderly_run opening kickoff
  /\ run opening kickoff = Some played
  /\ links (after grab)
     = ([Some "ball_quaffle_q"], [Some "a"; None; None; None])
  /\ links (after (grab ++ toss)) = ([None], [None; None; None; None])
  /\ links played
     = ([Some "ball_quaffle_q"], [Some "a"; None; None; None])
  /\ keyed played /\ consistent played /\ ownership_symmetric played.
Proof.
  assert (Ho : orderly_run opening kickoff).
  { vm_compute. repeat split; try discriminate; try reflexivity.
    intros q E. injection E as <-. reflexivity. }
  assert (Hr : run opening kickoff = Some played) by (vm_compute; reflexivity).
  split; [exact Ho|]. split; [exact Hr|].
  split; [vm_compute; reflexivity|]. split; [vm_compute; reflexivity|].
  split; [vm_compute; reflexivity|].
  apply (ownership_kept_from_kickoff lawn "q" "b1" "b2" "s" blank played opening).
  - reflexivity.
  - reflexivity.
  - discriminate.
  - exact Ho.
  - exact Hr.
Defined.

Lemma tick_keeps_players_above_floor_witness :
  match players sunk !! 0%nat, players (tick 0.5 frame 1016 sunk) !! 0%nat with
  | Some (_, p0), Some (k, p) =>
      (y (p_pos p0) <? y (fst (bounds sunk)) + 40) = true
      /\ (y (p_pos p) <? y (fst (bounds sunk)) + 40) = false
  | _, _ => False
  end.
Proof.
  destruct (players sunk !! 0%nat) as [[k0 p0]|] eqn:E0;
    [|vm_compute in E0; discriminate].
  destruct (players (tick 0.5 frame 1016 sunk) !! 0%nat) as [[k p]|] eqn:E;
    [|vm_compute in E; discriminate].
  split.
  - vm_compute in E0. injection E0 as _ <-. vm_compute. reflexivity.
  - exact (tick_keeps_players_above_floor 0.5 frame 1016 sunk 0 k p E).
Defined.

Lemma join_registers_leave_removes_witness :
  match onPlayerJoin "a" "Ann" (pitch [] []) with
  | Some w' =>
      map_get (players w') "a" = Some ann
      /\ players (onPlayerLeave "a" w') = []
  | None => False
  end.
Proof.
  destruct (onPlayerJoin "a" "Ann" (pitch [] [])) as [w'|] eqn:E.
  - destruct (join_registers_leave_removes "a" "Ann" (pitch [] []) w' E)
      as ((team & Ht & Hget) & _ & _ & _ & Hback).
    split.
    + rewrite Hget. vm_compute in Ht. injection Ht as <-. reflexivity.
    + apply Hback. reflexivity.
  - vm_compute in E. discriminate.
Defined.

Lemma bludger_hit_stuns_witness :
  (exists p', map_get (players (resolveInteractions 1000 beaten)) "a" = Some p'
     /\ p_stunnedUntil p' = 1000 + stunMs Physics)
  /\ forall input dt t, (t <? 1000 + stunMs Physics) = true ->
       onPlayerInput "a" input dt t (resolveInteractions 1000 beaten)
       = resolveInteractions 1000 beaten.
Proof.
  apply (bludger_hit_stuns 1000 beaten 0 0 "a"
           (still "b1" bludger (mkVec3 (-35) 61 0)) ann).
  - reflexivity.
  - reflexivity.
  - intros j q Hq. unfold player_at in Hq.
    destruct j as [|j]; [|vm_compute in Hq; discriminate].
    vm_compute in Hq. injection Hq as <-. discriminate.
  - reflexivity.
  - reflexivity.
  - vm_compute. reflexivity.
Defined.

Lemma rejoin_breaks_symmetry_witness :
  let w := onPlayerInput "a" press frame 1000 (atHand []) in
  (p_carrying <$> map_get (players w) "a") = Some (Some "q")
  /\ match onPlayerJoin "a" "Ann" (onPlayerLeave "a" w) with
     | Some w' => ~ ownership_symmetric w'
     | None => False
     end.
Proof.
  cbv zeta.
  set (w := onPlayerInput "a" press frame 1000 (atHand [])).
  split; [vm_compute; reflexivity|].
  assert (H0 : keyed (pitch [still "q" quaffle (mkVec3 (-35) 60 0)] [])
               /\ consistent (pitch [still "q" quaffle (mkVec3 (-35) 60 0)] [])).
  { apply consistent_kickoff; [reflexivity|apply NoDup_singleton|].
    intros b Hb. apply list_elem_of_singleton in Hb. subst b.
    split; [discriminate|reflexivity]. }
  destruct H0 as [Hk0 HL0].
  destruct (consistent_onPlayerJoin "a" "Ann" _ (atHand []) Hk0 HL0) as [Hk1 HL1];
    [discriminate|reflexivity|reflexivity|].
  assert (Hk : keyed w) by (apply keyed_onPlayerInput; exact Hk1).
  assert (HL : consistent w) by (apply consistent_onPlayerInput; exact HL1).
  destruct (onPlayerJoin "a" "Ann" (onPlayerLeave "a" w)) as [w'|] eqn:E.
  - apply (rejoin_breaks_symmetry "a" "Ann" w w'
             (mkPlayer "a" "Ann" "gry" (mkVec3 (-35) 59.995555555555555 0)
                       (mkVec3 0 (-0.26666666666666666) 0) true 1 0 (Some "q"))
             (mkBall "q" quaffle (mkVec3 (-35) 60 0) zero3 (Some "a")) Hk HL).
    + vm_compute. reflexivity.
    + assert (Eb : balls w = [mkBall "q" quaffle (mkVec3 (-35) 60 0) zero3 (Some "a")])
        by (vm_compute; reflexivity).
      rewrite Eb. apply list_elem_of_singleton. reflexivity.
    + reflexivity.
    + exact E.
  - vm_compute in E. discriminate.
Defined.

Lemma capture_repeats_every_pass_witness :
  scores catchable = [0; 0; 0; 0]
  /\ teams (snitchCapture (snitchCapture catchable))
     = alter (fun t => t_add_score SCORE_SNITCH (t_add_score SCORE_SNITCH t)) 0%nat
             (teams catchable).
Proof.
  split; [vm_compute; reflexivity|].
  apply (capture_repeats_every_pass catchable 3 0 0
           (still "s" snitch (mkVec3 (-35) 60.5 0)) ann).
  - reflexivity.
  - reflexivity.
  - reflexivity.
  - vm_compute. reflexivity.
  - intros j q Hj. lia.
  - reflexivity.
Defined.

End MoreRuns.

End GameProps.

(** ** The HYTOPIA server: properties

    The server does what the scaffold engine misses in three places: a
    stunned player is skipped by the bludger loop, the interact command is
    dropped while the player is stunned, and a leaving player's ball is
    released. *)

Module ServerProps.

Import Game Server.

Local Open Scope float_scope.

Section Guards.

Context {M : MathLib}.

Lemma objects_announce (msg : ChatText) (w : World) :
  objects (announce msg w) = objects w.
Proof. reflexivity. Qed.

Lemma bludgerHit_skips_stunned (nowMs : float) (bi i r0 : nat)
    (s0 : QuidditchPlayerState) (w : World) :
  (nowMs <? stunnedUntil s0) = true ->
  objects w !! r0 = Some s0 ->
  objects (bludgerHit nowMs bi i w) !! r0 = Some s0.
Proof.
  intros Hstun H. unfold bludgerHit.
  destruct (Server.balls w !! bi) as [ball|]; [|exact H].
  unfold state_at. destruct (state_ref w i) as [r|]; [|exact H].
  destruct (objects w !! r) as [s|] eqn:Hs; [|exact H]. simpl.
  destruct (nowMs <? stunnedUntil s) eqn:Hfree; [exact H|].
  destruct (_ <? 2.0); [|exact H].
  assert (Hne : r <> r0) by (intros ->; congruence).
  rewrite objects_announce.
  destruct (carryingBall s); simpl;
    rewrite !list_lookup_alter_ne by exact Hne; exact H.
Qed.

(** A player who is stunned when the bludger loop runs is left exactly as
    it was: no impulse, no new stun window, no forced drop. *)
Lemma stunned_player_not_hit (nowMs : float) (w : World) (r0 : nat)
    (s0 : QuidditchPlayerState) :
  objects w !! r0 = Some s0 ->
  (nowMs <? stunnedUntil s0) = true ->
  objects (checkBludgerHits nowMs w) !! r0 = Some s0.
Proof.
  intros H Hstun. unfold checkBludgerHits.
  apply (for_index_ind (fun s => objects s !! r0 = Some s0)); [exact H|].
  intros bi s _ Hs. destruct (Server.balls s !! bi) as [ball|]; [|exact Hs].
  destruct (_ || _); [exact Hs|].
  apply (for_index_ind (fun s => objects s !! r0 = Some s0)); [exact Hs|].
  intros i s' _ Hs'. apply bludgerHit_skips_stunned; assumption.
Qed.

(** The interact command of a stunned player does nothing. *)
Lemma interact_gated (now : float) (playerId : string) (w : World) (r : nat)
    (s : QuidditchPlayerState) :
  map_get (quidditchPlayers w) playerId = Some r ->
  objects w !! r = Some s ->
  (now <? stunnedUntil s) = true ->
  handlePlayerInteract now playerId w = w.
Proof.
  intros Hr Hs Hstun. unfold handlePlayerInteract. rewrite Hr, Hs, Hstun. reflexivity.
Qed.

(** The vertical impulses of the flight controls are not gated by the stun
    window. *)
Lemma flight_controls_not_gated (r : nat) (w : World) (s : QuidditchPlayerState) :
  objects w !! r = Some s ->
  (fun q => e_impulses (entity q))
    <$> objects (onTickWithPlayerInput r true false w) !! r
  = Some (mkVec3 0 (FLYING_SPEED_vertical * e_mass (entity s)) 0
          :: e_impulses (entity s)).
Proof.
  intros Hs. unfold onTickWithPlayerInput, with_state, set_objects. simpl.
  rewrite list_lookup_alter_eq, Hs. reflexivity.
Qed.

(** A leaving player's ball is released. *)
Lemma leave_releases_ball (playerId : string) (w : World) (r bi : nat)
    (s : QuidditchPlayerState) (b : BallEntity) :
  map_get (quidditchPlayers w) playerId = Some r ->
  objects w !! r = Some s ->
  carryingBall s = Some bi ->
  Server.balls w !! bi = Some b ->
  Server.balls (onLeftWorld playerId w) !! bi = Some (set_owner None b).
Proof.
  intros Hr Hs Hc Hb. unfold onLeftWorld. rewrite Hr, Hs, Hc. simpl.
  rewrite list_lookup_alter_eq, Hb. reflexivity.
Qed.

End Guards.

Import ServerSpec.

Section Search.

Context {M : MathLib}.

(** [findNearestPlayer] returns a registered player state at a distance
    below [Infinity] that no registered player undercuts, the first such in
    registry order. *)
Theorem findNearestPlayer_is_nearest (w : World) (pos : Vec3) :
  match findNearestPlayer w pos with
  | Some s =>
      exists i id r, quidditchPlayers w !! i = Some (id, r) /\ objects w !! r = Some s
        /\ (distance pos (e_position (entity s)) <? infinity) = true
        /\ (forall j id' r' s', quidditchPlayers w !! j = Some (id', r') ->
              objects w !! r' = Some s' ->
              (distance pos (e_position (entity s'))
                 <? distance pos (e_position (entity s))) = false)
        /\ (forall j id' r' s', j < i -> quidditchPlayers w !! j = Some (id', r') ->
              objects w !! r' = Some s' ->
              (distance pos (e_position (entity s'))
                 =? distance pos (e_position (entity s))) = false)
  | None =>
      forall j id' r' s', quidditchPlayers w !! j = Some (id', r') ->
        objects w !! r' = Some s' ->
        (distance pos (e_position (entity s')) <? infinity) = false
  end.
Proof.
  unfold findNearestPlayer.
  set (sel := fun e : string * nat =>
                match objects w !! snd e with
                | Some s => Some (s, distance pos (e_position (entity s)))
                | None => None
                end).
  rewrite (fold_left_ext _ (GameSpec.nearer sel)).
  2:{ intros acc e. unfold GameSpec.nearer, sel. destruct (objects w !! snd e); reflexivity. }
  pose proof (GameProps.nearer_fold sel (quidditchPlayers w)) as H.
  assert (Hsel : forall id' r' s', objects w !! r' = Some s' ->
                   sel (id', r') = Some (s', distance pos (e_position (entity s')))).
  { intros id' r' s' Hs. unfold sel. cbn [snd]. rewrite Hs. reflexivity. }
  destruct (fold_left _ _ (None, infinity)) as [[s|] bd]; cbn [fst].
  - destruct H as (i & ([id r] & Hi & Hs) & Hfin & Hmin & Hfirst).
    unfold sel in Hs. cbn [snd] in Hs.
    destruct (objects w !! r) as [s0|] eqn:Hr; [|discriminate].
    injection Hs as <- <-. exists i, id, r.
    split; [exact Hi|]. split; [exact Hr|]. split; [exact Hfin|]. split.
    + intros j id' r' s' Hj Hs'. exact (Hmin j _ _ _ Hj (Hsel _ _ _ Hs')).
    + intros j id' r' s' Hlt Hj Hs'. exact (Hfirst j _ _ _ Hlt Hj (Hsel _ _ _ Hs')).
  - destruct H as [_ Hnone]. intros j id' r' s' Hj Hs'.
    exact (Hnone j _ _ _ Hj (Hsel _ _ _ Hs')).
Qed.

End Search.

(** *** Ownership links

    The server keeps the links between registered players and balls
    symmetric through every handler, the leave included. *)

Section Ownership.

Context {M : MathLib} {T : TextLib}.

Lemma lookup_insert_inv {A} (l : list A) (i j : nat) (v y : A) :
  <[i:=v]> l !! j = Some y ->
  (j = i /\ y = v) \/ (j <> i /\ l !! j = Some y).
Proof.
  intros H. apply list_lookup_insert_Some in H as [(-> & -> & _)|[Hne H]]; auto.
Qed.

Lemma tied_take (C O : list (option nat)) (Rg : list nat) (r bi : nat) :
  tied C O Rg -> r ∈ Rg -> C !! r = Some None -> O !! bi = Some None ->
  tied (<[r:=Some bi]> C) (<[bi:=Some r]> O) Rg.
Proof.
  intros (Hnd & Hlt & Hown & Hcar) Hr HC HO.
  split; [exact Hnd|]. split; [|split].
  - intros r' Hr'. rewrite length_insert. auto.
  - intros bj r' H. apply lookup_insert_inv in H as [[-> E]|[Hne H]].
    + injection E as ->. split; [exact Hr|].
      apply list_lookup_insert_eq. eapply lookup_lt_Some; eauto.
    + destruct (Hown _ _ H) as [Hr' Hc]. split; [exact Hr'|].
      rewrite list_lookup_insert_ne; [exact Hc|].
      intros ->. congruence.
  - intros r' bj Hr' H. apply lookup_insert_inv in H as [[-> E]|[Hne H]].
    + injection E as ->. apply list_lookup_insert_eq. eapply lookup_lt_Some; eauto.
    + pose proof (Hcar _ _ Hr' H) as Ho.
      rewrite list_lookup_insert_ne; [exact Ho|]. intros ->. congruence.
Qed.

Lemma tied_drop (C O : list (option nat)) (Rg : list nat) (r bi : nat) :
  tied C O Rg -> r ∈ Rg -> C !! r = Some (Some bi) ->
  tied (<[r:=None]> C) (<[bi:=None]> O) Rg.
Proof.
  intros (Hnd & Hlt & Hown & Hcar) Hr HC.
  pose proof (Hcar _ _ Hr HC) as HO.
  split; [exact Hnd|]. split; [|split].
  - intros r' Hr'. rewrite length_insert. auto.
  - intros bj r' H. apply lookup_insert_inv in H as [[-> E]|[Hne H]]; [discriminate|].
    destruct (Hown _ _ H) as [Hr' Hc]. split; [exact Hr'|].
    rewrite list_lookup_insert_ne; [exact Hc|].
    intros ->. rewrite HC in Hc. injection Hc as ->. contradiction.
  - intros r' bj Hr' H. apply lookup_insert_inv in H as [[-> E]|[Hne H]]; [discriminate|].
    pose proof (Hcar _ _ Hr' H) as Ho.
    rewrite list_lookup_insert_ne; [exact Ho|].
    intros ->. rewrite HO in Ho. injection Ho as ->. contradiction.
Qed.

Lemma tied_leave (C O : list (option nat)) (Rg Rg' : list nat) (r : nat)
    (c : option nat) :
  tied C O Rg -> r ∈ Rg -> C !! r = Some c ->
  NoDup Rg' -> (forall x, x ∈ Rg' -> x ∈ Rg) -> (forall x, x ∈ Rg -> x <> r -> x ∈ Rg') ->
  r ∉ Rg' ->
  tied C (match c with Some bi => <[bi:=None]> O | None => O end) Rg'.
Proof.
  intros (Hnd & Hlt & Hown & Hcar) Hr HC Hnd' Hsub Hkeep Hout.
  split; [exact Hnd'|]. split; [auto|]. split.
  - intros bj r' H.
    assert (H0 : O !! bj = Some (Some r') /\ (forall bi, c = Some bi -> bj <> bi)).
    { destruct c as [bi|]; [|split; [exact H|discriminate]].
      apply lookup_insert_inv in H as [[-> E]|[Hne H]]; [discriminate|].
      split; [exact H|]. intros bi' E. injection E as <-. exact Hne. }
    destruct H0 as [H0 Hne]. destruct (Hown _ _ H0) as [Hr' Hc].
    split; [|exact Hc]. apply Hkeep; [exact Hr'|].
    intros ->. rewrite HC in Hc. injection Hc as ->. exact (Hne bj eq_refl eq_refl).
  - intros r' bj Hr' H.
    assert (Hne : r' <> r) by (intros ->; contradiction).
    pose proof (Hcar _ _ (Hsub _ Hr') H) as Ho.
    destruct c as [bi|]; [|exact Ho].
    rewrite list_lookup_insert_ne; [exact Ho|].
    intros ->. pose proof (Hcar _ _ Hr HC) as Ho'. rewrite Ho in Ho'.
    injection Ho' as ->. contradiction.
Qed.

Lemma tied_join (C O : list (option nat)) (Rg : list nat) :
  tied C O Rg -> tied (C ++ [None]) O (Rg ++ [List.length C]).
Proof.
  intros (Hnd & Hlt & Hown & Hcar).
  split; [|split; [|split]].
  - apply NoDup_app. split; [exact Hnd|]. split; [|apply NoDup_singleton].
    intros x Hx Hx'. apply list_elem_of_singleton in Hx'. subst x.
    apply Hlt in Hx. lia.
  - intros r Hr. rewrite length_app. simpl.
    apply elem_of_app in Hr as [Hr|Hr]; [apply Hlt in Hr; lia|].
    apply list_elem_of_singleton in Hr. lia.
  - intros bi r H. destruct (Hown _ _ H) as [Hr Hc].
    split; [apply elem_of_app; auto|]. apply lookup_app_l_Some. exact Hc.
  - intros r bi Hr H. apply elem_of_app in Hr as [Hr|Hr].
    + apply (Hcar r bi Hr). rewrite lookup_app_l in H by auto. exact H.
    + apply list_elem_of_singleton in Hr. subst r.
      rewrite lookup_app_r in H by lia. rewrite Nat.sub_diag in H. discriminate.
Qed.

Lemma holding_frame (r : nat) (f : QuidditchPlayerState -> QuidditchPlayerState)
    (w : World) :
  (forall s, carryingBall (f s) = carryingBall s) ->
  holding (with_state r f w) = holding w.
Proof. intros H. apply fmap_alter_frame. exact H. Qed.

Lemma holding_set (r : nat) (c : option nat) (w : World) :
  holding (with_state r (s_set_carryingBall c) w) = <[r:=c]> (holding w).
Proof. apply fmap_alter_set. reflexivity. Qed.

Lemma owners_frame (i : nat) (f : BallEntity -> BallEntity) (w : World) :
  (forall b, owner (f b) = owner b) -> owners (with_ball i f w) = owners w.
Proof. intros H. apply fmap_alter_frame. exact H. Qed.

Lemma owners_set (i : nat) (f : BallEntity -> BallEntity) (o : option nat) (w : World) :
  (forall b, owner (f b) = o) -> owners (with_ball i f w) = <[i:=o]> (owners w).
Proof. intros H. apply fmap_alter_set. exact H. Qed.

Lemma fair_frame (w w' : World) :
  holding w' = holding w -> owners w' = owners w -> registered w' = registered w ->
  fair w -> fair w'.
Proof. unfold fair. intros -> -> ->. auto. Qed.

Lemma holding_at (w : World) (r : nat) (s : QuidditchPlayerState) :
  objects w !! r = Some s -> holding w !! r = Some (carryingBall s).
Proof. intros H. unfold holding. rewrite list_lookup_fmap, H. reflexivity. Qed.

Lemma owners_at (w : World) (i : nat) (b : BallEntity) :
  Server.balls w !! i = Some b -> owners w !! i = Some (owner b).
Proof. intros H. unfold owners. rewrite list_lookup_fmap, H. reflexivity. Qed.

Lemma state_at_registered (w : World) (i r : nat) (s : QuidditchPlayerState) :
  state_at w i = Some (r, s) -> r ∈ registered w /\ objects w !! r = Some s.
Proof.
  unfold state_at, state_ref, registered. intros H.
  destruct (quidditchPlayers w !! i) as [[id r0]|] eqn:Hi; [|discriminate].
  simpl in H. destruct (objects w !! r0) as [s0|] eqn:Hs; [|discriminate].
  simpl in H. injection H as <- <-. split; [|exact Hs].
  apply list_elem_of_fmap. exists (id, r0). split; [reflexivity|].
  eapply list_elem_of_lookup_2; eauto.
Qed.

Lemma get_registered (w : World) (playerId : string) (r : nat) :
  map_get (quidditchPlayers w) playerId = Some r -> r ∈ registered w.
Proof.
  intros H. apply map_get_Some_key in H as [i Hi]. unfold registered.
  apply list_elem_of_fmap. exists (playerId, r). split; [reflexivity|].
  eapply list_elem_of_lookup_2; eauto.
Qed.

(** The release every handler does: clear the ball's owner, then the
    state's reference. *)
Lemma fair_release (w : World) (r bi : nat) (s : QuidditchPlayerState)
    (g : BallEntity -> BallEntity) :
  (forall b, owner (g b) = None) ->
  fair w -> r ∈ registered w -> objects w !! r = Some s -> carryingBall s = Some bi ->
  fair (with_state r (s_set_carryingBall None) (with_ball bi g w)).
Proof.
  intros Hg HF Hr Hs Hc. unfold fair.
  rewrite holding_set.
  change (tied (<[r:=None]> (holding w)) (owners (with_ball bi g w)) (registered w)).
  rewrite (owners_set bi g None) by exact Hg.
  apply tied_drop; [exact HF|exact Hr|].
  rewrite (holding_at _ _ _ Hs), Hc. reflexivity.
Qed.

Lemma fair_announce (msg : ChatText) (w : World) : fair w -> fair (announce msg w).
Proof. apply fair_frame; reflexivity. Qed.

Lemma fair_with_state (r : nat) (f : QuidditchPlayerState -> QuidditchPlayerState)
    (w : World) :
  (forall s, carryingBall (f s) = carryingBall s) -> fair w -> fair (with_state r f w).
Proof.
  intros H. apply fair_frame; [apply holding_frame; exact H|reflexivity|reflexivity].
Qed.

Lemma fair_with_ball (i : nat) (f : BallEntity -> BallEntity) (w : World) :
  (forall b, owner (f b) = owner b) -> fair w -> fair (with_ball i f w).
Proof.
  intros H. apply fair_frame; [reflexivity|apply owners_frame; exact H|reflexivity].
Qed.

Lemma fair_handlePlayerInteract (now : float) (playerId : string) (w : World) :
  fair w -> fair (handlePlayerInteract now playerId w).
Proof.
  intros HF. unfold handlePlayerInteract.
  destruct (map_get (quidditchPlayers w) playerId) as [r|] eqn:Hr; [|exact HF].
  apply get_registered in Hr.
  destruct (objects w !! r) as [s|] eqn:Hs; [|exact HF].
  destruct (_ <? _); [exact HF|].
  destruct (carryingBall s) as [bi|] eqn:Hc.
  - cbv zeta. apply fair_announce.
    eapply (fair_frame (with_state r (s_set_carryingBall None)
                          (with_ball bi (set_owner None) w)));
      [reflexivity| |reflexivity|].
    + unfold owners, with_state, with_ball, set_objects, set_balls. cbn [Server.balls].
      apply fmap_alter_frame. reflexivity.
    + eapply fair_release; eauto; reflexivity.
  - destruct (find_index _ (Server.balls w)) as [bi|] eqn:Hf; [|exact HF].
    apply find_index_Some in Hf as (b & Hb & Hpick & _).
    cbv zeta. apply fair_announce. unfold fair.
    rewrite holding_set.
    change (holding (with_ball bi (set_owner (Some r)) w)) with (holding w).
    change (owners (with_state r (s_set_carryingBall (Some bi))
                      (with_ball bi (set_owner (Some r)) w)))
      with (owners (with_ball bi (set_owner (Some r)) w)).
    rewrite (owners_set bi _ (Some r)) by reflexivity.
    apply tied_take; [exact HF|exact Hr| |].
    + rewrite (holding_at _ _ _ Hs), Hc. reflexivity.
    + rewrite (owners_at _ _ _ Hb). unfold pickable in Hpick.
      apply andb_true_iff in Hpick as [Hpick _].
      apply andb_true_iff in Hpick as [Hfree _].
      apply negb_true_iff, bool_decide_eq_false in Hfree.
      destruct (owner b) as [o|]; [|reflexivity].
      destruct Hfree. eauto.
Qed.

Lemma fair_scoreAtGoal (r : nat) (pos : Vec3) (goal : GoalZone) (w : World) :
  r ∈ registered w -> fair w ->
  fair (scoreAtGoal r pos goal w)
  /\ registered (scoreAtGoal r pos goal w) = registered w.
Proof.
  intros Hr HF. unfold scoreAtGoal.
  destruct (objects w !! r) as [s|] eqn:Hs; [|auto].
  destruct (_ <? _); [|auto].
  destruct (findTeam w (teamId s)) as [ti|]; [|auto].
  cbv zeta.
  assert (H1 : fair (announce (MsgScored (default ""%string (t_name <$> Server.teams w !! ti)))
                       (with_team ti (t_add_score SCORE_QUAFFLE) w))).
  { eapply fair_frame; [| | |exact HF]; reflexivity. }
  destruct (carryingBall s) as [bi|] eqn:Hc.
  - split; [|reflexivity]. apply fair_announce.
    eapply fair_release; [reflexivity|exact H1|exact Hr|exact Hs|exact Hc].
  - split; [|reflexivity]. apply fair_announce. exact H1.
Qed.

Lemma fair_checkGoalScoring (nowMs : float) (w : World) :
  fair w ->
  fair (checkGoalScoring nowMs w)
  /\ registered (checkGoalScoring nowMs w) = registered w.
Proof.
  intros HF. unfold checkGoalScoring.
  apply (for_index_ind (fun s => fair s /\ registered s = registered w)); [auto|].
  intros i s _ [Hs Hreg].
  destruct (state_at s i) as [[r st]|] eqn:Hst; [|auto].
  destruct (carryingBall st) as [bi|]; [|auto].
  destruct (kind_eqb _ quaffle); [|auto].
  apply state_at_registered in Hst as [Hr _].
  apply (fold_left_ind (fun s' => fair s' /\ registered s' = registered w)); [auto|].
  intros g s' [Hs' Hreg'].
  destruct (fair_scoreAtGoal r (e_position (entity st)) g s') as [H1 H2];
    [congruence|exact Hs'|].
  split; [exact H1|congruence].
Qed.

Lemma fair_bludgerHit (nowMs : float) (bi i : nat) (w : World) :
  fair w ->
  fair (bludgerHit nowMs bi i w) /\ registered (bludgerHit nowMs bi i w) = registered w.
Proof.
  intros HF. unfold bludgerHit.
  destruct (Server.balls w !! bi) as [ball|]; [|auto].
  destruct (state_at w i) as [[r s]|] eqn:Hst; [|auto].
  apply state_at_registered in Hst as [Hr Hs].
  destruct (_ <? _); [auto|].
  destruct (_ <? _); [|auto].
  cbv zeta. split; [|destruct (carryingBall s); reflexivity].
  apply fair_announce.
  match goal with
  | |- fair match _ with Some _ => _ | None => ?w1 end =>
      assert (H1 : fair w1)
        by (apply fair_with_state; [reflexivity|];
            apply fair_with_state; [reflexivity|exact HF]);
      assert (Hs1 : exists s1, objects w1 !! r = Some s1
                               /\ carryingBall s1 = carryingBall s)
        by (unfold with_state, set_objects; cbn [objects];
            rewrite !list_lookup_alter_eq, Hs; eexists; split; reflexivity)
  end.
  destruct Hs1 as (s1 & Hs1 & Hc1).
  destruct (carryingBall s) as [ci|] eqn:Hc; [|exact H1].
  eapply fair_release; [reflexivity|exact H1|exact Hr|exact Hs1|exact Hc1].
Qed.

Lemma fair_checkBludgerHits (nowMs : float) (w : World) :
  fair w ->
  fair (checkBludgerHits nowMs w)
  /\ registered (checkBludgerHits nowMs w) = registered w.
Proof.
  intros HF. unfold checkBludgerHits.
  apply (for_index_ind (fun s => fair s /\ registered s = registered w)); [auto|].
  intros bi s _ [Hs Hreg].
  destruct (Server.balls s !! bi) as [ball|]; [|auto].
  destruct (_ || _); [auto|].
  apply (for_index_ind (fun s' => fair s' /\ registered s' = registered w)); [auto|].
  intros i s' _ [Hs' Hreg'].
  destruct (fair_bludgerHit nowMs bi i s' Hs') as [H1 H2].
  split; [exact H1|congruence].
Qed.

Lemma fair_captureBy (si i : nat) (w : World) :
  fair w -> fair (captureBy si i w).1.
Proof.
  intros HF. unfold captureBy.
  destruct (Server.balls w !! si) as [sn|]; [|exact HF].
  destruct (state_at w i) as [[r s]|]; [|exact HF].
  destruct (_ <? _); [|exact HF].
  destruct (findTeam w (teamId s)) as [ti|]; [|exact HF].
  cbv zeta. cbn [fst].
  eapply fair_frame; [| | |exact HF]; [reflexivity| |reflexivity].
  change (owners (with_ball si despawn w) = owners w).
  apply owners_frame. reflexivity.
Qed.

Lemma fair_checkSnitchCapture (nowMs : float) (w : World) :
  fair w -> fair (checkSnitchCapture nowMs w).
Proof.
  intros HF. unfold checkSnitchCapture.
  destruct (find_index _ (Server.balls w)) as [si|]; [|exact HF].
  destruct (owner <$> Server.balls w !! si) as [[o|]|]; try exact HF.
  apply for_break_ind; [exact HF|]. intros i s. apply fair_captureBy.
Qed.

Lemma owner_updatePhysics (w : World) (now dt : float) (b : BallEntity) :
  owner (ball_updatePhysics w now dt b) = owner b.
Proof.
  assert (H0 : forall b0, owner (updatePhysics w dt b0) = owner b0).
  { intros b0. unfold updatePhysics. destruct (owner b0) as [r|] eqn:E.
    - destruct (objects w !! r); [cbn; exact E|exact E].
    - cbn. exact E. }
  unfold ball_updatePhysics. destruct (kind b).
  - apply H0.
  - unfold updatePhysicsBludger. cbv zeta.
    destruct (owner (updatePhysics w dt b)); [apply H0|].
    destruct (findNearestPlayer w _); [|apply H0].
    cbn [owner set_velocity]. apply H0.
  - unfold updatePhysicsSnitch. cbv zeta.
    destruct (owner (updatePhysics w dt b)); [apply H0|].
    cbn [owner set_velocity]. apply H0.
Qed.

Lemma fair_gameLoop (nowMs snitchNow dt : float) (w : World) :
  fair w -> fair (gameLoop nowMs snitchNow dt w).
Proof.
  intros HF. unfold gameLoop. cbv zeta.
  apply fair_checkSnitchCapture. apply fair_checkBludgerHits.
  apply fair_checkGoalScoring.
  apply (for_index_ind fair); [exact HF|]. intros i s _ Hs.
  eapply fair_frame; [| | |exact Hs]; [reflexivity| |reflexivity].
  apply owners_frame. intros b. apply owner_updatePhysics.
Qed.

Lemma fair_onJoinedWorld (playerId : string) (mass : float) (w w' : World) :
  fair w -> map_get (quidditchPlayers w) playerId = None ->
  onJoinedWorld playerId mass w = Some w' -> fair w'.
Proof.
  intros HF Hnew H. unfold onJoinedWorld in H.
  destruct (autoAssignTeam w) as [team|]; [|discriminate].
  injection H as <-. cbv zeta. unfold fair.
  set (st := mkQState _ (t_id team) 1 0 None).
  change (tied (holding (set_objects (fun h => h ++ [st]) w)) (owners w)
               (snd <$> map_set (quidditchPlayers w) playerId (List.length (objects w)))).
  rewrite (map_set_fresh _ _ _ Hnew), fmap_app.
  unfold holding at 1. cbn [set_objects objects]. rewrite fmap_app. cbn [fmap list_fmap].
  replace (List.length (objects w)) with (List.length (holding w))
    by (unfold holding; apply length_fmap).
  apply tied_join. exact HF.
Qed.

Lemma fair_onLeftWorld (playerId : string) (w : World) :
  fair w -> fair (onLeftWorld playerId w).
Proof.
  intros HF. unfold onLeftWorld.
  destruct (map_get (quidditchPlayers w) playerId) as [r|] eqn:Hr; [|exact HF].
  destruct (objects w !! r) as [s|] eqn:Hs; [|exact HF].
  cbv zeta.
  pose proof HF as (Hnd & _).
  assert (HL : tied (holding w)
                 (match carryingBall s with
                  | Some bi => <[bi:=None]> (owners w)
                  | None => owners w
                  end)
                 (snd <$> map_delete (quidditchPlayers w) playerId)).
  { apply (tied_leave _ _ (registered w) _ r).
    - exact HF.
    - exact (get_registered _ _ _ Hr).
    - apply holding_at. exact Hs.
    - apply map_delete_NoDup. exact Hnd.
    - intros x Hx. apply list_elem_of_fmap in Hx as (e & -> & He).
      apply list_elem_of_lookup in He as [j Hj].
      apply map_delete_sub in Hj as [j' Hj'].
      apply list_elem_of_fmap. exists e. split; [reflexivity|].
      eapply list_elem_of_lookup_2; eauto.
    - intros x Hx Hne. apply list_elem_of_fmap in Hx as ([k v] & -> & He).
      apply list_elem_of_lookup in He as [j Hj].
      destruct (map_delete_keep_value _ playerId k v r j Hj Hr Hne) as [j' Hj'].
      apply list_elem_of_fmap. exists (k, v). split; [reflexivity|].
      eapply list_elem_of_lookup_2; eauto.
    - apply map_delete_value_gone; assumption. }
  unfold fair. destruct (carryingBall s) as [bi|].
  - change (tied (holding (with_state r (fun s0 => s_set_entity (e_despawn (entity s0)) s0)
                             (with_ball bi (set_owner None) w)))
                 (owners (with_ball bi (set_owner None) w))
                 (snd <$> map_delete (quidditchPlayers w) playerId)).
    rewrite holding_frame by reflexivity.
    rewrite (owners_set bi _ None) by reflexivity. exact HL.
  - change (tied (holding (with_state r (fun s0 => s_set_entity (e_despawn (entity s0)) s0) w))
                 (owners w) (snd <$> map_delete (quidditchPlayers w) playerId)).
    rewrite holding_frame by reflexivity. exact HL.
Qed.

Lemma fair_symmetric (w : World) : fair w -> symmetric w.
Proof.
  intros (_ & _ & Hown & Hcar) i id r s bi b Hi Hs Hb.
  assert (Hr : r ∈ registered w).
  { apply list_elem_of_fmap. exists (id, r). split; [reflexivity|].
    eapply list_elem_of_lookup_2; eauto. }
  split.
  - intros Hc. pose proof (Hcar r bi Hr) as H.
    rewrite (holding_at _ _ _ Hs), Hc, (owners_at _ _ _ Hb) in H.
    specialize (H eq_refl). congruence.
  - intros Ho. destruct (Hown bi r) as [_ H].
    + rewrite (owners_at _ _ _ Hb), Ho. reflexivity.
    + rewrite (holding_at _ _ _ Hs) in H. congruence.
Qed.

Lemma fair_serve (e : ServerEvent) (w w' : World) :
  fair w ->
  match e with
  | Joined playerId _ => map_get (quidditchPlayers w) playerId = None
  | _ => True
  end ->
  serve e w = Some w' -> fair w'.
Proof.
  intros HF Hadm H. destruct e as [id mass|id|now id|nowMs snitchNow dt|r space ctrl|id];
    simpl in H.
  - eapply fair_onJoinedWorld; eauto.
  - injection H as <-. apply fair_onLeftWorld. exact HF.
  - injection H as <-. apply fair_handlePlayerInteract. exact HF.
  - injection H as <-. apply fair_gameLoop. exact HF.
  - injection H as <-. unfold onTickWithPlayerInput.
    apply fair_with_state; [|exact HF].
    intros s. destruct space; [reflexivity|]. destruct ctrl; reflexivity.
  - injection H as <-. unfold rocket.
    destruct (map_get (quidditchPlayers w) id); [|exact HF].
    apply fair_with_state; [reflexivity|exact HF].
Qed.

Lemma fair_served (es : list ServerEvent) (w w' : World) :
  fair w -> admitted es w -> served es w = Some w' -> fair w'.
Proof.
  revert w. induction es as [|e es IH]; intros w HF Ha Hs; simpl in Hs.
  - injection Hs as <-. exact HF.
  - destruct Ha as [Ha Hrest].
    destruct (serve e w) as [w1|] eqn:E; [|discriminate].
    apply (IH w1); [eapply fair_serve; eauto|exact Hrest|exact Hs].
Qed.

(** The ownership links are tied when the server starts, and whatever
    the players do in a world whose links are tied leaves them tied, hence
    symmetric over the registered players: joins, leaves (which release
    the ball held), pickups and throws, game loops, flight controls and
    the [/rocket] command keep them so. *)
Theorem server_ownership_kept (arena : MapData) (t0 : float) (w : World)
    (es : list ServerEvent) (w' : World) :
  fair w -> admitted es w -> served es w = Some w' ->
  fair (startServer arena t0) /\ fair w' /\ symmetric w'.
Proof.
  intros HF0 Ha Hs.
  assert (H0 : fair (startServer arena t0)).
  { split; [apply NoDup_nil_2|]. split; [intros r Hr; inversion Hr|]. split.
    - intros bi r H. cbn in H.
      do 4 (destruct bi as [|bi]; [discriminate|]). discriminate.
    - intros r bi Hr. inversion Hr. }
  assert (HF : fair w') by exact (fair_served es w w' HF0 Ha Hs).
  split; [exact H0|]. split; [exact HF|apply fair_symmetric; exact HF].
Qed.

End Ownership.

(** *** Carried balls *)

Section Carrying.

Context {M : MathLib}.

Lemma carried_with_ball (bi r : nat) (b : BallEntity) (p : Vec3) (w : World)
    (i : nat) (g : BallEntity -> BallEntity) :
  (forall c, owner (g c) = None
             \/ (owner (g c) = owner c /\ position (g c) = position c
                 /\ velocity (g c) = velocity c)) ->
  carried_or_released bi r b p w -> carried_or_released bi r b p (with_ball i g w).
Proof.
  intros Hg [(b' & Hb' & H) Hs]. split; [|exact Hs].
  unfold with_ball, set_balls. cbn [Server.balls].
  destruct (decide (i = bi)) as [->|Hne].
  - rewrite list_lookup_alter_eq, Hb'. exists (g b'). split; [reflexivity|].
    destruct (Hg b') as [Hn|(Ho & Hp & Hv)]; [auto|].
    rewrite Ho, Hp, Hv. exact H.
  - rewrite list_lookup_alter_ne by exact Hne. eauto.
Qed.

Lemma carried_with_state (bi r : nat) (b : BallEntity) (p : Vec3) (w : World)
    (i : nat) (f : QuidditchPlayerState -> QuidditchPlayerState) :
  (forall s, e_position (entity (f s)) = e_position (entity s)) ->
  carried_or_released bi r b p w -> carried_or_released bi r b p (with_state i f w).
Proof.
  intros Hf [Hb (s' & Hs' & Hp)]. split; [exact Hb|].
  unfold with_state, set_objects. cbn [objects].
  destruct (decide (i = r)) as [->|Hne].
  - rewrite list_lookup_alter_eq, Hs'. exists (f s'). split; [reflexivity|].
    rewrite Hf. exact Hp.
  - rewrite list_lookup_alter_ne by exact Hne. eauto.
Qed.

Lemma carried_same (bi r : nat) (b : BallEntity) (p : Vec3) (w w' : World) :
  objects w' = objects w -> Server.balls w' = Server.balls w ->
  carried_or_released bi r b p w -> carried_or_released bi r b p w'.
Proof. unfold carried_or_released. intros -> ->. auto. Qed.

Lemma carried_scoreAtGoal (bi r : nat) (b : BallEntity) (p : Vec3)
    (r' : nat) (pos : Vec3) (goal : GoalZone) (w : World) :
  carried_or_released bi r b p w ->
  carried_or_released bi r b p (scoreAtGoal r' pos goal w).
Proof.
  intros HQ. unfold scoreAtGoal.
  destruct (objects w !! r') as [s|]; [|exact HQ].
  destruct (_ <? _); [|exact HQ].
  destruct (findTeam w (teamId s)) as [ti|]; [|exact HQ].
  cbv zeta.
  apply (carried_same _ _ _ _
           (match carryingBall s with
            | Some ci =>
                with_state r' (s_set_carryingBall None)
                  (with_ball ci
                     (fun c => set_velocity zero3
                                 (setPosition
                                    (mkVec3 ((x (arenaBounds w).1 + x (arenaBounds w).2) / 2)
                                            (y (arenaBounds w).1 + 78)
                                            ((z (arenaBounds w).1 + z (arenaBounds w).2) / 2))
                                    (set_owner None c))) w)
            | None => w
            end)); [destruct (carryingBall s); reflexivity
                   |destruct (carryingBall s); reflexivity|].
  destruct (carryingBall s) as [ci|]; [|exact HQ].
  apply carried_with_state; [reflexivity|].
  apply carried_with_ball; [|exact HQ]. intros c. left. reflexivity.
Qed.

Lemma carried_bludgerHit (bi r : nat) (b : BallEntity) (p : Vec3)
    (nowMs : float) (bj i : nat) (w : World) :
  carried_or_released bi r b p w ->
  carried_or_released bi r b p (bludgerHit nowMs bj i w).
Proof.
  intros HQ. unfold bludgerHit.
  destruct (Server.balls w !! bj) as [ball|]; [|exact HQ].
  destruct (state_at w i) as [[r' s]|]; [|exact HQ].
  destruct (_ <? _); [exact HQ|].
  destruct (_ <? _); [|exact HQ].
  cbv zeta.
  match goal with
  | |- carried_or_released _ _ _ _ (announce _ match _ with Some _ => _ | None => ?w1 end) =>
      assert (H1 : carried_or_released bi r b p w1)
        by (apply carried_with_state; [reflexivity|];
            apply carried_with_state; [reflexivity|exact HQ])
  end.
  destruct (carryingBall s) as [ci|].
  - eapply carried_same; [| |apply carried_with_state; [|apply carried_with_ball; [|exact H1]]];
      [reflexivity|reflexivity|reflexivity|].
    intros c. left. reflexivity.
  - eapply carried_same; [| |exact H1]; reflexivity.
Qed.

Lemma carried_captureBy (bi r : nat) (b : BallEntity) (p : Vec3) (si i : nat) (w : World) :
  carried_or_released bi r b p w -> carried_or_released bi r b p (captureBy si i w).1.
Proof.
  intros HQ. unfold captureBy.
  destruct (Server.balls w !! si) as [sn|]; [|exact HQ].
  destruct (state_at w i) as [[r' s]|]; [|exact HQ].
  destruct (_ <? _); [|exact HQ].
  destruct (findTeam w (teamId s)) as [ti|]; [|exact HQ].
  cbv zeta. cbn [fst].
  eapply carried_same; [| |apply (carried_with_ball bi r b p w si despawn); [|exact HQ]];
    [reflexivity|reflexivity|].
  intros c. right. repeat split.
Qed.

(** A ball that is carried when the game loop starts and still carried
    when it ends has been put two above its owner, its velocity as it was;
    the loop does not move the owner. *)
Theorem carried_ball_follows_owner (nowMs snitchNow dt : float) (w : World)
    (bi r : nat) (b : BallEntity) (s : QuidditchPlayerState) :
  Server.balls w !! bi = Some b -> owner b = Some r -> objects w !! r = Some s ->
  carried_or_released bi r b (e_position (entity s)) (gameLoop nowMs snitchNow dt w).
Proof.
  intros Hb Ho Hs. unfold gameLoop. cbv zeta.
  set (p := e_position (entity s)).
  assert (H1 : carried_or_released bi r b p
                 (for_index (List.length (Server.balls w))
                    (fun i w0 => with_ball i (ball_updatePhysics w0 snitchNow dt) w0) w)).
  { assert (Hfin : (fun m w0 => objects w0 = objects w
                  /\ (bi < m -> Server.balls w0 !! bi = Some (setPosition (overhead p) b))
                  /\ (m <= bi -> Server.balls w0 !! bi = Some b))
               (List.length (Server.balls w))
               (for_index (List.length (Server.balls w))
                  (fun i w0 => with_ball i (ball_updatePhysics w0 snitchNow dt) w0) w)).
    { apply for_index_count.
      - split; [reflexivity|]. split; [lia|]. intros _. exact Hb.
      - intros i w0 Hi (E & Hlt & Hge). split; [exact E|].
        unfold with_ball, set_balls. cbn [Server.balls].
        destruct (decide (i = bi)) as [->|Hne].
        + split; [|lia]. intros _. rewrite list_lookup_alter_eq, (Hge (le_n _)).
          cbn [fmap option_fmap option_map].
          assert (Hput0 : ball_updatePhysics w0 snitchNow dt b
                          = setPosition (overhead p) b).
          { assert (H0 : updatePhysics w0 dt b = setPosition (overhead p) b)
              by (unfold updatePhysics; rewrite Ho, E, Hs; reflexivity).
            unfold ball_updatePhysics, updatePhysicsBludger, updatePhysicsSnitch.
            destruct (kind b); cbv zeta; rewrite H0; cbn [owner setPosition];
              rewrite ?Ho; reflexivity. }
          rewrite Hput0. reflexivity.
        + rewrite list_lookup_alter_ne by exact Hne.
          split; intros H; [apply Hlt|apply Hge]; lia. }
    cbv beta in Hfin. destruct Hfin as (E & Hlt & _). split.
    - exists (setPosition (overhead p) b). split.
      + apply Hlt. eapply lookup_lt_Some; eauto.
      + right. repeat split. exact Ho.
    - exists s. rewrite E. split; [exact Hs|reflexivity]. }
  set (w1 := for_index _ _ w) in *.
  assert (H2 : carried_or_released bi r b p (checkGoalScoring nowMs w1)).
  { unfold checkGoalScoring.
    apply (for_index_ind (carried_or_released bi r b p)); [exact H1|].
    intros i s0 _ Hs0.
    destruct (state_at s0 i) as [[r' st]|]; [|exact Hs0].
    destruct (carryingBall st); [|exact Hs0].
    destruct (kind_eqb _ quaffle); [|exact Hs0].
    apply (fold_left_ind (carried_or_released bi r b p)); [exact Hs0|].
    intros g s1. apply carried_scoreAtGoal. }
  assert (H3 : carried_or_released bi r b p (checkBludgerHits nowMs (checkGoalScoring nowMs w1))).
  { unfold checkBludgerHits.
    apply (for_index_ind (carried_or_released bi r b p)); [exact H2|].
    intros bj s0 _ Hs0. destruct (Server.balls s0 !! bj); [|exact Hs0].
    destruct (_ || _); [exact Hs0|].
    apply (for_index_ind (carried_or_released bi r b p)); [exact Hs0|].
    intros i s1 _. apply carried_bludgerHit. }
  unfold checkSnitchCapture.
  destruct (find_index _ _) as [si|]; [|exact H3].
  destruct (owner <$> _ !! si) as [[o|]|]; try exact H3.
  apply (for_break_ind (carried_or_released bi r b p)); [exact H3|].
  intros i s0. apply carried_captureBy.
Qed.

End Carrying.

(** *** The bounds of the arena *)

Section Running.

Context {X : Type}.

Variable f : X -> float.

Lemma least_spec (l : list X) (m : float) :
  (forall a, a ∈ l -> (f a <? ServerSpec.least f l m) = false)
  /\ (forall a, a ∈ l -> is_nan (f a) = true -> is_nan (ServerSpec.least f l m) = true).
Proof.
  induction l as [|b l IH] using rev_ind.
  - split; intros a H; inversion H.
  - destruct IH as [Hall Hnan]. unfold least in *. rewrite fold_left_app. simpl.
    split; intros a Ha; apply elem_of_app in Ha as [Ha|Ha].
    + apply min_below. exact (Hall a Ha).
    + apply list_elem_of_singleton in Ha. subst a. apply min_below_r.
    + intros Hn. apply min_nan. left. exact (Hnan a Ha Hn).
    + apply list_elem_of_singleton in Ha. subst a. intros Hn. apply min_nan.
      right. exact Hn.
Qed.

Lemma greatest_spec (l : list X) (m : float) :
  (forall a, a ∈ l -> (ServerSpec.greatest f l m <? f a) = false)
  /\ (forall a, a ∈ l -> is_nan (f a) = true -> is_nan (ServerSpec.greatest f l m) = true).
Proof.
  induction l as [|b l IH] using rev_ind.
  - split; intros a H; inversion H.
  - destruct IH as [Hall Hnan]. unfold greatest in *. rewrite fold_left_app. simpl.
    split; intros a Ha; apply elem_of_app in Ha as [Ha|Ha].
    + apply max_above. exact (Hall a Ha).
    + apply list_elem_of_singleton in Ha. subst a. apply max_above_r.
    + intros Hn. apply max_nan. left. exact (Hnan a Ha Hn).
    + apply list_elem_of_singleton in Ha. subst a. intros Hn. apply max_nan.
      right. exact Hn.
Qed.

End Running.

Section Bounds.

Context {M : MathLib} {T : TextLib}.

Lemma calculateArenaBounds_fold (l : list (string * float)) (mn mx : Vec3) :
  fold_left
    (fun (acc : Vec3 * Vec3) (e : string * float) =>
       let p := parseBlockKey (fst e) in
       let mn := fst acc in
       let mx := snd acc in
       (mkVec3 (Js.min (x mn) (x p)) (Js.min (y mn) (y p)) (Js.min (z mn) (z p)),
        mkVec3 (Js.max (x mx) (x p)) (Js.max (y mx) (y p)) (Js.max (z mx) (z p))))
    l (mn, mx)
  = (mkVec3 (least (block_at x) l (x mn)) (least (block_at y) l (y mn))
            (least (block_at z) l (z mn)),
     mkVec3 (greatest (block_at x) l (x mx)) (greatest (block_at y) l (y mx))
            (greatest (block_at z) l (z mx))).
Proof.
  revert mn mx. induction l as [|e l IH]; intros mn mx.
  - destruct mn, mx. reflexivity.
  - simpl. rewrite IH. reflexivity.
Qed.

(** [calculateArenaBounds] returns a box that no block lies outside of; a
    block with a coordinate that does not parse makes both bounds of that
    axis [NaN], where [calcBounds] of game.ts skips it. *)
Theorem calculateArenaBounds_encloses_or_nan (arena : MapData) :
  let b := calculateArenaBounds arena in
  (forall e, e ∈ blocks arena -> GameSpec.encloses b (parseBlockKey (fst e)) = true)
  /\ (forall e, e ∈ blocks arena -> is_nan (x (parseBlockKey (fst e))) = true ->
        is_nan (x (fst b)) = true /\ is_nan (x (snd b)) = true)
  /\ (forall e, e ∈ blocks arena -> is_nan (y (parseBlockKey (fst e))) = true ->
        is_nan (y (fst b)) = true /\ is_nan (y (snd b)) = true)
  /\ (forall e, e ∈ blocks arena -> is_nan (z (parseBlockKey (fst e))) = true ->
        is_nan (z (fst b)) = true /\ is_nan (z (snd b)) = true).
Proof.
  cbv zeta. unfold calculateArenaBounds. rewrite calculateArenaBounds_fold.
  cbn [fst snd x y z].
  destruct (least_spec (block_at x) (blocks arena) infinity) as [Lx Nx].
  destruct (least_spec (block_at y) (blocks arena) infinity) as [Ly Ny].
  destruct (least_spec (block_at z) (blocks arena) infinity) as [Lz Nz].
  destruct (greatest_spec (block_at x) (blocks arena) neg_infinity) as [Hx Gx].
  destruct (greatest_spec (block_at y) (blocks arena) neg_infinity) as [Hy Gy].
  destruct (greatest_spec (block_at z) (blocks arena) neg_infinity) as [Hz Gz].
  split; [|split; [|split]].
  - intros e He. unfold GameSpec.encloses. cbn [fst snd x y z].
    pose proof (Lx e He) as E1. pose proof (Ly e He) as E2. pose proof (Lz e He) as E3.
    pose proof (Hx e He) as E4. pose proof (Hy e He) as E5. pose proof (Hz e He) as E6.
    unfold block_at in *. rewrite E1, E2, E3, E4, E5, E6. reflexivity.
  - intros e He Hn. split; [apply (Nx e He Hn)|apply (Gx e He Hn)].
  - intros e He Hn. split; [apply (Ny e He Hn)|apply (Gy e He Hn)].
  - intros e He Hn. split; [apply (Nz e He Hn)|apply (Gz e He Hn)].
Qed.

End Bounds.

(** *** Houses *)

Section Houses.

Local Open Scope nat_scope.

Context {M : MathLib}.

Lemma on_side_fmap (w : World) (tid : string) (e : string * nat) :
  on_side w tid e
  = match (teamId <$> objects w) !! snd e with
    | Some s => String.eqb s tid
    | None => false
    end.
Proof.
  unfold on_side. rewrite list_lookup_fmap. destruct (objects w !! snd e); reflexivity.
Qed.

Lemma enrolled_lineup (w w' : World) (tid : string) :
  lineup w' = lineup w -> enrolled w' tid = enrolled w tid.
Proof.
  unfold lineup, enrolled. intros [= Hr Ho _]. rewrite Hr. f_equal.
  apply filter_ext. intros e. rewrite !on_side_fmap, Ho. reflexivity.
Qed.

Lemma seated_lineup (w w' : World) : lineup w' = lineup w -> seated w -> seated w'.
Proof.
  unfold lineup, seated. intros [= Hr Ho _] H e He. rewrite Hr in He.
  specialize (H e He).
  rewrite <- (length_fmap teamId (objects w)), <- Ho, length_fmap in H. exact H.
Qed.

(** *** What keeps the lineup *)

Lemma lineup_with_state (r : nat) (f : QuidditchPlayerState -> QuidditchPlayerState)
    (w : World) :
  (forall s, teamId (f s) = teamId s) -> lineup (with_state r f w) = lineup w.
Proof.
  intros H. unfold lineup, with_state, set_objects. cbn [objects quidditchPlayers Server.teams].
  rewrite (fmap_alter_frame teamId f _ r H). reflexivity.
Qed.

Lemma lineup_with_ball (i : nat) (f : BallEntity -> BallEntity) (w : World) :
  lineup (with_ball i f w) = lineup w.
Proof. reflexivity. Qed.

Lemma lineup_with_team (i : nat) (f : Team -> Team) (w : World) :
  (forall t, t_id (f t) = t_id t) -> lineup (with_team i f w) = lineup w.
Proof.
  intros H. unfold lineup, with_team, set_teams. cbn [objects quidditchPlayers Server.teams].
  rewrite (fmap_alter_frame t_id f _ i H). reflexivity.
Qed.

Lemma lineup_announce (msg : ChatText) (w : World) : lineup (announce msg w) = lineup w.
Proof. reflexivity. Qed.

Lemma lineup_scoreAtGoal (r : nat) (pos : Vec3) (goal : GoalZone) (w : World) :
  lineup (scoreAtGoal r pos goal w) = lineup w.
Proof.
  unfold scoreAtGoal.
  destruct (objects w !! r) as [s|]; [|reflexivity].
  destruct (_ <? _)%float; [|reflexivity].
  destruct (findTeam w (teamId s)) as [ti|]; [|reflexivity].
  cbv zeta. unfold broadcastScoreboard. rewrite lineup_announce.
  destruct (carryingBall s) as [ci|].
  - rewrite lineup_with_state by reflexivity. rewrite lineup_with_ball, lineup_announce.
    apply lineup_with_team. reflexivity.
  - rewrite lineup_announce. apply lineup_with_team. reflexivity.
Qed.

Lemma lineup_checkGoalScoring (nowMs : float) (w : World) :
  lineup (checkGoalScoring nowMs w) = lineup w.
Proof.
  unfold checkGoalScoring.
  apply (for_index_ind (fun s => lineup s = lineup w)); [reflexivity|].
  intros i s0 _ Hs0.
  destruct (state_at s0 i) as [[r st]|]; [|exact Hs0].
  destruct (carryingBall st); [|exact Hs0].
  destruct (kind_eqb _ quaffle); [|exact Hs0].
  apply (fold_left_ind (fun s => lineup s = lineup w)); [exact Hs0|].
  intros g s1 Hs1. rewrite lineup_scoreAtGoal. exact Hs1.
Qed.

Lemma lineup_bludgerHit (nowMs : float) (bj i : nat) (w : World) :
  lineup (bludgerHit nowMs bj i w) = lineup w.
Proof.
  unfold bludgerHit.
  destruct (Server.balls w !! bj) as [ball|]; [|reflexivity].
  destruct (state_at w i) as [[r s]|]; [|reflexivity].
  destruct (_ <? _)%float; [reflexivity|].
  destruct (_ <? _)%float; [|reflexivity].
  cbv zeta. rewrite lineup_announce.
  destruct (carryingBall s) as [ci|].
  - rewrite lineup_with_state by reflexivity. rewrite lineup_with_ball.
    rewrite lineup_with_state by reflexivity. apply lineup_with_state. reflexivity.
  - rewrite lineup_with_state by reflexivity. apply lineup_with_state. reflexivity.
Qed.

Lemma lineup_checkBludgerHits (nowMs : float) (w : World) :
  lineup (checkBludgerHits nowMs w) = lineup w.
Proof.
  unfold checkBludgerHits.
  apply (for_index_ind (fun s => lineup s = lineup w)); [reflexivity|].
  intros bj s0 _ Hs0. destruct (Server.balls s0 !! bj); [|exact Hs0].
  destruct (_ || _); [exact Hs0|].
  apply (for_index_ind (fun s => lineup s = lineup w)); [exact Hs0|].
  intros i s1 _ Hs1. rewrite lineup_bludgerHit. exact Hs1.
Qed.

Lemma lineup_captureBy (si i : nat) (w : World) :
  lineup (captureBy si i w).1 = lineup w.
Proof.
  unfold captureBy.
  destruct (Server.balls w !! si) as [sn|]; [|reflexivity].
  destruct (state_at w i) as [[r s]|]; [|reflexivity].
  destruct (_ <? _)%float; [|reflexivity].
  destruct (findTeam w (teamId s)) as [ti|]; [|reflexivity].
  cbv zeta. cbn [fst]. unfold broadcastScoreboard.
  rewrite lineup_announce, lineup_with_ball, lineup_announce.
  apply lineup_with_team. reflexivity.
Qed.

Lemma lineup_checkSnitchCapture (nowMs : float) (w : World) :
  lineup (checkSnitchCapture nowMs w) = lineup w.
Proof.
  unfold checkSnitchCapture.
  destruct (find_index _ _) as [si|]; [|reflexivity].
  destruct (owner <$> _ !! si) as [[o|]|]; try reflexivity.
  apply (for_break_ind (fun s => lineup s = lineup w)); [reflexivity|].
  intros i s0 Hs0. rewrite lineup_captureBy. exact Hs0.
Qed.

Lemma lineup_gameLoop (nowMs snitchNow dt : float) (w : World) :
  lineup (gameLoop nowMs snitchNow dt w) = lineup w.
Proof.
  unfold gameLoop. cbv zeta.
  rewrite lineup_checkSnitchCapture, lineup_checkBludgerHits, lineup_checkGoalScoring.
  apply (for_index_ind (fun s => lineup s = lineup w)); [reflexivity|].
  intros i s _ Hs. rewrite lineup_with_ball. exact Hs.
Qed.

Lemma lineup_handlePlayerInteract (now : float) (playerId : string) (w : World) :
  lineup (handlePlayerInteract now playerId w) = lineup w.
Proof.
  unfold handlePlayerInteract.
  destruct (map_get (quidditchPlayers w) playerId) as [r|]; [|reflexivity].
  destruct (objects w !! r) as [s|]; [|reflexivity].
  destruct (_ <? _)%float; [reflexivity|].
  destruct (carryingBall s) as [bi|].
  - cbv zeta. rewrite lineup_announce. rewrite lineup_with_state by reflexivity.
    rewrite !lineup_with_ball. reflexivity.
  - cbv zeta. destruct (find_index _ _) as [bi|]; [|reflexivity].
    rewrite lineup_announce. rewrite lineup_with_state by reflexivity.
    apply lineup_with_ball.
Qed.

Lemma lineup_onTickWithPlayerInput (r : nat) (space ctrl : bool) (w : World) :
  lineup (onTickWithPlayerInput r space ctrl w) = lineup w.
Proof.
  unfold onTickWithPlayerInput. apply lineup_with_state. intros s.
  destruct space; [reflexivity|]. destruct ctrl; reflexivity.
Qed.

Lemma lineup_rocket (playerId : string) (w : World) :
  lineup (rocket playerId w) = lineup w.
Proof.
  unfold rocket. destruct (map_get _ _); [|reflexivity].
  apply lineup_with_state. reflexivity.
Qed.


(** *** Counting *)

Lemma count_map_set (p : string * nat -> bool) (m : jsmap nat) (k : string) (v : nat) :
  List.length (List.filter p (map_set m k v))
  <= List.length (List.filter p m) + (if p (k, v) then 1 else 0).
Proof.
  induction m as [|[k0 v0] m IH]; simpl.
  - destruct (p (k, v)); simpl; lia.
  - destruct (String.eqb k0 k); simpl.
    + destruct (p (k, v)), (p (k0, v0)); simpl; lia.
    + destruct (p (k0, v0)); simpl; lia.
Qed.

Lemma elem_of_map_set (m : jsmap nat) (k : string) (v : nat) (e : string * nat) :
  e ∈ map_set m k v -> e ∈ m \/ e = (k, v).
Proof.
  induction m as [|[k0 v0] m IH]; simpl.
  - intros H. apply list_elem_of_singleton in H. auto.
  - destruct (String.eqb k0 k).
    + intros H. apply elem_of_cons in H as [H|H]; [auto|].
      left. apply elem_of_cons. auto.
    + intros H. apply elem_of_cons in H as [H|H].
      * left. apply elem_of_cons. auto.
      * destruct (IH H) as [H'|H']; [|auto]. left. apply elem_of_cons. auto.
Qed.

Lemma counts_registry (w : World) (reg : jsmap nat) (c : jsmap nat) (tid : string) :
  default 0 (map_get
               (fold_left
                  (fun c (e : string * nat) =>
                     match objects w !! snd e with
                     | Some p => map_set c (teamId p)
                                   (default 0 (map_get c (teamId p)) + 1)
                     | None => c
                     end) reg c) tid)
  = default 0 (map_get c tid) + List.length (List.filter (on_side w tid) reg).
Proof.
  revert c. induction reg as [|e reg IH]; intros c; [simpl; lia|].
  cbn [fold_left List.filter]. rewrite IH.
  destruct (objects w !! snd e) as [p|] eqn:E.
  - replace (on_side w tid e) with (String.eqb (teamId p) tid)
      by (unfold on_side; rewrite E; reflexivity).
    rewrite GameProps.map_get_set.
    destruct (String.eqb_spec (teamId p) tid) as [->|_]; simpl; lia.
  - replace (on_side w tid e) with false by (unfold on_side; rewrite E; reflexivity).
    reflexivity.
Qed.

Lemma teamCounts_enrolled (w : World) (tid : string) :
  default 0 (map_get (teamCounts w) tid) = enrolled w tid.
Proof.
  unfold teamCounts. cbv zeta. rewrite counts_registry, GameProps.counts_init.
  destruct (existsb _ _); reflexivity.
Qed.

Lemma pick_first_least (cnt : Team -> nat) (o : option Team) (ts : list Team) :
  ts <> [] ->
  exists i t,
    fold_left
      (fun (acc : option Team * option nat) team =>
         if match snd acc with
            | None => true
            | Some minCount => cnt team <? minCount
            end
         then (Some team, Some (cnt team)) else acc)
      ts (o, None) = (Some t, Some (cnt t))
    /\ ts !! i = Some t
    /\ (forall j t', ts !! j = Some t' -> cnt t <= cnt t')
    /\ (forall j t', j < i -> ts !! j = Some t' -> cnt t < cnt t').
Proof.
  induction ts as [|t ts IH] using rev_ind; intros Hne; [congruence|].
  rewrite fold_left_app. simpl.
  destruct ts as [|t0 ts0].
  - simpl. exists 0, t. repeat split; auto.
    + intros [|j] t' Hj; simpl in Hj; [|discriminate]. injection Hj as <-. lia.
    + intros j t' Hj. lia.
  - destruct IH as (i & tm & Hfold & Hi & Hmin & Hfirst); [discriminate|].
    rewrite Hfold. cbn [snd].
    assert (Hlen : i < List.length (t0 :: ts0)) by (eapply lookup_lt_Some; eauto).
    destruct (Nat.ltb_spec (cnt t) (cnt tm)) as [Hlt|Hge].
    + exists (List.length (t0 :: ts0)), t.
      split; [reflexivity|]. split; [|split].
      * rewrite lookup_app_r by lia. rewrite Nat.sub_diag. reflexivity.
      * intros j t' Hj. apply lookup_app_Some in Hj as [Hj|[_ Hj]].
        -- specialize (Hmin j t' Hj). lia.
        -- destruct (j - _) as [|?]; simpl in Hj; [|discriminate].
           injection Hj as <-. lia.
      * intros j t' Hj Hj'. rewrite lookup_app_l in Hj' by exact Hj.
        specialize (Hmin j t' Hj'). lia.
    + exists i, tm.
      split; [reflexivity|]. split; [|split].
      * rewrite lookup_app_l by exact Hlen. exact Hi.
      * intros j t' Hj. apply lookup_app_Some in Hj as [Hj|[_ Hj]].
        -- exact (Hmin j t' Hj).
        -- destruct (j - _) as [|?]; simpl in Hj; [|discriminate].
           injection Hj as <-. lia.
      * intros j t' Hj Hj'. rewrite lookup_app_l in Hj' by lia.
        exact (Hfirst j t' Hj Hj').
Qed.

(** [autoAssignTeam] of the server returns the first of the least
    populated houses, and [teams[0]], which is [undefined], when there is
    no house. *)
Lemma autoAssignTeam_first_least (w : World) :
  match autoAssignTeam w with
  | Some t => first_least w t
  | None => Server.teams w = []
  end.
Proof.
  destruct (Server.teams w) as [|t0 ts0] eqn:Et.
  - unfold autoAssignTeam. rewrite Et. reflexivity.
  - destruct (pick_first_least (fun t => default 0 (map_get (teamCounts w) (t_id t)))
                (head (Server.teams w)) (Server.teams w)) as (i & t & Hpick & Hi & Hmin & Hfirst).
    { rewrite Et. discriminate. }
    unfold autoAssignTeam. cbv zeta.
    rewrite Et in *. rewrite Hpick. cbn [fst].
    exists i. rewrite Et. split; [exact Hi|]. split.
    + intros j t' Hj. rewrite <- !teamCounts_enrolled. exact (Hmin j t' Hj).
    + intros j t' Hlt Hj. rewrite <- !teamCounts_enrolled. exact (Hfirst j t' Hlt Hj).
Qed.

Lemma enrolled_sum (w : World) (ids : list string) :
  NoDup ids ->
  list_sum (map (enrolled w) ids) <= List.length (quidditchPlayers w).
Proof.
  intros Hnd. unfold enrolled.
  induction (quidditchPlayers w) as [|e reg IH].
  - clear. induction ids; simpl in *; lia.
  - assert (Hsplit : forall l,
               list_sum (map (fun tid => List.length (List.filter (on_side w tid) (e :: reg))) l)
               = list_sum (map (fun tid => if on_side w tid e then 1 else 0) l)
                 + list_sum (map (fun tid => List.length (List.filter (on_side w tid) reg)) l)).
    { induction l as [|a l IHl]; simpl; [reflexivity|].
      simpl in IHl. rewrite IHl. destruct (on_side w a e); simpl; lia. }
    rewrite Hsplit.
    assert (Hone : list_sum (map (fun tid => if on_side w tid e then 1 else 0) ids) <= 1).
    { unfold on_side. destruct (objects w !! snd e) as [p|].
      - apply GameProps.indicator_sum. exact Hnd.
      - clear. induction ids; simpl in *; lia. }
    simpl. lia.
Qed.

(** *** Arrivals *)

Lemma balanced_lineup (n : nat) (w w' : World) :
  lineup w' = lineup w -> balanced n w -> balanced n w'.
Proof.
  intros Hl (Hnd & Hne & Hseat & Hlen & Hfair).
  pose proof Hl as Hl'. unfold lineup in Hl'. injection Hl' as Hr _ Ht.
  unfold balanced. cbv zeta. rewrite Ht, Hr.
  split; [exact Hnd|]. split; [exact Hne|].
  split; [exact (seated_lineup w w' Hl Hseat)|]. split; [exact Hlen|].
  intros tid Htid. rewrite (enrolled_lineup w w' tid Hl). exact (Hfair tid Htid).
Qed.

Lemma balanced_onJoinedWorld (playerId : string) (mass : float) (n : nat) (w : World) :
  balanced n w ->
  exists w', onJoinedWorld playerId mass w = Some w' /\ balanced (S n) w'.
Proof.
  intros (Hnd & Hne & Hseat & Hlen & Hfair).
  pose proof (autoAssignTeam_first_least w) as Hpick.
  unfold onJoinedWorld.
  destruct (autoAssignTeam w) as [tm|];
    [|exfalso; apply Hne; rewrite Hpick; reflexivity].
  destruct Hpick as (i & Hi & Hmin & _).
  eexists. split; [reflexivity|].
  set (new := mkQState _ (t_id tm) _ _ _).
  unfold balanced. cbv zeta.
  cbn [Server.teams quidditchPlayers objects broadcastScoreboard announce
       sendPlayerMessage set_registry set_objects].
  split; [exact Hnd|]. split; [exact Hne|]. split; [|split].
  - intros e He. unfold seated in Hseat.
    cbn [quidditchPlayers objects broadcastScoreboard announce sendPlayerMessage
         set_registry set_objects] in He |- *.
    rewrite length_app. simpl.
    apply elem_of_map_set in He as [He| ->]; [specialize (Hseat e He); lia|simpl; lia].
  - pose proof (GameProps.length_map_set (quidditchPlayers w) playerId
                  (List.length (objects w))). lia.
  - set (K := t_id <$> Server.teams w) in *.
    assert (HK : List.length K <> 0) by (destruct K; simpl; congruence).
    intros tid Htid. unfold enrolled.
    cbn [quidditchPlayers objects broadcastScoreboard announce sendPlayerMessage
         set_registry set_objects].
    set (w1 := Server.mkWorld (objects w ++ [new]) (quidditchPlayers w) (Server.teams w)
                 (Server.goals w) (Server.balls w) (arenaBounds w) (chat w)).
    assert (Hon : forall e, on_side _ tid e
                            = on_side w1 tid e) by reflexivity.
    rewrite (filter_ext _ _ (Hon)).
    pose proof (count_map_set (on_side w1 tid) (quidditchPlayers w) playerId
                  (List.length (objects w))) as Hset.
    assert (Hnew : on_side w1 tid (playerId, List.length (objects w))
                   = String.eqb (t_id tm) tid).
    { unfold on_side, w1. cbn [objects snd].
      rewrite lookup_app_r by lia. rewrite Nat.sub_diag. reflexivity. }
    assert (Hold : List.filter (on_side w1 tid) (quidditchPlayers w)
                   = List.filter (on_side w tid) (quidditchPlayers w)).
    { apply List.filter_ext_in. intros e He. apply list_elem_of_In in He.
      unfold on_side, w1. cbn [objects].
      rewrite lookup_app_l by (apply Hseat; exact He). reflexivity. }
    rewrite Hnew, Hold in Hset. fold (enrolled w tid) in Hset.
    destruct (String.eqb_spec (t_id tm) tid) as [Heq|Hneq].
    + assert (Hm : List.length K * enrolled w (t_id tm) <= n).
      { etransitivity; [|exact Hlen].
        etransitivity; [|apply (enrolled_sum w K Hnd)].
        apply (GameProps.min_times_length (enrolled w)).
        intros k Hk. apply list_elem_of_fmap in Hk as (t' & -> & Ht').
        apply list_elem_of_lookup in Ht' as (j & Hj).
        exact (Hmin j t' Hj). }
      rewrite GameProps.ceil_div_succ by exact HK.
      assert (enrolled w (t_id tm) <= n / List.length K).
      { apply Nat.div_le_lower_bound; [exact HK | exact Hm]. }
      rewrite <- Heq. rewrite <- Heq in Hset. lia.
    + pose proof (Hfair tid Htid) as Hold'.
      pose proof (GameProps.ceil_div_mono n (List.length K) HK). lia.
Qed.

Lemma balanced_served (es : list ServerEvent) (n : nat) (w w' : World) :
  balanced n w -> forallb stays es = true -> served es w = Some w' ->
  balanced (n + List.length (List.filter arrives es)) w'.
Proof.
  revert n w. induction es as [|e es IH]; intros n w HB Hst Hs; simpl in Hs.
  - injection Hs as <-. simpl. rewrite Nat.add_0_r. exact HB.
  - simpl in Hst. apply andb_true_iff in Hst as [He Hst].
    destruct (serve e w) as [w1|] eqn:E; [|discriminate].
    destruct e as [id mass|id|now id|nowMs snitchNow dt|r space ctrl|id];
      simpl in E; try discriminate He.
    + destruct (balanced_onJoinedWorld id mass n w HB) as (w2 & Hj & HB2).
      rewrite Hj in E. injection E as <-.
      cbn [List.filter arrives List.length].
      replace (n + S (List.length (List.filter arrives es)))
        with (S n + List.length (List.filter arrives es)) by lia.
      exact (IH (S n) w2 HB2 Hst Hs).
    + injection E as <-. apply (IH n _ (balanced_lineup n w _
                                   (lineup_handlePlayerInteract now id w) HB) Hst Hs).
    + injection E as <-. apply (IH n _ (balanced_lineup n w _
                                   (lineup_gameLoop nowMs snitchNow dt w) HB) Hst Hs).
    + injection E as <-. apply (IH n _ (balanced_lineup n w _
                                   (lineup_onTickWithPlayerInput r space ctrl w) HB) Hst Hs).
    + injection E as <-. apply (IH n _ (balanced_lineup n w _
                                   (lineup_rocket id w) HB) Hst Hs).
Qed.

End Houses.

Section Start.

Local Open Scope nat_scope.

Context {M : MathLib} {T : TextLib}.

Lemma balanced_startServer (arena : MapData) (t0 : float) :
  balanced 0 (startServer arena t0).
Proof.
  unfold balanced. cbv zeta.
  change (t_id <$> Server.teams (startServer arena t0))
    with ["gry"; "sly"; "rav"; "huf"]%string.
  change (quidditchPlayers (startServer arena t0)) with (@nil (string * nat)).
  split.
  { repeat (apply NoDup_cons; split;
            [rewrite ?not_elem_of_cons; repeat split;
             try discriminate; apply not_elem_of_nil|]).
    apply NoDup_nil_2. }
  split; [discriminate|]. split; [|split; [simpl; lia|]].
  - intros e He. change (quidditchPlayers (startServer arena t0)) with (@nil (string * nat)) in He.
    inversion He.
  - intros tid _. unfold enrolled.
    change (quidditchPlayers (startServer arena t0)) with (@nil (string * nat)).
    simpl. lia.
Qed.

(** The server puts every arrival into the first of the least populated
    houses; so, from the start of the server on and as long as nobody
    leaves, after [N] arrivals no house has more than [ceil (N / 4)]
    registered players, whatever else happens in between. *)
Theorem server_houses_balanced (arena : MapData) (t0 : float)
    (es : list ServerEvent) (w' : World) :
  forallb stays es = true ->
  served es (startServer arena t0) = Some w' ->
  (forall w, match autoAssignTeam w with
             | Some t => first_least w t
             | None => Server.teams w = []
             end)
  /\ List.length (Server.teams w') = 4
  /\ forall t, t ∈ Server.teams w' ->
       enrolled w' (t_id t) <= GameSpec.ceil_div (List.length (List.filter arrives es)) 4.
Proof.
  intros Hst Hs. split; [exact autoAssignTeam_first_least|].
  destruct (balanced_served es 0 _ w' (balanced_startServer arena t0) Hst Hs)
    as (_ & _ & _ & _ & Hfair).
  assert (Hids : t_id <$> Server.teams w' = ["gry"; "sly"; "rav"; "huf"]%string).
  { clear Hfair Hst. revert Hs.
    change ["gry"; "sly"; "rav"; "huf"]%string
      with (t_id <$> Server.teams (startServer arena t0)).
    generalize (startServer arena t0). induction es as [|e es IH]; intros w Hs; simpl in Hs.
    - injection Hs as <-. reflexivity.
    - destruct (serve e w) as [w1|] eqn:E; [|discriminate].
      rewrite (IH w1 Hs). clear IH Hs.
      destruct e as [id mass|id|now id|nowMs snitchNow dt|r space ctrl|id]; simpl in E.
      + unfold onJoinedWorld in E. destruct (autoAssignTeam w); [|discriminate].
        injection E as <-. reflexivity.
      + injection E as <-. unfold onLeftWorld.
        destruct (map_get _ _); [|reflexivity].
        destruct (objects w !! _) as [s|]; [|reflexivity].
        destruct (carryingBall s); reflexivity.
      + injection E as <-.
        exact (f_equal snd (lineup_handlePlayerInteract now id w)).
      + injection E as <-.
        exact (f_equal snd (lineup_gameLoop nowMs snitchNow dt w)).
      + injection E as <-.
        exact (f_equal snd (lineup_onTickWithPlayerInput r space ctrl w)).
      + injection E as <-.
        exact (f_equal snd (lineup_rocket id w)). }
  split.
  - rewrite <- (length_fmap t_id), Hids. reflexivity.
  - intros t Ht. simpl in Hfair.
    rewrite Nat.add_0_l in Hfair || idtac.
    specialize (Hfair (t_id t)). rewrite Hids in Hfair at 2. simpl in Hfair.
    apply Hfair. apply list_elem_of_fmap. exists t. auto.
Qed.

End Start.

(** *** The floor *)

Section Ground.

Context {M : MathLib}.

Lemma free_ball_floored (w : World) (now dt : float) (b : BallEntity) :
  owner b = None ->
  owner (ball_updatePhysics w now dt b) = None
  /\ (y (position (ball_updatePhysics w now dt b)) <? 51) = false.
Proof.
  intros Ho.
  assert (H0 : owner (updatePhysics w dt b) = None
               /\ (y (position (updatePhysics w dt b)) <? 51) = false).
  { unfold updatePhysics. rewrite Ho. cbv zeta.
    cbn [owner position setPosition set_velocity y]. split; [exact Ho|].
    match goal with
    | |- ((if ?c then _ else _) <? _) = _ => destruct c eqn:E
    end; [reflexivity|exact E]. }
  destruct H0 as [H1 H2].
  unfold ball_updatePhysics. destruct (kind b).
  - auto.
  - unfold updatePhysicsBludger. cbv zeta. rewrite H1.
    destruct (findNearestPlayer w _); auto.
  - unfold updatePhysicsSnitch. cbv zeta. rewrite H1. auto.
Qed.

Lemma loose_same (bi : nat) (w w' : World) :
  objects w' = objects w -> quidditchPlayers w' = quidditchPlayers w ->
  Server.balls w' = Server.balls w -> loose bi w -> loose bi w'.
Proof.
  unfold loose, unheld, afloat, registered. intros -> -> ->. auto.
Qed.

Lemma loose_with_state (bi r : nat) (f : QuidditchPlayerState -> QuidditchPlayerState)
    (w : World) :
  (forall s, carryingBall (f s) = carryingBall s \/ carryingBall (f s) = None) ->
  loose bi w -> loose bi (with_state r f w).
Proof.
  intros Hf [Hu Ha]. split; [|exact Ha].
  intros r' s' Hr' Hs'. unfold with_state, set_objects in Hs'. cbn [objects] in Hs'.
  change (registered (with_state r f w)) with (registered w) in Hr'.
  destruct (decide (r = r')) as [->|Hne].
  - rewrite list_lookup_alter_eq in Hs'.
    destruct (objects w !! r') as [s0|] eqn:E; [|discriminate].
    injection Hs' as <-. destruct (Hf s0) as [->| ->]; [|discriminate].
    exact (Hu r' s0 Hr' E).
  - rewrite list_lookup_alter_ne in Hs' by exact Hne. exact (Hu r' s' Hr' Hs').
Qed.

Lemma loose_with_ball (bi i : nat) (g : BallEntity -> BallEntity) (w : World) :
  (i = bi -> forall c, owner c = None ->
             owner (g c) = None /\ position (g c) = position c) ->
  loose bi w -> loose bi (with_ball i g w).
Proof.
  intros Hg [Hu (b & Hb & Ho & Hy)]. split; [exact Hu|].
  unfold afloat, with_ball, set_balls. cbn [Server.balls].
  destruct (decide (i = bi)) as [E|Hne].
  - subst i. rewrite list_lookup_alter_eq, Hb. exists (g b). split; [reflexivity|].
    destruct (Hg eq_refl b Ho) as [H1 H2]. rewrite H1, H2. auto.
  - rewrite list_lookup_alter_ne by exact Hne. exists b. auto.
Qed.

Lemma loose_scoreAtGoal (bi r : nat) (pos : Vec3) (goal : GoalZone) (w : World) :
  r ∈ registered w -> loose bi w -> loose bi (scoreAtGoal r pos goal w).
Proof.
  intros Hr HL. unfold scoreAtGoal.
  destruct (objects w !! r) as [s|] eqn:Hs; [|exact HL].
  destruct (_ <? _); [|exact HL].
  destruct (findTeam w (teamId s)) as [ti|]; [|exact HL].
  cbv zeta.
  destruct (carryingBall s) as [ci|] eqn:Hc.
  - eapply loose_same;
      [| | |apply (loose_with_state bi r (s_set_carryingBall None));
            [|apply (loose_with_ball bi ci); [|exact HL]]];
      [reflexivity|reflexivity|reflexivity|intros s0; right; reflexivity|].
    intros -> c _. exfalso. destruct HL as [Hu _].
    apply (Hu r s Hr Hs). exact Hc.
  - eapply loose_same; [| | |exact HL]; reflexivity.
Qed.

Lemma registered_scoreAtGoal (r : nat) (pos : Vec3) (goal : GoalZone) (w : World) :
  registered (scoreAtGoal r pos goal w) = registered w.
Proof.
  unfold scoreAtGoal.
  destruct (objects w !! r) as [s|]; [|reflexivity].
  destruct (_ <? _); [|reflexivity].
  destruct (findTeam w (teamId s)) as [ti|]; [|reflexivity].
  destruct (carryingBall s); reflexivity.
Qed.

Lemma loose_checkGoalScoring (bi : nat) (nowMs : float) (w : World) :
  loose bi w -> loose bi (checkGoalScoring nowMs w).
Proof.
  intros HL. unfold checkGoalScoring.
  apply (for_index_ind (loose bi)); [exact HL|].
  intros i s _ Hs.
  destruct (state_at s i) as [[r st]|] eqn:Hst; [|exact Hs].
  destruct (carryingBall st); [|exact Hs].
  destruct (kind_eqb _ quaffle); [|exact Hs].
  apply state_at_registered in Hst as [Hr _].
  apply (fold_left_ind (fun s' => loose bi s' /\ registered s' = registered s)); [auto|].
  intros g s' [Hs' Hreg']. split.
  - apply loose_scoreAtGoal; [rewrite Hreg'; exact Hr|exact Hs'].
  - rewrite registered_scoreAtGoal. exact Hreg'.
Qed.

Lemma loose_bludgerHit (bi : nat) (nowMs : float) (bj i : nat) (w : World) :
  loose bi w -> loose bi (bludgerHit nowMs bj i w).
Proof.
  intros HL. unfold bludgerHit.
  destruct (Server.balls w !! bj) as [ball|]; [|exact HL].
  destruct (state_at w i) as [[r s]|]; [|exact HL].
  destruct (_ <? _); [exact HL|].
  destruct (_ <? _); [|exact HL].
  cbv zeta.
  match goal with
  | |- loose _ (announce _ match _ with Some _ => _ | None => ?w1 end) =>
      assert (H1 : loose bi w1)
        by (apply loose_with_state; [intros s0; left; reflexivity|];
            apply loose_with_state; [intros s0; left; reflexivity|exact HL])
  end.
  destruct (carryingBall s) as [ci|].
  - eapply loose_same;
      [| | |apply (loose_with_state bi r (s_set_carryingBall None));
            [|apply (loose_with_ball bi ci); [|exact H1]]];
      [reflexivity|reflexivity|reflexivity|intros s0; right; reflexivity|].
    intros _ c _. split; reflexivity.
  - eapply loose_same; [| | |exact H1]; reflexivity.
Qed.

Lemma loose_checkBludgerHits (bi : nat) (nowMs : float) (w : World) :
  loose bi w -> loose bi (checkBludgerHits nowMs w).
Proof.
  intros HL. unfold checkBludgerHits.
  apply (for_index_ind (loose bi)); [exact HL|].
  intros bj s _ Hs. destruct (Server.balls s !! bj); [|exact Hs].
  destruct (_ || _); [exact Hs|].
  apply (for_index_ind (loose bi)); [exact Hs|].
  intros i s1 _. apply loose_bludgerHit.
Qed.

Lemma loose_captureBy (bi si i : nat) (w : World) :
  loose bi w -> loose bi (captureBy si i w).1.
Proof.
  intros HL. unfold captureBy.
  destruct (Server.balls w !! si) as [sn|]; [|exact HL].
  destruct (state_at w i) as [[r s]|]; [|exact HL].
  destruct (_ <? _); [|exact HL].
  destruct (findTeam w (teamId s)) as [ti|]; [|exact HL].
  cbv zeta. cbn [fst].
  eapply loose_same; [| | |apply (loose_with_ball bi si despawn); [|exact HL]];
    [reflexivity|reflexivity|reflexivity|].
  intros _ c Hc. split; [exact Hc|reflexivity].
Qed.

Lemma loose_checkSnitchCapture (bi : nat) (nowMs : float) (w : World) :
  loose bi w -> loose bi (checkSnitchCapture nowMs w).
Proof.
  intros HL. unfold checkSnitchCapture.
  destruct (find_index _ _) as [si|]; [|exact HL].
  destruct (owner <$> _ !! si) as [[o|]|]; try exact HL.
  apply (for_break_ind (loose bi)); [exact HL|].
  intros i s0. apply loose_captureBy.
Qed.

(** A ball that has no owner and that no registered player refers to when
    the game loop starts is, when the loop ends, still without owner and
    not below the floor at 51, wherever it was and however fast it fell. *)
Theorem free_ball_kept_above_floor (nowMs snitchNow dt : float) (w : World)
    (bi : nat) (b : BallEntity) :
  Server.balls w !! bi = Some b -> owner b = None -> unheld bi w ->
  exists b', Server.balls (gameLoop nowMs snitchNow dt w) !! bi = Some b'
             /\ owner b' = None /\ (y (position b') <? 51) = false.
Proof.
  intros Hb Ho Hu.
  assert (HL : loose bi (gameLoop nowMs snitchNow dt w)).
  { unfold gameLoop. cbv zeta.
    apply loose_checkSnitchCapture, loose_checkBludgerHits, loose_checkGoalScoring.
    assert (Hfin : (fun m w0 => unheld bi w0
                      /\ (bi < m -> afloat bi w0)
                      /\ (m <= bi -> Server.balls w0 !! bi = Some b))
                   (List.length (Server.balls w))
                   (for_index (List.length (Server.balls w))
                      (fun i w0 => with_ball i (ball_updatePhysics w0 snitchNow dt) w0) w)).
    { apply for_index_count.
      - split; [exact Hu|]. split; [lia|]. intros _. exact Hb.
      - intros i w0 Hi (Hu0 & Hlt & Hge). split; [exact Hu0|].
        unfold afloat, with_ball, set_balls. cbn [Server.balls].
        destruct (decide (i = bi)) as [->|Hne].
        + split; [|lia]. intros _. rewrite list_lookup_alter_eq, (Hge (le_n _)).
          eexists. split; [reflexivity|]. apply free_ball_floored. exact Ho.
        + rewrite list_lookup_alter_ne by exact Hne.
          split; intros H; [apply Hlt|apply Hge]; lia. }
    cbv beta in Hfin. destruct Hfin as (Hu1 & Hlt & _). split; [exact Hu1|].
    apply Hlt. eapply lookup_lt_Some; eauto. }
  exact (proj2 HL).
Qed.

End Ground.

(** *** The goals of the arena *)

Section Hoops.

Context {M : MathLib} {T : TextLib}.

Lemma extractGoals_centres (arena : MapData) :
  g_center <$> Server.extractGoals arena
  = dedupeClosePositions
      (List.map (fun e => parseBlockKey (fst e))
         (List.filter (fun e : string * float => snd e =? Server.GOAL_BLOCK_ID)
            (blocks arena))) 5.
Proof.
  unfold Server.extractGoals. cbv zeta.
  rewrite <- list_fmap_compose.
  change (g_center ∘ (fun center => mkGoal center 3.5 None)) with (@id Vec3).
  rewrite list_fmap_id.
  change parseBlockKey with parseKey.
  rewrite (GameProps.extract_out (blocks arena) Server.GOAL_BLOCK_ID []).
  reflexivity.
Qed.

(** The goals of the server: every one has radius 3.5 and, as centre, the
    position parsed from the key of a block with the goal id; no centre is
    within 5 of an earlier one; every goal block is a centre or within 5 of
    one; and there is no goal exactly when there is no such block. *)
Theorem server_goals_from_goal_blocks (arena : MapData) :
  let goals := Server.extractGoals arena in
  (forall g, g ∈ goals ->
     g_radius g = 3.5
     /\ exists e, e ∈ blocks arena /\ (snd e =? Server.GOAL_BLOCK_ID) = true
                  /\ g_center g = parseBlockKey (fst e))
  /\ (forall i j a b, (i < j)%nat -> goals !! i = Some a -> goals !! j = Some b ->
        (distance (g_center a) (g_center b) <? 5) = false)
  /\ (forall e, e ∈ blocks arena -> (snd e =? Server.GOAL_BLOCK_ID) = true ->
        exists g, g ∈ goals
                  /\ (g_center g = parseBlockKey (fst e)
                      \/ (distance (g_center g) (parseBlockKey (fst e)) <? 5) = true))
  /\ (goals = [] <->
      forall e, e ∈ blocks arena -> (snd e =? Server.GOAL_BLOCK_ID) = false).
Proof.
  cbv zeta. pose proof (extractGoals_centres arena) as Hc.
  set (out := List.map _ _) in Hc.
  destruct (GameProps.dedupe_kept out 5) as (Hsub & _ & Hsep & Hcov).
  cbv zeta in Hsub, Hsep, Hcov. rewrite <- Hc in Hsub, Hsep, Hcov.
  assert (Hout : forall c, c ∈ out <->
            exists e, e ∈ blocks arena /\ (snd e =? Server.GOAL_BLOCK_ID) = true
                      /\ c = parseBlockKey (fst e)).
  { intros c. unfold out. rewrite list_elem_of_In, in_map_iff. split.
    - intros (e & <- & He). apply filter_In in He as [He Hid].
      exists e. split; [apply list_elem_of_In; exact He|auto].
    - intros (e & He & Hid & ->). exists e. split; [reflexivity|].
      apply filter_In. split; [apply list_elem_of_In; exact He|exact Hid]. }
  assert (Hrad : forall g, g ∈ Server.extractGoals arena -> g_radius g = 3.5).
  { intros g Hg. unfold Server.extractGoals in Hg. cbv zeta in Hg.
    apply list_elem_of_In, in_map_iff in Hg as (c & <- & _). reflexivity. }
  split; [|split; [|split]].
  - intros g Hg. split; [exact (Hrad g Hg)|].
    apply Hout. eapply elem_of_sublist; [|exact Hsub].
    apply list_elem_of_fmap. exists g. auto.
  - intros i j a b Hij Ha Hb.
    apply (Hsep i j (g_center a) (g_center b) Hij);
      rewrite list_lookup_fmap; [rewrite Ha|rewrite Hb]; reflexivity.
  - intros e He Hid.
    assert (Hin : parseBlockKey (fst e) ∈ out) by (apply Hout; eauto).
    destruct (Hcov _ Hin) as [Hk|(k & Hk & Hnear)].
    + apply list_elem_of_fmap in Hk as (g & Hg1 & Hg2). exists g. auto.
    + apply list_elem_of_fmap in Hk as (g & -> & Hg2). exists g. auto.
  - split.
    + intros Hnil e He. destruct (snd e =? Server.GOAL_BLOCK_ID) eqn:Hid; [|reflexivity].
      assert (Hin : parseBlockKey (fst e) ∈ out) by (apply Hout; eauto).
      rewrite Hnil in Hcov. destruct (Hcov _ Hin) as [Hk|(k & Hk & _)]; inversion Hk.
    + intros Hno. destruct (Server.extractGoals arena) as [|g gs] eqn:Eg; [reflexivity|].
      exfalso.
      assert (Hg : g_center g ∈ out).
      { eapply elem_of_sublist; [|exact Hsub]. simpl. left. }
      apply Hout in Hg as (e & He & Hid & _).
      rewrite (Hno e He) in Hid. discriminate.
Qed.

End Hoops.

(** The server agrees with the scaffold engine on pickup and on goal
    scoring: [/pickup] takes the first free ball within range, here the
    quaffle although the snitch is nearer, and a carrier inside two hoops
    is credited twice by one pass of [checkGoalScoring]. *)
Lemma server_pickup_and_scoring :
  let w1 := handlePlayerInteract (M := refMath) 1000 "1" ServerSpec.crowded in
  let w2 := checkGoalScoring (M := refMath) 1016 w1 in
  map carryingBall (objects w1) = [Some 0%nat]
  /\ map (fun b => (kind b, owner b)) (Server.balls w1)
     = [(quaffle, Some 0%nat); (snitch, None)]
  /\ map t_score (Server.teams w1) = [0; 0; 0; 0]
  /\ map t_score (Server.teams w2) = [20; 0; 0; 0]
  /\ map (fun b => (position b, velocity b, owner b)) (Server.balls w2)
     = [(mkVec3 0 78 160, zero3, None); (mkVec3 (-40.5) 70 160, zero3, None)]
  /\ map carryingBall (objects w2) = [None].
Proof. vm_compute. repeat split; reflexivity. Qed.

Lemma stunned_player_not_hit_witness :
  match objects ServerSpec.struck !! 0%nat, Server.balls ServerSpec.struck !! 0%nat with
  | Some s0, Some b =>
      (kind b, owner b) = (bludger, None)
      /\ (distance (M := refMath) (position b) (e_position (entity s0)) <? 2.0) = true
      /\ stunnedUntil s0 = 1800
      /\ (1016 <? stunnedUntil s0) = true
      /\ objects (checkBludgerHits (M := refMath) 1016 ServerSpec.struck) !! 0%nat
         = Some s0
      /\ stunnedUntil
           <$> objects (checkBludgerHits (M := refMath) 2000 ServerSpec.struck) !! 0%nat
         = Some 2800
  | _, _ => False
  end.
Proof.
  destruct (objects ServerSpec.struck !! 0%nat) as [s0|] eqn:E;
    [|vm_compute in E; discriminate].
  destruct (Server.balls ServerSpec.struck !! 0%nat) as [b|] eqn:Eb;
    [|vm_compute in Eb; discriminate].
  assert (Hs : (1016 <? stunnedUntil s0) = true).
  { vm_compute in E. injection E as <-. vm_compute. reflexivity. }
  split; [vm_compute in Eb; injection Eb as <-; reflexivity|].
  split; [vm_compute in E, Eb; injection E as <-; injection Eb as <-;
          vm_compute; reflexivity|].
  split; [vm_compute in E; injection E as <-; reflexivity|].
  split; [exact Hs|].
  split; [|vm_compute; reflexivity].
  exact (stunned_player_not_hit (M := refMath) 1016 ServerSpec.struck 0 s0 E Hs).
Defined.

Lemma server_ownership_kept_witness :
  fair ServerSpec.yard
  /\ admitted (M := refMath) ServerSpec.evening ServerSpec.yard
  /\ served (M := refMath) ServerSpec.evening ServerSpec.yard = Some ServerSpec.closing
  /\ (holding (upto arrival), owners (upto arrival), registered (upto arrival))
     = ([Some 0%nat], [Some 0%nat; None], [0%nat])
  /\ (owners (upto (arrival ++ departure)), registered (upto (arrival ++ departure)))
     = ([None; None], [])
  /\ (holding ServerSpec.closing, owners ServerSpec.closing, registered ServerSpec.closing)
     = ([Some 0%nat; Some 0%nat; None], [Some 1%nat; None], [1%nat; 2%nat])
  /\ fair (startServer (M := refMath) (T := refText) GameSpec.lawn 0)
  /\ fair ServerSpec.closing /\ symmetric ServerSpec.closing.
Proof.
  assert (H0 : fair ServerSpec.yard).
  { split; [apply NoDup_nil_2|]. split; [intros r Hr; inversion Hr|]. split.
    - intros bi r H. cbn in H.
      do 2 (destruct bi as [|bi]; [discriminate|]). discriminate.
    - intros r bi Hr. inversion Hr. }
  assert (Ha : admitted (M := refMath) ServerSpec.evening ServerSpec.yard).
  { vm_compute. repeat split; reflexivity. }
  assert (Hs : served (M := refMath) ServerSpec.evening ServerSpec.yard
               = Some ServerSpec.closing) by (vm_compute; reflexivity).
  split; [exact H0|]. split; [exact Ha|]. split; [exact Hs|].
  split; [vm_compute; reflexivity|]. split; [vm_compute; reflexivity|].
  split; [vm_compute; reflexivity|].
  exact (server_ownership_kept (M := refMath) (T := refText) GameSpec.lawn 0
           ServerSpec.yard ServerSpec.evening ServerSpec.closing H0 Ha Hs).
Defined.

Lemma carried_ball_follows_owner_witness :
  match Server.balls ServerSpec.strolling !! 0%nat, objects ServerSpec.strolling !! 0%nat with
  | Some b, Some s =>
      owner b = Some 0%nat
      /\ carried_or_released 0 0 b (e_position (entity s))
           (gameLoop (M := refMath) 1016 1016 (1 / 60) ServerSpec.strolling)
  | _, _ => False
  end.
Proof.
  destruct (Server.balls ServerSpec.strolling !! 0%nat) as [b|] eqn:Eb;
    [|vm_compute in Eb; discriminate].
  destruct (objects ServerSpec.strolling !! 0%nat) as [s|] eqn:Es;
    [|vm_compute in Es; discriminate].
  assert (Ho : owner b = Some 0%nat).
  { vm_compute in Eb. injection Eb as <-. reflexivity. }
  split; [exact Ho|].
  exact (carried_ball_follows_owner (M := refMath) 1016 1016 (1 / 60)
           ServerSpec.strolling 0 0 b s Eb Ho Es).
Defined.

Lemma server_houses_balanced_witness :
  forallb stays gathering = true
  /\ served (M := refMath) gathering opened = Some gathered
  /\ forall t, t ∈ Server.teams gathered ->
       (enrolled gathered (t_id t) <= GameSpec.ceil_div 5 4)%nat.
Proof.
  assert (Hst : forallb stays gathering = true) by reflexivity.
  assert (Hs : served (M := refMath) gathering opened = Some gathered)
    by (vm_compute; reflexivity).
  split; [exact Hst|]. split; [exact Hs|].
  exact (proj2 (proj2 (server_houses_balanced (M := refMath) (T := refText)
                         GameSpec.lawn 0%float gathering gathered Hst Hs))).
Defined.

Lemma free_ball_kept_above_floor_witness :
  match Server.balls ServerSpec.sunken !! 0%nat with
  | Some b =>
      (y (position b) <? 51)%float = true
      /\ owner b = None
      /\ unheld 0 ServerSpec.sunken
      /\ exists b',
           Server.balls (gameLoop (M := refMath) 1016 1016 (1 / 60) ServerSpec.sunken)
             !! 0%nat = Some b'
           /\ owner b' = None /\ (y (position b') <? 51)%float = false
  | None => False
  end.
Proof.
  destruct (Server.balls ServerSpec.sunken !! 0%nat) as [b|] eqn:Eb;
    [|vm_compute in Eb; discriminate].
  assert (Hy : (y (position b) <? 51)%float = true).
  { vm_compute in Eb. injection Eb as <-. vm_compute. reflexivity. }
  assert (Ho : owner b = None).
  { vm_compute in Eb. injection Eb as <-. reflexivity. }
  assert (Hu : unheld 0 ServerSpec.sunken).
  { intros r s Hr Hs. vm_compute in Hr.
    apply list_elem_of_singleton in Hr. subst r.
    vm_compute in Hs. injection Hs as <-. discriminate. }
  split; [exact Hy|]. split; [exact Ho|]. split; [exact Hu|].
  exact (free_ball_kept_above_floor (M := refMath) 1016 1016 (1 / 60)
           ServerSpec.sunken 0 b Eb Ho Hu).
Defined.

End ServerProps.
